(** * rvmat: parser, canonical writer and validator of RVMAT material files

    A shallow embedding of the Go package [rvmat] and the properties of its
    lexer, recursive-descent parser, writer, texture-reference parser and
    validator.

    Modelling conventions.
    - A Go [string] is modelled by the sequence of its code points
      ([str := list rune]).  The lexer only ever builds strings with
      [strings.Builder.WriteRune], and every pattern the package searches
      for is ASCII, so byte offsets and rune offsets select the same cuts.
    - Input and output are byte sequences; [utf8_decode] follows
      [bufio.Reader.ReadRune] and [utf8_encode] follows [utf8.AppendRune].
    - The Go standard library is outside the repository.  Its ASCII
      behaviour is written out; what it does beyond ASCII (the Unicode
      tables) and its floating-point conversions ([strconv.ParseFloat],
      [strconv.AppendFloat]) are the fields of the classes [Unicode] and
      [Strconv], so every result holds for all their implementations.
      Of the Unicode tables two facts are used: white space, letters
      and digits are disjoint classes, and the lower case of a code point
      beyond ASCII is not the double quote.
    - Loops are fixpoints over a fuel that is computed from the length of
      the remaining input. *)

From Stdlib Require Import String Ascii ZArith List Lia Bool.
From Stdlib.Strings Require Import Byte.
From Stdlib Require Import FunctionalExtensionality.
Import ListNotations.

Set Warnings "-register-all".
Local Open Scope Z_scope.

(* ================================================================== *)
(** ** Runes and strings *)

Abbreviation rune := Z.
Abbreviation str := (list Z).

(** An ASCII literal of the source as a [str]. *)
Definition lit (s : string) : str :=
  List.map (fun a => Z.of_N (N_of_ascii a)) (list_ascii_of_string s).

Definition bytes_of (s : string) : list byte := list_byte_of_string s.

(** The source text of an example; an apostrophe stands for the double
    quote. *)
Definition src (s : string) : list byte :=
  List.map (fun b => if Byte.eqb b x27 then x22 else b) (bytes_of s).

Fixpoint str_eqb (a b : str) : bool :=
  match a, b with
  | [], [] => true
  | x :: a', y :: b' => (x =? y) && str_eqb a' b'
  | _, _ => false
  end.

Definition isEmpty (s : str) : bool :=
  match s with [] => true | _ => false end.

(** [strings.HasPrefix] *)
Fixpoint HasPrefix (s prefix : str) : bool :=
  match prefix, s with
  | [], _ => true
  | p :: prefix', c :: s' => (c =? p) && HasPrefix s' prefix'
  | _ :: _, [] => false
  end.

(** [strings.HasSuffix] and [strings.TrimSuffix] *)
Definition HasSuffix (s suffix : str) : bool := HasPrefix (rev s) (rev suffix).

Definition TrimSuffix (s suffix : str) : str :=
  if HasSuffix s suffix then firstn (length s - length suffix) s else s.

(** [strings.Index] for a one-character pattern: the offset of the first
    occurrence. *)
Fixpoint IndexRune (s : str) (c : rune) : option nat :=
  match s with
  | [] => None
  | x :: s' => if x =? c then Some O
               else match IndexRune s' c with
                    | Some i => Some (S i)
                    | None => None
                    end
  end.

(** [strings.LastIndex] for a one-character pattern. *)
Fixpoint LastIndexRune (s : str) (c : rune) : option nat :=
  match s with
  | [] => None
  | x :: s' => match LastIndexRune s' c with
               | Some i => Some (S i)
               | None => if x =? c then Some O else None
               end
  end.

(** [strings.Contains] *)
Fixpoint Contains (s sub : str) : bool :=
  HasPrefix s sub ||
  match s with
  | [] => false
  | _ :: s' => Contains s' sub
  end.

(** [strings.Split(s, ",")] for a one-character separator: always at least
    one field. *)
Fixpoint SplitRune (s : str) (sep : rune) : list str :=
  match s with
  | [] => [[]]
  | c :: s' =>
      if c =? sep then [] :: SplitRune s' sep
      else match SplitRune s' sep with
           | f :: fs => (c :: f) :: fs
           | [] => [[c]]
           end
  end.

(** [strings.Repeat] *)
Fixpoint Repeat (s : str) (n : nat) : str :=
  match n with
  | O => []
  | S n' => s ++ Repeat s n'
  end.

Fixpoint dropWhile (f : rune -> bool) (s : str) : str :=
  match s with
  | [] => []
  | c :: s' => if f c then dropWhile f s' else s
  end.

(** [asciiLower] of the parser. *)
Definition asciiLower (b : rune) : rune :=
  if (65 <=? b) && (b <=? 90) then b + 32 else b.

(* ================================================================== *)
(** ** The Go runtime the package calls *)

(** The Unicode tables beyond ASCII. *)
Class Unicode := {
  (** [unicode.IsLetter], [unicode.IsDigit], [unicode.IsSpace] on a code
      point of 128 or more *)
  LetterHigh : rune -> bool;
  DigitHigh : rune -> bool;
  SpaceHigh : rune -> bool;
  (** the loop of [strings.EqualFold] over [unicode.SimpleFold]: whether
      the fold orbit of the smaller code point reaches the larger one *)
  FoldHigh : rune -> rune -> bool;
  (** [unicode.ToLower] on a code point of 128 or more *)
  LowerHigh : rune -> rune;
  (** white space, letters and digits are disjoint classes *)
  SpaceNotLetter : forall r, SpaceHigh r = true -> LetterHigh r = false;
  SpaceNotDigit : forall r, SpaceHigh r = true -> DigitHigh r = false;
  LetterNotDigit : forall r, LetterHigh r = true -> DigitHigh r = false;
  (** no code point of 128 or more has the double quote as its lower
      case *)
  LowerNotQuote : forall r, 128 <= r -> LowerHigh r <> 34
}.

(** [strconv]'s conversions of 64-bit floats. *)
Class Strconv := {
  float64 : Type;
  (** [strconv.ParseFloat(s, 64)]: [Some f] when [err == nil] *)
  ParseFloat : str -> option float64;
  (** [strconv.AppendFloat(_, v, 'g', -1, 64)] *)
  FormatFloat : float64 -> str;
  (** the constant [0] *)
  fzero : float64
}.

Section Runtime.
Context {U : Unicode}.

Definition IsLetter (r : rune) : bool :=
  if r <? 128 then ((65 <=? r) && (r <=? 90)) || ((97 <=? r) && (r <=? 122))
  else LetterHigh r.

Definition IsDigit (r : rune) : bool :=
  if r <? 128 then (48 <=? r) && (r <=? 57) else DigitHigh r.

Definition IsSpace (r : rune) : bool :=
  if r <? 128 then ((9 <=? r) && (r <=? 13)) || (r =? 32) else SpaceHigh r.

Definition ToLowerRune (r : rune) : rune :=
  if r <? 128 then asciiLower r else LowerHigh r.

(** [strings.ToLower] *)
Definition ToLower (s : str) : str := List.map ToLowerRune s.

(** [strings.TrimSpace] *)
Definition TrimSpace (s : str) : str :=
  rev (dropWhile IsSpace (rev (dropWhile IsSpace s))).

(** One step of [strings.EqualFold]: two code points are equal under
    simple case folding. *)
Definition foldEq (a b : rune) : bool :=
  if a =? b then true
  else
    let lo := Z.min a b in
    let hi := Z.max a b in
    if hi <? 128 then (65 <=? lo) && (lo <=? 90) && (hi =? lo + 32)
    else FoldHigh lo hi.

(** [strings.EqualFold] *)
Fixpoint EqualFold (s t : str) : bool :=
  match s, t with
  | [], [] => true
  | a :: s', b :: t' => foldEq a b && EqualFold s' t'
  | _, _ => false
  end.

End Runtime.

(** [strconv.Atoi]: an optional sign and decimal digits, within the range
    of a 64-bit [int]. *)
Fixpoint digitsValue (s : str) (acc : Z) : option Z :=
  match s with
  | [] => Some acc
  | c :: s' => if (48 <=? c) && (c <=? 57) then digitsValue s' (acc * 10 + (c - 48))
               else None
  end.

Definition Atoi (s : str) : option Z :=
  let body (neg : bool) (digits : str) :=
    match digits with
    | [] => None
    | _ => match digitsValue digits 0 with
           | Some n =>
               let v := if neg then - n else n in
               if (- 2 ^ 63 <=? v) && (v <=? 2 ^ 63 - 1) then Some v else None
           | None => None
           end
    end in
  match s with
  | [] => None
  | c :: s' => if c =? 45 then body true s'
               else if c =? 43 then body false s'
               else body false s
  end.

(* ================================================================== *)
(** ** UTF-8 *)

Definition RuneError : rune := 65533.

Definition bz (b : byte) : Z := Z.of_N (Byte.to_N b).

Definition isCont (lo hi : Z) (b : byte) : bool := (lo <=? bz b) && (bz b <=? hi).

(** The runes [bufio.Reader.ReadRune] returns one after the other; an
    invalid or truncated sequence gives [RuneError] and consumes one
    byte. *)
Fixpoint utf8_decode (bs : list byte) : list rune :=
  match bs with
  | [] => []
  | b0 :: t0 =>
      let x0 := bz b0 in
      if x0 <? 128 then x0 :: utf8_decode t0
      else
        let bad := RuneError :: utf8_decode t0 in
        match t0 with
        | [] => bad
        | b1 :: t1 =>
            let x1 := bz b1 in
            if (194 <=? x0) && (x0 <=? 223) then
              if isCont 128 191 b1
              then ((x0 - 192) * 64 + (x1 - 128)) :: utf8_decode t1
              else bad
            else if (224 <=? x0) && (x0 <=? 239) then
              let lo := if x0 =? 224 then 160 else 128 in
              let hi := if x0 =? 237 then 159 else 191 in
              match t1 with
              | [] => bad
              | b2 :: t2 =>
                  if isCont lo hi b1 && isCont 128 191 b2
                  then ((x0 - 224) * 4096 + (x1 - 128) * 64 + (bz b2 - 128))
                         :: utf8_decode t2
                  else bad
              end
            else if (240 <=? x0) && (x0 <=? 244) then
              let lo := if x0 =? 240 then 144 else 128 in
              let hi := if x0 =? 244 then 143 else 191 in
              match t1 with
              | [] => bad
              | b2 :: t2 =>
                  match t2 with
                  | [] => bad
                  | b3 :: t3 =>
                      if isCont lo hi b1 && isCont 128 191 b2 && isCont 128 191 b3
                      then ((x0 - 240) * 262144 + (x1 - 128) * 4096
                            + (bz b2 - 128) * 64 + (bz b3 - 128))
                             :: utf8_decode t3
                      else bad
                  end
              end
            else bad
        end
  end.

Definition zb (z : Z) : byte :=
  match Byte.of_N (Z.to_N z) with
  | Some b => b
  | None => x00
  end.

(** [utf8.AppendRune] *)
Definition encodeRune (r : rune) : list byte :=
  if (0 <=? r) && (r <=? 127) then [zb r]
  else if (128 <=? r) && (r <=? 2047) then [zb (192 + r / 64); zb (128 + r mod 64)]
  else if (r <? 0) || (1114111 <? r) || ((55296 <=? r) && (r <=? 57343)) then
    [zb 239; zb 191; zb 189]
  else if r <=? 65535 then
    [zb (224 + r / 4096); zb (128 + (r / 64) mod 64); zb (128 + r mod 64)]
  else
    [zb (240 + r / 262144); zb (128 + (r / 4096) mod 64);
     zb (128 + (r / 64) mod 64); zb (128 + r mod 64)].

Definition utf8_encode (s : str) : list byte := flat_map encodeRune s.

(* ================================================================== *)
(** ** Options, errors and tokens *)

(** [ParseOptions]; the zero value is the default. *)
Record ParseOptions := {
  DisableCaseInsensitive : bool;
  DisableComments : bool;
  DisableRelaxedNumbers : bool
}.

Definition defaultParseOptions : ParseOptions :=
  {| DisableCaseInsensitive := false;
     DisableComments := false;
     DisableRelaxedNumbers := false |}.

(** The three sentinel errors of the package, with the position and the
    message [errorf] wraps them in.  [ErrFuel] is not an error of the
    package: it marks a loop of the model that ran out of fuel. *)
Inductive error :=
| ErrBinaryRVMAT
| ErrLex (line col : Z) (msg : str)
| ErrParse (line col : Z) (msg : str)
| ErrFuel.

Inductive tokenType :=
| tokEOF | tokIdent | tokNumber | tokString
| tokLBrace | tokRBrace | tokLBracket | tokRBracket
| tokEqual | tokSemicolon | tokColon | tokComma | tokClass.

Definition tokenType_eqb (a b : tokenType) : bool :=
  match a, b with
  | tokEOF, tokEOF | tokIdent, tokIdent | tokNumber, tokNumber
  | tokString, tokString | tokLBrace, tokLBrace | tokRBrace, tokRBrace
  | tokLBracket, tokLBracket | tokRBracket, tokRBracket
  | tokEqual, tokEqual | tokSemicolon, tokSemicolon | tokColon, tokColon
  | tokComma, tokComma | tokClass, tokClass => true
  | _, _ => false
  end.

Record token := mkToken {
  Lit : str;
  Type_ : tokenType;
  Line : Z;
  Col : Z
}.

(** [token{}] *)
Definition token0 : token := mkToken [] tokEOF 0 0.

(** [tokenName] *)
Definition tokenName (tt : tokenType) : str :=
  match tt with
  | tokEOF => lit "EOF"
  | tokIdent => lit "identifier"
  | tokNumber => lit "number"
  | tokString => lit "string"
  | tokLBrace => lit "{"
  | tokRBrace => lit "}"
  | tokLBracket => lit "["
  | tokRBracket => lit "]"
  | tokEqual => lit "="
  | tokSemicolon => lit ";"
  | tokColon => lit ":"
  | tokComma => lit ","
  | tokClass => lit "class"
  end.

(* ================================================================== *)
(** ** Lexer *)

(** The lexer: the unread input [lr], the current character [lch], the
    end-of-file flag and the position. *)
Record lexer := mkLexer {
  lr : list rune;
  lch : rune;
  leof : bool;
  lline : Z;
  lcol : Z
}.

(** [lexer.read] *)
Definition lread (l : lexer) : lexer :=
  match lr l with
  | [] => mkLexer [] 0 true (lline l) (lcol l)
  | c :: rest =>
      if c =? 10 then mkLexer rest c (leof l) (lline l + 1) 0
      else mkLexer rest c (leof l) (lline l) (lcol l + 1)
  end.

(** [lexer.peek] *)
Definition lpeek (l : lexer) : rune :=
  match lr l with
  | [] => 0
  | c :: _ => c
  end.

(** [lexer.errorf] *)
Definition lerrorf (l : lexer) (msg : str) : error :=
  ErrLex (lline l) (lcol l) msg.

(** The fuel of a loop that reads at least one character per turn. *)
Definition lfuel (l : lexer) : nat := S (S (length (lr l))).

Section Lexer.
Context {U : Unicode} {F : Strconv}.
Variable opt : ParseOptions.

(** [newLexer] *)
Definition newLexer (input : list rune) : lexer :=
  let l := lread (mkLexer input 0 false 1 0) in
  if lch l =? 65279 then lread l else l.

Definition isIdentStart (r : rune) : bool :=
  IsLetter r || (r =? 95) || (r =? 36).

Definition isIdentPart (r : rune) : bool :=
  IsLetter r || IsDigit r || (r =? 95) || (r =? 36).

Definition isNumberStart (r : rune) : bool :=
  IsDigit r || (r =? 45).

Definition isWordPart (r : rune) : bool :=
  isIdentPart r || (r =? 46) || (r =? 43) || (r =? 45).

Definition isNumberChar (r : rune) : bool :=
  IsDigit r || (r =? 46) || (r =? 43) || (r =? 45) || (r =? 101) || (r =? 69).

(** [isValidNumber] *)
Definition isValidNumber (s : str) : bool :=
  match s with
  | [] => false
  | _ => forallb isNumberChar s &&
         match ParseFloat s with Some _ => true | None => false end
  end.

(** The inner loop of [skipWhitespace] over white space; the flag says
    that the loop returned at the end of the input. *)
Fixpoint skipSpaces (n : nat) (l : lexer) : lexer * bool :=
  match n with
  | O => (l, false)
  | S n' =>
      if IsSpace (lch l) then
        let l' := lread l in
        if leof l' then (l', true) else skipSpaces n' l'
      else (l, false)
  end.

(** The loop over the body of a [//] comment. *)
Fixpoint skipLine (n : nat) (l : lexer) : lexer :=
  match n with
  | O => l
  | S n' =>
      if negb (lch l =? 10) && negb (leof l) then skipLine n' (lread l) else l
  end.

(** The loop over the body of a block comment; the flag says that the
    loop returned at the end of the input. *)
Fixpoint skipBlock (n : nat) (l : lexer) : lexer * bool :=
  match n with
  | O => (l, true)
  | S n' =>
      if leof l then (l, true)
      else if (lch l =? 42) && (lpeek l =? 47) then (lread (lread l), false)
      else skipBlock n' (lread l)
  end.

Fixpoint skipWhitespaceLoop (n : nat) (l : lexer) : lexer :=
  match n with
  | O => l
  | S n' =>
      let (l1, atEnd) := skipSpaces (lfuel l) l in
      if atEnd then l1
      else if negb (DisableComments opt) && (lch l1 =? 47) then
        let next := lpeek l1 in
        if next =? 47 then
          let l2 := lread (lread l1) in
          skipWhitespaceLoop n' (skipLine (lfuel l2) l2)
        else if next =? 42 then
          let l2 := lread (lread l1) in
          let (l3, atEnd3) := skipBlock (lfuel l2) l2 in
          if atEnd3 then l3 else skipWhitespaceLoop n' l3
        else l1
      else l1
  end.

(** [lexer.skipWhitespace] *)
Definition skipWhitespace (l : lexer) : lexer := skipWhitespaceLoop (lfuel l) l.

Fixpoint readWhile (part : rune -> bool) (n : nat) (l : lexer) (b : str)
  : str * lexer :=
  match n with
  | O => (b, l)
  | S n' =>
      if part (lch l) then
        let b' := b ++ [lch l] in
        let l' := lread l in
        if leof l' then (b', l') else readWhile part n' l' b'
      else (b, l)
  end.

(** [lexer.readIdent] *)
Definition readIdent (l : lexer) : str * lexer :=
  readWhile isIdentPart (lfuel l) l [].

(** [lexer.readNumberOrIdent] *)
Definition readNumberOrIdent (l : lexer) : str * lexer :=
  readWhile isWordPart (lfuel l) l [].

Fixpoint readStringLoop (n : nat) (l : lexer) (b : str)
  : (str * option error) * lexer :=
  match n with
  | O => (([], Some ErrFuel), l)
  | S n' =>
      if leof l then (([], Some (lerrorf l (lit "unterminated string"))), l)
      else if lch l =? 34 then
        if lpeek l =? 34 then readStringLoop n' (lread (lread l)) (b ++ [34])
        else ((b, None), lread l)
      else if (lch l =? 92) && ((lpeek l =? 92) || (lpeek l =? 34)) then
        let l1 := lread l in
        readStringLoop n' (lread l1) (b ++ [lch l1])
      else readStringLoop n' (lread l) (b ++ [lch l])
  end.

(** [lexer.readString] *)
Definition readString (l : lexer) : (str * option error) * lexer :=
  let l1 := lread l in
  readStringLoop (lfuel l1) l1 [].

(** [lexer.next]: the token, the error if any, and the lexer after the
    call. *)
Definition lnext (l0 : lexer) : (token * option error) * lexer :=
  let l := skipWhitespace l0 in
  if leof l then ((mkToken [] tokEOF (lline l) (lcol l), None), l)
  else
    let startLine := lline l in
    let startCol := lcol l in
    let sym (tt : tokenType) :=
      ((mkToken [lch l] tt startLine startCol, None), lread l) in
    let c := lch l in
    if c =? 123 then sym tokLBrace
    else if c =? 125 then sym tokRBrace
    else if c =? 91 then sym tokLBracket
    else if c =? 93 then sym tokRBracket
    else if c =? 61 then sym tokEqual
    else if c =? 59 then sym tokSemicolon
    else if c =? 58 then sym tokColon
    else if c =? 44 then sym tokComma
    else if c =? 34 then
      let '((s, err), l') := readString l in
      ((mkToken s tokString startLine startCol, err), l')
    else if isIdentStart c then
      let (s, l') := readIdent l in
      if EqualFold s (lit "class")
      then ((mkToken s tokClass startLine startCol, None), l')
      else ((mkToken s tokIdent startLine startCol, None), l')
    else if isNumberStart c then
      let (s, l') := readNumberOrIdent l in
      if isValidNumber s
      then ((mkToken s tokNumber startLine startCol, None), l')
      else ((mkToken s tokIdent startLine startCol, None), l')
    else
      ((token0,
        Some (lerrorf l (lit "unexpected character '" ++ [c] ++ lit "'"))), l).

End Lexer.

(* ================================================================== *)
(** ** Data model *)

Section Model.
Context {F : Strconv}.

(** A literal value: the four kinds of [value]. *)
Inductive value :=
| VNumber (num : float64)
| VString (s : str)
| VIdent (s : str)
| VArray (arr : list value).

(** [assignNode] and [classNode]. *)
Inductive node :=
| NAssign (name : str) (isArray : bool) (val : value)
| NClass (name base : str) (body : list node).

(** [TextureKind]; [KindUnset] is the empty string of a zero
    [TextureRef]. *)
Inductive TextureKind := KindUnset | TextureKindPath | TextureKindProcedural.

Record ProceduralColor := {
  ColorTag : str;
  ColorR : float64;
  ColorG : float64;
  ColorB : float64;
  ColorA : float64
}.

Record ProceduralFresnel := {
  FresnelA : float64;
  FresnelB : float64
}.

Record ProceduralIrradiance := {
  IrradianceValue : float64
}.

Record ProceduralTexture := {
  Color : option ProceduralColor;
  Fresnel : option ProceduralFresnel;
  Irradiance : option ProceduralIrradiance;
  Format_ : str;
  Func : str;
  Args : list str;
  Width : Z;
  Height : Z;
  Mip : Z
}.

Record TextureRef := {
  Procedural : option ProceduralTexture;
  Raw : str;
  Kind : TextureKind;
  ParsedOK : bool
}.

(** [TextureRef{}] *)
Definition TextureRef0 : TextureRef :=
  {| Procedural := None; Raw := []; Kind := KindUnset; ParsedOK := false |}.

Record UVTransform := {
  Aside : list float64;
  Up : list float64;
  Dir : list float64;
  Pos : list float64
}.

Definition UVTransform0 : UVTransform :=
  {| Aside := []; Up := []; Dir := []; Pos := [] |}.

Record Stage := {
  StageName : str;
  Texture : TextureRef;
  StageUVSource : str;
  StageTexGen : str;
  StageUVTransform : option UVTransform;
  StageExtras : list node
}.

Record TexGen := {
  TexGenName : str;
  TexGenBase : str;
  TexGenUVSource : str;
  TexGenUVTransform : option UVTransform;
  TexGenExtras : list node
}.

Record Material := {
  Ambient : list float64;
  Diffuse : list float64;
  ForcedDiffuse : list float64;
  Emmisive : list float64;
  Specular : list float64;
  SpecularPower : option float64;
  PixelShaderID : str;
  VertexShaderID : str;
  Stages : list Stage;
  TexGens : list TexGen;
  Extras : list node
}.

(** [&Material{}] *)
Definition Material0 : Material :=
  {| Ambient := []; Diffuse := []; ForcedDiffuse := []; Emmisive := [];
     Specular := []; SpecularPower := None; PixelShaderID := [];
     VertexShaderID := []; Stages := []; TexGens := []; Extras := [] |}.

End Model.

(* ================================================================== *)
(** ** Texture references *)

Section Texture.
Context {U : Unicode} {F : Strconv}.

(** [NormalizeTextureRaw] *)
Definition NormalizeTextureRaw (raw : str) : str :=
  let s := TrimSpace raw in
  let ls := ToLower s in
  if HasPrefix ls (lit "texture=" ++ [34]) then
    let s1 := skipn 9 s in
    let s2 := TrimSuffix s1 [34; 59] in
    let s3 := TrimSuffix s2 [34] in
    TrimSpace s3
  else
    TrimSpace (TrimSuffix s [34; 59]).

(** [splitCSV] *)
Definition splitCSV (s : str) : list str :=
  if isEmpty (TrimSpace s) then []
  else List.map TrimSpace (SplitRune s 44).

(** [parseFunc] *)
Definition parseFunc (s : str) : option (str * list str) :=
  match IndexRune s 40, LastIndexRune s 41 with
  | Some open, Some closeIdx =>
      if (open =? 0)%nat || (closeIdx <=? open)%nat then None
      else
        let name := TrimSpace (firstn open s) in
        let argsRaw := firstn (closeIdx - (open + 1)) (skipn (open + 1) s) in
        let args := List.map TrimSpace (splitCSV argsRaw) in
        Some (name, args)
  | _, _ => None
  end.

(** [parseFloatArg] *)
Definition parseFloatArg (s : str) : option float64 :=
  let s := TrimSpace s in
  if isEmpty s then None else ParseFloat s.

Definition setColor (pt : ProceduralTexture) (c : option ProceduralColor) :=
  {| Color := c; Fresnel := Fresnel pt; Irradiance := Irradiance pt;
     Format_ := Format_ pt; Func := Func pt; Args := Args pt;
     Width := Width pt; Height := Height pt; Mip := Mip pt |}.

Definition setFresnel (pt : ProceduralTexture) (c : option ProceduralFresnel) :=
  {| Color := Color pt; Fresnel := c; Irradiance := Irradiance pt;
     Format_ := Format_ pt; Func := Func pt; Args := Args pt;
     Width := Width pt; Height := Height pt; Mip := Mip pt |}.

Definition setIrradiance (pt : ProceduralTexture)
  (c : option ProceduralIrradiance) :=
  {| Color := Color pt; Fresnel := Fresnel pt; Irradiance := c;
     Format_ := Format_ pt; Func := Func pt; Args := Args pt;
     Width := Width pt; Height := Height pt; Mip := Mip pt |}.

(** [parseProceduralColor] *)
Definition parseProceduralColor (pt : ProceduralTexture) : ProceduralTexture :=
  let n := length (Args pt) in
  if negb (n =? 4)%nat && negb (n =? 5)%nat then pt
  else
    match parseFloatArg (nth 0 (Args pt) []) with
    | None => pt
    | Some r =>
    match parseFloatArg (nth 1 (Args pt) []) with
    | None => pt
    | Some g =>
    match parseFloatArg (nth 2 (Args pt) []) with
    | None => pt
    | Some b =>
    match parseFloatArg (nth 3 (Args pt) []) with
    | None => pt
    | Some a =>
        let tag := if (n =? 5)%nat then nth 4 (Args pt) [] else [] in
        setColor pt (Some {| ColorTag := tag; ColorR := r; ColorG := g;
                             ColorB := b; ColorA := a |})
    end end end end.

(** [parseProceduralFresnel] *)
Definition parseProceduralFresnel (pt : ProceduralTexture)
  : ProceduralTexture :=
  let n := length (Args pt) in
  if negb (n =? 1)%nat && negb (n =? 2)%nat then pt
  else
    match parseFloatArg (nth 0 (Args pt) []) with
    | None => pt
    | Some a =>
        if (n =? 2)%nat then
          match parseFloatArg (nth 1 (Args pt) []) with
          | None => pt
          | Some b => setFresnel pt (Some {| FresnelA := a; FresnelB := b |})
          end
        else setFresnel pt (Some {| FresnelA := a; FresnelB := fzero |})
    end.

(** [parseProceduralIrradiance] *)
Definition parseProceduralIrradiance (pt : ProceduralTexture)
  : ProceduralTexture :=
  if negb (length (Args pt) =? 1)%nat then pt
  else
    match parseFloatArg (nth 0 (Args pt) []) with
    | None => pt
    | Some v => setIrradiance pt (Some {| IrradianceValue := v |})
    end.

(** [parseProceduralArgs] *)
Definition parseProceduralArgs (pt : ProceduralTexture) : ProceduralTexture :=
  let fn := ToLower (Func pt) in
  if str_eqb fn (lit "color") then parseProceduralColor pt
  else if str_eqb fn (lit "fresnel") then parseProceduralFresnel pt
  else if str_eqb fn (lit "fresnelglass") then parseProceduralFresnel pt
  else if str_eqb fn (lit "irradiance") then parseProceduralIrradiance pt
  else pt.

(** The part of [parseProcedural] before the typed decoration: the header
    and the function call. *)
Definition parseProceduralHead (raw : str) : option ProceduralTexture :=
  if negb (HasPrefix raw (lit "#(")) then None
  else
    match IndexRune raw 41 with
    | None => None
    | Some closeIdx =>
        let head := firstn (closeIdx - 2) (skipn 2 raw) in
        let headParts := splitCSV head in
        if (length headParts <? 4)%nat then None
        else
          match Atoi (TrimSpace (nth 1 headParts [])) with
          | None => None
          | Some w =>
          match Atoi (TrimSpace (nth 2 headParts [])) with
          | None => None
          | Some h =>
          match Atoi (TrimSpace (nth 3 headParts [])) with
          | None => None
          | Some mip =>
              let remain := TrimSpace (skipn (closeIdx + 1) raw) in
              if isEmpty remain then None
              else
                match parseFunc remain with
                | None => None
                | Some (funcName, args) =>
                    Some {| Color := None; Fresnel := None; Irradiance := None;
                            Format_ := TrimSpace (nth 0 headParts []);
                            Func := funcName; Args := args;
                            Width := w; Height := h; Mip := mip |}
                end
          end end end
    end.

(** [parseProcedural] *)
Definition parseProcedural (raw : str) : option ProceduralTexture :=
  match parseProceduralHead raw with
  | Some pt => Some (parseProceduralArgs pt)
  | None => None
  end.

(** [ParseTextureRef] *)
Definition ParseTextureRef (raw : str) : TextureRef :=
  let raw := NormalizeTextureRaw raw in
  if HasPrefix raw (lit "#(") then
    match parseProcedural raw with
    | Some pt => {| Procedural := Some pt; Raw := raw;
                    Kind := TextureKindProcedural; ParsedOK := true |}
    | None => {| Procedural := None; Raw := raw;
                 Kind := TextureKindProcedural; ParsedOK := false |}
    end
  else {| Procedural := None; Raw := raw; Kind := TextureKindPath;
          ParsedOK := false |}.

End Texture.

(* ================================================================== *)
(** ** Parser *)

(** The result of a call that returns [(value, error)]. *)
Inductive res (A : Type) :=
| Ok (a : A)
| Err (e : error).
Arguments Ok {A} a.
Arguments Err {A} e.

(** The parser: its lexer and the one-token buffer ([has] and [buf] of the
    source as one option; [buf] is never read while [has] is false). *)
Record parser := mkParser {
  pl : lexer;
  pbuf : option token
}.

(** A method of the parser: the result and the parser after the call (the
    parser keeps the state it reached when the call fails). *)
Definition M (A : Type) := parser -> res A * parser.

Definition ret {A} (a : A) : M A := fun p => (Ok a, p).

Definition fail {A} (e : error) : M A := fun p => (Err e, p).

Definition bind {A B} (c : M A) (k : A -> M B) : M B :=
  fun p => match c p with
           | (Ok a, p') => k a p'
           | (Err e, p') => (Err e, p')
           end.

Declare Scope parser_scope.
Delimit Scope parser_scope with parser.
Notation "x <- c ;; k" := (bind c (fun x => k))
  (at level 61, c at next level, right associativity) : parser_scope.
Notation "c ;;; k" := (bind c (fun _ => k))
  (at level 61, right associativity) : parser_scope.
Local Open Scope parser_scope.

Section Parser.
Context {U : Unicode} {F : Strconv}.
Variable opt : ParseOptions.

(** [newParser] *)
Definition newParser (input : list rune) : parser :=
  mkParser (newLexer input) None.

(** [parser.next], with the token it returns beside an error. *)
Definition nextRaw (p : parser) : (token * option error) * parser :=
  match pbuf p with
  | Some t => ((t, None), mkParser (pl p) None)
  | None =>
      let '(r, l') := lnext opt (pl p) in
      (r, mkParser l' None)
  end.

(** [parser.peek], with the token it returns beside an error. *)
Definition peekRaw (p : parser) : (token * option error) * parser :=
  match pbuf p with
  | Some t => ((t, None), p)
  | None =>
      let '((t, err), l') := lnext opt (pl p) in
      match err with
      | Some e => ((t, Some e), mkParser l' None)
      | None => ((t, None), mkParser l' (Some t))
      end
  end.

Definition lift (f : parser -> (token * option error) * parser) : M token :=
  fun p => match f p with
           | ((t, None), p') => (Ok t, p')
           | ((_, Some e), p') => (Err e, p')
           end.

Definition next : M token := lift nextRaw.
Definition peek : M token := lift peekRaw.

(** [tok, _ := p.peek()]: the token, whatever the error. *)
Definition peekAny : M token :=
  fun p => let '((t, _), p') := peekRaw p in (Ok t, p').

(** [_, _ = p.next()] *)
Definition skip : M unit :=
  fun p => let '(_, p') := nextRaw p in (Ok tt, p').

(** [parser.errorf] *)
Definition errorf (tok : token) (msg : str) : error :=
  ErrParse (Line tok) (Col tok) msg.

(** [parser.expect] *)
Definition expect (tt : tokenType) : M token :=
  tok <- next ;;
  if negb (tokenType_eqb (Type_ tok) tt)
  then fail (errorf tok (lit "expected " ++ tokenName tt))
  else ret tok.

(** [parser.expectSemicolon] *)
Definition expectSemicolon : M unit :=
  expect tokSemicolon ;;; ret tt.

(** [matchKey] *)
Definition matchKey (a b : str) (ci : bool) : bool :=
  if ci then EqualFold a b else str_eqb a b.

(** [equalFold] *)
Definition equalFold (a b : str) : bool :=
  if negb (DisableCaseInsensitive opt) then EqualFold a b else str_eqb a b.

(** [hasPrefixKey] *)
Definition hasPrefixKey (s prefix : str) (ci : bool) : bool :=
  if negb ci then HasPrefix s prefix
  else if (length s <? length prefix)%nat then false
  else HasPrefix (List.map asciiLower (firstn (length prefix) s)) prefix.

(** [isStageName] and [isTexGenName] *)
Definition isStageName (name : str) : bool :=
  hasPrefixKey name (lit "stage") (negb (DisableCaseInsensitive opt)).

Definition isTexGenName (name : str) : bool :=
  hasPrefixKey name (lit "texgen") (negb (DisableCaseInsensitive opt)).

Definition ci : bool := negb (DisableCaseInsensitive opt).

(** The text of a string or identifier token on which [parseNumberToken]
    calls [strconv.ParseFloat]: trimmed of white space, then of trailing
    dots. *)
Definition trimDots (s : str) : str := rev (dropWhile (Z.eqb 46) (rev s)).

(** [parseNumberToken] *)
Definition parseNumberToken (tok : token) : option float64 :=
  match Type_ tok with
  | tokNumber => ParseFloat (Lit tok)
  | tokString | tokIdent =>
      let s := trimDots (TrimSpace (Lit tok)) in
      if isEmpty s then None else ParseFloat s
  | _ => None
  end.

(** The loop of [parseArray], over the parser of one value. *)
Fixpoint parseArrayLoop (pv : M value) (fuel : nat) (arr : list value)
  : M (list value) :=
  match fuel with
  | O => fail ErrFuel
  | S n =>
      tok <- peek ;;
      if tokenType_eqb (Type_ tok) tokRBrace then skip ;;; ret arr
      else
        v <- pv ;;
        let arr := arr ++ [v] in
        tok <- peek ;;
        if tokenType_eqb (Type_ tok) tokComma then
          skip ;;; parseArrayLoop pv n arr
        else if tokenType_eqb (Type_ tok) tokRBrace then
          parseArrayLoop pv n arr
        else fail (errorf tok (lit "expected ',' or '}' in array"))
  end.

(** [parser.parseValue] *)
Fixpoint parseValue (fuel : nat) : M value :=
  match fuel with
  | O => fail ErrFuel
  | S n =>
      tok <- next ;;
      match Type_ tok with
      | tokNumber =>
          match ParseFloat (Lit tok) with
          | Some f => ret (VNumber f)
          | None => fail (errorf tok (lit "invalid number"))
          end
      | tokString => ret (VString (Lit tok))
      | tokIdent => ret (VIdent (Lit tok))
      | tokLBrace =>
          arr <- parseArrayLoop (parseValue n) n [] ;;
          ret (VArray arr)
      | _ => fail (errorf tok (lit "unexpected token"))
      end
  end.

(** [parser.parseArray] *)
Definition parseArray (fuel : nat) : M (list value) :=
  parseArrayLoop (parseValue fuel) fuel [].

Fixpoint parseNumberArrayLoop (relaxed : bool) (fuel : nat)
  (arr : list float64) : M (list float64) :=
  match fuel with
  | O => fail ErrFuel
  | S n =>
      tok <- peek ;;
      if tokenType_eqb (Type_ tok) tokRBrace then skip ;;; ret arr
      else
        numTok <- next ;;
        let append (f : float64) :=
          let arr := arr ++ [f] in
          tok <- peek ;;
          if tokenType_eqb (Type_ tok) tokComma then
            skip ;;; parseNumberArrayLoop relaxed n arr
          else if tokenType_eqb (Type_ tok) tokRBrace then
            parseNumberArrayLoop relaxed n arr
          else fail (errorf tok (lit "expected ',' or '}' in array")) in
        match parseNumberToken numTok with
        | Some f => append f
        | None =>
            if negb relaxed then fail (errorf numTok (lit "expected number"))
            else append fzero
        end
  end.

(** [parser.parseNumberArrayWithRelax] *)
Definition parseNumberArrayWithRelax (relaxed : bool) (fuel : nat)
  : M (list float64) :=
  expect tokLBrace ;;;
  parseNumberArrayLoop relaxed fuel [].

(** [parser.parseNumberArray] *)
Definition parseNumberArray (fuel : nat) : M (list float64) :=
  parseNumberArrayWithRelax (negb (DisableRelaxedNumbers opt)) fuel.

(** [parser.parseNumberValue] *)
Definition parseNumberValue : M float64 :=
  tok <- expect tokNumber ;;
  match parseNumberToken tok with
  | Some f => ret f
  | None => fail (errorf tok (lit "invalid number"))
  end.

(** [parser.parseStringValue] *)
Definition parseStringValue : M str :=
  tok <- next ;;
  match Type_ tok with
  | tokString | tokIdent => ret (Lit tok)
  | _ => fail (errorf tok (lit "expected string"))
  end.

(** [parser.parseStringOrNumberValue] *)
Definition parseStringOrNumberValue (relaxed : bool) : M str :=
  tok <- next ;;
  match Type_ tok with
  | tokString | tokIdent => ret (Lit tok)
  | tokNumber => ret (Lit tok)
  | _ => if relaxed then ret (Lit tok)
         else fail (errorf tok (lit "expected string"))
  end.

(** The optional [: Base] after a class name. *)
Definition parseBase : M str :=
  tok <- peekAny ;;
  if tokenType_eqb (Type_ tok) tokColon then
    skip ;;;
    btok <- expect tokIdent ;;
    ret (Lit btok)
  else ret [].

(** The optional [[]] after a field name. *)
Definition parseArraySuffix : M bool :=
  tok <- peekAny ;;
  if tokenType_eqb (Type_ tok) tokLBracket then
    skip ;;;
    expect tokRBracket ;;;
    ret true
  else ret false.

(** [parser.parseAssign] *)
Definition parseAssign (fuel : nat) : M node :=
  nameTok <- expect tokIdent ;;
  isArray <- parseArraySuffix ;;
  expect tokEqual ;;;
  val <- parseValue fuel ;;
  expect tokSemicolon ;;;
  ret (NAssign (Lit nameTok) isArray val).

(** The loop over the nodes of a class body, up to and including the
    closing brace. *)
Fixpoint parseBodyLoop (pn : M node) (fuel : nat) (body : list node)
  : M (list node) :=
  match fuel with
  | O => fail ErrFuel
  | S n =>
      tok <- peek ;;
      if tokenType_eqb (Type_ tok) tokRBrace then skip ;;; ret body
      else
        nd <- pn ;;
        parseBodyLoop pn n (body ++ [nd])
  end.

(** [parser.parseClass], over the parser of one node. *)
Definition parseClassWith (pn : M node) (fuel : nat) : M node :=
  expect tokClass ;;;
  nameTok <- expect tokIdent ;;
  base <- parseBase ;;
  expect tokLBrace ;;;
  body <- parseBodyLoop pn fuel [] ;;
  expect tokSemicolon ;;;
  ret (NClass (Lit nameTok) base body).

(** [parser.parseNode] *)
Fixpoint parseNode (fuel : nat) : M node :=
  match fuel with
  | O => fail ErrFuel
  | S n =>
      tok <- peek ;;
      if tokenType_eqb (Type_ tok) tokClass
      then parseClassWith (parseNode n) n
      else parseAssign n
  end.

(** [parser.parseClass] *)
Definition parseClass (fuel : nat) : M node :=
  parseClassWith (parseNode fuel) fuel.

(** [parser.parseClassBody] *)
Definition parseClassBody (fuel : nat) (name base : str) : M node :=
  expect tokLBrace ;;;
  body <- parseBodyLoop (parseNode fuel) fuel [] ;;
  expect tokSemicolon ;;;
  ret (NClass name base body).

(** *** Stages, texture generators and the top level *)

Definition setAside (uv : UVTransform) (v : list float64) :=
  {| Aside := v; Up := Up uv; Dir := Dir uv; Pos := Pos uv |}.
Definition setUp (uv : UVTransform) (v : list float64) :=
  {| Aside := Aside uv; Up := v; Dir := Dir uv; Pos := Pos uv |}.
Definition setDir (uv : UVTransform) (v : list float64) :=
  {| Aside := Aside uv; Up := Up uv; Dir := v; Pos := Pos uv |}.
Definition setPos (uv : UVTransform) (v : list float64) :=
  {| Aside := Aside uv; Up := Up uv; Dir := Dir uv; Pos := v |}.

Fixpoint parseUVTransformLoop (fuel : nat) (uv : UVTransform)
  : M UVTransform :=
  match fuel with
  | O => fail ErrFuel
  | S n =>
      tok <- peek ;;
      if tokenType_eqb (Type_ tok) tokRBrace then skip ;;; ret uv
      else
        nameTok <- expect tokIdent ;;
        parseArraySuffix ;;;
        expect tokEqual ;;;
        vals <- parseNumberArray n ;;
        let uv :=
          if matchKey (Lit nameTok) (lit "aside") ci then setAside uv vals
          else if matchKey (Lit nameTok) (lit "up") ci then setUp uv vals
          else if matchKey (Lit nameTok) (lit "dir") ci then setDir uv vals
          else if matchKey (Lit nameTok) (lit "pos") ci then setPos uv vals
          else uv in
        expectSemicolon ;;;
        parseUVTransformLoop n uv
  end.

(** [parser.parseUVTransformBody] *)
Definition parseUVTransformBody (fuel : nat) : M UVTransform :=
  expect tokLBrace ;;;
  uv <- parseUVTransformLoop fuel UVTransform0 ;;
  expectSemicolon ;;;
  ret uv.

Definition newStage (name : str) : Stage :=
  {| StageName := name; Texture := TextureRef0; StageUVSource := [];
     StageTexGen := []; StageUVTransform := None; StageExtras := [] |}.

Definition stSetTexture (st : Stage) (t : TextureRef) :=
  {| StageName := StageName st; Texture := t;
     StageUVSource := StageUVSource st; StageTexGen := StageTexGen st;
     StageUVTransform := StageUVTransform st; StageExtras := StageExtras st |}.
Definition stSetUVSource (st : Stage) (s : str) :=
  {| StageName := StageName st; Texture := Texture st;
     StageUVSource := s; StageTexGen := StageTexGen st;
     StageUVTransform := StageUVTransform st; StageExtras := StageExtras st |}.
Definition stSetTexGen (st : Stage) (s : str) :=
  {| StageName := StageName st; Texture := Texture st;
     StageUVSource := StageUVSource st; StageTexGen := s;
     StageUVTransform := StageUVTransform st; StageExtras := StageExtras st |}.
Definition stSetUVTransform (st : Stage) (uv : option UVTransform) :=
  {| StageName := StageName st; Texture := Texture st;
     StageUVSource := StageUVSource st; StageTexGen := StageTexGen st;
     StageUVTransform := uv; StageExtras := StageExtras st |}.
Definition stAddExtra (st : Stage) (n : node) :=
  {| StageName := StageName st; Texture := Texture st;
     StageUVSource := StageUVSource st; StageTexGen := StageTexGen st;
     StageUVTransform := StageUVTransform st;
     StageExtras := StageExtras st ++ [n] |}.

Definition newTexGen (name base : str) : TexGen :=
  {| TexGenName := name; TexGenBase := base; TexGenUVSource := [];
     TexGenUVTransform := None; TexGenExtras := [] |}.

Definition tgSetUVSource (tg : TexGen) (s : str) :=
  {| TexGenName := TexGenName tg; TexGenBase := TexGenBase tg;
     TexGenUVSource := s; TexGenUVTransform := TexGenUVTransform tg;
     TexGenExtras := TexGenExtras tg |}.
Definition tgSetUVTransform (tg : TexGen) (uv : option UVTransform) :=
  {| TexGenName := TexGenName tg; TexGenBase := TexGenBase tg;
     TexGenUVSource := TexGenUVSource tg; TexGenUVTransform := uv;
     TexGenExtras := TexGenExtras tg |}.
Definition tgAddExtra (tg : TexGen) (n : node) :=
  {| TexGenName := TexGenName tg; TexGenBase := TexGenBase tg;
     TexGenUVSource := TexGenUVSource tg;
     TexGenUVTransform := TexGenUVTransform tg;
     TexGenExtras := TexGenExtras tg ++ [n] |}.

(** [parser.parseStageClass] *)
Definition parseStageClass (fuel : nat) (st : Stage) : M Stage :=
  expect tokClass ;;;
  nameTok <- expect tokIdent ;;
  base <- parseBase ;;
  if equalFold (Lit nameTok) (lit "uvTransform") && isEmpty base then
    uv <- parseUVTransformBody fuel ;;
    ret (stSetUVTransform st (Some uv))
  else
    cn <- parseClassBody fuel (Lit nameTok) base ;;
    ret (stAddExtra st cn).

(** [parser.parseTexGenClass] *)
Definition parseTexGenClass (fuel : nat) (tg : TexGen) : M TexGen :=
  expect tokClass ;;;
  nameTok <- expect tokIdent ;;
  base <- parseBase ;;
  if equalFold (Lit nameTok) (lit "uvTransform") && isEmpty base then
    uv <- parseUVTransformBody fuel ;;
    ret (tgSetUVTransform tg (Some uv))
  else
    cn <- parseClassBody fuel (Lit nameTok) base ;;
    ret (tgAddExtra tg cn).

(** [parser.parseStageAssign] *)
Definition parseStageAssign (fuel : nat) (st : Stage) : M Stage :=
  nameTok <- expect tokIdent ;;
  isArray <- parseArraySuffix ;;
  expect tokEqual ;;;
  let generic :=
    val <- parseValue fuel ;;
    expectSemicolon ;;;
    ret (stAddExtra st (NAssign (Lit nameTok) isArray val)) in
  if negb isArray then
    if matchKey (Lit nameTok) (lit "texture") ci then
      s <- parseStringValue ;;
      expectSemicolon ;;;
      ret (stSetTexture st (ParseTextureRef s))
    else if matchKey (Lit nameTok) (lit "uvsource") ci then
      s <- parseStringValue ;;
      expectSemicolon ;;;
      ret (stSetUVSource st s)
    else if matchKey (Lit nameTok) (lit "texgen") ci then
      s <- parseStringOrNumberValue (negb (DisableRelaxedNumbers opt)) ;;
      expectSemicolon ;;;
      ret (stSetTexGen st s)
    else generic
  else generic.

(** [parser.parseTexGenAssign] *)
Definition parseTexGenAssign (fuel : nat) (tg : TexGen) : M TexGen :=
  nameTok <- expect tokIdent ;;
  isArray <- parseArraySuffix ;;
  expect tokEqual ;;;
  let generic :=
    val <- parseValue fuel ;;
    expectSemicolon ;;;
    ret (tgAddExtra tg (NAssign (Lit nameTok) isArray val)) in
  if negb isArray then
    if matchKey (Lit nameTok) (lit "uvsource") ci then
      s <- parseStringValue ;;
      expectSemicolon ;;;
      ret (tgSetUVSource tg s)
    else generic
  else generic.

Fixpoint parseStageLoop (fuel : nat) (st : Stage) : M Stage :=
  match fuel with
  | O => fail ErrFuel
  | S n =>
      tok <- peek ;;
      if tokenType_eqb (Type_ tok) tokRBrace then skip ;;; ret st
      else if tokenType_eqb (Type_ tok) tokClass then
        st <- parseStageClass n st ;;
        parseStageLoop n st
      else
        st <- parseStageAssign n st ;;
        parseStageLoop n st
  end.

(** [parser.parseStageBody] *)
Definition parseStageBody (fuel : nat) (name : str) : M Stage :=
  expect tokLBrace ;;;
  st <- parseStageLoop fuel (newStage name) ;;
  expect tokSemicolon ;;;
  ret st.

Fixpoint parseTexGenLoop (fuel : nat) (tg : TexGen) : M TexGen :=
  match fuel with
  | O => fail ErrFuel
  | S n =>
      tok <- peek ;;
      if tokenType_eqb (Type_ tok) tokRBrace then skip ;;; ret tg
      else if tokenType_eqb (Type_ tok) tokClass then
        tg <- parseTexGenClass n tg ;;
        parseTexGenLoop n tg
      else
        tg <- parseTexGenAssign n tg ;;
        parseTexGenLoop n tg
  end.

(** [parser.parseTexGenBody] *)
Definition parseTexGenBody (fuel : nat) (name base : str) : M TexGen :=
  expect tokLBrace ;;;
  tg <- parseTexGenLoop fuel (newTexGen name base) ;;
  expect tokSemicolon ;;;
  ret tg.

Definition mSetAmbient (m : Material) (v : list float64) :=
  {| Ambient := v; Diffuse := Diffuse m; ForcedDiffuse := ForcedDiffuse m;
     Emmisive := Emmisive m; Specular := Specular m;
     SpecularPower := SpecularPower m; PixelShaderID := PixelShaderID m;
     VertexShaderID := VertexShaderID m; Stages := Stages m;
     TexGens := TexGens m; Extras := Extras m |}.
Definition mSetDiffuse (m : Material) (v : list float64) :=
  {| Ambient := Ambient m; Diffuse := v; ForcedDiffuse := ForcedDiffuse m;
     Emmisive := Emmisive m; Specular := Specular m;
     SpecularPower := SpecularPower m; PixelShaderID := PixelShaderID m;
     VertexShaderID := VertexShaderID m; Stages := Stages m;
     TexGens := TexGens m; Extras := Extras m |}.
Definition mSetForcedDiffuse (m : Material) (v : list float64) :=
  {| Ambient := Ambient m; Diffuse := Diffuse m; ForcedDiffuse := v;
     Emmisive := Emmisive m; Specular := Specular m;
     SpecularPower := SpecularPower m; PixelShaderID := PixelShaderID m;
     VertexShaderID := VertexShaderID m; Stages := Stages m;
     TexGens := TexGens m; Extras := Extras m |}.
Definition mSetEmmisive (m : Material) (v : list float64) :=
  {| Ambient := Ambient m; Diffuse := Diffuse m;
     ForcedDiffuse := ForcedDiffuse m; Emmisive := v; Specular := Specular m;
     SpecularPower := SpecularPower m; PixelShaderID := PixelShaderID m;
     VertexShaderID := VertexShaderID m; Stages := Stages m;
     TexGens := TexGens m; Extras := Extras m |}.
Definition mSetSpecular (m : Material) (v : list float64) :=
  {| Ambient := Ambient m; Diffuse := Diffuse m;
     ForcedDiffuse := ForcedDiffuse m; Emmisive := Emmisive m; Specular := v;
     SpecularPower := SpecularPower m; PixelShaderID := PixelShaderID m;
     VertexShaderID := VertexShaderID m; Stages := Stages m;
     TexGens := TexGens m; Extras := Extras m |}.
Definition mSetSpecularPower (m : Material) (v : option float64) :=
  {| Ambient := Ambient m; Diffuse := Diffuse m;
     ForcedDiffuse := ForcedDiffuse m; Emmisive := Emmisive m;
     Specular := Specular m; SpecularPower := v;
     PixelShaderID := PixelShaderID m; VertexShaderID := VertexShaderID m;
     Stages := Stages m; TexGens := TexGens m; Extras := Extras m |}.
Definition mSetPixelShaderID (m : Material) (s : str) :=
  {| Ambient := Ambient m; Diffuse := Diffuse m;
     ForcedDiffuse := ForcedDiffuse m; Emmisive := Emmisive m;
     Specular := Specular m; SpecularPower := SpecularPower m;
     PixelShaderID := s; VertexShaderID := VertexShaderID m;
     Stages := Stages m; TexGens := TexGens m; Extras := Extras m |}.
Definition mSetVertexShaderID (m : Material) (s : str) :=
  {| Ambient := Ambient m; Diffuse := Diffuse m;
     ForcedDiffuse := ForcedDiffuse m; Emmisive := Emmisive m;
     Specular := Specular m; SpecularPower := SpecularPower m;
     PixelShaderID := PixelShaderID m; VertexShaderID := s;
     Stages := Stages m; TexGens := TexGens m; Extras := Extras m |}.
Definition mAddStage (m : Material) (st : Stage) :=
  {| Ambient := Ambient m; Diffuse := Diffuse m;
     ForcedDiffuse := ForcedDiffuse m; Emmisive := Emmisive m;
     Specular := Specular m; SpecularPower := SpecularPower m;
     PixelShaderID := PixelShaderID m; VertexShaderID := VertexShaderID m;
     Stages := Stages m ++ [st]; TexGens := TexGens m; Extras := Extras m |}.
Definition mAddTexGen (m : Material) (tg : TexGen) :=
  {| Ambient := Ambient m; Diffuse := Diffuse m;
     ForcedDiffuse := ForcedDiffuse m; Emmisive := Emmisive m;
     Specular := Specular m; SpecularPower := SpecularPower m;
     PixelShaderID := PixelShaderID m; VertexShaderID := VertexShaderID m;
     Stages := Stages m; TexGens := TexGens m ++ [tg]; Extras := Extras m |}.
Definition mAddExtra (m : Material) (n : node) :=
  {| Ambient := Ambient m; Diffuse := Diffuse m;
     ForcedDiffuse := ForcedDiffuse m; Emmisive := Emmisive m;
     Specular := Specular m; SpecularPower := SpecularPower m;
     PixelShaderID := PixelShaderID m; VertexShaderID := VertexShaderID m;
     Stages := Stages m; TexGens := TexGens m; Extras := Extras m ++ [n] |}.

(** [parser.parseTopClass] *)
Definition parseTopClass (fuel : nat) (m : Material) : M Material :=
  expect tokClass ;;;
  nameTok <- expect tokIdent ;;
  base <- parseBase ;;
  let name := Lit nameTok in
  if isStageName name && isEmpty base then
    st <- parseStageBody fuel name ;;
    ret (mAddStage m st)
  else if isTexGenName name then
    tg <- parseTexGenBody fuel name base ;;
    ret (mAddTexGen m tg)
  else
    cn <- parseClassBody fuel name base ;;
    ret (mAddExtra m cn).

(** [parser.parseTopAssign] *)
Definition parseTopAssign (fuel : nat) (m : Material) : M Material :=
  nameTok <- expect tokIdent ;;
  isArray <- parseArraySuffix ;;
  expect tokEqual ;;;
  let key := matchKey (Lit nameTok) in
  let generic :=
    val <- parseValue fuel ;;
    expectSemicolon ;;;
    ret (mAddExtra m (NAssign (Lit nameTok) isArray val)) in
  if isArray then
    if key (lit "ambient") ci || key (lit "diffuse") ci
       || key (lit "forceddiffuse") ci || key (lit "emmisive") ci
       || key (lit "specular") ci then
      vals <- parseNumberArray fuel ;;
      let m :=
        if key (lit "ambient") ci then mSetAmbient m vals
        else if key (lit "diffuse") ci then mSetDiffuse m vals
        else if key (lit "forceddiffuse") ci then mSetForcedDiffuse m vals
        else if key (lit "emmisive") ci then mSetEmmisive m vals
        else if key (lit "specular") ci then mSetSpecular m vals
        else m in
      expectSemicolon ;;;
      ret m
    else generic
  else
    if key (lit "specularpower") ci then
      num <- parseNumberValue ;;
      expectSemicolon ;;;
      ret (mSetSpecularPower m (Some num))
    else if key (lit "pixelshaderid") ci then
      s <- parseStringValue ;;
      expectSemicolon ;;;
      ret (mSetPixelShaderID m s)
    else if key (lit "vertexshaderid") ci then
      s <- parseStringValue ;;
      expectSemicolon ;;;
      ret (mSetVertexShaderID m s)
    else generic.

Fixpoint parseMaterialLoop (fuel : nat) (m : Material) : M Material :=
  match fuel with
  | O => fail ErrFuel
  | S n =>
      tok <- peek ;;
      if tokenType_eqb (Type_ tok) tokEOF then ret m
      else if tokenType_eqb (Type_ tok) tokClass then
        m <- parseTopClass n m ;;
        parseMaterialLoop n m
      else
        m <- parseTopAssign n m ;;
        parseMaterialLoop n m
  end.

(** [parser.parseMaterial] *)
Definition parseMaterial (fuel : nat) : M Material :=
  parseMaterialLoop fuel Material0.

End Parser.

(** [isBinaryRVMAT]: a zero byte among the (up to) 4096 bytes that
    [Peek(4096)] returns. *)
Definition isBinaryRVMAT (data : list byte) : bool :=
  existsb (fun b => Byte.eqb b x00) (firstn 4096 data).

(** [ParseOptions.normalize] *)
Definition normalizeParseOptions (o : option ParseOptions) : ParseOptions :=
  match o with
  | None => defaultParseOptions
  | Some o => o
  end.

Section Decode.
Context {U : Unicode} {F : Strconv}.

(** [Decode] on a reader that yields [data]. Every turn of a loop of the
    parser consumes at least one character, which bounds the fuel. *)
Definition Decode (data : list byte) (o : option ParseOptions)
  : res Material :=
  let popt := normalizeParseOptions o in
  if isBinaryRVMAT data then Err ErrBinaryRVMAT
  else
    let input := utf8_decode data in
    fst (parseMaterial popt (S (S (length input))) (newParser input)).

(** [Parse] *)
Definition Parse (data : list byte) (o : option ParseOptions) : res Material :=
  Decode data o.

End Decode.

(* ================================================================== *)
(** ** Writer *)

(** [FormatOptions] *)
Record FormatOptions := {
  Indent : str
}.

(** [FormatOptions.normalize] *)
Definition normalizeFormatOptions (o : option FormatOptions) : FormatOptions :=
  match o with
  | None => {| Indent := lit "    " |}
  | Some o => if isEmpty (Indent o) then {| Indent := lit "    " |} else o
  end.

(** The writer: what it has written, the indentation string and the
    nesting level.  (The cache of indentation strings only memoises
    [strings.Repeat]; writing to the buffer of [Format] cannot fail.) *)
Record writer := mkWriter {
  wout : str;
  windent : str;
  wlevel : Z
}.

Definition W := writer -> writer.

Notation "f >> g" := (fun w : writer => g (f w))
  (at level 62, left associativity).

(** [writer.writeString] *)
Definition writeString (s : str) : W :=
  fun w => mkWriter (wout w ++ s) (windent w) (wlevel w).

Definition levelUp : W :=
  fun w => mkWriter (wout w) (windent w) (wlevel w + 1).

Definition levelDown : W :=
  fun w => mkWriter (wout w) (windent w) (wlevel w - 1).

(** [writer.indentFor] *)
Definition indentFor (w : writer) (level : Z) : str :=
  if level <=? 0 then [] else Repeat (windent w) (Z.to_nat level).

(** [writer.writeIndent] *)
Definition writeIndent : W :=
  fun w => if wlevel w <=? 0 then w else writeString (indentFor w (wlevel w)) w.

(** [writer.writeQuoted] *)
Definition writeQuoted (s : str) : W :=
  writeString [34] >> writeString s >> writeString [34].

(** A loop [for i, v := range vals] that writes [", "] before every
    element but the first. *)
Fixpoint writeSeparated {A} (wv : A -> W) (first : bool) (vals : list A) : W :=
  match vals with
  | [] => fun w => w
  | v :: vals' =>
      (if first then (fun w => w) else writeString (lit ", "))
      >> wv v >> writeSeparated wv false vals'
  end.

(** A loop [for _, n := range nodes]. *)
Fixpoint writeEach {A} (wn : A -> W) (nodes : list A) : W :=
  match nodes with
  | [] => fun w => w
  | n :: nodes' => wn n >> writeEach wn nodes'
  end.

Section Writer.
Context {F : Strconv}.

(** [writer.writeNumber] *)
Definition writeNumber (v : float64) : W := writeString (FormatFloat v).

(** [writer.writeValue], with [writer.writeArray] at its call. *)
Fixpoint writeValue (v : value) : W :=
  match v with
  | VNumber f => writeNumber f
  | VString s => writeQuoted s
  | VIdent s => writeString s
  | VArray vals =>
      writeString (lit "{") >> writeSeparated writeValue true vals
      >> writeString (lit "}")
  end.

(** [writer.writeArray] *)
Definition writeArray (vals : list value) : W :=
  writeString (lit "{") >> writeSeparated writeValue true vals
  >> writeString (lit "}").

(** [writer.writeFloatArray] *)
Definition writeFloatArray (vals : list float64) : W :=
  writeString (lit "{") >> writeSeparated writeNumber true vals
  >> writeString (lit "}").

(** [writer.writeAssign] *)
Definition writeAssign (name : str) (val : value) (isArray : bool) : W :=
  writeIndent >>
  if isArray then
    writeString name >> writeString (lit "[]=") >> writeValue val
    >> writeString (lit ";" ++ [10])
  else
    writeString name >> writeString (lit "=") >> writeValue val
    >> writeString (lit ";" ++ [10]).

(** The header [class Name] or [class Name : Base], with its line end. *)
Definition writeClassHeader (name base : str) : W :=
  if negb (isEmpty base) then
    writeString (lit "class ") >> writeString name >> writeString (lit " : ")
    >> writeString base >> writeString [10]
  else
    writeString (lit "class ") >> writeString name >> writeString [10].

(** [writer.writeNode], with [writer.writeClass] at its call. *)
Fixpoint writeNode (n : node) : W :=
  match n with
  | NAssign name isArray val => writeAssign name val isArray
  | NClass name base body =>
      writeIndent >> writeClassHeader name base
      >> writeIndent >> writeString (lit "{" ++ [10])
      >> levelUp >> writeEach writeNode body >> levelDown
      >> writeIndent >> writeString (lit "};" ++ [10])
  end.

(** [writer.writeClass] *)
Definition writeClass (name base : str) (body : list node) : W :=
  writeNode (NClass name base body).

(** One array of [writeUVTransform] or of [writeMaterial]. *)
Definition writeNamedArray (indent : bool) (name : str) (vals : list float64)
  : W :=
  match vals with
  | [] => fun w => w
  | _ =>
      (if indent then writeIndent else (fun w => w))
      >> writeString name >> writeString (lit "[]=")
      >> writeFloatArray vals >> writeString (lit ";" ++ [10])
  end.

(** [writer.writeUVTransform] *)
Definition writeUVTransform (uv : UVTransform) : W :=
  writeIndent >> writeString (lit "class uvTransform" ++ [10])
  >> writeIndent >> writeString (lit "{" ++ [10])
  >> levelUp
  >> writeNamedArray true (lit "aside") (Aside uv)
  >> writeNamedArray true (lit "up") (Up uv)
  >> writeNamedArray true (lit "dir") (Dir uv)
  >> writeNamedArray true (lit "pos") (Pos uv)
  >> levelDown
  >> writeIndent >> writeString (lit "};" ++ [10]).

Definition when (b : bool) (f : W) : W := if b then f else (fun w => w).

Definition writeOptUV (uv : option UVTransform) : W :=
  match uv with
  | Some uv => writeUVTransform uv
  | None => fun w => w
  end.

(** [writer.writeStage] *)
Definition writeStage (s : Stage) : W :=
  let name := if isEmpty (StageName s) then lit "Stage" else StageName s in
  writeString (lit "class ") >> writeString name
  >> writeString ([10] ++ lit "{" ++ [10])
  >> levelUp
  >> when (negb (isEmpty (Raw (Texture s))))
       (writeAssign (lit "texture") (VString (Raw (Texture s))) false)
  >> when (negb (isEmpty (StageUVSource s)) && isEmpty (StageTexGen s))
       (writeAssign (lit "uvSource") (VString (StageUVSource s)) false)
  >> when (negb (isEmpty (StageTexGen s)))
       (writeAssign (lit "texGen") (VString (StageTexGen s)) false)
  >> when (isEmpty (StageTexGen s)) (writeOptUV (StageUVTransform s))
  >> writeEach writeNode (StageExtras s)
  >> levelDown
  >> writeString (lit "};" ++ [10]).

(** [writer.writeTexGen] *)
Definition writeTexGen (t : TexGen) : W :=
  let name := if isEmpty (TexGenName t) then lit "TexGen" else TexGenName t in
  writeClassHeader name (TexGenBase t)
  >> writeString (lit "{" ++ [10])
  >> levelUp
  >> when (negb (isEmpty (TexGenUVSource t)))
       (writeAssign (lit "uvSource") (VString (TexGenUVSource t)) false)
  >> writeOptUV (TexGenUVTransform t)
  >> writeEach writeNode (TexGenExtras t)
  >> levelDown
  >> writeString (lit "};" ++ [10]).

(** [writer.writeMaterial] *)
Definition writeMaterial (m : Material) : W :=
  writeNamedArray false (lit "ambient") (Ambient m)
  >> writeNamedArray false (lit "diffuse") (Diffuse m)
  >> writeNamedArray false (lit "forcedDiffuse") (ForcedDiffuse m)
  >> writeNamedArray false (lit "emmisive") (Emmisive m)
  >> writeNamedArray false (lit "specular") (Specular m)
  >> match SpecularPower m with
     | Some v => writeString (lit "specularPower=") >> writeNumber v
                 >> writeString (lit ";" ++ [10])
     | None => fun w => w
     end
  >> when (negb (isEmpty (PixelShaderID m)))
       (writeString (lit "PixelShaderID=") >> writeQuoted (PixelShaderID m)
        >> writeString (lit ";" ++ [10]))
  >> when (negb (isEmpty (VertexShaderID m)))
       (writeString (lit "VertexShaderID=") >> writeQuoted (VertexShaderID m)
        >> writeString (lit ";" ++ [10]))
  >> writeEach writeTexGen (TexGens m)
  >> writeEach writeStage (Stages m)
  >> writeEach writeNode (Extras m).

(** [Encode] into the buffer of [Format]: the text written. *)
Definition FormatText (m : Material) (o : option FormatOptions) : str :=
  let fopt := normalizeFormatOptions o in
  wout (writeMaterial m (mkWriter [] (Indent fopt) 0)).

(** [Format] *)
Definition Format (m : Material) (o : option FormatOptions) : list byte :=
  utf8_encode (FormatText m o).

End Writer.

(* ================================================================== *)
(** ** Validator *)

Inductive IssueLevel := IssueError | IssueWarning.

Record Issue := {
  Level : IssueLevel;
  Code : str;
  Message : str;
  Path : str
}.

(** [ValidateOptions] *)
Record ValidateOptions := {
  GameRoot : str;
  ExcludePaths : list str;
  DisableFileCheck : bool;
  DisableExtensionsCheck : bool;
  DisableShaderNameCheck : bool
}.

(** [ValidateOptions.normalize] *)
Definition normalizeValidateOptions (o : option ValidateOptions)
  : ValidateOptions :=
  match o with
  | None => {| GameRoot := []; ExcludePaths := []; DisableFileCheck := true;
               DisableExtensionsCheck := false;
               DisableShaderNameCheck := false |}
  | Some o =>
      if isEmpty (GameRoot o) then
        {| GameRoot := GameRoot o; ExcludePaths := ExcludePaths o;
           DisableFileCheck := true;
           DisableExtensionsCheck := DisableExtensionsCheck o;
           DisableShaderNameCheck := DisableShaderNameCheck o |}
      else o
  end.

(** The tables of known names (the file that declares them is not part
    of the sources at hand): membership in each [map[string]struct{}]. *)
Class Lists := {
  knownPixelShaderID : str -> bool;
  knownVertexShaderID : str -> bool;
  knownStageNames : str -> bool
}.

(** What the validator asks of the host: [path/filepath] and [os.Stat]
    ([statOK p] when [os.Stat(p)] returns no error). *)
Class Host := {
  filepathExt : str -> str;
  filepathIsAbs : str -> bool;
  filepathClean : str -> str;
  filepathJoin : str -> str -> str;
  filepathFromSlash : str -> str;
  statOK : str -> bool
}.

Definition warning (msg : string) (path : str) : Issue :=
  {| Level := IssueWarning; Code := []; Message := lit msg; Path := path |}.

Definition errorIssue (msg : string) (path : str) : Issue :=
  {| Level := IssueError; Code := []; Message := lit msg; Path := path |}.

(** [strings.ReplaceAll] of one character by another. *)
Definition ReplaceRune (s : str) (old new : rune) : str :=
  List.map (fun c => if c =? old then new else c) s.

Section Validator.
Context {U : Unicode} {F : Strconv} {L : Lists} {H : Host}.

(** [validateColor] *)
Definition validateColor (name : string) (vals : list float64) : list Issue :=
  match vals with
  | [] => []
  | _ => if negb (length vals =? 4)%nat
         then [errorIssue "color must have 4 components" (lit name)]
         else []
  end.

(** [hasAllowedExt] over [defaultTextureExts] *)
Definition hasAllowedExt (path : str) : bool :=
  let ext := ToLower (filepathExt path) in
  existsb (fun e => str_eqb ext (ToLower e))
    [lit ".paa"; lit ".pax"; lit ".tga"].

(** [normalizePathForMatch] *)
Definition normalizePathForMatch (p : str) : str :=
  ToLower (ReplaceRune (TrimSpace p) 47 92).

(** [shouldExcludePath] *)
Definition shouldExcludePath (path : str) (patterns : list str) : bool :=
  let norm := normalizePathForMatch path in
  existsb (fun p =>
    if isEmpty p then false
    else
      let pp := normalizePathForMatch p in
      if HasSuffix pp (lit "*") then HasPrefix norm (TrimSuffix pp (lit "*"))
      else str_eqb norm pp) patterns.

(** [hasVolume] *)
Definition hasVolume (p : str) : bool :=
  match p with
  | _ :: c :: _ => c =? 58
  | _ => false
  end.

(** [normalizeOSPath] *)
Definition normalizeOSPath (p : str) : str :=
  filepathFromSlash (ReplaceRune p 92 47).

(** [PathResolver.ResolvePath] *)
Definition ResolvePath (gameRoot raw : str) : str :=
  if isEmpty raw then []
  else
    let norm := normalizeOSPath raw in
    if filepathIsAbs norm || hasVolume norm then filepathClean norm
    else if isEmpty gameRoot then filepathClean norm
    else filepathClean (filepathJoin gameRoot norm).

Definition isProcedural (t : TextureRef) : bool :=
  match Kind t with TextureKindProcedural => true | _ => false end.

(** One turn of the loop of [Validate] over the textures of the stages. *)
Definition textureIssues (vopt : ValidateOptions) (st : Stage) : list Issue :=
  let tex := Texture st in
  if isEmpty (Raw tex) || isProcedural tex then []
  else
    (if negb (DisableExtensionsCheck vopt) && negb (hasAllowedExt (Raw tex))
     then [warning "unexpected texture extension" (Raw tex)] else [])
    ++ (if Contains (Raw tex) (lit "..")
        then [warning "texture path contains '..'" (Raw tex)] else [])
    ++ (if negb (DisableFileCheck vopt) then
          if shouldExcludePath (Raw tex) (ExcludePaths vopt) then []
          else
            let p := ResolvePath (GameRoot vopt) (Raw tex) in
            if negb (isEmpty p) && negb (statOK p)
            then [{| Level := IssueWarning; Code := lit "missing_resource";
                     Message := lit "texture file not found"; Path := p |}]
            else []
        else []).

(** The stage-name check of one turn of the loop over the stages. *)
Definition stageNameIssues (vopt : ValidateOptions) (st : Stage) : list Issue :=
  if negb (DisableShaderNameCheck vopt) && negb (knownStageNames (StageName st))
  then [warning "unknown Stage name" (StageName st)] else [].

(** The UV-wiring check of one turn of the loop over the stages, with its
    early [continue]s. *)
Definition uvWiringIssues (st : Stage) : list Issue :=
  if str_eqb (StageName st) (lit "StageTI") || str_eqb (StageName st) (lit "Stage0")
  then []
  else if str_eqb (StageUVSource st) (lit "none")
          || str_eqb (StageUVSource st) (lit "WorldPos")
  then []
  else if negb (isEmpty (StageTexGen st)) then []
  else
    match StageUVTransform st with
    | None =>
        if isEmpty (StageUVSource st) then
          [warning "stage without texGen missing uvSource" (StageName st);
           warning "stage without texGen missing uvTransform" (StageName st)]
        else
          [warning "stage without texGen missing uvTransform" (StageName st)]
    | Some _ => []
    end.

(** One turn of the loop of [Validate] over the stages. *)
Definition stageIssues (vopt : ValidateOptions) (st : Stage) : list Issue :=
  stageNameIssues vopt st ++ uvWiringIssues st.

(** The loop of [Validate] over the stage names seen so far. *)
Fixpoint duplicateIssues (seen : list str) (stages : list Stage) : list Issue :=
  match stages with
  | [] => []
  | st :: rest =>
      if isEmpty (StageName st) then duplicateIssues seen rest
      else if existsb (str_eqb (StageName st)) seen then
        errorIssue "duplicate Stage name" (StageName st)
          :: duplicateIssues seen rest
      else duplicateIssues (StageName st :: seen) rest
  end.

(** The check of [Validate] for missing shader identifiers. *)
Definition missingShaderIssues (m : Material) : list Issue :=
  match Stages m with
  | [] => []
  | _ =>
      (if isEmpty (PixelShaderID m)
       then [warning "PixelShaderID missing" []] else [])
      ++ (if isEmpty (VertexShaderID m)
          then [warning "VertexShaderID missing" []] else [])
  end.

(** The shader-name check of [Validate]. *)
Definition shaderNameIssues (vopt : ValidateOptions) (m : Material)
  : list Issue :=
  if negb (DisableShaderNameCheck vopt) then
    (if negb (isEmpty (PixelShaderID m))
        && negb (knownPixelShaderID (PixelShaderID m))
     then [warning "unknown PixelShaderID" (PixelShaderID m)] else [])
    ++ (if negb (isEmpty (VertexShaderID m))
           && negb (knownVertexShaderID (VertexShaderID m))
        then [warning "unknown VertexShaderID" (VertexShaderID m)] else [])
  else [].

(** The colour checks of [Validate]. *)
Definition colorIssues (m : Material) : list Issue :=
  validateColor "ambient" (Ambient m)
  ++ validateColor "diffuse" (Diffuse m)
  ++ validateColor "forcedDiffuse" (ForcedDiffuse m)
  ++ validateColor "emmisive" (Emmisive m)
  ++ validateColor "specular" (Specular m).

(** The texture checks of [Validate]. *)
Definition allTextureIssues (vopt : ValidateOptions) (m : Material)
  : list Issue :=
  if negb (DisableFileCheck vopt) || negb (DisableExtensionsCheck vopt)
  then flat_map (textureIssues vopt) (Stages m) else [].

(** [Validate]: the issues of its checks, in the order it appends them. *)
Definition Validate (m : Material) (o : option ValidateOptions) : list Issue :=
  let vopt := normalizeValidateOptions o in
  missingShaderIssues m
  ++ shaderNameIssues vopt m
  ++ colorIssues m
  ++ allTextureIssues vopt m
  ++ flat_map (stageIssues vopt) (Stages m)
  ++ duplicateIssues [] (Stages m).

End Validator.

(* ================================================================== *)
(** ** A reference runtime

    The smallest runtime the classes admit: no letters, digits or spaces
    beyond ASCII, and decimal fixed-point numbers for floats.  It serves
    to run the model on concrete inputs; no general result depends on
    it. *)

Module Ref.

Lemma high_not_quote (r : rune) : 128 <= r -> r <> 34.
Proof. lia. Qed.

#[export] Instance asciiUnicode : Unicode := {|
  LetterHigh := fun _ => false;
  DigitHigh := fun _ => false;
  SpaceHigh := fun _ => false;
  FoldHigh := fun _ _ => false;
  LowerHigh := fun r => r;
  SpaceNotLetter := fun _ _ => eq_refl;
  SpaceNotDigit := fun _ _ => eq_refl;
  LetterNotDigit := fun _ _ => eq_refl;
  LowerNotQuote := high_not_quote
|}.

(** A decimal number [mant / 10 ^ scale], without trailing zeros in the
    fraction. *)
Record dec := mkDec { mant : Z; scale : nat }.

Fixpoint normDec (m : Z) (k : nat) : dec :=
  match k with
  | O => mkDec m O
  | S k' => if m mod 10 =? 0 then normDec (m / 10) k' else mkDec m k
  end.

(** Digits before and after the point. *)
Fixpoint readDigits (s : str) (seenDot : bool) (m : Z) (k : nat) (any : bool)
  : option dec :=
  match s with
  | [] => if any then Some (normDec m k) else None
  | c :: s' =>
      if (48 <=? c) && (c <=? 57) then
        readDigits s' seenDot (m * 10 + (c - 48)) (if seenDot then S k else k) true
      else if (c =? 46) && negb seenDot then readDigits s' true m k any
      else None
  end.

Definition negDec (d : dec) : dec := mkDec (- mant d) (scale d).

Definition parseDec (s : str) : option dec :=
  match s with
  | [] => None
  | c :: s' =>
      if c =? 45 then option_map negDec (readDigits s' false 0 O false)
      else if c =? 43 then readDigits s' false 0 O false
      else readDigits s false 0 O false
  end.

Fixpoint showDigits (fuel : nat) (n : Z) (acc : str) : str :=
  match fuel with
  | O => acc
  | S f => if n <? 10 then (48 + n) :: acc
           else showDigits f (n / 10) ((48 + n mod 10) :: acc)
  end.

Definition showNat (n : Z) : str := showDigits (S (Z.to_nat (Z.log2 n))) n [].

Fixpoint showFrac (k : nat) (n : Z) (acc : str) : str :=
  match k with
  | O => acc
  | S k' => showFrac k' (n / 10) ((48 + n mod 10) :: acc)
  end.

Definition showDec (d : dec) : str :=
  let a := Z.abs (mant d) in
  let p := 10 ^ Z.of_nat (scale d) in
  (if mant d <? 0 then [45] else [])
  ++ showNat (a / p)
  ++ match scale d with
     | O => []
     | S _ => 46 :: showFrac (scale d) (a mod p) []
     end.

#[export] Instance decStrconv : Strconv := {|
  float64 := dec;
  ParseFloat := parseDec;
  FormatFloat := showDec;
  fzero := mkDec 0 O
|}.

(** Tables drawn from the names the tests of the package use: the shader
    [Super] and [Multi], the stages [Stage0] to [Stage5]. *)
#[export] Instance testLists : Lists := {|
  knownPixelShaderID := fun s =>
    existsb (str_eqb s) [lit "Super"; lit "Multi"];
  knownVertexShaderID := fun s =>
    existsb (str_eqb s) [lit "Super"; lit "Multi"];
  knownStageNames := fun s =>
    existsb (str_eqb s)
      [lit "Stage0"; lit "Stage1"; lit "Stage2"; lit "Stage3"; lit "Stage4";
       lit "Stage5"]
|}.

(** A host without files, whose paths are kept as they are. *)
#[export] Instance bareHost : Host := {|
  filepathExt := fun p =>
    match LastIndexRune p 46 with
    | Some i => skipn i p
    | None => []
    end;
  filepathIsAbs := fun p => HasPrefix p (lit "/");
  filepathClean := fun p => p;
  filepathJoin := fun a b => a ++ lit "/" ++ b;
  filepathFromSlash := fun p => p;
  statOK := fun _ => false
|}.

End Ref.

(* ================================================================== *)
(** * Properties *)

(** ** Errors of the parser

    No method of the parser returns [ErrBinaryRVMAT]: the lexer wraps
    [ErrLex] and the parser wraps [ErrParse]. *)

Section Clean.
Context {U : Unicode} {F : Strconv}.
Variable opt : ParseOptions.

Definition clean {A} (c : M A) : Prop :=
  forall p, fst (c p) <> Err ErrBinaryRVMAT.

Lemma clean_ret A (a : A) : clean (ret a).
Proof. intros p; cbn; discriminate. Qed.

Lemma clean_fail A (e : error) : e <> ErrBinaryRVMAT -> clean (@fail A e).
Proof. intros He p; cbn; congruence. Qed.

Lemma clean_bind A B (c : M A) (k : A -> M B) :
  clean c -> (forall a, clean (k a)) -> clean (bind c k).
Proof.
  intros Hc Hk p. unfold bind. specialize (Hc p).
  destruct (c p) as [[a|e] p']; cbn in *.
  - apply Hk.
  - intros Heq; apply Hc; congruence.
Qed.

Lemma readStringLoop_clean n l b :
  snd (fst (readStringLoop n l b)) <> Some ErrBinaryRVMAT.
Proof.
  revert l b; induction n as [|n IH]; intros l b; cbn; [discriminate|].
  destruct (leof l); cbn; [discriminate|].
  destruct (lch l =? 34).
  - destruct (lpeek l =? 34); [apply IH | cbn; discriminate].
  - destruct ((lch l =? 92) && ((lpeek l =? 92) || (lpeek l =? 34))); apply IH.
Qed.

Lemma lnext_clean l : snd (fst (lnext opt l)) <> Some ErrBinaryRVMAT.
Proof.
  unfold lnext. generalize (skipWhitespace opt l) as l1. intros l1.
  destruct (leof l1); [cbn; discriminate|].
  do 8 (destruct (lch l1 =? _); [cbn; discriminate|]).
  destruct (lch l1 =? 34).
  - unfold readString.
    pose proof (readStringLoop_clean (lfuel (lread l1)) (lread l1) []) as Hs.
    destruct (readStringLoop _ _ _) as [[s e] l']. exact Hs.
  - destruct (isIdentStart (lch l1)).
    + destruct (readIdent l1) as [s l'].
      destruct (EqualFold s _); cbn; discriminate.
    + destruct (isNumberStart (lch l1)); [|cbn; discriminate].
      destruct (readNumberOrIdent l1) as [s l'].
      destruct (isValidNumber s); cbn; discriminate.
Qed.

Lemma next_clean : clean (next opt).
Proof.
  intros p. unfold next, lift, nextRaw.
  destruct (pbuf p); cbn; [discriminate|].
  pose proof (lnext_clean (pl p)) as Hl.
  destruct (lnext opt (pl p)) as [[t [e|]] l']; cbn in *; congruence.
Qed.

Lemma peek_clean : clean (peek opt).
Proof.
  intros p. unfold peek, lift, peekRaw.
  destruct (pbuf p); cbn; [discriminate|].
  pose proof (lnext_clean (pl p)) as Hl.
  destruct (lnext opt (pl p)) as [[t [e|]] l']; cbn in *; congruence.
Qed.

Lemma peekAny_clean : clean (peekAny opt).
Proof.
  intros p. unfold peekAny. destruct (peekRaw opt p) as [[t e] p']. cbn.
  discriminate.
Qed.

Lemma skip_clean : clean (skip opt).
Proof.
  intros p. unfold skip. destruct (nextRaw opt p) as [r p']. cbn. discriminate.
Qed.

Create HintDb clean discriminated.
Hint Resolve clean_ret next_clean peek_clean peekAny_clean skip_clean : clean.

Ltac clean_step :=
  match goal with
  | |- clean (bind _ _) => apply clean_bind; [| intros ?]
  | |- clean (ret _) => apply clean_ret
  | |- clean (fail _) => apply clean_fail; unfold errorf; discriminate
  | |- clean (if ?b then _ else _) => destruct b
  | |- clean (match ?x with _ => _ end) => destruct x
  | |- clean (let _ := _ in _) => cbv zeta
  | |- clean _ => solve [auto with clean]
  end.

Ltac clean_tac := repeat clean_step.

Lemma expect_clean tt : clean (expect opt tt).
Proof. unfold expect. clean_tac. Qed.
Hint Resolve expect_clean : clean.

Lemma expectSemicolon_clean : clean (expectSemicolon opt).
Proof. unfold expectSemicolon. clean_tac. Qed.
Hint Resolve expectSemicolon_clean : clean.

Lemma parseBase_clean : clean (parseBase opt).
Proof. unfold parseBase. clean_tac. Qed.

Lemma parseArraySuffix_clean : clean (parseArraySuffix opt).
Proof. unfold parseArraySuffix. clean_tac. Qed.
Hint Resolve parseBase_clean parseArraySuffix_clean : clean.

Lemma parseArrayLoop_clean pv :
  clean pv -> forall n arr, clean (parseArrayLoop opt pv n arr).
Proof.
  intros Hpv n; induction n as [|n IH]; intros arr; cbn.
  - apply clean_fail; discriminate.
  - clean_tac.
Qed.

Lemma parseValue_clean n : clean (parseValue opt n).
Proof.
  induction n as [|n IH]; cbn.
  - apply clean_fail; discriminate.
  - clean_tac. apply parseArrayLoop_clean; exact IH.
Qed.
Hint Resolve parseValue_clean : clean.

Lemma parseNumberArrayLoop_clean relaxed n :
  forall arr, clean (parseNumberArrayLoop opt relaxed n arr).
Proof.
  induction n as [|n IH]; intros arr; cbn.
  - apply clean_fail; discriminate.
  - clean_tac.
Qed.

Lemma parseNumberArray_clean n : clean (parseNumberArray opt n).
Proof.
  unfold parseNumberArray, parseNumberArrayWithRelax. clean_tac.
  apply parseNumberArrayLoop_clean.
Qed.
Hint Resolve parseNumberArray_clean : clean.

Lemma parseNumberValue_clean : clean (parseNumberValue opt).
Proof. unfold parseNumberValue. clean_tac. Qed.

Lemma parseStringValue_clean : clean (parseStringValue opt).
Proof. unfold parseStringValue. clean_tac. Qed.

Lemma parseStringOrNumberValue_clean r : clean (parseStringOrNumberValue opt r).
Proof. unfold parseStringOrNumberValue. clean_tac. Qed.
Hint Resolve parseNumberValue_clean parseStringValue_clean
  parseStringOrNumberValue_clean : clean.

Lemma parseAssign_clean n : clean (parseAssign opt n).
Proof. unfold parseAssign. clean_tac. Qed.
Hint Resolve parseAssign_clean : clean.

Lemma parseBodyLoop_clean pn :
  clean pn -> forall n body, clean (parseBodyLoop opt pn n body).
Proof.
  intros Hpn n; induction n as [|n IH]; intros body; cbn.
  - apply clean_fail; discriminate.
  - clean_tac.
Qed.

Lemma parseNode_clean n : clean (parseNode opt n).
Proof.
  induction n as [|n IH]; cbn.
  - apply clean_fail; discriminate.
  - unfold parseClassWith. clean_tac. apply parseBodyLoop_clean; exact IH.
Qed.

Lemma parseClassBody_clean n name base : clean (parseClassBody opt n name base).
Proof.
  unfold parseClassBody. clean_tac.
  apply parseBodyLoop_clean, parseNode_clean.
Qed.
Hint Resolve parseClassBody_clean : clean.

Lemma parseUVTransformLoop_clean n :
  forall uv, clean (parseUVTransformLoop opt n uv).
Proof.
  induction n as [|n IH]; intros uv; cbn.
  - apply clean_fail; discriminate.
  - clean_tac.
Qed.

Lemma parseUVTransformBody_clean n : clean (parseUVTransformBody opt n).
Proof.
  unfold parseUVTransformBody. clean_tac. apply parseUVTransformLoop_clean.
Qed.
Hint Resolve parseUVTransformBody_clean : clean.

Lemma parseStageLoop_clean n : forall st, clean (parseStageLoop opt n st).
Proof.
  induction n as [|n IH]; intros st; cbn.
  - apply clean_fail; discriminate.
  - unfold parseStageClass, parseStageAssign. clean_tac.
Qed.

Lemma parseTexGenLoop_clean n : forall tg, clean (parseTexGenLoop opt n tg).
Proof.
  induction n as [|n IH]; intros tg; cbn.
  - apply clean_fail; discriminate.
  - unfold parseTexGenClass, parseTexGenAssign. clean_tac.
Qed.

Lemma parseMaterialLoop_clean n : forall m, clean (parseMaterialLoop opt n m).
Proof.
  induction n as [|n IH]; intros m; cbn.
  - apply clean_fail; discriminate.
  - unfold parseTopClass, parseTopAssign, parseStageBody, parseTexGenBody.
    clean_tac;
      first [apply parseStageLoop_clean | apply parseTexGenLoop_clean].
Qed.

End Clean.

(* ================================================================== *)
(** ** Binary input *)

Section Binary.
Context {U : Unicode} {F : Strconv}.

Lemma isBinaryRVMAT_spec (data : list byte) :
  isBinaryRVMAT data = true <->
  exists i, (i < 4096)%nat /\ nth_error data i = Some x00.
Proof.
  unfold isBinaryRVMAT. rewrite existsb_exists. split.
  - intros [b [Hin Hb]]. apply byte_dec_bl in Hb. subst b.
    apply In_nth_error in Hin. destruct Hin as [i Hi].
    rewrite nth_error_firstn in Hi.
    destruct (Nat.ltb_spec i 4096) as [Hlt|Hge]; [|discriminate].
    exists i. split; assumption.
  - intros [i [Hlt Hi]]. exists x00. split; [|reflexivity].
    apply nth_error_In with (n := i). rewrite nth_error_firstn.
    destruct (Nat.ltb_spec i 4096) as [_|Hge]; [assumption|lia].
Qed.

(** C6. [Parse] (and [Decode]) return [ErrBinaryRVMAT] exactly when one
    of the first 4096 bytes of the input is 0x00: such an input is
    rejected whatever the other bytes are, before the lexer is created,
    and an input without a zero byte among its first 4096 bytes never
    gets this error. *)
Theorem binary_rejection (data : list byte) (o : option ParseOptions) :
  (Parse data o = Err ErrBinaryRVMAT <->
   exists i, (i < 4096)%nat /\ nth_error data i = Some x00)
  /\ (Decode data o = Err ErrBinaryRVMAT <->
      exists i, (i < 4096)%nat /\ nth_error data i = Some x00).
Proof.
  assert (Hd : Decode data o = Err ErrBinaryRVMAT <->
               exists i, (i < 4096)%nat /\ nth_error data i = Some x00).
  { rewrite <- isBinaryRVMAT_spec. unfold Decode.
    destruct (isBinaryRVMAT data).
    - split; reflexivity.
    - split; [|discriminate]. intros Hp. exfalso.
      exact (parseMaterialLoop_clean _ _ _ _ Hp). }
  split; exact Hd.
Qed.

End Binary.

(* ================================================================== *)
(** ** The lexer on a given input *)

(** [atInput s l]: the lexer [l] has [s] ahead of it, its current
    character being the first of [s]; at the end of the input the flag is
    set and the current character is 0. *)
Definition atInput (s : list rune) (l : lexer) : Prop :=
  match s with
  | [] => leof l = true /\ lch l = 0 /\ lr l = []
  | c :: s' => leof l = false /\ lch l = c /\ lr l = s'
  end.

(** Input that consists of white space and, when they are enabled, of
    comments: a [//] comment runs to the end of its line or of the input,
    a block comment to its first [*/]. *)
Inductive Blank {U : Unicode} (comments : bool) : list rune -> Prop :=
| Blank_nil : Blank comments []
| Blank_space c s :
    IsSpace c = true -> Blank comments s -> Blank comments (c :: s)
| Blank_line body s :
    comments = true -> ~ In 10 body -> Blank comments s ->
    Blank comments (47 :: 47 :: body ++ 10 :: s)
| Blank_line_end body :
    comments = true -> ~ In 10 body -> Blank comments (47 :: 47 :: body)
| Blank_block body s :
    comments = true -> Contains body [42; 47] = false -> Blank comments s ->
    Blank comments (47 :: 42 :: body ++ 42 :: 47 :: s).

Section LexerFacts.
Context {U : Unicode} {F : Strconv}.
Variable opt : ParseOptions.

Lemma HasPrefix_nil (s : str) : HasPrefix s [] = true.
Proof. destruct s; reflexivity. Qed.

Lemma atInput_cons c s l :
  atInput (c :: s) l -> leof l = false /\ lch l = c /\ lr l = s.
Proof. exact (fun H => H). Qed.

Lemma atInput_nil l :
  atInput [] l -> leof l = true /\ lch l = 0 /\ lr l = [].
Proof. exact (fun H => H). Qed.

Lemma lread_at c s l : atInput (c :: s) l -> atInput s (lread l).
Proof.
  intros (He & Hc & Hr). unfold lread. rewrite Hr.
  destruct s as [|d s']; cbn.
  - auto.
  - destruct (d =? 10); cbn; auto.
Qed.

Lemma lread_at_nil l : atInput [] l -> atInput [] (lread l).
Proof.
  intros (He & Hc & Hr). unfold lread. rewrite Hr. cbn. auto.
Qed.

Lemma lpeek_at c s l : atInput (c :: s) l -> lpeek l = hd 0 s.
Proof.
  intros (_ & _ & Hr). unfold lpeek. rewrite Hr. destruct s; reflexivity.
Qed.

Lemma lfuel_at s l : atInput s l -> (length s < lfuel l)%nat.
Proof.
  unfold lfuel. destruct s as [|c s]; cbn.
  - intros _. lia.
  - intros (_ & _ & Hr). rewrite Hr. lia.
Qed.

Lemma leof_at s l : atInput s l -> leof l = isEmpty s.
Proof. destruct s; cbn; intuition. Qed.

Lemma IsSpace_0 : IsSpace 0 = false.
Proof. reflexivity. Qed.

(** One more white-space character in front does not change where
    [skipWhitespace] stops. *)
Lemma skipWhitespaceLoop_space n c s l :
  atInput (c :: s) l -> IsSpace c = true ->
  skipWhitespaceLoop opt (S n) l = skipWhitespaceLoop opt (S n) (lread l).
Proof.
  intros Hat Hsp. pose proof Hat as (He & Hc & Hr).
  pose proof (lread_at _ _ _ Hat) as Hat'.
  cbn [skipWhitespaceLoop]. unfold lfuel at 1. rewrite Hr.
  cbn [skipSpaces]. rewrite Hc, Hsp.
  destruct s as [|d s'].
  - destruct Hat' as (He' & Hc' & Hr'). rewrite He'.
    unfold lfuel. rewrite Hr'. cbn [length skipSpaces].
    rewrite Hc', IsSpace_0. cbv beta iota. rewrite Hc'.
    replace (0 =? 47) with false by reflexivity.
    rewrite andb_false_r. reflexivity.
  - destruct Hat' as (He' & Hc' & Hr'). rewrite He'.
    unfold lfuel. rewrite Hr'. reflexivity.
Qed.

Lemma skipWhitespaceLoop_nil n l :
  atInput [] l -> skipWhitespaceLoop opt (S n) l = l.
Proof.
  intros (He & Hc & Hr). cbn [skipWhitespaceLoop]. unfold lfuel. rewrite Hr.
  cbn [length skipSpaces]. rewrite Hc, IsSpace_0. cbv beta iota. rewrite Hc.
  replace (0 =? 47) with false by reflexivity.
  rewrite andb_false_r. reflexivity.
Qed.

Lemma skipLine_body body rest l n :
  ~ In 10 body -> atInput (body ++ rest) l -> (length body <= n)%nat ->
  (rest = [] \/ hd 0 rest = 10) ->
  atInput rest (skipLine n l).
Proof.
  revert l n; induction body as [|c body IH]; intros l n Hnl Hat Hn Hrest.
  - cbn in Hat. destruct n as [|n]; [exact Hat|].
    cbn [skipLine]. destruct rest as [|d rest].
    + pose proof Hat as (He & _). rewrite He. rewrite andb_false_r.
      exact Hat.
    + destruct Hrest as [Hr|Hr]; [discriminate|]. cbn in Hr. subst d.
      pose proof Hat as (He & Hc & Hr). rewrite Hc. exact Hat.
  - destruct n as [|n]; [cbn in Hn; lia|].
    cbn [skipLine]. cbn [app] in Hat. pose proof Hat as (He & Hc & Hr).
    rewrite Hc, He.
    assert (Hc10 : (c =? 10) = false).
    { apply Z.eqb_neq. intros ->. apply Hnl. left. reflexivity. }
    rewrite Hc10. cbn [negb andb].
    apply IH.
    + intros Hin. apply Hnl. right. exact Hin.
    + apply lread_at with (c := c). exact Hat.
    + cbn in Hn. lia.
    + exact Hrest.
Qed.

Lemma Contains_cons_false c s sub :
  Contains (c :: s) sub = false ->
  HasPrefix (c :: s) sub = false /\ Contains s sub = false.
Proof. cbn [Contains]. intros H. apply orb_false_iff in H. exact H. Qed.

Lemma skipBlock_body body rest l n :
  Contains body [42; 47] = false ->
  atInput (body ++ 42 :: 47 :: rest) l -> (length body < n)%nat ->
  exists l', skipBlock n l = (l', false) /\ atInput rest l'.
Proof.
  revert l n; induction body as [|c body IH]; intros l n Hno Hat Hn.
  - destruct n as [|n]; [lia|]. cbn [app] in Hat.
    cbn [skipBlock]. pose proof Hat as (He & Hc & Hr).
    rewrite He, Hc. rewrite (lpeek_at _ _ _ Hat). cbn [hd].
    replace ((42 =? 42) && (47 =? 47)) with true by reflexivity.
    eexists. split; [reflexivity|].
    apply lread_at with (c := 47). apply lread_at with (c := 42). exact Hat.
  - destruct n as [|n]; [cbn in Hn; lia|]. cbn [app] in Hat.
    apply Contains_cons_false in Hno. destruct Hno as [Hp Hno].
    cbn [skipBlock]. pose proof Hat as (He & Hc & Hr).
    rewrite He, Hc. rewrite (lpeek_at _ _ _ Hat).
    assert (Hchk : (c =? 42) && (hd 0 (body ++ 42 :: 47 :: rest) =? 47) = false).
    { destruct body as [|d body]; cbn [app hd].
      - replace (42 =? 47) with false by reflexivity. apply andb_false_r.
      - change (HasPrefix (c :: d :: body) [42; 47])
          with ((c =? 42) && ((d =? 47) && HasPrefix body [])) in Hp.
        rewrite HasPrefix_nil in Hp.
        destruct (c =? 42), (d =? 47); cbn in Hp |- *; congruence. }
    rewrite Hchk.
    apply IH; [exact Hno| |cbn in Hn; lia].
    apply lread_at with (c := c). exact Hat.
Qed.

Lemma skipSpaces_nonspace n c s l :
  atInput (c :: s) l -> IsSpace c = false -> skipSpaces (S n) l = (l, false).
Proof.
  intros (He & Hc & Hr) Hsp. cbn [skipSpaces]. rewrite Hc, Hsp. reflexivity.
Qed.

(** On blank input [skipWhitespace] reaches the end of the input. *)
Lemma skipWhitespaceLoop_blank s :
  Blank (negb (DisableComments opt)) s ->
  forall l n, atInput s l -> (length s < n)%nat ->
  atInput [] (skipWhitespaceLoop opt n l).
Proof.
  induction 1 as [|c s Hsp Hb IH|body s Hcm Hnl Hb IH|body Hcm Hnl
                  |body s Hcm Hno Hb IH]; intros l n Hat Hn.
  - destruct n as [|n]; [lia|]. rewrite skipWhitespaceLoop_nil by exact Hat.
    exact Hat.
  - destruct n as [|n]; [lia|].
    rewrite (skipWhitespaceLoop_space n _ _ _ Hat Hsp).
    apply IH; [apply lread_at with (c := c); exact Hat | cbn in Hn; lia].
  - destruct n as [|n]; [lia|]. cbn [skipWhitespaceLoop].
    pose proof Hat as (He & Hc & Hr).
    unfold lfuel at 1. rewrite (skipSpaces_nonspace _ _ _ _ Hat) by reflexivity.
    rewrite Hcm, Hc. rewrite (lpeek_at _ _ _ Hat). cbn [hd].
    replace (47 =? 47) with true by reflexivity. cbn [andb].
    set (l2 := lread (lread l)).
    assert (Hat2 : atInput (body ++ 10 :: s) l2).
    { apply lread_at with (c := 47). apply lread_at with (c := 47). exact Hat. }
    assert (Hat3 : atInput (10 :: s) (skipLine (lfuel l2) l2)).
    { apply skipLine_body with (body := body); auto.
      pose proof (lfuel_at _ _ Hat2) as Hf. rewrite length_app in Hf. lia. }
    cbn [length] in Hn. rewrite length_app in Hn. cbn [length] in Hn.
    destruct n as [|n]; [lia|].
    rewrite (skipWhitespaceLoop_space n _ _ _ Hat3) by reflexivity.
    apply IH; [apply lread_at with (c := 10); exact Hat3 | lia].
  - destruct n as [|n]; [lia|]. cbn [skipWhitespaceLoop].
    pose proof Hat as (He & Hc & Hr).
    unfold lfuel at 1. rewrite (skipSpaces_nonspace _ _ _ _ Hat) by reflexivity.
    rewrite Hcm, Hc. rewrite (lpeek_at _ _ _ Hat). cbn [hd].
    replace (47 =? 47) with true by reflexivity. cbn [andb].
    set (l2 := lread (lread l)).
    assert (Hat2 : atInput (body ++ []) l2).
    { rewrite app_nil_r.
      apply lread_at with (c := 47). apply lread_at with (c := 47). exact Hat. }
    assert (Hat3 : atInput [] (skipLine (lfuel l2) l2)).
    { apply skipLine_body with (body := body); auto.
      pose proof (lfuel_at _ _ Hat2) as Hf. rewrite length_app in Hf. lia. }
    cbn [length] in Hn.
    destruct n as [|n]; [lia|].
    rewrite skipWhitespaceLoop_nil by exact Hat3. exact Hat3.
  - destruct n as [|n]; [lia|]. cbn [skipWhitespaceLoop].
    pose proof Hat as (He & Hc & Hr).
    unfold lfuel at 1. rewrite (skipSpaces_nonspace _ _ _ _ Hat) by reflexivity.
    rewrite Hcm, Hc. rewrite (lpeek_at _ _ _ Hat). cbn [hd].
    replace (47 =? 47) with true by reflexivity.
    replace (42 =? 47) with false by reflexivity.
    replace (42 =? 42) with true by reflexivity. cbn [andb].
    set (l2 := lread (lread l)).
    assert (Hat2 : atInput (body ++ 42 :: 47 :: s) l2).
    { apply lread_at with (c := 42). apply lread_at with (c := 47). exact Hat. }
    destruct (skipBlock_body body s l2 (lfuel l2) Hno Hat2) as (l3 & Hl3 & Hat3).
    { pose proof (lfuel_at _ _ Hat2) as Hf. rewrite length_app in Hf. lia. }
    rewrite Hl3.
    cbn [length] in Hn. rewrite length_app in Hn. cbn [length] in Hn.
    apply IH; [exact Hat3 | lia].
Qed.

Lemma newLexer_at input :
  atInput input (newLexer input)
  \/ exists s, input = 65279 :: s /\ atInput s (newLexer input).
Proof.
  unfold newLexer.
  assert (Hat : atInput input (lread (mkLexer input 0 false 1 0))).
  { unfold lread. cbn [lr]. destruct input as [|c s]; cbn; auto.
    destruct (c =? 10); cbn; auto. }
  destruct input as [|c s].
  - left. destruct Hat as (He & Hc & Hr). rewrite Hc. cbn. auto.
  - pose proof Hat as (He & Hc & Hr). rewrite Hc.
    destruct (Z.eqb_spec c 65279) as [->|Hne].
    + right. exists s. split; [reflexivity|].
      apply lread_at with (c := 65279). exact Hat.
    + left. exact Hat.
Qed.

End LexerFacts.

(* ================================================================== *)
(** ** Blank input *)

Section BlankInput.
Context {U : Unicode} {F : Strconv}.

Lemma lnext_blank opt s l :
  Blank (negb (DisableComments opt)) s -> atInput s l ->
  exists line col l',
    lnext opt l = ((mkToken [] tokEOF line col, None), l').
Proof.
  intros Hb Hat. unfold lnext, skipWhitespace.
  pose proof (skipWhitespaceLoop_blank _ _ Hb l _ Hat (lfuel_at _ _ Hat)) as Hend.
  destruct Hend as (He & _). rewrite He. eauto.
Qed.

Lemma parseMaterial_blank opt s l n :
  Blank (negb (DisableComments opt)) s -> atInput s l ->
  fst (parseMaterial opt (S n) (mkParser l None)) = Ok Material0.
Proof.
  intros Hb Hat.
  destruct (lnext_blank _ _ _ Hb Hat) as (line & col & l' & Hl).
  unfold parseMaterial. cbn [parseMaterialLoop].
  unfold bind, peek, lift, peekRaw. cbn [pbuf pl]. rewrite Hl. reflexivity.
Qed.

(** C10, as the code has it. Parsing the empty input returns the empty
    [Material]; so does parsing any input that has no 0x00 among its
    first 4096 bytes and consists only of white space and, when comments
    are enabled, of comments. *)
Theorem blank_input_parses :
  (forall o, Parse [] o = Ok Material0)
  /\ (forall (data : list byte) (o : option ParseOptions),
        isBinaryRVMAT data = false ->
        Blank (negb (DisableComments (normalizeParseOptions o)))
          (utf8_decode data) ->
        Parse data o = Ok Material0).
Proof.
  assert (Hgen : forall (data : list byte) (o : option ParseOptions),
             isBinaryRVMAT data = false ->
             Blank (negb (DisableComments (normalizeParseOptions o)))
               (utf8_decode data) ->
             Parse data o = Ok Material0).
  { intros data o Hbin Hb. unfold Parse, Decode. rewrite Hbin.
    unfold newParser.
    destruct (newLexer_at (utf8_decode data)) as [Hat|(s & Hs & Hat)].
    - exact (parseMaterial_blank _ _ _ _ Hb Hat).
    - rewrite Hs in Hb.
      assert (Hb' : Blank (negb (DisableComments (normalizeParseOptions o))) s).
      { inversion Hb; subst; assumption. }
      exact (parseMaterial_blank _ _ _ _ Hb' Hat). }
  split; [|exact Hgen].
  intros o. apply Hgen; [reflexivity|]. cbn. constructor.
Qed.

End BlankInput.

(** The second part of C10 at a comment, a line end, a block comment and
    a tab. *)
Lemma blank_input_parses_witness :
  Parse (U := Ref.asciiUnicode) (F := Ref.decStrconv)
    (bytes_of "// c" ++ [x0a] ++ bytes_of "/* d */" ++ [x09]) None
  = Ok Material0.
Proof.
  apply (proj2 (blank_input_parses (U := Ref.asciiUnicode) (F := Ref.decStrconv))).
  - reflexivity.
  - change (Blank (U := Ref.asciiUnicode) true
              (47 :: 47 :: [32; 99] ++ 10 :: 47 :: 42 :: [32; 100; 32] ++ 42 :: 47 :: [9])).
    apply Blank_line; [reflexivity| cbn; intuition discriminate |].
    apply Blank_block; [reflexivity|reflexivity|].
    apply Blank_space; [reflexivity|]. apply Blank_nil.
Defined.

(** C10 as stated fails on a comment that holds a zero byte: the input
    consists of one comment, and it is rejected as binary. *)
Lemma blank_input_counterexample :
  ~ (forall (U : Unicode) (F : Strconv) (data : list byte)
            (o : option ParseOptions),
       Blank (negb (DisableComments (normalizeParseOptions o)))
         (utf8_decode data) ->
       Parse data o = Ok Material0).
Proof.
  intros Hall.
  specialize (Hall Ref.asciiUnicode Ref.decStrconv [x2f; x2f; x00] None).
  assert (Hb : Blank (U := Ref.asciiUnicode) true [47; 47; 0]).
  { apply (Blank_line_end true [0]); [reflexivity|].
    cbn; intuition discriminate. }
  specialize (Hall Hb). discriminate Hall.
Qed.

(* ================================================================== *)
(** ** The parser on a given token *)

Section ParserFacts.
Context {U : Unicode} {F : Strconv}.
Variable opt : ParseOptions.

(** [Next p t p']: the next token of the parser [p] is [t], and reading
    it leaves the parser [p']. *)
Definition Next (p : parser) (t : token) (p' : parser) : Prop :=
  nextRaw opt p = ((t, None), p').

Lemma next_Next p t p' : Next p t p' -> next opt p = (Ok t, p').
Proof. unfold Next, next, lift. intros ->. reflexivity. Qed.

Lemma skip_Next p t p' : Next p t p' -> skip opt p = (Ok tt, p').
Proof. unfold Next, skip. intros ->. reflexivity. Qed.

Lemma peekRaw_Next p t p' :
  Next p t p' -> exists q, peekRaw opt p = ((t, None), q) /\ Next q t p'.
Proof.
  unfold Next, nextRaw, peekRaw. destruct (pbuf p) as [t0|] eqn:Hb.
  - intros Heq. injection Heq as -> <-. exists p. split; [reflexivity|].
    rewrite Hb. reflexivity.
  - destruct (lnext opt (pl p)) as [[t1 e] l'].
    intros Heq. injection Heq as -> -> <-.
    eexists. split; reflexivity.
Qed.

Lemma peek_Next p t p' :
  Next p t p' -> exists q, peek opt p = (Ok t, q) /\ Next q t p'.
Proof.
  intros Hn. destruct (peekRaw_Next _ _ _ Hn) as (q & Hq & Hn').
  exists q. unfold peek, lift. rewrite Hq. auto.
Qed.

Lemma peekAny_Next p t p' :
  Next p t p' -> exists q, peekAny opt p = (Ok t, q) /\ Next q t p'.
Proof.
  intros Hn. destruct (peekRaw_Next _ _ _ Hn) as (q & Hq & Hn').
  exists q. unfold peekAny. rewrite Hq. auto.
Qed.

Lemma expect_Next p t p' tt :
  Next p t p' ->
  expect opt tt p =
    if tokenType_eqb (Type_ t) tt then (Ok t, p')
    else (Err (errorf t (lit "expected " ++ tokenName tt)), p').
Proof.
  intros Hn. unfold expect, bind. rewrite (next_Next _ _ _ Hn).
  destruct (tokenType_eqb (Type_ t) tt); reflexivity.
Qed.

Lemma tokenType_eqb_eq a b : tokenType_eqb a b = true <-> a = b.
Proof. destruct a, b; cbn; split; congruence. Qed.

Lemma tokenType_eqb_refl a : tokenType_eqb a a = true.
Proof. destruct a; reflexivity. Qed.

Lemma tokenType_eqb_neq a b : a <> b -> tokenType_eqb a b = false.
Proof.
  intros Hne. destruct (tokenType_eqb a b) eqn:He; [|reflexivity].
  apply tokenType_eqb_eq in He. contradiction.
Qed.

(** *** Numeric arrays *)

(** The elements of an array as the parser meets them after the opening
    brace: element tokens, each followed by a comma or by the closing
    brace. *)
Inductive Elems : parser -> list token -> parser -> Prop :=
| Elems_close p rb p' :
    Next p rb p' -> Type_ rb = tokRBrace -> Elems p [] p'
| Elems_last p e p1 p' :
    Next p e p1 -> Type_ e <> tokRBrace -> Elems p1 [] p' ->
    Elems p [e] p'
| Elems_comma p e p1 c p2 es p' :
    Next p e p1 -> Type_ e <> tokRBrace ->
    Next p1 c p2 -> Type_ c = tokComma ->
    Elems p2 es p' ->
    Elems p (e :: es) p'.

(** What the loop of [parseNumberArrayWithRelax] makes of the element
    tokens. *)
Fixpoint numbersOf (relaxed : bool) (es : list token) : res (list float64) :=
  match es with
  | [] => Ok []
  | e :: es' =>
      match parseNumberToken e with
      | Some f =>
          match numbersOf relaxed es' with
          | Ok fs => Ok (f :: fs)
          | Err err => Err err
          end
      | None =>
          if relaxed then
            match numbersOf relaxed es' with
            | Ok fs => Ok (fzero :: fs)
            | Err err => Err err
            end
          else Err (errorf e (lit "expected number"))
      end
  end.

Lemma parseNumberArrayLoop_close relaxed n arr p rb p' :
  Next p rb p' -> Type_ rb = tokRBrace ->
  parseNumberArrayLoop opt relaxed (S n) arr p = (Ok arr, p').
Proof.
  intros Hn Hrb. cbn [parseNumberArrayLoop]. unfold bind at 1.
  destruct (peek_Next _ _ _ Hn) as (q & Hq & Hn'). rewrite Hq.
  rewrite Hrb. cbn [tokenType_eqb]. unfold bind.
  rewrite (skip_Next _ _ _ Hn'). reflexivity.
Qed.

(** The loop after it has appended an element. *)
Definition afterElement (relaxed : bool) (n : nat) (arr : list float64)
  : M (list float64) :=
  tok <- peek opt ;;
  if tokenType_eqb (Type_ tok) tokComma then
    skip opt ;;; parseNumberArrayLoop opt relaxed n arr
  else if tokenType_eqb (Type_ tok) tokRBrace then
    parseNumberArrayLoop opt relaxed n arr
  else fail (errorf tok (lit "expected ',' or '}' in array")).

Lemma parseNumberArrayLoop_element relaxed n arr p e p1 :
  Next p e p1 -> Type_ e <> tokRBrace ->
  parseNumberArrayLoop opt relaxed (S n) arr p =
  match parseNumberToken e with
  | Some f => afterElement relaxed n (arr ++ [f]) p1
  | None =>
      if relaxed then afterElement relaxed n (arr ++ [fzero]) p1
      else (Err (errorf e (lit "expected number")), p1)
  end.
Proof.
  intros Hn He. cbn [parseNumberArrayLoop]. unfold bind at 1.
  destruct (peek_Next _ _ _ Hn) as (q & Hq & Hn'). rewrite Hq.
  rewrite (tokenType_eqb_neq _ _ He). unfold bind at 1.
  rewrite (next_Next _ _ _ Hn').
  destruct (parseNumberToken e); [reflexivity|].
  destruct relaxed; reflexivity.
Qed.

Lemma afterElement_comma relaxed n arr p c p2 :
  Next p c p2 -> Type_ c = tokComma ->
  afterElement relaxed n arr p = parseNumberArrayLoop opt relaxed n arr p2.
Proof.
  intros Hn Hc. unfold afterElement, bind.
  destruct (peek_Next _ _ _ Hn) as (q & Hq & Hn'). rewrite Hq.
  rewrite Hc. cbn [tokenType_eqb]. rewrite (skip_Next _ _ _ Hn'). reflexivity.
Qed.

Lemma afterElement_close relaxed n arr p rb p' :
  Next p rb p' -> Type_ rb = tokRBrace ->
  afterElement relaxed (S n) arr p = (Ok arr, p').
Proof.
  intros Hn Hrb. unfold afterElement, bind at 1.
  destruct (peek_Next _ _ _ Hn) as (q & Hq & Hn'). rewrite Hq.
  rewrite Hrb. cbn [tokenType_eqb].
  eapply parseNumberArrayLoop_close; eassumption.
Qed.

Definition outcome {A} (r : res A) (p' : parser) (x : res A * parser) : Prop :=
  fst x = r /\ (forall a, r = Ok a -> snd x = p').

Lemma parseNumberArrayLoop_elems relaxed p es p' :
  Elems p es p' ->
  forall n arr, (length es < n)%nat ->
  outcome (match numbersOf relaxed es with
           | Ok fs => Ok (arr ++ fs)
           | Err e => Err e
           end) p' (parseNumberArrayLoop opt relaxed n arr p).
Proof.
  induction 1 as [p rb p' Hn Hrb
                 |p e p1 p' Hn He Hcl IH
                 |p e p1 c p2 es p' Hn He Hc Hcc Hes IH]; intros n arr Hlen.
  - destruct n as [|n]; [lia|]. cbn [numbersOf]. rewrite app_nil_r.
    rewrite (parseNumberArrayLoop_close relaxed n arr _ _ _ Hn Hrb).
    split; [reflexivity|auto].
  - destruct n as [|n]; [cbn in Hlen; lia|].
    destruct n as [|n]; [cbn in Hlen; lia|].
    rewrite (parseNumberArrayLoop_element relaxed (S n) arr _ _ _ Hn He).
    inversion Hcl as [p0 rb p0' Hnrb Hrb| |]; subst.
    cbn [numbersOf].
    destruct (parseNumberToken e) as [f|].
    + rewrite (afterElement_close relaxed n _ _ _ _ Hnrb Hrb).
      split; [reflexivity|auto].
    + destruct relaxed.
      * rewrite (afterElement_close true n _ _ _ _ Hnrb Hrb).
        split; [reflexivity|auto].
      * split; [reflexivity|discriminate].
  - destruct n as [|n]; [cbn in Hlen; lia|].
    assert (Hlen' : (length es < n)%nat) by (cbn in Hlen; lia).
    rewrite (parseNumberArrayLoop_element relaxed n arr _ _ _ Hn He).
    cbn [numbersOf].
    destruct (parseNumberToken e) as [f|].
    + rewrite (afterElement_comma relaxed n _ _ _ _ Hc Hcc).
      specialize (IH n (arr ++ [f]) Hlen').
      destruct (numbersOf relaxed es) as [fs|err].
      * rewrite <- app_assoc in IH. exact IH.
      * exact IH.
    + destruct relaxed.
      * rewrite (afterElement_comma true n _ _ _ _ Hc Hcc).
        specialize (IH n (arr ++ [fzero]) Hlen').
        destruct (numbersOf true es) as [fs|err].
        -- rewrite <- app_assoc in IH. exact IH.
        -- exact IH.
      * split; [reflexivity|discriminate].
Qed.

(** [parseNumberArrayWithRelax] on [{], the elements and [}]. *)
Lemma parseNumberArrayWithRelax_elems relaxed p lb p1 es p' n :
  Next p lb p1 -> Type_ lb = tokLBrace -> Elems p1 es p' ->
  (length es < n)%nat ->
  outcome (numbersOf relaxed es) p' (parseNumberArrayWithRelax opt relaxed n p).
Proof.
  intros Hn Hlb Hes Hlen. unfold parseNumberArrayWithRelax, bind.
  rewrite (expect_Next _ _ _ tokLBrace Hn). rewrite Hlb. cbn [tokenType_eqb].
  pose proof (parseNumberArrayLoop_elems relaxed _ _ _ Hes n [] Hlen) as Hl.
  cbn [app] in Hl. destruct (numbersOf relaxed es); exact Hl.
Qed.

(** In relaxed mode the loop never fails on an element. *)
Lemma numbersOf_relaxed es :
  numbersOf true es =
  Ok (List.map (fun e => match parseNumberToken e with
                         | Some f => f
                         | None => fzero
                         end) es).
Proof.
  induction es as [|e es IH]; cbn [numbersOf List.map]; [reflexivity|].
  rewrite IH. destruct (parseNumberToken e); reflexivity.
Qed.

(** In strict mode it fails at the first element that does not convert,
    and only then. *)
Lemma numbersOf_strict es :
  (forall fs, numbersOf false es = Ok fs <->
              Forall2 (fun e f => parseNumberToken e = Some f) es fs)
  /\ (forall err, numbersOf false es = Err err <->
        exists pre e post,
          es = pre ++ e :: post
          /\ Forall (fun x => parseNumberToken x <> None) pre
          /\ parseNumberToken e = None
          /\ err = errorf e (lit "expected number")).
Proof.
  induction es as [|e es [IHok IHerr]]; cbn [numbersOf].
  - split.
    + intros fs. split.
      * intros Heq. injection Heq as <-. constructor.
      * intros Hf. inversion Hf. reflexivity.
    + intros err. split; [discriminate|].
      intros (pre & e & post & Heq & _). destruct pre; discriminate.
  - split.
    + intros fs. destruct (parseNumberToken e) as [f|] eqn:Hp.
      * destruct (numbersOf false es) as [fs'|err'] eqn:Hn.
        -- split.
           ++ intros Heq. injection Heq as <-. constructor; [exact Hp|].
              apply IHok. reflexivity.
           ++ intros Hf. inversion Hf as [|? f0 ? fs0 Hpf Hrest]; subst.
              apply IHok in Hrest. rewrite Hp in Hpf. congruence.
        -- split; [discriminate|].
           intros Hf. inversion Hf as [|? f0 ? fs0 Hpf Hrest]; subst.
           apply IHok in Hrest. discriminate.
      * split; [discriminate|].
        intros Hf. inversion Hf as [|? f0 ? fs0 Hpf Hrest]; subst.
        rewrite Hp in Hpf. discriminate.
    + intros err. destruct (parseNumberToken e) as [f|] eqn:Hp.
      * destruct (numbersOf false es) as [fs'|err'] eqn:Hn.
        -- split; [discriminate|].
           intros (pre & e0 & post & Heq & Hpre & He0 & Herr).
           destruct pre as [|x pre]; cbn in Heq; injection Heq as <- Hes.
           ++ rewrite Hp in He0. discriminate.
           ++ assert (Hx : @Ok (list float64) fs' = Err err).
              { apply IHerr. exists pre, e0, post.
                inversion Hpre; subst. auto. }
              discriminate.
        -- split.
           ++ intros Heq. injection Heq as <-.
              destruct (proj1 (IHerr err') eq_refl)
                as (pre & e0 & post & Heq & Hpre & He0 & Herr).
              exists (e :: pre), e0, post. subst es. split; [reflexivity|].
              split; [|auto]. constructor; [congruence|exact Hpre].
           ++ intros (pre & e0 & post & Heq & Hpre & He0 & Herr).
              destruct pre as [|x pre]; cbn in Heq; injection Heq as <- Hes.
              ** rewrite Hp in He0. discriminate.
              ** apply IHerr. exists pre, e0, post.
                 inversion Hpre; subst. auto.
      * split.
        -- intros Heq. injection Heq as <-.
           exists [], e, es. repeat split; auto.
        -- intros (pre & e0 & post & Heq & Hpre & He0 & Herr).
           destruct pre as [|x pre]; cbn in Heq; injection Heq as <- Hes.
           ++ subst. reflexivity.
           ++ inversion Hpre; subst. contradiction.
Qed.

End ParserFacts.

(* ================================================================== *)
(** ** Numeric arrays: relaxed and strict numbers *)

Definition strictOptions : ParseOptions :=
  {| DisableCaseInsensitive := false;
     DisableComments := false;
     DisableRelaxedNumbers := true |}.

(** The input of the test [TestRelaxedNumbers]. *)
Definition relaxedExample : list byte :=
  src "diffuse[] = {0.75, 1.5, '1.25.1', 0.0};".

(** A string element with a trailing dot. *)
Definition trailingDotExample : list byte :=
  src "diffuse[] = {'2.5.'};".

Lemma str_eqb_eq (a b : str) : str_eqb a b = true <-> a = b.
Proof.
  revert b; induction a as [|x a IH]; intros [|y b]; cbn;
    try (split; congruence).
  rewrite andb_true_iff, Z.eqb_eq, IH. split.
  - intros [-> ->]. reflexivity.
  - intros Heq. injection Heq as -> ->. auto.
Qed.

(** A conversion table in front of [ParseFloat]. *)
Fixpoint lookupFloat {T} (tbl : list (str * option T)) (pf : str -> option T)
  (s : str) : option T :=
  match tbl with
  | [] => pf s
  | (k, r) :: tbl' => if str_eqb s k then r else lookupFloat tbl' pf s
  end.

Lemma lookupFloat_same {T} (tbl : list (str * option T)) (pf : str -> option T) :
  Forall (fun kr => pf (fst kr) = snd kr) tbl ->
  pf = lookupFloat tbl pf.
Proof.
  intros Hall. apply functional_extensionality. intros s.
  induction Hall as [|[k r] tbl Hk _ IH]; cbn [lookupFloat]; [reflexivity|].
  destruct (str_eqb s k) eqn:He.
  - apply str_eqb_eq in He. subst s. exact Hk.
  - exact IH.
Qed.

Section NumberArrays.
Context {U : Unicode}.

Lemma relaxedExample_relaxed (F : Strconv) (a b : float64) :
  ParseFloat (lit "0.75") = Some a ->
  ParseFloat (lit "1.5") = Some b ->
  ParseFloat (lit "1.25.1") = None ->
  ParseFloat (lit "0.0") = Some fzero ->
  Parse relaxedExample None = Ok (mSetDiffuse Material0 [a; b; fzero; fzero]).
Proof.
  destruct F as [T pf ff z]. cbn [float64 ParseFloat fzero] in *.
  intros Ha Hb Hbad Hz.
  rewrite (lookupFloat_same
             [(lit "0.75", Some a); (lit "1.5", Some b);
              (lit "1.25.1", None); (lit "0.0", Some z)] pf)
    by (repeat constructor; assumption).
  vm_compute. reflexivity.
Qed.

Lemma relaxedExample_strict (F : Strconv) (a b : float64) :
  ParseFloat (lit "0.75") = Some a ->
  ParseFloat (lit "1.5") = Some b ->
  ParseFloat (lit "1.25.1") = None ->
  Parse relaxedExample (Some strictOptions)
  = Err (ErrParse 1 25 (lit "expected number")).
Proof.
  destruct F as [T pf ff z]. cbn [float64 ParseFloat fzero] in *.
  intros Ha Hb Hbad.
  rewrite (lookupFloat_same
             [(lit "0.75", Some a); (lit "1.5", Some b);
              (lit "1.25.1", None)] pf)
    by (repeat constructor; assumption).
  vm_compute. reflexivity.
Qed.

Lemma trailingDotExample_strict (F : Strconv) (f : float64) :
  ParseFloat (lit "2.5") = Some f ->
  Parse trailingDotExample (Some strictOptions)
  = Ok (mSetDiffuse Material0 [f]).
Proof.
  destruct F as [T pf ff z]. cbn [float64 ParseFloat fzero] in *.
  intros Hf.
  rewrite (lookupFloat_same [(lit "2.5", Some f)] pf)
    by (repeat constructor; assumption).
  vm_compute. reflexivity.
Qed.

End NumberArrays.

Section NumberArrayClaims.
Context {U : Unicode} {F : Strconv}.

(** C7. With [ParseFloat] converting [0.75], [1.5] and [0.0] and rejecting
    [1.25.1], parsing [diffuse[] = {0.75, 1.5, "1.25.1", 0.0};] with the
    default options gives exactly the diffuse array [0.75, 1.5, 0, 0],
    and with relaxed numbers disabled it fails with the parse error
    "expected number" at the position of the string token (line 1,
    column 25).  In general, for the element tokens [es] of any numeric
    array: relaxed mode puts 0 for each element that does not convert
    and succeeds; strict mode fails exactly when some element does not
    convert, with the parse error at the first such token. *)
Theorem relaxed_number_tolerance (a b : float64) :
  ParseFloat (lit "0.75") = Some a ->
  ParseFloat (lit "1.5") = Some b ->
  ParseFloat (lit "1.25.1") = None ->
  ParseFloat (lit "0.0") = Some fzero ->
  Parse relaxedExample None = Ok (mSetDiffuse Material0 [a; b; fzero; fzero])
  /\ Parse relaxedExample (Some strictOptions)
     = Err (ErrParse 1 25 (lit "expected number"))
  /\ (forall opt p lb p1 es p' n,
        Next opt p lb p1 -> Type_ lb = tokLBrace -> Elems opt p1 es p' ->
        (length es < n)%nat ->
        parseNumberArrayWithRelax opt true n p
        = (Ok (List.map (fun e => match parseNumberToken e with
                                  | Some f => f
                                  | None => fzero
                                  end) es), p')
        /\ ((exists e, fst (parseNumberArrayWithRelax opt false n p) = Err e)
            <-> exists e, In e es /\ parseNumberToken e = None)
        /\ (forall pre e post,
              es = pre ++ e :: post ->
              Forall (fun x => parseNumberToken x <> None) pre ->
              parseNumberToken e = None ->
              fst (parseNumberArrayWithRelax opt false n p)
              = Err (ErrParse (Line e) (Col e) (lit "expected number")))).
Proof.
  intros Ha Hb Hbad Hz.
  split; [exact (relaxedExample_relaxed F a b Ha Hb Hbad Hz)|].
  split; [exact (relaxedExample_strict F a b Ha Hb Hbad)|].
  intros opt p lb p1 es p' n Hn Hlb Hes Hlen.
  pose proof (parseNumberArrayWithRelax_elems opt true _ _ _ _ _ n Hn Hlb Hes Hlen)
    as [Hr1 Hr2].
  pose proof (parseNumberArrayWithRelax_elems opt false _ _ _ _ _ n Hn Hlb Hes Hlen)
    as [Hs1 Hs2].
  rewrite numbersOf_relaxed in Hr1, Hr2.
  destruct (numbersOf_strict es) as [Hok Herr].
  split; [|split].
  - specialize (Hr2 _ eq_refl).
    destruct (parseNumberArrayWithRelax opt true n p) as [r q]. cbn in *.
    congruence.
  - rewrite Hs1. split.
    + intros [e He]. apply Herr in He.
      destruct He as (pre & e0 & post & -> & _ & He0 & _).
      exists e0. split; [apply in_elt|exact He0].
    + intros (e & Hin & He).
      destruct (numbersOf false es) as [fs|err] eqn:Hno; [|eauto].
      exfalso. pose proof (proj1 (Hok fs) eq_refl) as Hall.
      clear - Hin He Hall. induction Hall as [|x f xs fs Hx _ IH].
      * contradiction.
      * destruct Hin as [->|Hin]; [congruence|auto].
  - intros pre e post Heq Hpre He. rewrite Hs1.
    apply Herr. exists pre, e, post. auto.
Qed.

(** C9. A string or identifier token converts as [ParseFloat] converts
    its text trimmed of surrounding white space and then of trailing
    dots.  For the element tokens [es] of any numeric array parsed with
    relaxed numbers disabled: when every element converts, the array is
    accepted and holds the converted values; and an error can only be
    "expected number" at an element that does not convert.  With
    [ParseFloat] converting [2.5], the strict parse of
    [diffuse[] = {"2.5."};] gives the diffuse array [2.5]. *)
Theorem strict_accepts_numeric_text (f25 : float64) :
  ParseFloat (lit "2.5") = Some f25 ->
  (forall tok, Type_ tok = tokString \/ Type_ tok = tokIdent ->
     parseNumberToken tok =
     match trimDots (TrimSpace (Lit tok)) with
     | [] => None
     | s => ParseFloat s
     end)
  /\ (forall opt p lb p1 es p' n,
        Next opt p lb p1 -> Type_ lb = tokLBrace -> Elems opt p1 es p' ->
        (length es < n)%nat ->
        (forall fs,
           Forall2 (fun e v => parseNumberToken e = Some v) es fs ->
           parseNumberArrayWithRelax opt false n p = (Ok fs, p'))
        /\ (forall err,
              fst (parseNumberArrayWithRelax opt false n p) = Err err ->
              exists e, In e es /\ parseNumberToken e = None
                        /\ err = ErrParse (Line e) (Col e)
                                   (lit "expected number")))
  /\ Parse trailingDotExample (Some strictOptions)
     = Ok (mSetDiffuse Material0 [f25]).
Proof.
  intros Hf. split; [|split].
  - intros tok [Ht|Ht]; unfold parseNumberToken; rewrite Ht;
      destruct (trimDots (TrimSpace (Lit tok))); reflexivity.
  - intros opt p lb p1 es p' n Hn Hlb Hes Hlen.
    pose proof (parseNumberArrayWithRelax_elems opt false _ _ _ _ _ n
                  Hn Hlb Hes Hlen) as [Hs1 Hs2].
    destruct (numbersOf_strict es) as [Hok Herr].
    split.
    + intros fs Hall. apply Hok in Hall. rewrite Hall in Hs1, Hs2.
      specialize (Hs2 _ eq_refl).
      destruct (parseNumberArrayWithRelax opt false n p) as [r q]. cbn in *.
      congruence.
    + intros err He. rewrite Hs1 in He. apply Herr in He.
      destruct He as (pre & e0 & post & -> & _ & He0 & ->).
      exists e0. split; [apply in_elt|]. split; [exact He0|reflexivity].
  - exact (trailingDotExample_strict F f25 Hf).
Qed.

End NumberArrayClaims.

(** C7 at the reference runtime, with the array [{1, x}] for the general
    part: relaxed it reads [1, 0], strict it fails at [x]. *)
Lemma relaxed_number_tolerance_witness :
  (Parse (U := Ref.asciiUnicode) (F := Ref.decStrconv) relaxedExample None
   = Ok (mSetDiffuse (F := Ref.decStrconv) Material0
           [Ref.mkDec 75 2; Ref.mkDec 15 1; Ref.mkDec 0 0; Ref.mkDec 0 0])
   /\ Parse (U := Ref.asciiUnicode) (F := Ref.decStrconv) relaxedExample
        (Some strictOptions)
      = Err (ErrParse 1 25 (lit "expected number")))
  /\ (parseNumberArrayWithRelax (U := Ref.asciiUnicode) (F := Ref.decStrconv)
        defaultParseOptions true 3 (newParser (lit "{1, x}"))
      = (Ok [Ref.mkDec 1 0; Ref.mkDec 0 0],
         mkParser (mkLexer [] 0 true 1 6) None)
      /\ fst (parseNumberArrayWithRelax (U := Ref.asciiUnicode)
                (F := Ref.decStrconv) defaultParseOptions false 3
                (newParser (lit "{1, x}")))
         = Err (ErrParse 1 5 (lit "expected number"))).
Proof.
  pose proof (relaxed_number_tolerance (U := Ref.asciiUnicode)
                (F := Ref.decStrconv) (Ref.mkDec 75 2) (Ref.mkDec 15 1)
                eq_refl eq_refl eq_refl eq_refl) as (H1 & H2 & Hlaw).
  split; [split; [exact H1|exact H2]|].
  assert (Hes : Elems (U := Ref.asciiUnicode) (F := Ref.decStrconv)
                  defaultParseOptions
                  (mkParser (mkLexer (lit ", x}") 49 false 1 2) None)
                  [mkToken (lit "1") tokNumber 1 2; mkToken (lit "x") tokIdent 1 5]
                  (mkParser (mkLexer [] 0 true 1 6) None)).
  { eapply Elems_comma; [reflexivity|discriminate|reflexivity|reflexivity|].
    eapply Elems_last; [reflexivity|discriminate|].
    eapply Elems_close; reflexivity. }
  destruct (Hlaw defaultParseOptions (newParser (lit "{1, x}"))
              (mkToken (lit "{") tokLBrace 1 1) _ _ _ 3%nat
              eq_refl eq_refl Hes ltac:(cbn; lia)) as (Hr & _ & Hs).
  split; [exact Hr|].
  exact (Hs [mkToken (lit "1") tokNumber 1 2] (mkToken (lit "x") tokIdent 1 5) []
           eq_refl ltac:(repeat constructor; discriminate) eq_refl).
Defined.

(** C9 at the reference runtime, with the strict parse of the array
    [{'2.5.', 1..}] made of a string and of an identifier. *)
Lemma strict_accepts_numeric_text_witness :
  Parse (U := Ref.asciiUnicode) (F := Ref.decStrconv) trailingDotExample
    (Some strictOptions)
  = Ok (mSetDiffuse (F := Ref.decStrconv) Material0 [Ref.mkDec 25 1])
  /\ parseNumberArrayWithRelax (U := Ref.asciiUnicode) (F := Ref.decStrconv)
       strictOptions false 3 (newParser (lit "{" ++ [34] ++ lit "2.5." ++ [34] ++ lit ", 1..}"))
     = (Ok [Ref.mkDec 25 1; Ref.mkDec 1 0],
        mkParser (mkLexer [] 0 true 1 13) None).
Proof.
  pose proof (strict_accepts_numeric_text (U := Ref.asciiUnicode)
                (F := Ref.decStrconv) (Ref.mkDec 25 1) eq_refl)
    as (_ & Hlaw & Hex).
  split; [exact Hex|].
  assert (Hes : Elems (U := Ref.asciiUnicode) (F := Ref.decStrconv)
                  strictOptions
                  (mkParser (mkLexer (lit "2.5." ++ [34] ++ lit ", 1..}") 34
                               false 1 2) None)
                  [mkToken (lit "2.5.") tokString 1 2;
                   mkToken (lit "1..") tokIdent 1 10]
                  (mkParser (mkLexer [] 0 true 1 13) None)).
  { eapply Elems_comma; [reflexivity|discriminate|reflexivity|reflexivity|].
    eapply Elems_last; [reflexivity|discriminate|].
    eapply Elems_close; reflexivity. }
  destruct (Hlaw strictOptions
              (newParser (lit "{" ++ [34] ++ lit "2.5." ++ [34] ++ lit ", 1..}"))
              (mkToken (lit "{") tokLBrace 1 1) _ _ _ 3%nat
              eq_refl eq_refl Hes ltac:(cbn; lia)) as (Hok & _).
  apply Hok. repeat constructor.
Defined.

(* ================================================================== *)
(** ** Procedural textures *)

(** The texture of the test [TestProceduralTextureParse]. *)
Definition colorExample : str := lit "#(argb,8,8,3)color(0.5,0.5,0.5,1.0,co)".

Section ProceduralClaims.
Context {U : Unicode}.

Lemma colorExample_parsed (F : Strconv) (half one : float64) :
  ParseFloat (lit "0.5") = Some half ->
  ParseFloat (lit "1.0") = Some one ->
  ParseTextureRef colorExample =
  {| Procedural :=
       Some {| Color := Some {| ColorTag := lit "co"; ColorR := half;
                                ColorG := half; ColorB := half;
                                ColorA := one |};
               Fresnel := None; Irradiance := None;
               Format_ := lit "argb"; Func := lit "color";
               Args := [lit "0.5"; lit "0.5"; lit "0.5"; lit "1.0"; lit "co"];
               Width := 8; Height := 8; Mip := 3 |};
     Raw := colorExample;
     Kind := TextureKindProcedural;
     ParsedOK := true |}.
Proof.
  destruct F as [T pf ff z]. cbn [float64 ParseFloat fzero] in *.
  intros Hh Ho.
  rewrite (lookupFloat_same [(lit "0.5", Some half); (lit "1.0", Some one)] pf)
    by (repeat constructor; assumption).
  vm_compute. reflexivity.
Qed.

Context {F : Strconv}.

Lemma parseProceduralHead_prefix raw pt :
  parseProceduralHead raw = Some pt -> HasPrefix raw (lit "#(") = true.
Proof.
  unfold parseProceduralHead.
  destruct (HasPrefix raw (lit "#(")); [reflexivity|discriminate].
Qed.

Lemma ParseTextureRef_head raw pt :
  parseProceduralHead (NormalizeTextureRaw raw) = Some pt ->
  ParseTextureRef raw =
  {| Procedural := Some (parseProceduralArgs pt);
     Raw := NormalizeTextureRaw raw;
     Kind := TextureKindProcedural;
     ParsedOK := true |}.
Proof.
  intros Hh. unfold ParseTextureRef, parseProcedural.
  rewrite (parseProceduralHead_prefix _ _ Hh), Hh. reflexivity.
Qed.

(** C8. With [ParseFloat] converting [0.5] and [1.0], [ParseTextureRef]
    of [#(argb,8,8,3)color(0.5,0.5,0.5,1.0,co)] is a procedural reference
    with [ParsedOK], format [argb], width 8, height 8, mip 3, function
    [color] and the colour payload (0.5, 0.5, 0.5, 1.0, [co]).  For every
    texture string whose header and function call parse and whose
    function name lower-cases to [color]: with four arguments that
    convert, followed by at most one tag, the colour payload holds the
    four values and the tag; with another number of arguments, or with
    one of the first four not converting, the reference keeps [ParsedOK]
    and carries no payload. *)
Theorem procedural_color_decoration (half one : float64) :
  ParseFloat (lit "0.5") = Some half ->
  ParseFloat (lit "1.0") = Some one ->
  ParseTextureRef colorExample =
  {| Procedural :=
       Some {| Color := Some {| ColorTag := lit "co"; ColorR := half;
                                ColorG := half; ColorB := half;
                                ColorA := one |};
               Fresnel := None; Irradiance := None;
               Format_ := lit "argb"; Func := lit "color";
               Args := [lit "0.5"; lit "0.5"; lit "0.5"; lit "1.0"; lit "co"];
               Width := 8; Height := 8; Mip := 3 |};
     Raw := colorExample;
     Kind := TextureKindProcedural;
     ParsedOK := true |}
  /\ (forall raw pt,
        parseProceduralHead (NormalizeTextureRaw raw) = Some pt ->
        ToLower (Func pt) = lit "color" ->
        (forall ar ag ab aa rest r g b a,
           Args pt = ar :: ag :: ab :: aa :: rest ->
           (length rest <= 1)%nat ->
           parseFloatArg ar = Some r -> parseFloatArg ag = Some g ->
           parseFloatArg ab = Some b -> parseFloatArg aa = Some a ->
           ParseTextureRef raw =
           {| Procedural :=
                Some (setColor pt
                        (Some {| ColorTag := hd [] rest; ColorR := r;
                                 ColorG := g; ColorB := b; ColorA := a |}));
              Raw := NormalizeTextureRaw raw;
              Kind := TextureKindProcedural;
              ParsedOK := true |})
        /\ ((length (Args pt) <> 4%nat /\ length (Args pt) <> 5%nat)
            \/ (exists i, (i < 4)%nat
                          /\ parseFloatArg (nth i (Args pt) []) = None) ->
            ParseTextureRef raw =
            {| Procedural := Some pt;
               Raw := NormalizeTextureRaw raw;
               Kind := TextureKindProcedural;
               ParsedOK := true |})).
Proof.
  intros Hh Ho. split; [exact (colorExample_parsed F half one Hh Ho)|].
  intros raw pt Hhead Hfn. rewrite (ParseTextureRef_head _ _ Hhead).
  unfold parseProceduralArgs. rewrite Hfn.
  change (str_eqb (lit "color") (lit "color")) with true. cbv iota.
  unfold parseProceduralColor. split.
  - intros ar ag ab aa rest r g b a Hargs Hrest Hr Hg Hb Ha.
    rewrite Hargs. cbn [length nth].
    destruct rest as [|tag [|x rest]]; [| |cbn in Hrest; lia];
      cbn [length Nat.eqb negb andb hd nth];
      rewrite Hr, Hg, Hb, Ha; reflexivity.
  - intros [[H4 H5]|(i & Hi & Hnone)].
    + destruct (Nat.eqb_spec (length (Args pt)) 4); [contradiction|].
      destruct (Nat.eqb_spec (length (Args pt)) 5); [contradiction|].
      reflexivity.
    + destruct (negb (length (Args pt) =? 4)%nat
                && negb (length (Args pt) =? 5)%nat); [reflexivity|].
      destruct i as [|[|[|[|i]]]]; [| | | |lia].
      * rewrite Hnone. reflexivity.
      * destruct (parseFloatArg (nth 0 (Args pt) [])); [|reflexivity].
        rewrite Hnone. reflexivity.
      * destruct (parseFloatArg (nth 0 (Args pt) [])); [|reflexivity].
        destruct (parseFloatArg (nth 1 (Args pt) [])); [|reflexivity].
        rewrite Hnone. reflexivity.
      * destruct (parseFloatArg (nth 0 (Args pt) [])); [|reflexivity].
        destruct (parseFloatArg (nth 1 (Args pt) [])); [|reflexivity].
        destruct (parseFloatArg (nth 2 (Args pt) [])); [|reflexivity].
        rewrite Hnone. reflexivity.
Qed.

End ProceduralClaims.

(** C8 at the reference runtime; for the general part, [Color(1,1,1,1)]
    in upper case with four arguments, and [color(1,1,1)] with three. *)
Lemma procedural_color_decoration_witness :
  (Kind (ParseTextureRef (U := Ref.asciiUnicode) (F := Ref.decStrconv)
           colorExample) = TextureKindProcedural
   /\ ParsedOK (ParseTextureRef (U := Ref.asciiUnicode) (F := Ref.decStrconv)
                  colorExample) = true)
  /\ option_map (Color (F := Ref.decStrconv))
       (Procedural (ParseTextureRef (U := Ref.asciiUnicode)
                      (lit "#(argb,8,8,3)Color(1,1,1,1)")))
     = Some (Some (@Build_ProceduralColor Ref.decStrconv [] (Ref.mkDec 1 0)
                     (Ref.mkDec 1 0) (Ref.mkDec 1 0) (Ref.mkDec 1 0)))
  /\ option_map (Color (F := Ref.decStrconv))
       (Procedural (ParseTextureRef (U := Ref.asciiUnicode)
                      (lit "#(argb,8,8,3)color(1,1,1)")))
     = Some None.
Proof.
  pose proof (procedural_color_decoration (U := Ref.asciiUnicode)
                (F := Ref.decStrconv) (Ref.mkDec 5 1) (Ref.mkDec 1 0)
                eq_refl eq_refl) as (Hex & Hlaw).
  split; [rewrite Hex; split; reflexivity|].
  split.
  - destruct (Hlaw (lit "#(argb,8,8,3)Color(1,1,1,1)") _ eq_refl eq_refl)
      as (Hdec & _).
    rewrite (Hdec (lit "1") (lit "1") (lit "1") (lit "1") [] _ _ _ _
               eq_refl ltac:(cbn; lia) eq_refl eq_refl eq_refl eq_refl).
    reflexivity.
  - destruct (Hlaw (lit "#(argb,8,8,3)color(1,1,1)") _ eq_refl eq_refl)
      as (_ & Hskip).
    rewrite Hskip; [reflexivity|]. left. split; discriminate.
Defined.

(* ================================================================== *)
(** ** Validator *)

(** The stages the UV-wiring check looks at: not [StageTI] or [Stage0],
    no [uvSource] of [none] or [WorldPos], no [texGen]. *)
Definition uvChecked {F : Strconv} (st : Stage) : bool :=
  negb (str_eqb (StageName st) (lit "StageTI")
        || str_eqb (StageName st) (lit "Stage0"))
  && negb (str_eqb (StageUVSource st) (lit "none")
           || str_eqb (StageUVSource st) (lit "WorldPos"))
  && isEmpty (StageTexGen st).

Definition missingUVSource (name : str) : Issue :=
  warning "stage without texGen missing uvSource" name.

Definition missingUVTransform (name : str) : Issue :=
  warning "stage without texGen missing uvTransform" name.

(** A stage without [uvSource] that has a [uvTransform]. *)
Definition uvSourceOnlyMissing {F : Strconv} : Material :=
  mAddStage Material0
    (stSetUVTransform (newStage (lit "Stage1")) (Some UVTransform0)).

(** [canReport o lvl msg]: under the options [o] the validator can emit
    an issue of level [lvl] with the message [msg], for some material,
    tables and host. *)
Definition canReport (o : option ValidateOptions) (lvl : IssueLevel)
  (msg : string) : Prop :=
  exists (U : Unicode) (F : Strconv) (L : Lists) (H : Host) (m : Material)
         (i : Issue),
    In i (Validate m o) /\ Level i = lvl /\ Message i = lit msg.

Section ValidatorFacts.
Context {U : Unicode} {F : Strconv} {L : Lists} {H : Host}.

(** The messages of the checks other than the two of the loop over the
    stages. *)
Definition otherMessages : list str :=
  [lit "PixelShaderID missing"; lit "VertexShaderID missing";
   lit "unknown PixelShaderID"; lit "unknown VertexShaderID";
   lit "color must have 4 components";
   lit "unexpected texture extension"; lit "texture path contains '..'";
   lit "texture file not found"; lit "duplicate Stage name"].

Definition says (msgs : list str) (i : Issue) : Prop := In (Message i) msgs.

Lemma says_not_in msgs part w :
  Forall (says msgs) part -> ~ In (Message w) msgs -> ~ In w part.
Proof.
  intros Hall Hno Hin. rewrite Forall_forall in Hall. apply Hno.
  exact (Hall w Hin).
Qed.

Ltac says_tac :=
  repeat match goal with
  | |- Forall _ (_ ++ _) => apply Forall_app; split
  | |- Forall _ (if ?b then _ else _) => destruct b
  | |- Forall _ (match ?x with _ => _ end) => destruct x
  | |- Forall _ [] => constructor
  | |- Forall _ (_ :: _) => constructor
  | |- says _ _ => unfold says, otherMessages; cbn; tauto
  end.

Lemma missingShaderIssues_says m :
  Forall (says otherMessages) (missingShaderIssues m).
Proof. unfold missingShaderIssues. says_tac. Qed.

Lemma shaderNameIssues_says vopt m :
  Forall (says otherMessages) (shaderNameIssues vopt m).
Proof. unfold shaderNameIssues. says_tac. Qed.

Lemma validateColor_says name vals :
  Forall (says otherMessages) (validateColor name vals).
Proof. unfold validateColor. says_tac. Qed.

Lemma colorIssues_says m : Forall (says otherMessages) (colorIssues m).
Proof.
  unfold colorIssues.
  repeat (apply Forall_app; split); apply validateColor_says.
Qed.

Lemma textureIssues_says vopt st :
  Forall (says otherMessages) (textureIssues vopt st).
Proof. unfold textureIssues. says_tac. Qed.

Lemma flat_map_says {A} msgs (f : A -> list Issue) xs :
  (forall x, Forall (says msgs) (f x)) -> Forall (says msgs) (flat_map f xs).
Proof.
  intros Hf. induction xs as [|x xs IH]; cbn; [constructor|].
  apply Forall_app. split; [apply Hf|exact IH].
Qed.

Lemma allTextureIssues_says vopt m :
  Forall (says otherMessages) (allTextureIssues vopt m).
Proof.
  unfold allTextureIssues.
  destruct (negb (DisableFileCheck vopt) || negb (DisableExtensionsCheck vopt));
    [|constructor].
  apply flat_map_says. apply textureIssues_says.
Qed.

Lemma duplicateIssues_says seen stages :
  Forall (says otherMessages) (duplicateIssues seen stages).
Proof.
  revert seen; induction stages as [|st stages IH]; intros seen; cbn.
  - constructor.
  - destruct (isEmpty (StageName st)); [apply IH|].
    destruct (existsb (str_eqb (StageName st)) seen); [|apply IH].
    constructor; [|apply IH]. unfold says, otherMessages; cbn; tauto.
Qed.

(** An issue whose message is none of [otherMessages] comes from the
    loop over the stages. *)
Lemma In_Validate_stage m o w :
  ~ In (Message w) otherMessages ->
  (In w (Validate m o) <->
   exists st, In st (Stages m)
              /\ In w (stageIssues (normalizeValidateOptions o) st)).
Proof.
  intros Hmsg. unfold Validate. cbv zeta. rewrite !in_app_iff, in_flat_map.
  split.
  - intros [Hin|[Hin|[Hin|[Hin|[Hin|Hin]]]]]; try exact Hin; exfalso;
      revert Hin; apply says_not_in with (msgs := otherMessages);
      auto using missingShaderIssues_says, shaderNameIssues_says,
        colorIssues_says, allTextureIssues_says, duplicateIssues_says.
  - intros Hin. do 4 right. left. exact Hin.
Qed.

Lemma lit_neq_dec (a b : str) : str_eqb a b = false -> a <> b.
Proof.
  intros He Heq. apply str_eqb_eq in Heq. congruence.
Qed.

Lemma warning_neq msg1 msg2 p q :
  str_eqb (lit msg1) (lit msg2) = false -> warning msg1 p <> warning msg2 q.
Proof.
  intros He Heq. apply (f_equal Message) in Heq. cbn [Message warning] in Heq.
  apply (proj2 (str_eqb_eq _ _)) in Heq. congruence.
Qed.

Lemma warning_eq msg p q : warning msg p = warning msg q <-> p = q.
Proof.
  split; [|intros ->; reflexivity]. unfold warning. intros Heq.
  injection Heq as Heq. exact Heq.
Qed.

Lemma In_uvWiring_transform st name :
  In (missingUVTransform name) (uvWiringIssues st) <->
  StageName st = name /\ uvChecked st = true /\ StageUVTransform st = None.
Proof.
  unfold uvWiringIssues, uvChecked, missingUVTransform.
  destruct (str_eqb (StageName st) (lit "StageTI")
            || str_eqb (StageName st) (lit "Stage0")); cbn [negb andb].
  { cbn. split; [tauto|]. intros (_ & Hf & _). discriminate. }
  destruct (str_eqb (StageUVSource st) (lit "none")
            || str_eqb (StageUVSource st) (lit "WorldPos")); cbn [negb andb].
  { cbn. split; [tauto|]. intros (_ & Hf & _). discriminate. }
  destruct (isEmpty (StageTexGen st)); cbn [negb].
  2:{ cbn. split; [tauto|]. intros (_ & Hf & _). discriminate. }
  destruct (StageUVTransform st) as [uv|].
  { cbn. split; [tauto|]. intros (_ & _ & Hf). discriminate. }
  destruct (isEmpty (StageUVSource st)); cbn [In].
  - split.
    + intros [Hw|[Hw|[]]].
      * exfalso. revert Hw. apply warning_neq. reflexivity.
      * apply warning_eq in Hw. auto.
    + intros (-> & _ & _). right. left. reflexivity.
  - split.
    + intros [Hw|[]]. apply warning_eq in Hw. auto.
    + intros (-> & _ & _). left. reflexivity.
Qed.

Lemma In_uvWiring_source st name :
  In (missingUVSource name) (uvWiringIssues st) <->
  StageName st = name /\ uvChecked st = true
  /\ StageUVTransform st = None /\ StageUVSource st = [].
Proof.
  unfold uvWiringIssues, uvChecked, missingUVSource.
  destruct (str_eqb (StageName st) (lit "StageTI")
            || str_eqb (StageName st) (lit "Stage0")); cbn [negb andb].
  { cbn. split; [tauto|]. intros (_ & Hf & _). discriminate. }
  destruct (str_eqb (StageUVSource st) (lit "none")
            || str_eqb (StageUVSource st) (lit "WorldPos")); cbn [negb andb].
  { cbn. split; [tauto|]. intros (_ & Hf & _). discriminate. }
  destruct (isEmpty (StageTexGen st)); cbn [negb].
  2:{ cbn. split; [tauto|]. intros (_ & Hf & _). discriminate. }
  destruct (StageUVTransform st) as [uv|].
  { cbn. split; [tauto|]. intros (_ & _ & Hf & _). discriminate. }
  destruct (StageUVSource st) as [|c s] eqn:Hsrc; cbn [isEmpty In].
  - split.
    + intros [Hw|[Hw|[]]].
      * apply warning_eq in Hw. auto.
      * exfalso. revert Hw. apply warning_neq. reflexivity.
    + intros (-> & _ & _). left. reflexivity.
  - split.
    + intros [Hw|[]]. exfalso. revert Hw. apply warning_neq. reflexivity.
    + intros (_ & _ & _ & Hf). discriminate.
Qed.

Lemma In_stageName_not_uv vopt st w :
  Message w = lit "stage without texGen missing uvSource"
  \/ Message w = lit "stage without texGen missing uvTransform" ->
  ~ In w (stageNameIssues vopt st).
Proof.
  intros Hm. unfold stageNameIssues.
  destruct (negb (DisableShaderNameCheck vopt)
            && negb (knownStageNames (StageName st))); [|intros []].
  intros [<-|[]]. cbn [Message warning] in Hm.
  destruct Hm as [Hm|Hm]; revert Hm; apply lit_neq_dec; reflexivity.
Qed.

Lemma In_Validate_uvTransform m o name :
  In (missingUVTransform name) (Validate m o) <->
  exists st, In st (Stages m) /\ StageName st = name
             /\ uvChecked st = true /\ StageUVTransform st = None.
Proof.
  rewrite In_Validate_stage.
  2:{ unfold otherMessages, missingUVTransform. cbn [Message warning In].
      intros Hin.
      repeat (destruct Hin as [Hin|Hin];
              [revert Hin; apply lit_neq_dec; reflexivity|]).
      exact Hin. }
  split; intros (st & Hst & Hin); exists st; (split; [exact Hst|]).
  - unfold stageIssues in Hin. apply in_app_iff in Hin.
    destruct Hin as [Hin|Hin].
    + exfalso. revert Hin. apply In_stageName_not_uv. right. reflexivity.
    + apply In_uvWiring_transform. exact Hin.
  - unfold stageIssues. apply in_app_iff. right.
    apply In_uvWiring_transform. exact Hin.
Qed.

Lemma In_Validate_uvSource m o name :
  In (missingUVSource name) (Validate m o) <->
  exists st, In st (Stages m) /\ StageName st = name
             /\ uvChecked st = true
             /\ StageUVTransform st = None /\ StageUVSource st = [].
Proof.
  rewrite In_Validate_stage.
  2:{ unfold otherMessages, missingUVSource. cbn [Message warning In].
      intros Hin.
      repeat (destruct Hin as [Hin|Hin];
              [revert Hin; apply lit_neq_dec; reflexivity|]).
      exact Hin. }
  split; intros (st & Hst & Hin); exists st; (split; [exact Hst|]).
  - unfold stageIssues in Hin. apply in_app_iff in Hin.
    destruct Hin as [Hin|Hin].
    + exfalso. revert Hin. apply In_stageName_not_uv. left. reflexivity.
    + apply In_uvWiring_source. exact Hin.
  - unfold stageIssues. apply in_app_iff. right.
    apply In_uvWiring_source. exact Hin.
Qed.

(** C3, as the code has it. For every material, options and stage name:
    the warning that [uvTransform] is missing is reported for the name
    exactly when a stage of that name is checked (not [StageTI] or
    [Stage0], [uvSource] not [none] or [WorldPos], no [texGen]) and has
    no [uvTransform]; the warning that [uvSource] is missing is reported
    exactly when such a stage has neither a [uvTransform] nor a
    [uvSource].  So both fire when both are absent, the first fires
    whatever the [uvSource], and a missing [uvSource] beside a
    [uvTransform] is not reported. *)
Theorem uv_wiring_warnings (m : Material) (o : option ValidateOptions)
  (name : str) :
  (In (missingUVTransform name) (Validate m o) <->
   exists st, In st (Stages m) /\ StageName st = name
              /\ uvChecked st = true /\ StageUVTransform st = None)
  /\ (In (missingUVSource name) (Validate m o) <->
      exists st, In st (Stages m) /\ StageName st = name
                 /\ uvChecked st = true
                 /\ StageUVTransform st = None /\ StageUVSource st = []).
Proof.
  split; [apply In_Validate_uvTransform|apply In_Validate_uvSource].
Qed.

End ValidatorFacts.

(** C3 as stated fails on a checked stage that has a [uvTransform] and no
    [uvSource]: whatever the runtime, the tables and the host, no warning
    about the missing [uvSource] is reported. *)
Lemma uv_wiring_counterexample :
  ~ exists (U : Unicode) (F : Strconv) (L : Lists) (H : Host),
      In (missingUVSource (lit "Stage1")) (Validate uvSourceOnlyMissing None).
Proof.
  intros (U & F & L & H & Hin).
  apply In_Validate_uvSource in Hin.
  destruct Hin as (st & Hst & _ & _ & Huv & _).
  cbn in Hst. destruct Hst as [<-|[]]. discriminate Huv.
Qed.

(** *** The toggles of the validator *)

(** The flag that gates the shader-name and the stage-name checks. *)
Definition nameCheckDisabled (o : option ValidateOptions) : bool :=
  DisableShaderNameCheck (normalizeValidateOptions o).

Section ValidatorToggles.
Context {U : Unicode} {F : Strconv} {L : Lists} {H : Host}.

Lemma In_stageNameIssues vopt st i :
  In i (stageNameIssues vopt st) ->
  DisableShaderNameCheck vopt = false
  /\ i = warning "unknown Stage name" (StageName st).
Proof.
  unfold stageNameIssues.
  destruct (DisableShaderNameCheck vopt); cbn [negb andb]; [intros []|].
  destruct (negb (knownStageNames (StageName st))); [|intros []].
  intros [<-|[]]. auto.
Qed.

Lemma In_shaderNameIssues vopt m i :
  In i (shaderNameIssues vopt m) ->
  DisableShaderNameCheck vopt = false
  /\ (Message i = lit "unknown PixelShaderID"
      \/ Message i = lit "unknown VertexShaderID").
Proof.
  unfold shaderNameIssues.
  destruct (DisableShaderNameCheck vopt); cbn [negb]; [intros []|].
  intros Hin. split; [reflexivity|]. apply in_app_iff in Hin.
  destruct Hin as [Hin|Hin].
  - destruct (negb (isEmpty (PixelShaderID m))
              && negb (knownPixelShaderID (PixelShaderID m))); [|destruct Hin].
    destruct Hin as [<-|[]]. left. reflexivity.
  - destruct (negb (isEmpty (VertexShaderID m))
              && negb (knownVertexShaderID (VertexShaderID m))); [|destruct Hin].
    destruct Hin as [<-|[]]. right. reflexivity.
Qed.

Lemma In_uvWiringIssues st i :
  In i (uvWiringIssues st) ->
  Message i = lit "stage without texGen missing uvSource"
  \/ Message i = lit "stage without texGen missing uvTransform".
Proof.
  unfold uvWiringIssues.
  repeat match goal with
  | |- In _ (if ?b then _ else _) -> _ => destruct b
  | |- In _ (match ?x with _ => _ end) -> _ => destruct x
  end; cbn [In]; intros Hin;
    repeat (destruct Hin as [<-|Hin]; [auto|]); destruct Hin.
Qed.

Lemma In_textureIssues vopt st i :
  In i (textureIssues vopt st) ->
  (Message i = lit "unexpected texture extension"
   /\ DisableExtensionsCheck vopt = false)
  \/ Message i = lit "texture path contains '..'"
  \/ Message i = lit "texture file not found".
Proof.
  unfold textureIssues.
  destruct (isEmpty (Raw (Texture st)) || isProcedural (Texture st));
    [intros []|].
  rewrite !in_app_iff. intros [Hin|[Hin|Hin]].
  - left. destruct (DisableExtensionsCheck vopt); [destruct Hin|].
    cbn [negb andb] in Hin. destruct (negb (hasAllowedExt _)); [|destruct Hin].
    destruct Hin as [<-|[]]. auto.
  - right. left. destruct (Contains _ _); [|destruct Hin].
    destruct Hin as [<-|[]]. reflexivity.
  - right. right.
    destruct (negb (DisableFileCheck vopt)); [|destruct Hin].
    destruct (shouldExcludePath _ _); [destruct Hin|].
    cbv zeta in Hin.
    destruct (negb (isEmpty _) && negb (statOK _)); [|destruct Hin].
    destruct Hin as [<-|[]]. reflexivity.
Qed.

(** The messages of the checks that no option gates. *)
Definition fixedMessages : list str :=
  [lit "PixelShaderID missing"; lit "VertexShaderID missing";
   lit "color must have 4 components"; lit "duplicate Stage name";
   lit "stage without texGen missing uvSource";
   lit "stage without texGen missing uvTransform"].

Lemma In_missingShaderIssues m i :
  In i (missingShaderIssues m) -> In (Message i) fixedMessages.
Proof.
  unfold missingShaderIssues. destruct (Stages m); [intros []|].
  rewrite in_app_iff.
  destruct (isEmpty (PixelShaderID m)), (isEmpty (VertexShaderID m));
    cbn [In]; intros Hin;
    repeat (destruct Hin as [Hin|Hin]); try contradiction; subst i;
    cbn; tauto.
Qed.

Lemma In_validateColor name vals i :
  In i (validateColor name vals) -> In (Message i) fixedMessages.
Proof.
  unfold validateColor. destruct vals; [intros []|].
  destruct (negb _); [|intros []]. intros [<-|[]]. cbn. tauto.
Qed.

Lemma In_colorIssues m i :
  In i (colorIssues m) -> In (Message i) fixedMessages.
Proof.
  unfold colorIssues. rewrite !in_app_iff.
  intros [Hin|[Hin|[Hin|[Hin|Hin]]]]; exact (In_validateColor _ _ _ Hin).
Qed.

Lemma In_duplicateIssues seen stages i :
  In i (duplicateIssues seen stages) -> In (Message i) fixedMessages.
Proof.
  revert seen; induction stages as [|st stages IH]; intros seen; cbn;
    [intros []|].
  destruct (isEmpty (StageName st)); [apply IH|].
  destruct (existsb (str_eqb (StageName st)) seen); [|apply IH].
  intros [<-|Hin]; [cbn; tauto|exact (IH _ Hin)].
Qed.

(** Where an issue of [Validate] comes from: a check without a toggle, or
    a check behind the flag that its message names. *)
Lemma Validate_cases m o i :
  In i (Validate m o) ->
  In (Message i) fixedMessages
  \/ ((Message i = lit "unknown PixelShaderID"
       \/ Message i = lit "unknown VertexShaderID"
       \/ Message i = lit "unknown Stage name")
      /\ nameCheckDisabled o = false)
  \/ (Message i = lit "unexpected texture extension"
      /\ DisableExtensionsCheck (normalizeValidateOptions o) = false)
  \/ Message i = lit "texture path contains '..'"
  \/ Message i = lit "texture file not found".
Proof.
  unfold Validate, nameCheckDisabled. cbv zeta.
  rewrite !in_app_iff, in_flat_map.
  intros [Hin|[Hin|[Hin|[Hin|[(st & Hst & Hin)|Hin]]]]].
  - left. exact (In_missingShaderIssues _ _ Hin).
  - right. left. apply In_shaderNameIssues in Hin. tauto.
  - left. exact (In_colorIssues _ _ Hin).
  - right. right. unfold allTextureIssues in Hin.
    destruct (negb _ || negb _); [|destruct Hin].
    apply in_flat_map in Hin. destruct Hin as (st & _ & Hin).
    apply In_textureIssues in Hin. tauto.
  - unfold stageIssues in Hin. apply in_app_iff in Hin.
    destruct Hin as [Hin|Hin].
    + right. left. apply In_stageNameIssues in Hin.
      destruct Hin as (Hflag & ->). cbn [Message warning]. tauto.
    + left. apply In_uvWiringIssues in Hin. unfold fixedMessages.
      destruct Hin as [-> | ->]; cbn [In]; tauto.
  - left. exact (In_duplicateIssues _ _ _ Hin).
Qed.

End ValidatorToggles.

Ltac message_clash H :=
  solve [ unfold fixedMessages in H; cbn [In] in H;
          repeat (destruct H as [H|H];
                  [revert H; apply lit_neq_dec; reflexivity|]);
          contradiction
        | revert H; apply lit_neq_dec; reflexivity ].

Lemma name_check_report (o : option ValidateOptions) (msg : string) :
  msg = "unknown PixelShaderID"%string
  \/ msg = "unknown VertexShaderID"%string
  \/ msg = "unknown Stage name"%string ->
  canReport o IssueWarning msg -> nameCheckDisabled o = false.
Proof.
  intros Hmsg (U & F & L & H & m & i & Hin & _ & Hi).
  apply Validate_cases in Hin. rewrite Hi in Hin.
  destruct Hin as [Hin|[(_ & Hflag)|[(Hin & _)|[Hin|Hin]]]];
    [|exact Hflag| | |]; exfalso;
    destruct Hmsg as [->|[->| ->]];
    message_clash Hin.
Qed.

(** Tables that know no name. *)
Definition noLists : Lists :=
  {| knownPixelShaderID := fun _ => false;
     knownVertexShaderID := fun _ => false;
     knownStageNames := fun _ => false |}.

(** A material with the unknown shaders [P] and [V], the colour array
    [ambient] of one component, and two stages [X] whose texture is the
    path [x.png]. *)
Definition probe : Material (F := Ref.decStrconv) :=
  let st :=
    stSetTexture (F := Ref.decStrconv) (newStage (lit "X"))
      {| Procedural := None; Raw := lit "x.png"; Kind := TextureKindPath;
         ParsedOK := false |} in
  mAddStage
    (mAddStage
       (mSetAmbient (F := Ref.decStrconv)
          (mSetVertexShaderID (mSetPixelShaderID Material0 (lit "P")) (lit "V"))
          [Ref.mkDec 1 0]) st) st.

Lemma probe_reports (o : option ValidateOptions) :
  let issues := Validate (U := Ref.asciiUnicode) (L := noLists)
                  (H := Ref.bareHost) probe o in
  (nameCheckDisabled o = false ->
     In (warning "unknown PixelShaderID" (lit "P")) issues
     /\ In (warning "unknown VertexShaderID" (lit "V")) issues
     /\ In (warning "unknown Stage name" (lit "X")) issues)
  /\ (DisableExtensionsCheck (normalizeValidateOptions o) = false ->
        In (warning "unexpected texture extension" (lit "x.png")) issues)
  /\ In (errorIssue "color must have 4 components" (lit "ambient")) issues
  /\ In (errorIssue "duplicate Stage name" (lit "X")) issues
  /\ In (missingUVSource (lit "X")) issues
  /\ In (missingUVTransform (lit "X")) issues.
Proof.
  cbv zeta. unfold Validate, nameCheckDisabled. cbv zeta.
  generalize (normalizeValidateOptions o) as vopt. intros vopt.
  rewrite !in_app_iff.
  split; [|split; [|split; [|split; [|split]]]].
  - intros Hflag. unfold shaderNameIssues, probe. rewrite Hflag.
    split; [|split].
    + right. left. cbn. tauto.
    + right. left. cbn. tauto.
    + do 4 right. left. cbn [Stages mAddStage mSetAmbient mSetVertexShaderID
        mSetPixelShaderID Material0 app flat_map].
      apply in_app_iff. left. unfold stageIssues. apply in_app_iff. left.
      unfold stageNameIssues. rewrite Hflag. cbn. tauto.
  - intros Hflag. do 3 right. left. unfold allTextureIssues. rewrite Hflag.
    rewrite orb_true_r.
    cbn [Stages probe mAddStage mSetAmbient mSetVertexShaderID
        mSetPixelShaderID Material0 app flat_map].
    apply in_app_iff. left. unfold textureIssues. rewrite Hflag.
    apply in_app_iff. left. vm_compute. tauto.
  - do 2 right. left. vm_compute. tauto.
  - do 5 right. vm_compute. tauto.
  - do 4 right. left.
    cbn [Stages probe mAddStage mSetAmbient mSetVertexShaderID
        mSetPixelShaderID Material0 app flat_map].
    apply in_app_iff. left. unfold stageIssues. apply in_app_iff. right.
    vm_compute. tauto.
  - do 4 right. left.
    cbn [Stages probe mAddStage mSetAmbient mSetVertexShaderID
        mSetPixelShaderID Material0 app flat_map].
    apply in_app_iff. left. unfold stageIssues. apply in_app_iff. right.
    vm_compute. tauto.
Qed.

Lemma canReport_probe (o : option ValidateOptions) lvl msg path :
  In {| Level := lvl; Code := []; Message := lit msg; Path := path |}
    (Validate (U := Ref.asciiUnicode) (L := noLists) (H := Ref.bareHost)
       probe o) ->
  canReport o lvl msg.
Proof.
  intros Hin.
  exists Ref.asciiUnicode, Ref.decStrconv, noLists, Ref.bareHost, probe.
  eexists. split; [exact Hin|]. split; reflexivity.
Qed.

Lemma name_check_enabled (o : option ValidateOptions) :
  nameCheckDisabled o = false ->
  canReport o IssueWarning "unknown PixelShaderID"
  /\ canReport o IssueWarning "unknown VertexShaderID"
  /\ canReport o IssueWarning "unknown Stage name".
Proof.
  intros Hflag. destruct (probe_reports o) as (Hn & _).
  destruct (Hn Hflag) as (H1 & H2 & H3).
  split; [|split]; eapply canReport_probe; eassumption.
Qed.

(** C5, as the code has it. Under every configuration the shader-name
    check (for the pixel and for the vertex shader) and the stage-name
    check can report exactly when [DisableShaderNameCheck] is off: the one
    flag gates them together.  The extension check can report exactly
    when [DisableExtensionsCheck] is off.  The colour-length check, the
    duplicate-name check and the UV-wiring check have no toggle: they can
    report under every configuration. *)
Theorem validator_toggles (o : option ValidateOptions) :
  (canReport o IssueWarning "unknown PixelShaderID"
   <-> nameCheckDisabled o = false)
  /\ (canReport o IssueWarning "unknown VertexShaderID"
      <-> nameCheckDisabled o = false)
  /\ (canReport o IssueWarning "unknown Stage name"
      <-> nameCheckDisabled o = false)
  /\ (canReport o IssueWarning "unexpected texture extension"
      <-> DisableExtensionsCheck (normalizeValidateOptions o) = false)
  /\ canReport o IssueError "color must have 4 components"
  /\ canReport o IssueError "duplicate Stage name"
  /\ canReport o IssueWarning "stage without texGen missing uvSource"
  /\ canReport o IssueWarning "stage without texGen missing uvTransform".
Proof.
  destruct (probe_reports o) as (Hn & Hext & Hcol & Hdup & Hsrc & Htr).
  split; [|split; [|split; [|split; [|split; [|split; [|split]]]]]].
  - split; [apply name_check_report; auto|].
    intros Hflag. exact (proj1 (name_check_enabled o Hflag)).
  - split; [apply name_check_report; auto|].
    intros Hflag. exact (proj1 (proj2 (name_check_enabled o Hflag))).
  - split; [apply name_check_report; auto|].
    intros Hflag. exact (proj2 (proj2 (name_check_enabled o Hflag))).
  - split.
    + intros (U & F & L & H & m & i & Hin & _ & Hi).
      apply Validate_cases in Hin. rewrite Hi in Hin.
      destruct Hin as [Hin|[([Hin|[Hin|Hin]] & _)|[(_ & Hflag)|[Hin|Hin]]]];
        [|  | | |exact Hflag| |]; exfalso;
        message_clash Hin.
    + intros Hflag. eapply canReport_probe. exact (Hext Hflag).
  - eapply canReport_probe. exact Hcol.
  - eapply canReport_probe. exact Hdup.
  - eapply canReport_probe. exact Hsrc.
  - eapply canReport_probe. exact Htr.
Qed.

(** C5 as stated fails: no configuration skips the stage-name check while
    the shader-name check still runs, and none does the converse. *)
Lemma validator_toggles_counterexample :
  (~ exists o, ~ canReport o IssueWarning "unknown Stage name"
               /\ canReport o IssueWarning "unknown PixelShaderID")
  /\ (~ exists o, ~ canReport o IssueWarning "unknown PixelShaderID"
                  /\ canReport o IssueWarning "unknown Stage name").
Proof.
  split; intros (o & Hoff & Hon); apply Hoff.
  - apply name_check_enabled. revert Hon. apply name_check_report. auto.
  - apply name_check_enabled. revert Hon. apply name_check_report. auto.
Qed.
(* ================================================================== *)
(** ** The tokens of a text *)

(** The token type of a punctuation character. *)
Definition symbolOf (c : rune) : option tokenType :=
  if c =? 123 then Some tokLBrace
  else if c =? 125 then Some tokRBrace
  else if c =? 91 then Some tokLBracket
  else if c =? 93 then Some tokRBracket
  else if c =? 61 then Some tokEqual
  else if c =? 59 then Some tokSemicolon
  else if c =? 58 then Some tokColon
  else if c =? 44 then Some tokComma
  else None.

Ltac btop H :=
  repeat first
    [ rewrite orb_true_iff in H | rewrite andb_true_iff in H
    | rewrite orb_false_iff in H | rewrite andb_false_iff in H
    | rewrite Z.leb_le in H | rewrite Z.ltb_lt in H
    | rewrite Z.eqb_eq in H | rewrite Z.eqb_neq in H
    | rewrite Z.leb_gt in H | rewrite Z.ltb_ge in H ].

Ltac bcases :=
  repeat match goal with
         | |- context [?a <=? ?b] => destruct (Z.leb_spec a b)
         | |- context [?a =? ?b] => destruct (Z.eqb_spec a b)
         end;
  cbn; try reflexivity; exfalso; lia.

Section TokenFacts.
Context {U : Unicode} {F : Strconv}.
Variable opt : ParseOptions.

(** A word the lexer reads as an identifier or as the keyword. *)
Definition isIdentWord (s : str) : bool :=
  match s with
  | [] => false
  | c :: t => isIdentStart c && forallb isIdentPart t
  end.

(** A word the lexer reads as a number or, when it is not a valid
    number, as an identifier. *)
Definition isNumberWord (s : str) : bool :=
  match s with
  | [] => false
  | c :: t => isNumberStart c && forallb isWordPart t
  end.

(** Text that starts a token: not white space, not a comment. *)
Definition tokenStart (s : str) : Prop :=
  match s with
  | [] => True
  | c :: _ => IsSpace c = false /\ c <> 47
  end.

(** Text that ends a word or a string before it. *)
Definition delimited (s : str) : Prop :=
  match s with
  | [] => True
  | c :: _ => isWordPart c = false /\ c <> 34
  end.

(** [First s tt lt s']: the first token of the text [s] has the type [tt]
    and the literal [lt], and [s'] is what follows it. *)
Definition First (s : str) (tt : tokenType) (lt : str) (s' : str) : Prop :=
  forall l, atInput s l ->
  exists line col l',
    lnext opt l = ((mkToken lt tt line col, None), l') /\ atInput s' l'.

Lemma isIdentStart_facts c :
  isIdentStart c = true ->
  IsSpace c = false /\ c <> 47 /\ symbolOf c = None /\ c <> 34
  /\ isIdentPart c = true.
Proof.
  unfold isIdentStart, isIdentPart, IsLetter, IsDigit, IsSpace, symbolOf.
  intros H. destruct (Z.ltb_spec c 128) as [Hlt|Hge].
  - btop H.
    assert (Hc : 65 <= c <= 90 \/ 97 <= c <= 122 \/ c = 95 \/ c = 36) by lia.
    clear H. repeat split.
    + apply not_true_iff_false. intros G. btop G. lia.
    + lia.
    + repeat match goal with
             | |- context [?x =? ?k] =>
                 destruct (Z.eqb_spec x k); [exfalso; lia|]
             end. reflexivity.
    + lia.
    + bcases.
  - btop H. repeat split.
    + destruct (SpaceHigh c) eqn:Hs; [|reflexivity].
      apply SpaceNotLetter in Hs. destruct H as [[H|H]|H]; [congruence|lia|lia].
    + lia.
    + repeat match goal with
             | |- context [?x =? ?k] =>
                 destruct (Z.eqb_spec x k); [exfalso; lia|]
             end. reflexivity.
    + lia.
    + destruct H as [[H|H]|H]; [|lia|lia]. rewrite H. reflexivity.
Qed.

Lemma isNumberStart_facts c :
  isNumberStart c = true ->
  IsSpace c = false /\ c <> 47 /\ symbolOf c = None /\ c <> 34
  /\ isIdentStart c = false /\ isWordPart c = true.
Proof.
  unfold isNumberStart, isWordPart, isIdentStart, isIdentPart, IsLetter,
    IsDigit, IsSpace, symbolOf.
  intros H. destruct (Z.ltb_spec c 128) as [Hlt|Hge].
  - btop H.
    assert (Hc : 48 <= c <= 57 \/ c = 45) by lia.
    clear H. repeat split.
    + apply not_true_iff_false. intros G. btop G. lia.
    + lia.
    + repeat match goal with
             | |- context [?x =? ?k] =>
                 destruct (Z.eqb_spec x k); [exfalso; lia|]
             end. reflexivity.
    + lia.
    + apply not_true_iff_false. intros G. btop G. lia.
    + bcases.
  - btop H. destruct H as [H|H]; [|lia]. repeat split.
    + destruct (SpaceHigh c) eqn:Hs; [|reflexivity].
      apply SpaceNotDigit in Hs. congruence.
    + lia.
    + repeat match goal with
             | |- context [?x =? ?k] =>
                 destruct (Z.eqb_spec x k); [exfalso; lia|]
             end. reflexivity.
    + lia.
    + destruct (LetterHigh c) eqn:Hl.
      * apply LetterNotDigit in Hl. congruence.
      * cbn. apply not_true_iff_false. intros G. btop G. lia.
    + rewrite H. destruct (LetterHigh c); reflexivity.
Qed.

Lemma symbolOf_facts c tt :
  symbolOf c = Some tt -> IsSpace c = false /\ c <> 47 /\ c <> 34.
Proof.
  unfold symbolOf.
  repeat match goal with
         | |- context [c =? ?k] =>
             destruct (Z.eqb_spec c k);
             [subst c; intros _; repeat split; try reflexivity; lia|]
         end.
  discriminate.
Qed.

(** [skipWhitespace] over white space in front of a token. *)
Lemma skipWhitespaceLoop_spaces ws :
  forall s l n,
    forallb IsSpace ws = true -> tokenStart s -> atInput (ws ++ s) l ->
    atInput s (skipWhitespaceLoop opt (S n) l).
Proof.
  induction ws as [|c ws IH]; intros s l n Hws Hs Hat.
  - cbn [app] in Hat. destruct s as [|c s].
    + rewrite skipWhitespaceLoop_nil by exact Hat. exact Hat.
    + destruct Hs as [Hsp H47]. cbn [skipWhitespaceLoop]. unfold lfuel.
      rewrite (skipSpaces_nonspace _ _ _ _ Hat Hsp).
      pose proof Hat as (He & Hc & Hr). rewrite Hc.
      apply Z.eqb_neq in H47. rewrite H47, andb_false_r. exact Hat.
  - cbn [app] in Hat. cbn [forallb] in Hws. apply andb_true_iff in Hws.
    destruct Hws as [Hc Hws].
    rewrite (skipWhitespaceLoop_space opt n _ _ _ Hat Hc).
    apply IH; [exact Hws|exact Hs|]. apply lread_at with (c := c). exact Hat.
Qed.

Lemma skipWhitespace_spaces ws s l :
  forallb IsSpace ws = true -> tokenStart s -> atInput (ws ++ s) l ->
  atInput s (skipWhitespace opt l).
Proof.
  intros Hws Hs Hat. unfold skipWhitespace, lfuel.
  apply skipWhitespaceLoop_spaces with (ws := ws); assumption.
Qed.

(** The end of the input after white space. *)
Lemma First_eof ws :
  forallb IsSpace ws = true -> First ws tokEOF [] [].
Proof.
  intros Hws l Hat. unfold lnext.
  assert (Hat1 : atInput [] (skipWhitespace opt l)).
  { apply skipWhitespace_spaces with (ws := ws); [exact Hws|exact I|].
    rewrite app_nil_r. exact Hat. }
  cbv zeta. pose proof Hat1 as (He & _). rewrite He.
  eexists _, _, _. split; [reflexivity|exact Hat1].
Qed.

(** A punctuation character. *)
Lemma First_symbol ws c tt rest :
  forallb IsSpace ws = true -> symbolOf c = Some tt ->
  First (ws ++ c :: rest) tt [c] rest.
Proof.
  intros Hws Hsym l Hat.
  destruct (symbolOf_facts _ _ Hsym) as (Hsp & H47 & _).
  assert (Hat1 : atInput (c :: rest) (skipWhitespace opt l)).
  { apply skipWhitespace_spaces with (ws := ws); [exact Hws|split; assumption|].
    exact Hat. }
  unfold lnext. cbv zeta. pose proof Hat1 as (He & Hc & Hr).
  rewrite He, Hc. unfold symbolOf in Hsym.
  repeat match type of Hsym with
         | (if ?b then _ else _) = _ =>
             destruct b;
             [injection Hsym as <-; eexists _, _, _; split; [reflexivity|];
              apply lread_at with (c := c); exact Hat1|]
         end.
  discriminate.
Qed.

(** After white space, at a character that is neither punctuation nor a
    quote, [next] reads a word. *)
Lemma lnext_word l0 :
  let l := skipWhitespace opt l0 in
  leof l = false -> symbolOf (lch l) = None -> lch l <> 34 ->
  lnext opt l0 =
    if isIdentStart (lch l) then
      let (s, l') := readIdent l in
      if EqualFold s (lit "class")
      then ((mkToken s tokClass (lline l) (lcol l), None), l')
      else ((mkToken s tokIdent (lline l) (lcol l), None), l')
    else if isNumberStart (lch l) then
      let (s, l') := readNumberOrIdent l in
      if isValidNumber s
      then ((mkToken s tokNumber (lline l) (lcol l), None), l')
      else ((mkToken s tokIdent (lline l) (lcol l), None), l')
    else
      ((token0,
        Some (lerrorf l (lit "unexpected character '" ++ [lch l] ++ lit "'"))),
       l).
Proof.
  intros l He Hsym Hq. unfold lnext. cbv zeta. fold l. rewrite He.
  unfold symbolOf in Hsym.
  repeat match type of Hsym with
         | (if ?b then _ else _) = _ => destruct b; [discriminate|]
         end.
  apply Z.eqb_neq in Hq. rewrite Hq. reflexivity.
Qed.

Lemma readWhile_word (part : rune -> bool) s :
  part 0 = false ->
  forall rest l n b,
    forallb part s = true ->
    match rest with [] => True | c :: _ => part c = false end ->
    atInput (s ++ rest) l -> (length s < n)%nat ->
    exists l', readWhile part n l b = (b ++ s, l') /\ atInput rest l'.
Proof.
  intros H0. induction s as [|c s IH]; intros rest l n b Hs Hrest Hat Hn.
  - destruct n as [|n]; [cbn in Hn; lia|]. cbn [app] in Hat.
    cbn [readWhile]. rewrite app_nil_r.
    destruct rest as [|d rest].
    + pose proof Hat as (He & Hc & Hr). rewrite Hc, H0.
      exists l. split; [reflexivity|exact Hat].
    + pose proof Hat as (He & Hc & Hr). rewrite Hc, Hrest.
      exists l. split; [reflexivity|exact Hat].
  - destruct n as [|n]; [cbn in Hn; lia|]. cbn [app] in Hat.
    cbn [forallb] in Hs. apply andb_true_iff in Hs. destruct Hs as [Hc Hs].
    cbn [readWhile]. pose proof Hat as (He & Hch & Hr). rewrite Hch, Hc.
    pose proof (lread_at _ _ _ Hat) as Hat'.
    rewrite (leof_at _ _ Hat').
    destruct (s ++ rest) as [|d t] eqn:Hsr.
    + apply app_eq_nil in Hsr. destruct Hsr as [-> ->].
      cbn [isEmpty]. exists (lread l). split; [reflexivity|exact Hat'].
    + cbn [isEmpty]. rewrite <- Hsr in Hat'.
      destruct (IH rest (lread l) n (b ++ [c]) Hs Hrest Hat') as (l' & Hl & Hat'').
      { cbn in Hn. lia. }
      exists l'. rewrite Hl. rewrite <- app_assoc. split; [reflexivity|exact Hat''].
Qed.

Lemma isIdentPart_0 : isIdentPart 0 = false.
Proof. reflexivity. Qed.

Lemma isWordPart_0 : isWordPart 0 = false.
Proof. reflexivity. Qed.

Lemma isWordPart_ident c : isWordPart c = false -> isIdentPart c = false.
Proof.
  unfold isWordPart. intros H. apply orb_false_iff in H. destruct H as [H _].
  apply orb_false_iff in H. destruct H as [H _].
  apply orb_false_iff in H. destruct H as [H _]. exact H.
Qed.

Lemma isIdentPart_word c : isIdentPart c = true -> isWordPart c = true.
Proof. unfold isWordPart. intros ->. reflexivity. Qed.

(** An identifier or the keyword. *)
Lemma First_identWord ws s rest :
  forallb IsSpace ws = true -> isIdentWord s = true -> delimited rest ->
  First (ws ++ s ++ rest)
    (if EqualFold s (lit "class") then tokClass else tokIdent) s rest.
Proof.
  intros Hws Hs Hrest l Hat.
  destruct s as [|c s]; [discriminate|]. cbn [isIdentWord] in Hs.
  apply andb_true_iff in Hs. destruct Hs as [Hc Hs].
  destruct (isIdentStart_facts _ Hc) as (Hsp & H47 & Hsym & Hq & Hpart).
  assert (Hat1 : atInput ((c :: s) ++ rest) (skipWhitespace opt l)).
  { apply skipWhitespace_spaces with (ws := ws); [exact Hws|split; assumption|].
    exact Hat. }
  pose proof Hat1 as (He & Hch & Hr).
  rewrite lnext_word; [|exact He|rewrite Hch; exact Hsym|rewrite Hch; exact Hq].
  rewrite Hch, Hc. unfold readIdent.
  destruct (readWhile_word isIdentPart (c :: s) isIdentPart_0 rest
              (skipWhitespace opt l) (lfuel (skipWhitespace opt l)) [])
    as (l' & Hl & Hat').
  - cbn [forallb]. rewrite Hpart, Hs. reflexivity.
  - destruct rest as [|d rest]; [exact I|].
    apply isWordPart_ident. exact (proj1 Hrest).
  - exact Hat1.
  - pose proof (lfuel_at _ _ Hat1) as Hf. rewrite length_app in Hf. lia.
  - rewrite Hl. cbn [app].
    destruct (EqualFold (c :: s) (lit "class"));
      eexists _, _, _; (split; [reflexivity|exact Hat']).
Qed.

(** A number, or a word that starts like a number and is none. *)
Lemma First_numberWord ws s rest :
  forallb IsSpace ws = true -> isNumberWord s = true -> delimited rest ->
  First (ws ++ s ++ rest)
    (if isValidNumber s then tokNumber else tokIdent) s rest.
Proof.
  intros Hws Hs Hrest l Hat.
  destruct s as [|c s]; [discriminate|]. cbn [isNumberWord] in Hs.
  apply andb_true_iff in Hs. destruct Hs as [Hc Hs].
  destruct (isNumberStart_facts _ Hc) as (Hsp & H47 & Hsym & Hq & Hid & Hpart).
  assert (Hat1 : atInput ((c :: s) ++ rest) (skipWhitespace opt l)).
  { apply skipWhitespace_spaces with (ws := ws); [exact Hws|split; assumption|].
    exact Hat. }
  pose proof Hat1 as (He & Hch & Hr).
  rewrite lnext_word; [|exact He|rewrite Hch; exact Hsym|rewrite Hch; exact Hq].
  rewrite Hch, Hid, Hc. unfold readNumberOrIdent.
  destruct (readWhile_word isWordPart (c :: s) isWordPart_0 rest
              (skipWhitespace opt l) (lfuel (skipWhitespace opt l)) [])
    as (l' & Hl & Hat').
  - cbn [forallb]. rewrite Hpart, Hs. reflexivity.
  - destruct rest as [|d rest]; [exact I|]. exact (proj1 Hrest).
  - exact Hat1.
  - pose proof (lfuel_at _ _ Hat1) as Hf. rewrite length_app in Hf. lia.
  - rewrite Hl. cbn [app].
    destruct (isValidNumber (c :: s));
      eexists _, _, _; (split; [reflexivity|exact Hat']).
Qed.

End TokenFacts.

(** A string the writer can put between quotes: it holds no double
    quote, no backslash in front of a backslash, and no backslash at its
    end. *)
Fixpoint strSafe (s : str) : bool :=
  match s with
  | [] => true
  | c :: s' =>
      negb (c =? 34)
      && (if c =? 92
          then match s' with [] => false | d :: _ => negb (d =? 92) end
          else true)
      && strSafe s'
  end.

Section StringToken.
Context {U : Unicode} {F : Strconv}.
Variable opt : ParseOptions.

Lemma readStringLoop_safe body :
  forall rest l n b,
    strSafe body = true -> hd 0 rest <> 34 ->
    atInput (body ++ 34 :: rest) l -> (length body < n)%nat ->
    exists l', readStringLoop n l b = ((b ++ body, None), l')
               /\ atInput rest l'.
Proof.
  induction body as [|c body IH]; intros rest l n b Hs Hrest Hat Hn.
  - destruct n as [|n]; [cbn in Hn; lia|]. cbn [app] in Hat.
    pose proof Hat as (He & Hc & Hr). cbn [readStringLoop].
    rewrite He, Hc, (lpeek_at _ _ _ Hat). rewrite Z.eqb_refl.
    apply Z.eqb_neq in Hrest. rewrite Hrest. rewrite app_nil_r.
    exists (lread l). split; [reflexivity|]. exact (lread_at _ _ _ Hat).
  - destruct n as [|n]; [cbn in Hn; lia|]. cbn [app] in Hat.
    pose proof Hat as (He & Hc & Hr). cbn [readStringLoop].
    rewrite He, Hc, (lpeek_at _ _ _ Hat).
    cbn [strSafe] in Hs. apply andb_true_iff in Hs. destruct Hs as [Hs Hs3].
    apply andb_true_iff in Hs. destruct Hs as [Hs1 Hs2].
    apply negb_true_iff in Hs1. rewrite Hs1.
    assert (Hesc : (c =? 92)
                   && ((hd 0 (body ++ 34 :: rest) =? 92)
                       || (hd 0 (body ++ 34 :: rest) =? 34)) = false).
    { destruct (c =? 92); [|reflexivity]. cbn [andb].
      destruct body as [|d body]; [discriminate|]. cbn [app hd].
      apply negb_true_iff in Hs2. rewrite Hs2.
      cbn [strSafe] in Hs3. apply andb_true_iff in Hs3.
      destruct Hs3 as [Hs3 _]. apply andb_true_iff in Hs3.
      destruct Hs3 as [Hs3 _]. apply negb_true_iff in Hs3. rewrite Hs3.
      reflexivity. }
    rewrite Hesc.
    destruct (IH rest (lread l) n (b ++ [c]) Hs3 Hrest (lread_at _ _ _ Hat))
      as (l' & Hl & Hat').
    { cbn in Hn. lia. }
    exists l'. rewrite Hl, <- app_assoc. split; [reflexivity|exact Hat'].
Qed.

Lemma delimited_quote rest : delimited rest -> hd 0 rest <> 34.
Proof.
  destruct rest as [|c rest]; cbn.
  - intros _. discriminate.
  - intros [_ H]. exact H.
Qed.

(** A quoted string. *)
Lemma First_string ws body rest :
  forallb IsSpace ws = true -> strSafe body = true -> delimited rest ->
  First opt (ws ++ 34 :: body ++ 34 :: rest) tokString body rest.
Proof.
  intros Hws Hs Hrest l Hat.
  assert (Hat1 : atInput (34 :: body ++ 34 :: rest) (skipWhitespace opt l)).
  { apply skipWhitespace_spaces with (ws := ws);
      [exact Hws|split; [reflexivity|discriminate]|exact Hat]. }
  unfold lnext. cbv zeta. pose proof Hat1 as (He & Hc & Hr).
  rewrite He, Hc. cbn [Z.eqb Pos.eqb]. unfold readString.
  pose proof (lread_at _ _ _ Hat1) as Hat2.
  destruct (readStringLoop_safe body rest (lread (skipWhitespace opt l))
              (lfuel (lread (skipWhitespace opt l))) [] Hs
              (delimited_quote _ Hrest) Hat2)
    as (l' & Hl & Hat').
  { pose proof (lfuel_at _ _ Hat2) as Hf. rewrite length_app in Hf. lia. }
  rewrite Hl. cbn [app]. eexists _, _, _. split; [reflexivity|exact Hat'].
Qed.

End StringToken.

(* ================================================================== *)
(** ** The parser on a given text *)

Section ParserRun.
Context {U : Unicode} {F : Strconv}.
Variable opt : ParseOptions.

(** [Starts s p]: the parser [p] has the text [s] ahead of it, after
    white space; the first token of the text may sit in its buffer. *)
Definition Starts (s : str) (p : parser) : Prop :=
  exists ws p0,
    forallb IsSpace ws = true
    /\ pbuf p0 = None /\ atInput (ws ++ s) (pl p0)
    /\ (p = p0 \/ exists tok, peekRaw opt p0 = ((tok, None), p)).

(** [Tok tt lt s s']: after white space, the first token of the text [s]
    has the type [tt] and the literal [lt], and [s'] follows it. *)
Definition Tok (tt : tokenType) (lt : str) (s s' : str) : Prop :=
  forall ws, forallb IsSpace ws = true -> First opt (ws ++ s) tt lt s'.

(** [Run c s a s']: on the text [s] the call [c] returns [a] and leaves
    the text [s']. *)
Definition Run {A} (c : M A) (s : str) (a : A) (s' : str) : Prop :=
  forall p, Starts s p -> exists p', c p = (Ok a, p') /\ Starts s' p'.

Lemma Starts_at s l : atInput s l -> Starts s (mkParser l None).
Proof.
  intros Hat. exists [], (mkParser l None). cbn. auto.
Qed.

Lemma Starts_ws ws s p :
  forallb IsSpace ws = true -> Starts (ws ++ s) p -> Starts s p.
Proof.
  intros Hws (ws0 & p0 & Hws0 & Hb & Hat & Hp).
  exists (ws0 ++ ws), p0. rewrite forallb_app, Hws0, Hws, <- app_assoc. auto.
Qed.

Lemma Starts_nextRaw s p tt lt s' :
  Starts s p -> Tok tt lt s s' ->
  exists tok p',
    nextRaw opt p = ((tok, None), p') /\ Type_ tok = tt /\ Lit tok = lt
    /\ Starts s' p'.
Proof.
  intros (ws & p0 & Hws & Hb & Hat & Hp) Htok.
  destruct (Htok ws Hws _ Hat) as (line & col & l' & Hl & Hat').
  destruct Hp as [->|(tok & Hpk)].
  - unfold nextRaw. rewrite Hb, Hl.
    eexists _, _. split; [reflexivity|]. cbn. split; [reflexivity|].
    split; [reflexivity|]. apply Starts_at. exact Hat'.
  - unfold peekRaw in Hpk. rewrite Hb, Hl in Hpk. injection Hpk as <- <-.
    unfold nextRaw. cbn [pbuf pl].
    eexists _, _. split; [reflexivity|]. cbn. split; [reflexivity|].
    split; [reflexivity|]. apply Starts_at. exact Hat'.
Qed.

Lemma Starts_peekRaw s p tt lt s' :
  Starts s p -> Tok tt lt s s' ->
  exists tok q,
    peekRaw opt p = ((tok, None), q) /\ Type_ tok = tt /\ Lit tok = lt
    /\ Starts s q.
Proof.
  intros (ws & p0 & Hws & Hb & Hat & Hp) Htok.
  destruct (Htok ws Hws _ Hat) as (line & col & l' & Hl & Hat').
  destruct Hp as [->|(tok & Hpk)].
  - exists (mkToken lt tt line col), (mkParser l' (Some (mkToken lt tt line col))).
    assert (Hpk : peekRaw opt p0
                  = ((mkToken lt tt line col, None),
                     mkParser l' (Some (mkToken lt tt line col)))).
    { unfold peekRaw. rewrite Hb, Hl. reflexivity. }
    split; [exact Hpk|]. cbn. split; [reflexivity|]. split; [reflexivity|].
    exists ws, p0. eauto 8.
  - pose proof Hpk as Hpk'.
    unfold peekRaw in Hpk. rewrite Hb, Hl in Hpk. injection Hpk as <- <-.
    eexists _, _. split; [unfold peekRaw; cbn [pbuf]; reflexivity|].
    cbn. split; [reflexivity|]. split; [reflexivity|].
    exists ws, p0. eauto 8.
Qed.

Lemma Run_ws {A} ws (c : M A) s a s' :
  forallb IsSpace ws = true -> Run c s a s' -> Run c (ws ++ s) a s'.
Proof.
  intros Hws Hrun p Hp. apply Hrun. exact (Starts_ws _ _ _ Hws Hp).
Qed.

Lemma Run_ret {A} (a : A) s : Run (ret a) s a s.
Proof. intros p Hp. exists p. split; [reflexivity|exact Hp]. Qed.

Lemma Run_bind {A B} (c : M A) (k : A -> M B) s a s1 b s2 :
  Run c s a s1 -> Run (k a) s1 b s2 -> Run (bind c k) s b s2.
Proof.
  intros Hc Hk p Hp. destruct (Hc p Hp) as (p1 & Hc1 & Hp1).
  destruct (Hk p1 Hp1) as (p2 & Hk2 & Hp2).
  exists p2. unfold bind. rewrite Hc1. auto.
Qed.

Lemma Run_next_tok tt lt s s' :
  Tok tt lt s s' ->
  forall p, Starts s p ->
  exists tok p', next opt p = (Ok tok, p') /\ Type_ tok = tt /\ Lit tok = lt
                 /\ Starts s' p'.
Proof.
  intros Htok p Hp.
  destruct (Starts_nextRaw _ _ _ _ _ Hp Htok) as (tok & p' & Hn & Ht & Hl & Hp').
  exists tok, p'. unfold next, lift. rewrite Hn. auto.
Qed.

Lemma Run_next {B} (k : token -> M B) tt lt s s' b s2 :
  Tok tt lt s s' ->
  (forall line col, Run (k (mkToken lt tt line col)) s' b s2) ->
  Run (bind (next opt) k) s b s2.
Proof.
  intros Htok Hk p Hp.
  destruct (Run_next_tok _ _ _ _ Htok p Hp) as (tok & p' & Hn & Ht & Hl & Hp').
  destruct tok as [lt0 tt0 line col]. cbn in Ht, Hl. subst.
  destruct (Hk line col p' Hp') as (p2 & Hk2 & Hp2).
  exists p2. unfold bind. rewrite Hn. auto.
Qed.

Lemma Run_peek {B} (k : token -> M B) tt lt s s' b s2 :
  Tok tt lt s s' ->
  (forall line col, Run (k (mkToken lt tt line col)) s b s2) ->
  Run (bind (peek opt) k) s b s2.
Proof.
  intros Htok Hk p Hp.
  destruct (Starts_peekRaw _ _ _ _ _ Hp Htok) as (tok & q & Hn & Ht & Hl & Hq).
  destruct tok as [lt0 tt0 line col]. cbn in Ht, Hl. subst.
  destruct (Hk line col q Hq) as (p2 & Hk2 & Hp2).
  exists p2. unfold bind, peek, lift. rewrite Hn. auto.
Qed.

Lemma Run_peekAny {B} (k : token -> M B) tt lt s s' b s2 :
  Tok tt lt s s' ->
  (forall line col, Run (k (mkToken lt tt line col)) s b s2) ->
  Run (bind (peekAny opt) k) s b s2.
Proof.
  intros Htok Hk p Hp.
  destruct (Starts_peekRaw _ _ _ _ _ Hp Htok) as (tok & q & Hn & Ht & Hl & Hq).
  destruct tok as [lt0 tt0 line col]. cbn in Ht, Hl. subst.
  destruct (Hk line col q Hq) as (p2 & Hk2 & Hp2).
  exists p2. unfold bind, peekAny. rewrite Hn. auto.
Qed.

Lemma Run_skip {B} (k : M B) tt lt s s' b s2 :
  Tok tt lt s s' -> Run k s' b s2 ->
  Run (bind (skip opt) (fun _ => k)) s b s2.
Proof.
  intros Htok Hk p Hp.
  destruct (Starts_nextRaw _ _ _ _ _ Hp Htok) as (tok & p' & Hn & Ht & Hl & Hp').
  destruct (Hk p' Hp') as (p2 & Hk2 & Hp2).
  exists p2. unfold bind, skip. rewrite Hn. auto.
Qed.

Lemma Run_expect {B} (k : token -> M B) tt lt s s' b s2 :
  Tok tt lt s s' ->
  (forall line col, Run (k (mkToken lt tt line col)) s' b s2) ->
  Run (bind (expect opt tt) k) s b s2.
Proof.
  intros Htok Hk p Hp.
  destruct (Run_next_tok _ _ _ _ Htok p Hp) as (tok & p' & Hn & Ht & Hl & Hp').
  destruct tok as [lt0 tt0 line col]. cbn in Ht, Hl. subst.
  destruct (Hk line col p' Hp') as (p2 & Hk2 & Hp2).
  exists p2. unfold bind, expect, bind. rewrite Hn. cbn [Type_].
  rewrite tokenType_eqb_refl. cbn [negb]. unfold ret. auto.
Qed.

Lemma Run_expectSemicolon s : Run (expectSemicolon opt) (59 :: s) tt s.
Proof.
  unfold expectSemicolon.
  apply Run_expect with (lt := [59]) (s' := s).
  - intros ws Hws. apply First_symbol; [exact Hws|reflexivity].
  - intros line col. apply Run_ret.
Qed.

(** The tokens of the writer's text. *)
Lemma Tok_symbol c tt rest : symbolOf c = Some tt -> Tok tt [c] (c :: rest) rest.
Proof. intros Hsym ws Hws. apply First_symbol; assumption. Qed.

Lemma Tok_eof : Tok tokEOF [] [] [].
Proof.
  intros ws Hws. rewrite app_nil_r. apply First_eof. exact Hws.
Qed.

Lemma Tok_string body rest :
  strSafe body = true -> delimited rest ->
  Tok tokString body (34 :: body ++ 34 :: rest) rest.
Proof. intros Hs Hrest ws Hws. apply First_string; assumption. Qed.

Lemma Tok_identWord s rest :
  isIdentWord s = true -> delimited rest ->
  Tok (if EqualFold s (lit "class") then tokClass else tokIdent) s
    (s ++ rest) rest.
Proof. intros Hs Hrest ws Hws. apply First_identWord; assumption. Qed.

Lemma Tok_numberWord s rest :
  isNumberWord s = true -> delimited rest ->
  Tok (if isValidNumber s then tokNumber else tokIdent) s (s ++ rest) rest.
Proof. intros Hs Hrest ws Hws. apply First_numberWord; assumption. Qed.

End ParserRun.

(* ================================================================== *)
(** ** The text of the writer *)

(** The elements of an array, [", "] between them. *)
Fixpoint textSeparated {A} (tx : A -> str) (first : bool) (vals : list A)
  : str :=
  match vals with
  | [] => []
  | v :: vals' =>
      (if first then [] else [44; 32]) ++ tx v ++ textSeparated tx false vals'
  end.

Definition textIndent (ind : str) (lvl : Z) : str :=
  if lvl <=? 0 then [] else Repeat ind (Z.to_nat lvl).

(** [class Name] or [class Name : Base], with its line end. *)
Definition textHeader (name base : str) : str :=
  lit "class " ++ name
  ++ (if negb (isEmpty base) then 32 :: 58 :: 32 :: base else []) ++ [10].

Section Text.
Context {F : Strconv}.

Fixpoint textValue (v : value) : str :=
  match v with
  | VNumber f => FormatFloat f
  | VString s => 34 :: s ++ [34]
  | VIdent s => s
  | VArray vals => 123 :: textSeparated textValue true vals ++ [125]
  end.

Definition textFloats (vals : list float64) : str :=
  123 :: textSeparated FormatFloat true vals ++ [125].

(** An assignment without its indentation and its line end. *)
Definition textAssign (name : str) (isArray : bool) (val : value) : str :=
  name ++ (if isArray then [91; 93; 61] else [61]) ++ textValue val ++ [59].

Fixpoint textNode (ind : str) (lvl : Z) (n : node) : str :=
  match n with
  | NAssign name isArray val =>
      textIndent ind lvl ++ textAssign name isArray val ++ [10]
  | NClass name base body =>
      textIndent ind lvl ++ textHeader name base
      ++ textIndent ind lvl ++ [123; 10]
      ++ flat_map (textNode ind (lvl + 1)) body
      ++ textIndent ind lvl ++ [125; 59; 10]
  end.

(** One numeric array, omitted when it is empty. *)
Definition textNamedArray (indent : bool) (ind : str) (lvl : Z) (name : str)
  (vals : list float64) : str :=
  match vals with
  | [] => []
  | _ => (if indent then textIndent ind lvl else [])
         ++ name ++ 91 :: 93 :: 61 :: textFloats vals ++ [59; 10]
  end.

Definition textUVTransform (ind : str) (lvl : Z) (uv : UVTransform) : str :=
  textIndent ind lvl ++ lit "class uvTransform" ++ [10]
  ++ textIndent ind lvl ++ [123; 10]
  ++ textNamedArray true ind (lvl + 1) (lit "aside") (Aside uv)
  ++ textNamedArray true ind (lvl + 1) (lit "up") (Up uv)
  ++ textNamedArray true ind (lvl + 1) (lit "dir") (Dir uv)
  ++ textNamedArray true ind (lvl + 1) (lit "pos") (Pos uv)
  ++ textIndent ind lvl ++ [125; 59; 10].

Definition textOptUV (ind : str) (lvl : Z) (uv : option UVTransform) : str :=
  match uv with
  | Some uv => textUVTransform ind lvl uv
  | None => []
  end.

(** A string field, omitted when it is empty. *)
Definition textField (indent : bool) (ind : str) (lvl : Z) (name s : str)
  : str :=
  if isEmpty s then []
  else (if indent then textIndent ind lvl else [])
       ++ name ++ 61 :: 34 :: s ++ [34; 59; 10].

Definition textStage (ind : str) (lvl : Z) (s : Stage) : str :=
  lit "class " ++ (if isEmpty (StageName s) then lit "Stage" else StageName s)
  ++ [10; 123; 10]
  ++ textField true ind (lvl + 1) (lit "texture") (Raw (Texture s))
  ++ (if isEmpty (StageTexGen s)
      then textField true ind (lvl + 1) (lit "uvSource") (StageUVSource s)
      else [])
  ++ textField true ind (lvl + 1) (lit "texGen") (StageTexGen s)
  ++ (if isEmpty (StageTexGen s)
      then textOptUV ind (lvl + 1) (StageUVTransform s) else [])
  ++ flat_map (textNode ind (lvl + 1)) (StageExtras s)
  ++ [125; 59; 10].

Definition textTexGen (ind : str) (lvl : Z) (t : TexGen) : str :=
  textHeader (if isEmpty (TexGenName t) then lit "TexGen" else TexGenName t)
    (TexGenBase t)
  ++ [123; 10]
  ++ textField true ind (lvl + 1) (lit "uvSource") (TexGenUVSource t)
  ++ textOptUV ind (lvl + 1) (TexGenUVTransform t)
  ++ flat_map (textNode ind (lvl + 1)) (TexGenExtras t)
  ++ [125; 59; 10].

Definition textMaterial (ind : str) (lvl : Z) (m : Material) : str :=
  textNamedArray false ind lvl (lit "ambient") (Ambient m)
  ++ textNamedArray false ind lvl (lit "diffuse") (Diffuse m)
  ++ textNamedArray false ind lvl (lit "forcedDiffuse") (ForcedDiffuse m)
  ++ textNamedArray false ind lvl (lit "emmisive") (Emmisive m)
  ++ textNamedArray false ind lvl (lit "specular") (Specular m)
  ++ match SpecularPower m with
     | Some v => lit "specularPower" ++ 61 :: FormatFloat v ++ [59; 10]
     | None => []
     end
  ++ textField false ind lvl (lit "PixelShaderID") (PixelShaderID m)
  ++ textField false ind lvl (lit "VertexShaderID") (VertexShaderID m)
  ++ flat_map (textTexGen ind lvl) (TexGens m)
  ++ flat_map (textStage ind lvl) (Stages m)
  ++ flat_map (textNode ind lvl) (Extras m).

(** Induction over values and nodes, with their nested lists. *)
Lemma value_nested_ind (P : value -> Prop) :
  (forall f, P (VNumber f)) -> (forall s, P (VString s)) ->
  (forall s, P (VIdent s)) ->
  (forall vals, Forall P vals -> P (VArray vals)) ->
  forall v, P v.
Proof.
  intros Hn Hs Hi Ha. fix IH 1. intros [f|s|s|vals].
  - apply Hn.
  - apply Hs.
  - apply Hi.
  - apply Ha. induction vals as [|v vals IHv]; constructor.
    + apply IH.
    + exact IHv.
Qed.

Lemma node_nested_ind (P : node -> Prop) :
  (forall name isArray val, P (NAssign name isArray val)) ->
  (forall name base body, Forall P body -> P (NClass name base body)) ->
  forall n, P n.
Proof.
  intros Ha Hc. fix IH 1. intros [name isArray val|name base body].
  - apply Ha.
  - apply Hc. induction body as [|n body IHb]; constructor.
    + apply IH.
    + exact IHb.
Qed.

(** *** The writer writes this text *)

Definition wrote (f : W) (text : str -> Z -> str) : Prop :=
  forall w, f w = mkWriter (wout w ++ text (windent w) (wlevel w))
                    (windent w) (wlevel w).

Lemma wrote_id : wrote (fun w => w) (fun _ _ => []).
Proof. intros [o i l]. cbn. rewrite app_nil_r. reflexivity. Qed.

Lemma wrote_string s : wrote (writeString s) (fun _ _ => s).
Proof. intros w. reflexivity. Qed.

Lemma wrote_seq f g tf tg :
  wrote f tf -> wrote g tg ->
  wrote (f >> g) (fun i l => tf i l ++ tg i l).
Proof.
  intros Hf Hg w. rewrite Hf, Hg. cbn. rewrite app_assoc. reflexivity.
Qed.

Lemma wrote_ext f t t' :
  (forall i l, t i l = t' i l) -> wrote f t -> wrote f t'.
Proof. intros He Hf w. rewrite Hf, He. reflexivity. Qed.

Lemma wrote_indent : wrote writeIndent textIndent.
Proof.
  intros w. unfold writeIndent, textIndent, indentFor.
  destruct (wlevel w <=? 0) eqn:Hl.
  - destruct w; cbn. rewrite app_nil_r. reflexivity.
  - reflexivity.
Qed.

(** A block written one level deeper. *)
Lemma wrote_nested f t :
  wrote f t ->
  wrote (levelUp >> f >> levelDown) (fun i l => t i (l + 1)).
Proof.
  intros Hf w. unfold levelUp, levelDown. rewrite Hf. cbn.
  rewrite Z.add_simpl_r. reflexivity.
Qed.

Lemma wrote_separated {A} (wv : A -> W) (tx : A -> str) vals :
  Forall (fun v => wrote (wv v) (fun _ _ => tx v)) vals ->
  forall first,
    wrote (writeSeparated wv first vals)
      (fun _ _ => textSeparated tx first vals).
Proof.
  induction 1 as [|v vals Hv _ IH]; intros first.
  - apply wrote_id.
  - cbn [writeSeparated textSeparated].
    eapply wrote_ext; [|apply wrote_seq; [apply wrote_seq|]].
    + intros i l. cbv beta. rewrite <- app_assoc. reflexivity.
    + destruct first; [apply wrote_id|apply wrote_string].
    + exact Hv.
    + apply IH.
Qed.

Lemma wrote_each {A} (wn : A -> W) (tx : str -> Z -> A -> str) nodes :
  Forall (fun n => wrote (wn n) (fun i l => tx i l n)) nodes ->
  wrote (writeEach wn nodes) (fun i l => flat_map (tx i l) nodes).
Proof.
  induction 1 as [|n nodes Hn _ IH].
  - apply wrote_id.
  - cbn [writeEach flat_map]. apply wrote_seq; assumption.
Qed.

Lemma wrote_value v : wrote (writeValue v) (fun _ _ => textValue v).
Proof.
  induction v as [f|s|s|vals IH] using value_nested_ind;
    cbn [writeValue textValue].
  - apply wrote_string.
  - intros w. unfold writeQuoted, writeString. cbn [wout windent wlevel].
    rewrite <- !app_assoc. reflexivity.
  - apply wrote_string.
  - eapply wrote_ext;
      [|apply wrote_seq; [apply wrote_seq; [apply wrote_string|]
                         |apply wrote_string]].
    + intros i l. cbv beta. reflexivity.
    + apply wrote_separated. exact IH.
Qed.

Lemma wrote_floats vals :
  wrote (writeFloatArray vals) (fun _ _ => textFloats vals).
Proof.
  unfold writeFloatArray, textFloats.
  eapply wrote_ext;
    [|apply wrote_seq; [apply wrote_seq; [apply wrote_string|]
                       |apply wrote_string]].
  - intros i l. cbv beta. reflexivity.
  - apply wrote_separated. apply Forall_forall. intros f _.
    apply wrote_string.
Qed.

Lemma wrote_assign name val isArray :
  wrote (writeAssign name val isArray)
    (fun i l => textIndent i l ++ textAssign name isArray val ++ [10]).
Proof.
  intros w. unfold writeAssign. rewrite wrote_indent.
  destruct isArray; cbn; rewrite !wrote_value; unfold writeString; cbn;
    unfold textAssign; rewrite <- !app_assoc; reflexivity.
Qed.

Lemma wrote_header name base :
  wrote (writeClassHeader name base) (fun _ _ => textHeader name base).
Proof.
  intros w. unfold writeClassHeader, textHeader.
  destruct (negb (isEmpty base)); unfold writeString;
    cbn [wout windent wlevel]; rewrite <- !app_assoc; reflexivity.
Qed.

Lemma wrote_node n : wrote (writeNode n) (fun i l => textNode i l n).
Proof.
  induction n as [name isArray val|name base body IH] using node_nested_ind.
  - apply wrote_assign.
  - cbn [writeNode textNode].
    pose proof (wrote_nested _ _ (wrote_each writeNode textNode body IH)) as Hb.
    unfold wrote in Hb. cbv beta in Hb.
    change (writeNode (NClass name base body)) with
      (fun w0 =>
         writeString (lit "};" ++ [10])
           (writeIndent
              (levelDown
                 (writeEach writeNode body
                    (levelUp
                       (writeString (lit "{" ++ [10])
                          (writeIndent
                             (writeClassHeader name base
                                (writeIndent w0))))))))).
    intros w. cbv beta.
    rewrite (wrote_indent w), wrote_header, wrote_indent,
      (wrote_string (lit "{" ++ [10])).
    cbn [wout windent wlevel]. rewrite Hb. cbn [wout windent wlevel].
    rewrite wrote_indent, wrote_string. cbn [wout windent wlevel].
    cbn [textNode]. rewrite <- !app_assoc. reflexivity.
Qed.

Lemma wrote_each_at {A} (wn : A -> W) (tx : str -> Z -> A -> str) nodes o i l :
  Forall (fun n => wrote (wn n) (fun i l => tx i l n)) nodes ->
  writeEach wn nodes (mkWriter o i l)
  = mkWriter (o ++ flat_map (tx i l) nodes) i l.
Proof. intros Hall. exact (wrote_each wn tx nodes Hall (mkWriter o i l)). Qed.

Lemma wrote_nodes nodes o i l :
  writeEach writeNode nodes (mkWriter o i l)
  = mkWriter (o ++ flat_map (textNode i l) nodes) i l.
Proof.
  apply wrote_each_at. apply Forall_forall. intros n _. apply wrote_node.
Qed.

Ltac wstep :=
  match goal with
  | |- context [writeString ?s (mkWriter ?a ?b ?c)] =>
      change (writeString s (mkWriter a b c)) with (mkWriter (a ++ s) b c)
  | |- context [levelUp (mkWriter ?a ?b ?c)] =>
      change (levelUp (mkWriter a b c)) with (mkWriter a b (c + 1))
  | |- context [levelDown (mkWriter ?a ?b ?c)] =>
      change (levelDown (mkWriter a b c)) with (mkWriter a b (c - 1))
  | |- context [writeIndent (mkWriter ?a ?b ?c)] =>
      rewrite (wrote_indent (mkWriter a b c)); cbn [wout windent wlevel]
  | |- context [writeFloatArray ?v (mkWriter ?a ?b ?c)] =>
      rewrite (wrote_floats v (mkWriter a b c)); cbn [wout windent wlevel]
  | |- context [writeAssign ?n ?v ?x (mkWriter ?a ?b ?c)] =>
      rewrite (wrote_assign n v x (mkWriter a b c)); cbn [wout windent wlevel]
  | |- context [writeClassHeader ?n ?x (mkWriter ?a ?b ?c)] =>
      rewrite (wrote_header n x (mkWriter a b c)); cbn [wout windent wlevel]
  | |- context [writeEach writeNode ?n (mkWriter ?a ?b ?c)] =>
      rewrite (wrote_nodes n a b c)
  end.

Lemma wrote_namedArray indent name vals :
  wrote (writeNamedArray indent name vals)
    (fun i l => textNamedArray indent i l name vals).
Proof.
  intros [o i l]. unfold writeNamedArray, textNamedArray.
  destruct vals as [|v vals]; cbn [wout windent wlevel].
  - rewrite app_nil_r. reflexivity.
  - destruct indent; cbv beta; repeat wstep;
      rewrite <- ?app_assoc; reflexivity.
Qed.

Ltac wstep2 :=
  first
    [ wstep
    | match goal with
      | |- context [writeNamedArray ?x ?n ?v (mkWriter ?a ?b ?c)] =>
          rewrite (wrote_namedArray x n v (mkWriter a b c));
          cbn [wout windent wlevel]
      end ].

Lemma wrote_uvTransform uv :
  wrote (writeUVTransform uv) (fun i l => textUVTransform i l uv).
Proof.
  intros [o i l]. unfold writeUVTransform, textUVTransform.
  cbv beta. cbn [wout windent wlevel]. repeat wstep2.
  rewrite Z.add_simpl_r. rewrite <- ?app_assoc. reflexivity.
Qed.

Lemma wrote_optUV uv :
  wrote (writeOptUV uv) (fun i l => textOptUV i l uv).
Proof.
  destruct uv as [uv|]; [apply wrote_uvTransform|apply wrote_id].
Qed.

Lemma wrote_stage s :
  wrote (writeStage s) (fun i l => textStage i l s).
Proof.
  intros [o i l]. unfold writeStage, textStage, when, textField, textAssign.
  cbv beta zeta. cbn [wout windent wlevel].
  destruct (isEmpty (Raw (Texture s))), (isEmpty (StageUVSource s)),
    (isEmpty (StageTexGen s)); cbn [negb andb]; cbv beta;
    repeat wstep; rewrite ?wrote_optUV; cbn [wout windent wlevel];
    repeat wstep; unfold textAssign; cbn [textValue];
    rewrite Z.add_simpl_r; rewrite <- ?app_assoc; cbn [app];
    rewrite ?app_nil_r; rewrite <- ?app_assoc; reflexivity.
Qed.

Lemma wrote_texGen t :
  wrote (writeTexGen t) (fun i l => textTexGen i l t).
Proof.
  intros [o i l]. unfold writeTexGen, textTexGen, when, textField.
  cbv beta zeta. cbn [wout windent wlevel].
  destruct (isEmpty (TexGenUVSource t)); cbn [negb andb]; cbv beta;
    repeat wstep; rewrite ?wrote_optUV; cbn [wout windent wlevel];
    repeat wstep; unfold textAssign; cbn [textValue];
    rewrite Z.add_simpl_r; rewrite <- ?app_assoc; cbn [app];
    rewrite ?app_nil_r; rewrite <- ?app_assoc; reflexivity.
Qed.

Lemma wrote_material m :
  wrote (writeMaterial m) (fun i l => textMaterial i l m).
Proof.
  intros [o i l]. unfold writeMaterial, textMaterial, when, textField.
  cbv beta. cbn [wout windent wlevel]. repeat wstep2.
  assert (Htg : forall o, writeEach writeTexGen (TexGens m) (mkWriter o i l)
                = mkWriter (o ++ flat_map (textTexGen i l) (TexGens m)) i l).
  { intros o'. apply wrote_each_at. apply Forall_forall. intros n _.
    apply wrote_texGen. }
  assert (Hst : forall o, writeEach writeStage (Stages m) (mkWriter o i l)
                = mkWriter (o ++ flat_map (textStage i l) (Stages m)) i l).
  { intros o'. apply wrote_each_at. apply Forall_forall. intros n _.
    apply wrote_stage. }
  destruct (SpecularPower m) as [v|], (isEmpty (PixelShaderID m)),
    (isEmpty (VertexShaderID m)); cbn [negb]; cbv beta;
    unfold writeNumber, writeQuoted; cbv beta;
    repeat wstep; rewrite Htg, Hst; repeat wstep;
    rewrite <- ?app_assoc; cbn [app];
    rewrite ?app_nil_r; rewrite <- ?app_assoc; reflexivity.
Qed.

(** The text [Format] encodes. *)
Lemma FormatText_text m o :
  FormatText m o = textMaterial (Indent (normalizeFormatOptions o)) 0 m.
Proof.
  unfold FormatText. rewrite wrote_material. reflexivity.
Qed.

End Text.

(* ================================================================== *)
(** ** Parsing the text of the writer *)

Section Sizes.
Context {F : Strconv}.

(** A bound on the fuel the parser of a value or of a node needs. *)
Fixpoint vsize (v : value) : nat :=
  match v with
  | VArray vals => S (S (list_sum (List.map vsize vals)))
  | _ => 1
  end.

Fixpoint nsize (n : node) : nat :=
  match n with
  | NAssign _ _ val => S (vsize val)
  | NClass _ _ body => S (S (list_sum (List.map nsize body)))
  end.

Lemma list_sum_In {A} (f : A -> nat) x xs :
  In x xs -> (f x <= list_sum (List.map f xs))%nat.
Proof.
  induction xs as [|y xs IH]; [contradiction|]. cbn [In List.map].
  change (list_sum (f y :: List.map f xs))
    with (f y + list_sum (List.map f xs))%nat.
  intros [->|Hin]; [lia|]. specialize (IH Hin). lia.
Qed.

Lemma list_sum_length {A} (f : A -> nat) xs :
  (forall x, In x xs -> (1 <= f x)%nat) ->
  (length xs <= list_sum (List.map f xs))%nat.
Proof.
  induction xs as [|y xs IH]; [cbn; lia|]. cbn [length List.map].
  change (list_sum (f y :: List.map f xs))
    with (f y + list_sum (List.map f xs))%nat.
  intros Hall. pose proof (Hall y (or_introl eq_refl)).
  assert (length xs <= list_sum (List.map f xs))%nat.
  { apply IH. intros x Hx. apply Hall. right. exact Hx. }
  lia.
Qed.

Lemma vsize_pos v : (1 <= vsize v)%nat.
Proof. destruct v; cbn; lia. Qed.

Lemma nsize_pos n : (1 <= nsize n)%nat.
Proof. destruct n; cbn; lia. Qed.

End Sizes.

Section RunText.
Context {U : Unicode} {F : Strconv}.
Variable opt : ParseOptions.

(** A name the lexer reads back as an identifier. *)
Definition isName (s : str) : bool :=
  (isIdentWord s && negb (EqualFold s (lit "class")))
  || (isNumberWord s && negb (isValidNumber s)).

(** A number the writer prints as a numeric literal that converts back
    to it. *)
Definition numberText (f : float64) : Prop :=
  let s := FormatFloat f in
  match s with [] => false | c :: _ => isNumberStart c end
  && forallb isNumberChar s = true
  /\ ParseFloat s = Some f.

(** The values the parser reads back from what the writer prints. *)
Fixpoint wfValue (v : value) : Prop :=
  match v with
  | VNumber f => numberText f
  | VString s => strSafe s = true
  | VIdent s => isName s = true
  | VArray vals =>
      (fix all (l : list value) : Prop :=
         match l with
         | [] => True
         | x :: l' => wfValue x /\ all l'
         end) vals
  end.

Lemma wfValue_array vals : wfValue (VArray vals) <-> Forall wfValue vals.
Proof.
  induction vals as [|v vals IH].
  - split; [constructor|exact (fun _ => I)].
  - split.
    + intros [Hv Hvs]. constructor; [exact Hv|]. apply IH. exact Hvs.
    + intros Hall. inversion Hall as [|? ? Hv Hvs]; subst.
      split; [exact Hv|]. apply IH. exact Hvs.
Qed.

Lemma isNumberChar_word c : isNumberChar c = true -> isWordPart c = true.
Proof.
  unfold isNumberChar, isWordPart, isIdentPart, IsLetter, IsDigit.
  intros H. destruct (Z.ltb_spec c 128) as [Hlt|Hge].
  - btop H. apply not_false_iff_true. intros G. btop G. lia.
  - btop H. destruct H as [[[[[H|H]|H]|H]|H]|H]; try lia.
    rewrite H. destruct (LetterHigh c); reflexivity.
Qed.

Lemma numberText_word f :
  numberText f ->
  isNumberWord (FormatFloat f) = true
  /\ isValidNumber (FormatFloat f) = true
  /\ ParseFloat (FormatFloat f) = Some f.
Proof.
  unfold numberText. cbv zeta. intros [Hs Hp].
  apply andb_true_iff in Hs. destruct Hs as [Hstart Hall].
  destruct (FormatFloat f) as [|c s] eqn:Hf; [discriminate|].
  split; [|split; [|exact Hp]].
  - cbn [isNumberWord]. rewrite Hstart. cbn [andb].
    cbn [forallb] in Hall. apply andb_true_iff in Hall.
    destruct Hall as [_ Hall]. apply forallb_forall. intros x Hx.
    apply isNumberChar_word.
    exact (proj1 (forallb_forall _ _) Hall x Hx).
  - unfold isValidNumber. rewrite Hall, Hp. reflexivity.
Qed.

Lemma Tok_number f rest :
  numberText f -> delimited rest ->
  Tok opt tokNumber (FormatFloat f) (FormatFloat f ++ rest) rest.
Proof.
  intros Hf Hrest. destruct (numberText_word _ Hf) as (Hw & Hv & _).
  pose proof (Tok_numberWord opt _ _ Hw Hrest) as Ht.
  rewrite Hv in Ht. exact Ht.
Qed.

Lemma Tok_name s rest :
  isName s = true -> delimited rest -> Tok opt tokIdent s (s ++ rest) rest.
Proof.
  unfold isName. intros Hs Hrest. apply orb_true_iff in Hs.
  destruct Hs as [Hs|Hs]; apply andb_true_iff in Hs; destruct Hs as [Hw Hn];
    apply negb_true_iff in Hn.
  - pose proof (Tok_identWord opt _ _ Hw Hrest) as Ht.
    rewrite Hn in Ht. exact Ht.
  - pose proof (Tok_numberWord opt _ _ Hw Hrest) as Ht.
    rewrite Hn in Ht. exact Ht.
Qed.

(** A keyword or a field name of the writer. *)
Lemma Tok_word (w : string) rest :
  isIdentWord (lit w) = true -> delimited rest ->
  Tok opt (if EqualFold (lit w) (lit "class") then tokClass else tokIdent)
    (lit w) (lit w ++ rest) rest.
Proof. intros Hw Hrest. apply Tok_identWord; assumption. Qed.

Lemma delimited_sym c rest :
  isWordPart c = false -> c <> 34 -> delimited (c :: rest).
Proof. intros H1 H2. split; assumption. Qed.

(** The first token of a value. *)
Lemma value_Tok v k :
  wfValue v -> delimited k ->
  exists tt lt s', Tok opt tt lt (textValue v ++ k) s' /\ tt <> tokRBrace.
Proof.
  intros Hv Hk. destruct v as [f|s|s|vals]; cbn [wfValue textValue] in *.
  - exists tokNumber, (FormatFloat f), k. split; [|discriminate].
    apply Tok_number; assumption.
  - exists tokString, s, k. split; [|discriminate].
    cbn [app]. rewrite <- app_assoc. cbn [app]. apply Tok_string; assumption.
  - exists tokIdent, s, k. split; [|discriminate].
    apply Tok_name; assumption.
  - eexists tokLBrace, _, _. split; [|discriminate].
    cbn [app]. apply Tok_symbol. reflexivity.
Qed.

Lemma textSeparated_false {A} (tx : A -> str) v vs :
  textSeparated tx false (v :: vs) = 44 :: 32 :: textSeparated tx true (v :: vs).
Proof. reflexivity. Qed.

Lemma delimited_tail {A} (tx : A -> str) vs k :
  delimited (textSeparated tx false vs ++ 125 :: k).
Proof.
  destruct vs as [|v vs]; cbn [textSeparated app];
    (split; [reflexivity|discriminate]).
Qed.

(** The loop of [parseArray] on the elements and the closing brace. *)
Lemma Run_parseArrayLoop (pv : M value) vals :
  Forall wfValue vals ->
  (forall v, In v vals ->
     forall k, delimited k -> Run opt pv (textValue v ++ k) v k) ->
  forall n arr k,
    (length vals < n)%nat ->
    Run opt (parseArrayLoop opt pv n arr)
      (textSeparated textValue true vals ++ 125 :: k) (arr ++ vals) k.
Proof.
  induction vals as [|v vs IH]; intros Hwf Hpv n arr k Hn.
  - destruct n as [|n]; [cbn in Hn; lia|]. cbn [textSeparated app].
    cbn [parseArrayLoop]. rewrite app_nil_r.
    eapply Run_peek; [apply Tok_symbol; reflexivity|].
    intros line col. cbn [Type_ tokenType_eqb].
    eapply Run_skip; [apply Tok_symbol; reflexivity|]. apply Run_ret.
  - destruct n as [|n]; [cbn in Hn; lia|].
    inversion Hwf as [|? ? Hv Hvs]; subst.
    cbn [textSeparated]. cbn [app]. rewrite <- app_assoc.
    pose proof (delimited_tail textValue vs k) as Hd.
    destruct (value_Tok v _ Hv Hd) as (tt & lt & s' & Htok & Hne).
    cbn [parseArrayLoop].
    eapply Run_peek; [exact Htok|].
    intros line col. cbn [Type_]. rewrite (tokenType_eqb_neq _ _ Hne).
    eapply Run_bind; [apply Hpv; [left; reflexivity|exact Hd]|].
    cbv zeta.
    assert (IH' : forall arr', Run opt (parseArrayLoop opt pv n arr')
                    (textSeparated textValue true vs ++ 125 :: k)
                    (arr' ++ vs) k).
    { intros arr'. apply IH; [exact Hvs| |cbn in Hn; lia].
      intros v' Hin. apply Hpv. right. exact Hin. }
    replace (arr ++ v :: vs) with ((arr ++ [v]) ++ vs)
      by (rewrite <- app_assoc; reflexivity).
    destruct vs as [|v' vs'].
    + cbn [textSeparated app].
      eapply Run_peek; [apply Tok_symbol; reflexivity|].
      intros line' col'. cbn [Type_ tokenType_eqb].
      apply (IH' (arr ++ [v])).
    + rewrite textSeparated_false. cbn [app].
      eapply Run_peek; [apply Tok_symbol; reflexivity|].
      intros line' col'. cbn [Type_ tokenType_eqb].
      eapply Run_skip; [apply Tok_symbol; reflexivity|].
      apply (Run_ws opt [32]); [reflexivity|].
      apply (IH' (arr ++ [v])).
Qed.

(** [parseValue] reads back a value of the writer. *)
Lemma Run_parseValue v :
  wfValue v ->
  forall n k, (vsize v <= n)%nat -> delimited k ->
  Run opt (parseValue opt n) (textValue v ++ k) v k.
Proof.
  induction v as [f|s|s|vals IH] using value_nested_ind;
    intros Hwf n k Hn Hk; (destruct n as [|n]; [cbn in Hn; lia|]);
    cbn [parseValue textValue].
  - cbn [wfValue] in Hwf.
    eapply Run_next; [apply Tok_number; assumption|].
    intros line col. cbn [Type_ Lit].
    destruct (numberText_word _ Hwf) as (_ & _ & Hp). rewrite Hp.
    apply Run_ret.
  - cbn [wfValue] in Hwf. cbn [app]. rewrite <- app_assoc. cbn [app].
    eapply Run_next; [apply Tok_string; assumption|].
    intros line col. cbn [Type_ Lit]. apply Run_ret.
  - cbn [wfValue] in Hwf.
    eapply Run_next; [apply Tok_name; assumption|].
    intros line col. cbn [Type_ Lit]. apply Run_ret.
  - apply wfValue_array in Hwf. cbn [app]. rewrite <- app_assoc. cbn [app].
    eapply Run_next; [apply Tok_symbol; reflexivity|].
    intros line col. cbn [Type_ Lit].
    cbn [vsize] in Hn.
    pose proof (list_sum_length vsize vals (fun x _ => vsize_pos x)) as Hlen.
    eapply Run_bind; [|apply Run_ret].
    apply (Run_parseArrayLoop (parseValue opt n) vals Hwf); [|lia].
    intros v Hin k' Hk'.
    rewrite Forall_forall in IH. apply IH; [exact Hin| | |exact Hk'].
    + rewrite Forall_forall in Hwf. apply Hwf. exact Hin.
    + pose proof (list_sum_In vsize v vals Hin). lia.
Qed.

(** The loop of [parseNumberArray] on the numbers and the closing
    brace. *)
Lemma Run_parseNumberArrayLoop relaxed fs :
  Forall numberText fs ->
  forall n arr k,
    (length fs < n)%nat ->
    Run opt (parseNumberArrayLoop opt relaxed n arr)
      (textSeparated FormatFloat true fs ++ 125 :: k) (arr ++ fs) k.
Proof.
  induction fs as [|f fs IH]; intros Hwf n arr k Hn.
  - destruct n as [|n]; [cbn in Hn; lia|]. cbn [textSeparated app].
    cbn [parseNumberArrayLoop]. rewrite app_nil_r.
    eapply Run_peek; [apply Tok_symbol; reflexivity|].
    intros line col. cbn [Type_ tokenType_eqb].
    eapply Run_skip; [apply Tok_symbol; reflexivity|]. apply Run_ret.
  - destruct n as [|n]; [cbn in Hn; lia|].
    inversion Hwf as [|? ? Hf Hfs]; subst.
    cbn [textSeparated]. cbn [app]. rewrite <- app_assoc.
    pose proof (delimited_tail FormatFloat fs k) as Hd.
    cbn [parseNumberArrayLoop].
    eapply Run_peek; [apply Tok_number; assumption|].
    intros line col. cbn [Type_ tokenType_eqb].
    eapply Run_next; [apply Tok_number; assumption|].
    intros line1 col1. cbv zeta. cbn [parseNumberToken Type_ Lit].
    destruct (numberText_word _ Hf) as (_ & _ & Hp). rewrite Hp.
    assert (IH' : forall arr', Run opt (parseNumberArrayLoop opt relaxed n arr')
                    (textSeparated FormatFloat true fs ++ 125 :: k)
                    (arr' ++ fs) k).
    { intros arr'. apply IH; [exact Hfs|cbn in Hn; lia]. }
    replace (arr ++ f :: fs) with ((arr ++ [f]) ++ fs)
      by (rewrite <- app_assoc; reflexivity).
    destruct fs as [|f' fs'].
    + cbn [textSeparated app].
      eapply Run_peek; [apply Tok_symbol; reflexivity|].
      intros line' col'. cbn [Type_ tokenType_eqb].
      apply (IH' (arr ++ [f])).
    + rewrite textSeparated_false. cbn [app].
      eapply Run_peek; [apply Tok_symbol; reflexivity|].
      intros line' col'. cbn [Type_ tokenType_eqb].
      eapply Run_skip; [apply Tok_symbol; reflexivity|].
      apply (Run_ws opt [32]); [reflexivity|].
      apply (IH' (arr ++ [f])).
Qed.

Lemma Run_parseNumberArray fs n k :
  Forall numberText fs -> (length fs < n)%nat ->
  Run opt (parseNumberArray opt n) (textFloats fs ++ k) fs k.
Proof.
  intros Hwf Hn. unfold parseNumberArray, parseNumberArrayWithRelax, textFloats.
  cbn [app]. rewrite <- app_assoc. cbn [app].
  eapply Run_expect; [apply Tok_symbol; reflexivity|].
  intros line col.
  apply (Run_parseNumberArrayLoop _ fs Hwf n [] k Hn).
Qed.

End RunText.

Section RunNodes.
Context {U : Unicode} {F : Strconv}.
Variable opt : ParseOptions.

(** The generic nodes the parser reads back. *)
Fixpoint wfNode (n : node) : Prop :=
  match n with
  | NAssign name _ val => isName name = true /\ wfValue val
  | NClass name base body =>
      isName name = true /\ isEmpty base || isName base = true
      /\ (fix all (l : list node) : Prop :=
            match l with
            | [] => True
            | x :: l' => wfNode x /\ all l'
            end) body
  end.

Lemma wfNode_class name base body :
  wfNode (NClass name base body) <->
  isName name = true /\ isEmpty base || isName base = true
  /\ Forall wfNode body.
Proof.
  cbn [wfNode].
  assert (Hb : (fix all (l : list node) : Prop :=
                  match l with
                  | [] => True
                  | x :: l' => wfNode x /\ all l'
                  end) body <-> Forall wfNode body).
  { induction body as [|n body IH].
    - split; [constructor|exact (fun _ => I)].
    - split.
      + intros [Hn Hb]. constructor; [exact Hn|]. apply IH. exact Hb.
      + intros Hall. inversion Hall as [|? ? Hn Hb]; subst.
        split; [exact Hn|]. apply IH. exact Hb. }
  rewrite Hb. reflexivity.
Qed.

Lemma Tok_ws ws tt lt s s' :
  forallb IsSpace ws = true -> Tok opt tt lt s s' -> Tok opt tt lt (ws ++ s) s'.
Proof.
  intros Hws Ht ws0 Hws0. rewrite app_assoc. apply Ht.
  rewrite forallb_app, Hws0, Hws. reflexivity.
Qed.

Lemma Run_post_ws {A} ws (c : M A) s a s' :
  forallb IsSpace ws = true -> Run opt c s a (ws ++ s') -> Run opt c s a s'.
Proof.
  intros Hws Hrun p Hp. destruct (Hrun p Hp) as (p' & Hc & Hp').
  exists p'. split; [exact Hc|]. exact (Starts_ws opt _ _ _ Hws Hp').
Qed.

Lemma Repeat_spaces ind n :
  forallb IsSpace ind = true -> forallb IsSpace (Repeat ind n) = true.
Proof.
  intros Hind. induction n as [|n IH]; [reflexivity|].
  cbn [Repeat]. rewrite forallb_app, Hind, IH. reflexivity.
Qed.

Lemma textIndent_spaces ind lvl :
  forallb IsSpace ind = true -> forallb IsSpace (textIndent ind lvl) = true.
Proof.
  intros Hind. unfold textIndent. destruct (lvl <=? 0); [reflexivity|].
  apply Repeat_spaces. exact Hind.
Qed.

(** The keyword [class]. *)
Lemma Tok_class rest :
  delimited rest -> Tok opt tokClass (lit "class") (lit "class" ++ rest) rest.
Proof.
  intros Hrest. exact (Tok_identWord opt (lit "class") rest eq_refl Hrest).
Qed.

Lemma Run_parseArraySuffix (isArray : bool) (R : str) :
  Run opt (parseArraySuffix opt)
    ((if isArray then [91; 93; 61] else [61]) ++ R) isArray (61 :: R).
Proof.
  unfold parseArraySuffix. destruct isArray; cbn [app].
  - eapply Run_peekAny; [apply Tok_symbol; reflexivity|].
    intros line col. cbn [Type_ tokenType_eqb].
    eapply Run_skip; [apply Tok_symbol; reflexivity|].
    eapply Run_expect; [apply Tok_symbol; reflexivity|].
    intros line1 col1. apply Run_ret.
  - eapply Run_peekAny; [apply Tok_symbol; reflexivity|].
    intros line col. cbn [Type_ tokenType_eqb]. apply Run_ret.
Qed.

Lemma isEmpty_nil (s : str) : isEmpty s = true -> s = [].
Proof. destruct s; [reflexivity|discriminate]. Qed.

(** The optional base and the line end after a class name. *)
Lemma Run_parseBase base ws R :
  isEmpty base || isName base = true -> forallb IsSpace ws = true ->
  Run opt (parseBase opt)
    ((if negb (isEmpty base) then 32 :: 58 :: 32 :: base else [])
     ++ 10 :: ws ++ 123 :: R)
    base (123 :: R).
Proof.
  intros Hb Hws. unfold parseBase.
  assert (Hsp : forallb IsSpace (10 :: ws) = true).
  { cbn [forallb]. rewrite Hws. reflexivity. }
  destruct (isEmpty base) eqn:He; cbn [negb orb] in *.
  - apply isEmpty_nil in He. subst base. cbn [app].
    apply (Run_ws opt (10 :: ws) _ (123 :: R)); [exact Hsp|].
    eapply Run_peekAny; [apply Tok_symbol; reflexivity|].
    intros line col. cbn [Type_ tokenType_eqb]. apply Run_ret.
  - cbn [app]. apply (Run_ws opt [32]); [reflexivity|].
    eapply Run_peekAny; [apply Tok_symbol; reflexivity|].
    intros line col. cbn [Type_ tokenType_eqb].
    eapply Run_skip; [apply Tok_symbol; reflexivity|].
    apply (Run_ws opt [32]); [reflexivity|].
    eapply Run_expect;
      [apply Tok_name; [exact Hb|split; [reflexivity|discriminate]]|].
    intros line1 col1. cbn [Lit].
    apply (Run_post_ws (10 :: ws)); [exact Hsp|]. apply Run_ret.
Qed.

Lemma delimited_suffix (isArray : bool) (R : str) :
  delimited ((if isArray then [91; 93; 61] else [61]) ++ R).
Proof. destruct isArray; (split; [reflexivity|discriminate]). Qed.

Lemma Run_parseAssign name isArray v n k :
  isName name = true -> wfValue v -> (vsize v <= n)%nat ->
  Run opt (parseAssign opt n) (textAssign name isArray v ++ k)
    (NAssign name isArray v) k.
Proof.
  intros Hname Hv Hn. unfold parseAssign, textAssign.
  rewrite <- !app_assoc.
  eapply Run_expect; [apply Tok_name; [exact Hname|apply delimited_suffix]|].
  intros line col. cbn [Lit].
  eapply Run_bind; [apply Run_parseArraySuffix|].
  eapply Run_expect; [apply Tok_symbol; reflexivity|].
  intros line1 col1.
  eapply Run_bind;
    [apply (Run_parseValue opt v Hv n); [exact Hn|]|].
  { split; [reflexivity|discriminate]. }
  cbn [app].
  eapply Run_expect; [apply Tok_symbol; reflexivity|].
  intros line2 col2. apply Run_ret.
Qed.

Lemma textHeader_class name base R :
  textHeader name base ++ R =
  lit "class" ++ 32 :: name
  ++ (if negb (isEmpty base) then 32 :: 58 :: 32 :: base else []) ++ 10 :: R.
Proof.
  unfold textHeader. change (lit "class ") with (lit "class" ++ [32]).
  rewrite <- !app_assoc. reflexivity.
Qed.

Lemma delimited_base base R :
  delimited ((if negb (isEmpty base) then 32 :: 58 :: 32 :: base else [])
             ++ 10 :: R).
Proof.
  destruct (negb (isEmpty base)); (split; [reflexivity|discriminate]).
Qed.

(** The first token of a node. *)
Lemma node_Tok nd ind lvl k :
  wfNode nd -> forallb IsSpace ind = true ->
  exists lt s',
    Tok opt (match nd with NClass _ _ _ => tokClass | _ => tokIdent end) lt
      (textNode ind lvl nd ++ k) s'.
Proof.
  intros Hwf Hind. destruct nd as [name isArray v|name base body];
    cbn [textNode]; rewrite <- !app_assoc.
  - destruct Hwf as [Hname Hv]. eexists _, _.
    apply Tok_ws; [apply textIndent_spaces; exact Hind|].
    unfold textAssign. rewrite <- !app_assoc.
    apply Tok_name; [exact Hname|apply delimited_suffix].
  - eexists _, _.
    apply Tok_ws; [apply textIndent_spaces; exact Hind|].
    rewrite textHeader_class.
    apply Tok_class. split; [reflexivity|discriminate].
Qed.

(** The loop over the nodes of a class body and the closing brace. *)
Lemma Run_parseBodyLoop (pn : M node) ind lvl nodes :
  Forall wfNode nodes -> forallb IsSpace ind = true ->
  (forall nd, In nd nodes ->
     forall k, Run opt pn (textNode ind lvl nd ++ k) nd k) ->
  forall n acc ws k,
    (length nodes < n)%nat -> forallb IsSpace ws = true ->
    Run opt (parseBodyLoop opt pn n acc)
      (flat_map (textNode ind lvl) nodes ++ ws ++ 125 :: k) (acc ++ nodes) k.
Proof.
  intros Hwf Hind. induction Hwf as [|nd nodes Hnd Hnodes IH];
    intros Hpn n acc ws k Hn Hws;
    (destruct n as [|n]; [cbn in Hn; lia|]); cbn [parseBodyLoop flat_map].
  - cbn [app]. rewrite app_nil_r. apply Run_ws; [exact Hws|].
    eapply Run_peek; [apply Tok_symbol; reflexivity|].
    intros line col. cbn [Type_ tokenType_eqb].
    eapply Run_skip; [apply Tok_symbol; reflexivity|]. apply Run_ret.
  - rewrite <- app_assoc.
    destruct (node_Tok nd ind lvl
                (flat_map (textNode ind lvl) nodes ++ ws ++ 125 :: k) Hnd Hind)
      as (lt & s' & Htok).
    eapply Run_peek; [exact Htok|].
    intros line col. cbn [Type_].
    replace (tokenType_eqb
               match nd with NClass _ _ _ => tokClass | _ => tokIdent end
               tokRBrace) with false by (destruct nd; reflexivity).
    eapply Run_bind; [apply Hpn; left; reflexivity|].
    replace (acc ++ nd :: nodes) with ((acc ++ [nd]) ++ nodes)
      by (rewrite <- app_assoc; reflexivity).
    apply IH; [|cbn in Hn; lia|exact Hws].
    intros nd' Hin. apply Hpn. right. exact Hin.
Qed.

(** A class body from its opening brace to its semicolon. *)
Lemma Run_classBody (pn : M node) ind lvl body n ws k :
  Forall wfNode body -> forallb IsSpace ind = true ->
  (forall nd, In nd body ->
     forall k, Run opt pn (textNode ind lvl nd ++ k) nd k) ->
  (length body < n)%nat -> forallb IsSpace ws = true ->
  forall (B : Type) (kont : list node -> M B) b s2,
    Run opt (kont body) k b s2 ->
    Run opt (expect opt tokLBrace ;;;
             body <- parseBodyLoop opt pn n [] ;;
             expect opt tokSemicolon ;;;
             kont body)
      (123 :: 10 :: flat_map (textNode ind lvl) body ++ ws ++ 125 :: 59 :: k)
      b s2.
Proof.
  intros Hwf Hind Hpn Hn Hws B kont b s2 Hk.
  eapply Run_expect; [apply Tok_symbol; reflexivity|].
  intros line col. apply (Run_ws opt [10]); [reflexivity|].
  eapply Run_bind;
    [apply (Run_parseBodyLoop pn ind lvl body Hwf Hind Hpn n [] ws (59 :: k) Hn Hws)|].
  cbn [app].
  eapply Run_expect; [apply Tok_symbol; reflexivity|].
  intros line1 col1. exact Hk.
Qed.

(** [parseNode] reads back a generic node of the writer. *)
Lemma Run_parseNode nd :
  wfNode nd ->
  forall n ind lvl k,
    forallb IsSpace ind = true -> (nsize nd <= n)%nat ->
    Run opt (parseNode opt n) (textNode ind lvl nd ++ k) nd k.
Proof.
  induction nd as [name isArray v|name base body IH] using node_nested_ind;
    intros Hwf n ind lvl k Hind Hn; (destruct n as [|n]; [cbn in Hn; lia|]);
    cbn [parseNode textNode]; rewrite <- !app_assoc;
    (apply Run_ws; [apply textIndent_spaces; exact Hind|]);
    (apply (Run_post_ws [10]); [reflexivity|]).
  - destruct Hwf as [Hname Hv]. cbn [nsize] in Hn.
    eapply Run_peek.
    { unfold textAssign. rewrite <- !app_assoc.
      apply Tok_name; [exact Hname|apply delimited_suffix]. }
    intros line col. cbn [Type_ tokenType_eqb].
    apply Run_parseAssign; [exact Hname|exact Hv|lia].
  - apply wfNode_class in Hwf. destruct Hwf as (Hname & Hbase & Hbody).
    cbn [nsize] in Hn.
    pose proof (list_sum_length nsize body (fun x _ => nsize_pos x)) as Hlen.
    rewrite textHeader_class.
    eapply Run_peek; [apply Tok_class; split; [reflexivity|discriminate]|].
    intros line col. cbn [Type_ tokenType_eqb]. unfold parseClassWith.
    eapply Run_expect; [apply Tok_class; split; [reflexivity|discriminate]|].
    intros line1 col1. apply (Run_ws opt [32]); [reflexivity|].
    eapply Run_expect; [apply Tok_name; [exact Hname|apply delimited_base]|].
    intros line2 col2. cbn [Lit].
    eapply Run_bind;
      [apply Run_parseBase; [exact Hbase|apply textIndent_spaces; exact Hind]|].
    cbn [app].
    apply (Run_classBody (parseNode opt n) ind (lvl + 1) body n
             (textIndent ind lvl) (10 :: k) Hbody Hind).
    + intros nd Hin k'. rewrite Forall_forall in IH, Hbody.
      apply IH; [exact Hin|apply Hbody; exact Hin|exact Hind|].
      pose proof (list_sum_In nsize nd body Hin). lia.
    + lia.
    + apply textIndent_spaces. exact Hind.
    + apply Run_ret.
Qed.

(** [parseClassBody] reads back the body of a generic class. *)
Lemma Run_parseClassBody name base body n ind lvl ws k :
  Forall wfNode body -> forallb IsSpace ind = true ->
  (S (list_sum (List.map nsize body)) <= n)%nat ->
  forallb IsSpace ws = true ->
  Run opt (parseClassBody opt n name base)
    (123 :: 10 :: flat_map (textNode ind lvl) body ++ ws ++ 125 :: 59 :: k)
    (NClass name base body) k.
Proof.
  intros Hbody Hind Hn Hws. unfold parseClassBody.
  pose proof (list_sum_length nsize body (fun x _ => nsize_pos x)) as Hlen.
  apply (Run_classBody (parseNode opt n) ind lvl body n ws k Hbody Hind).
  - intros nd Hin k'. rewrite Forall_forall in Hbody.
    apply Run_parseNode; [apply Hbody; exact Hin|exact Hind|].
    pose proof (list_sum_In nsize nd body Hin). lia.
  - lia.
  - exact Hws.
  - apply Run_ret.
Qed.

End RunNodes.

(** The fuel the loops over the fields of a material need. *)
Section MoreSizes.
Context {F : Strconv}.

Definition namedSize (fs : list float64) : nat :=
  match fs with
  | [] => 0
  | _ => S (S (length fs))
  end.

Definition uvsize (uv : UVTransform) : nat :=
  S (namedSize (Aside uv) + namedSize (Up uv) + namedSize (Dir uv)
     + namedSize (Pos uv)).

Definition optUVsize (o : option UVTransform) : nat :=
  match o with
  | Some uv => S (uvsize uv)
  | None => 0
  end.

Definition fieldSize (s : str) : nat := if isEmpty s then 0 else 1.

Definition nodesSize (nodes : list node) : nat :=
  list_sum (List.map nsize nodes).

Definition stageSize (st : Stage) : nat :=
  S (fieldSize (Raw (Texture st))
     + fieldSize (if isEmpty (StageTexGen st) then StageUVSource st else [])
     + fieldSize (StageTexGen st)
     + optUVsize (if isEmpty (StageTexGen st) then StageUVTransform st
                  else None)
     + nodesSize (StageExtras st)).

Definition texGenSize (t : TexGen) : nat :=
  S (fieldSize (TexGenUVSource t) + optUVsize (TexGenUVTransform t)
     + nodesSize (TexGenExtras t)).

Definition materialSize (m : Material) : nat :=
  S (namedSize (Ambient m) + namedSize (Diffuse m)
     + namedSize (ForcedDiffuse m) + namedSize (Emmisive m)
     + namedSize (Specular m)
     + match SpecularPower m with Some _ => 1 | None => 0 end
     + fieldSize (PixelShaderID m) + fieldSize (VertexShaderID m)
     + list_sum (List.map (fun t => S (texGenSize t)) (TexGens m))
     + list_sum (List.map (fun s => S (stageSize s)) (Stages m))
     + nodesSize (Extras m)).

End MoreSizes.

Ltac keys :=
  repeat match goal with
         | |- context [matchKey (lit ?a) (lit ?b) true] =>
             let v := eval vm_compute in (matchKey (lit a) (lit b) true) in
             change (matchKey (lit a) (lit b) true) with v
         | |- context [EqualFold (lit ?a) (lit ?b)] =>
             let v := eval vm_compute in (EqualFold (lit a) (lit b)) in
             change (EqualFold (lit a) (lit b)) with v
         end;
  cbv iota.

Ltac norm := repeat (progress (rewrite <- ?app_assoc; cbn [app])).

Ltac delim := solve [exact I | split; [reflexivity|discriminate]].

Section RunFields.
Context {U : Unicode} {F : Strconv}.
Variable opt : ParseOptions.
Hypothesis Hci : DisableCaseInsensitive opt = false.

Definition wfUV (uv : UVTransform) : Prop :=
  Forall numberText (Aside uv) /\ Forall numberText (Up uv)
  /\ Forall numberText (Dir uv) /\ Forall numberText (Pos uv).

Definition wfOptUV (o : option UVTransform) : Prop :=
  match o with
  | Some uv => wfUV uv
  | None => True
  end.

(** The fields [parseStageAssign] and [parseStageClass] recognise. *)
Definition isStageField (name : str) (isArray : bool) : bool :=
  negb isArray
  && (EqualFold name (lit "texture") || EqualFold name (lit "uvsource")
      || EqualFold name (lit "texgen")).

Definition isUVClass (name base : str) : bool :=
  EqualFold name (lit "uvTransform") && isEmpty base.

Definition stageExtra (n : node) : bool :=
  match n with
  | NAssign name isArray _ => negb (isStageField name isArray)
  | NClass name base _ => negb (isUVClass name base)
  end.

Lemma ci_on : ci opt = true.
Proof. unfold ci. rewrite Hci. reflexivity. Qed.

Lemma equalFold_on a b : equalFold opt a b = EqualFold a b.
Proof. unfold equalFold. rewrite Hci. reflexivity. Qed.

(** *** uvTransform *)

Lemma Run_uvEnd uv ws k n :
  (1 <= n)%nat -> forallb IsSpace ws = true ->
  Run opt (parseUVTransformLoop opt n uv) (ws ++ 125 :: k) uv k.
Proof.
  intros Hn Hws. destruct n as [|n]; [lia|]. cbn [parseUVTransformLoop].
  apply Run_ws; [exact Hws|].
  eapply Run_peek; [apply Tok_symbol; reflexivity|].
  intros line col. cbn [Type_ tokenType_eqb].
  eapply Run_skip; [apply Tok_symbol; reflexivity|]. apply Run_ret.
Qed.

Lemma Run_uvStep (name : string) (set : UVTransform -> list float64 -> UVTransform)
  fs ind lvl uv N R res k :
  isName (lit name) = true ->
  (forall vals,
     (if matchKey (lit name) (lit "aside") true then setAside uv vals
      else if matchKey (lit name) (lit "up") true then setUp uv vals
      else if matchKey (lit name) (lit "dir") true then setDir uv vals
      else if matchKey (lit name) (lit "pos") true then setPos uv vals
      else uv) = set uv vals) ->
  Forall numberText fs -> forallb IsSpace ind = true ->
  (forall n, (N <= n)%nat ->
     Run opt (parseUVTransformLoop opt n
                (match fs with [] => uv | _ => set uv fs end)) R res k) ->
  forall n, (N + namedSize fs <= n)%nat ->
    Run opt (parseUVTransformLoop opt n uv)
      (textNamedArray true ind lvl (lit name) fs ++ R) res k.
Proof.
  intros Hname Hkey Hfs Hind Hloop n Hn. unfold textNamedArray.
  destruct fs as [|f fs'].
  - cbn [app]. apply Hloop. cbn in Hn. lia.
  - assert (Hsz : namedSize (f :: fs') = S (S (length (f :: fs'))))
      by reflexivity.
    cbv iota in Hloop. remember (f :: fs') as fs eqn:Hf.
    rewrite Hsz in Hn. destruct n as [|n]; [lia|].
    cbn [parseUVTransformLoop]. norm.
    apply Run_ws; [apply textIndent_spaces; exact Hind|].
    assert (Htok : Tok opt tokIdent (lit name)
                     (lit name ++ 91 :: 93 :: 61 :: textFloats fs ++ 59 :: 10 :: R)
                     (91 :: 93 :: 61 :: textFloats fs ++ 59 :: 10 :: R)).
    { apply Tok_name; [exact Hname|delim]. }
    eapply Run_peek; [exact Htok|].
    intros line col. cbn [Type_ tokenType_eqb].
    eapply Run_expect; [exact Htok|].
    intros line1 col1. cbn [Lit].
    eapply Run_bind; [apply (Run_parseArraySuffix opt true)|].
    eapply Run_expect; [apply Tok_symbol; reflexivity|].
    intros line2 col2.
    eapply Run_bind; [apply Run_parseNumberArray; [exact Hfs|lia]|].
    cbv zeta. rewrite ci_on, Hkey.
    eapply Run_bind; [apply Run_expectSemicolon|].
    apply (Run_ws opt [10]); [reflexivity|].
    apply Hloop. lia.
Qed.



Lemma set_uv_fields (uv : UVTransform) :
  (match Pos uv with
   | [] => fun x => x
   | _ => fun x => setPos x (Pos uv)
   end)
    ((match Dir uv with
      | [] => fun x => x
      | _ => fun x => setDir x (Dir uv)
      end)
       ((match Up uv with
         | [] => fun x => x
         | _ => fun x => setUp x (Up uv)
         end)
          ((match Aside uv with
            | [] => fun x => x
            | _ => fun x => setAside x (Aside uv)
            end) UVTransform0))) = uv.
Proof.
  destruct uv as [a u d p]. cbn [Aside Up Dir Pos].
  destruct a, u, d, p; reflexivity.
Qed.

(** The body of a [uvTransform] class, from its brace to its
    semicolon. *)
Lemma Run_parseUVTransformBody uv n ind lvl ws k :
  wfUV uv -> forallb IsSpace ind = true -> forallb IsSpace ws = true ->
  (uvsize uv <= n)%nat ->
  Run opt (parseUVTransformBody opt n)
    (123 :: 10 :: textNamedArray true ind lvl (lit "aside") (Aside uv)
     ++ textNamedArray true ind lvl (lit "up") (Up uv)
     ++ textNamedArray true ind lvl (lit "dir") (Dir uv)
     ++ textNamedArray true ind lvl (lit "pos") (Pos uv)
     ++ ws ++ 125 :: 59 :: k) uv k.
Proof.
  intros (Ha & Hu & Hd & Hp) Hind Hws Hn. unfold parseUVTransformBody.
  eapply Run_expect; [apply Tok_symbol; reflexivity|].
  intros line col. apply (Run_ws opt [10]); [reflexivity|].
  eapply Run_bind; [|eapply Run_bind; [apply Run_expectSemicolon|apply Run_ret]].
  rewrite <- (set_uv_fields uv) at 5.
  unfold uvsize in Hn.
  apply (Run_uvStep "aside" setAside (Aside uv) ind lvl _
           (1 + namedSize (Pos uv) + namedSize (Dir uv) + namedSize (Up uv)));
    [reflexivity|reflexivity|exact Ha|exact Hind| |lia].
  intros n1 Hn1.
  apply (Run_uvStep "up" setUp (Up uv) ind lvl _
           (1 + namedSize (Pos uv) + namedSize (Dir uv)));
    [reflexivity|reflexivity|exact Hu|exact Hind| |lia].
  intros n2 Hn2.
  apply (Run_uvStep "dir" setDir (Dir uv) ind lvl _
           (1 + namedSize (Pos uv)));
    [reflexivity|reflexivity|exact Hd|exact Hind| |lia].
  intros n3 Hn3.
  apply (Run_uvStep "pos" setPos (Pos uv) ind lvl _ 1);
    [reflexivity|reflexivity|exact Hp|exact Hind| |lia].
  intros n4 Hn4.
  destruct (Aside uv), (Up uv), (Dir uv), (Pos uv);
    apply Run_uvEnd; assumption.
Qed.

(** *** Stages *)

Ltac field_head key :=
  eapply Run_expect; [apply (Tok_name opt (lit key)); [reflexivity|delim]|];
  intros ?line ?col; cbn [Lit];
  eapply Run_bind; [apply (Run_parseArraySuffix opt false)|];
  eapply Run_expect; [apply Tok_symbol; reflexivity|];
  intros ?line ?col; cbv zeta; cbn [negb]; rewrite ?ci_on; keys.

Lemma Run_parseStringValue s R :
  strSafe s = true -> delimited R ->
  Run opt (parseStringValue opt) (34 :: s ++ 34 :: R) s R.
Proof.
  intros Hs HR. unfold parseStringValue.
  eapply Run_next; [apply Tok_string; assumption|].
  intros line col. cbn [Type_ Lit]. apply Run_ret.
Qed.

Lemma Run_parseStringOrNumberValue relaxed s R :
  strSafe s = true -> delimited R ->
  Run opt (parseStringOrNumberValue opt relaxed) (34 :: s ++ 34 :: R) s R.
Proof.
  intros Hs HR. unfold parseStringOrNumberValue.
  eapply Run_next; [apply Tok_string; assumption|].
  intros line col. cbn [Type_ Lit]. apply Run_ret.
Qed.

Lemma Run_parseNumberValue f R :
  numberText f -> delimited R ->
  Run opt (parseNumberValue opt) (FormatFloat f ++ R) f R.
Proof.
  intros Hf HR. unfold parseNumberValue.
  eapply Run_expect; [apply Tok_number; assumption|].
  intros line col. cbn [parseNumberToken Type_ Lit].
  destruct (numberText_word _ Hf) as (_ & _ & Hp). rewrite Hp. apply Run_ret.
Qed.

Ltac string_value Hs :=
  eapply Run_bind;
    [first [apply Run_parseStringValue|apply Run_parseStringOrNumberValue];
     [exact Hs|delim]|];
  eapply Run_bind; [apply Run_expectSemicolon|]; apply Run_ret.

Lemma Run_stageTexture st s R n :
  strSafe s = true ->
  Run opt (parseStageAssign opt n st)
    (lit "texture" ++ 61 :: 34 :: s ++ 34 :: 59 :: R)
    (stSetTexture st (ParseTextureRef s)) R.
Proof.
  intros Hs. unfold parseStageAssign. field_head ("texture"%string).
  string_value Hs.
Qed.

Lemma Run_stageUVSource st s R n :
  strSafe s = true ->
  Run opt (parseStageAssign opt n st)
    (lit "uvSource" ++ 61 :: 34 :: s ++ 34 :: 59 :: R)
    (stSetUVSource st s) R.
Proof.
  intros Hs. unfold parseStageAssign. field_head ("uvSource"%string).
  string_value Hs.
Qed.

Lemma Run_stageTexGen st s R n :
  strSafe s = true ->
  Run opt (parseStageAssign opt n st)
    (lit "texGen" ++ 61 :: 34 :: s ++ 34 :: 59 :: R)
    (stSetTexGen st s) R.
Proof.
  intros Hs. unfold parseStageAssign. field_head ("texGen"%string).
  string_value Hs.
Qed.

Ltac assign_head Hname :=
  unfold textAssign; norm;
  eapply Run_expect; [apply Tok_name; [exact Hname|apply delimited_suffix]|];
  intros ?line ?col; cbn [Lit];
  eapply Run_bind; [apply Run_parseArraySuffix|];
  eapply Run_expect; [apply Tok_symbol; reflexivity|];
  intros ?line ?col; cbv zeta; rewrite ?ci_on.

Ltac generic_value Hv Hn :=
  eapply Run_bind; [apply (Run_parseValue opt _ Hv); [exact Hn|delim]|];
  eapply Run_bind; [apply Run_expectSemicolon|]; apply Run_ret.

Lemma Run_stageAssign st name isArray v n k :
  isName name = true -> wfValue v -> (vsize v <= n)%nat ->
  isStageField name isArray = false ->
  Run opt (parseStageAssign opt n st) (textAssign name isArray v ++ k)
    (stAddExtra st (NAssign name isArray v)) k.
Proof.
  intros Hname Hv Hn Hx. unfold parseStageAssign. assign_head Hname.
  unfold isStageField in Hx. destruct isArray; cbn [negb andb] in *.
  - generic_value Hv Hn.
  - apply orb_false_iff in Hx. destruct Hx as [Hx H3].
    apply orb_false_iff in Hx. destruct Hx as [H1 H2].
    unfold matchKey. rewrite H1, H2, H3. generic_value Hv Hn.
Qed.

Ltac class_head Hname :=
  eapply Run_expect; [apply Tok_class; delim|];
  intros ?line ?col; apply (Run_ws opt [32]); [reflexivity|];
  eapply Run_expect; [apply Tok_name; [exact Hname|apply delimited_base]|];
  intros ?line ?col; cbn [Lit].

(** The text of a [uvTransform] class after its indentation. *)
Definition textUVClass (ind : str) (lvl : Z) (ws1 ws2 : str) (uv : UVTransform)
  (R : str) : str :=
  lit "class" ++ 32 :: lit "uvTransform" ++ 10 :: ws1
  ++ 123 :: 10 :: textNamedArray true ind lvl (lit "aside") (Aside uv)
  ++ textNamedArray true ind lvl (lit "up") (Up uv)
  ++ textNamedArray true ind lvl (lit "dir") (Dir uv)
  ++ textNamedArray true ind lvl (lit "pos") (Pos uv)
  ++ ws2 ++ 125 :: 59 :: R.

Lemma textUVTransform_class ind lvl uv R :
  textUVTransform ind lvl uv ++ R =
  textIndent ind lvl
  ++ textUVClass ind (lvl + 1) (textIndent ind lvl) (textIndent ind lvl) uv
       (10 :: R).
Proof.
  unfold textUVTransform, textUVClass.
  change (lit "class uvTransform") with (lit "class" ++ 32 :: lit "uvTransform").
  norm. reflexivity.
Qed.

Ltac uv_class Huv Hind Hws1 Hws2 Hn :=
  unfold textUVClass;
  eapply Run_expect; [apply Tok_class; delim|];
  intros ?line ?col; apply (Run_ws opt [32]); [reflexivity|];
  eapply Run_expect; [apply (Tok_name opt (lit "uvTransform")); [reflexivity|delim]|];
  intros ?line ?col; cbn [Lit];
  eapply Run_bind; [apply (Run_parseBase opt [] _ _ eq_refl Hws1)|];
  rewrite equalFold_on; keys; cbn [isEmpty andb];
  eapply Run_bind;
    [apply (Run_parseUVTransformBody _ _ _ _ _ _ Huv Hind Hws2 Hn)|];
  apply Run_ret.

Lemma Run_stageUV st uv n ind lvl ws1 ws2 R :
  wfUV uv -> forallb IsSpace ind = true -> forallb IsSpace ws1 = true ->
  forallb IsSpace ws2 = true -> (uvsize uv <= n)%nat ->
  Run opt (parseStageClass opt n st) (textUVClass ind lvl ws1 ws2 uv R)
    (stSetUVTransform st (Some uv)) R.
Proof.
  intros Huv Hind Hws1 Hws2 Hn. unfold parseStageClass.
  uv_class Huv Hind Hws1 Hws2 Hn.
Qed.

(** The text of a generic class after its indentation. *)
Definition textClass (ind : str) (lvl : Z) (ws1 ws2 : str) (name base : str)
  (body : list node) (R : str) : str :=
  lit "class" ++ 32 :: name
  ++ (if negb (isEmpty base) then 32 :: 58 :: 32 :: base else [])
  ++ 10 :: ws1 ++ 123 :: 10 :: flat_map (textNode ind lvl) body
  ++ ws2 ++ 125 :: 59 :: R.

Lemma textNode_class ind lvl name base body R :
  textNode ind lvl (NClass name base body) ++ R =
  textIndent ind lvl
  ++ textClass ind (lvl + 1) (textIndent ind lvl) (textIndent ind lvl)
       name base body (10 :: R).
Proof.
  cbn [textNode]. unfold textClass. rewrite <- !app_assoc.
  rewrite textHeader_class. norm. reflexivity.
Qed.

Ltac generic_class Hname Hbase Hbody Hind Hws1 Hws2 Hn :=
  unfold textClass; class_head Hname;
  eapply Run_bind; [apply (Run_parseBase opt _ _ _ Hbase Hws1)|];
  eapply Run_bind;
    [apply (Run_parseClassBody opt _ _ _ _ _ _ _ _ Hbody Hind Hn Hws2)|];
  apply Run_ret.

Lemma Run_stageClass st name base body n ind lvl ws1 ws2 R :
  isName name = true -> isEmpty base || isName base = true ->
  Forall wfNode body -> forallb IsSpace ind = true ->
  forallb IsSpace ws1 = true -> forallb IsSpace ws2 = true ->
  (S (nodesSize body) <= n)%nat -> isUVClass name base = false ->
  Run opt (parseStageClass opt n st)
    (textClass ind lvl ws1 ws2 name base body R)
    (stAddExtra st (NClass name base body)) R.
Proof.
  intros Hname Hbase Hbody Hind Hws1 Hws2 Hn Hx. unfold parseStageClass.
  unfold textClass. class_head Hname.
  eapply Run_bind; [apply (Run_parseBase opt _ _ _ Hbase Hws1)|].
  rewrite equalFold_on. unfold isUVClass in Hx. rewrite Hx.
  eapply Run_bind;
    [apply (Run_parseClassBody opt _ _ _ _ _ _ _ _ Hbody Hind Hn Hws2)|].
  apply Run_ret.
Qed.

Lemma Run_stageLoop_assign st st' X X' lt s' res k n :
  Tok opt tokIdent lt X s' ->
  Run opt (parseStageAssign opt n st) X st' X' ->
  Run opt (parseStageLoop opt n st') X' res k ->
  Run opt (parseStageLoop opt (S n) st) X res k.
Proof.
  intros Htok Hitem Hloop. cbn [parseStageLoop].
  eapply Run_peek; [exact Htok|].
  intros line col. cbn [Type_ tokenType_eqb].
  eapply Run_bind; [exact Hitem|exact Hloop].
Qed.

Lemma Run_stageLoop_class st st' X X' lt s' res k n :
  Tok opt tokClass lt X s' ->
  Run opt (parseStageClass opt n st) X st' X' ->
  Run opt (parseStageLoop opt n st') X' res k ->
  Run opt (parseStageLoop opt (S n) st) X res k.
Proof.
  intros Htok Hitem Hloop. cbn [parseStageLoop].
  eapply Run_peek; [exact Htok|].
  intros line col. cbn [Type_ tokenType_eqb].
  eapply Run_bind; [exact Hitem|exact Hloop].
Qed.

Lemma Run_stageLoop_end st ws k n :
  (1 <= n)%nat -> forallb IsSpace ws = true ->
  Run opt (parseStageLoop opt n st) (ws ++ 125 :: k) st k.
Proof.
  intros Hn Hws. destruct n as [|n]; [lia|]. cbn [parseStageLoop].
  apply Run_ws; [exact Hws|].
  eapply Run_peek; [apply Tok_symbol; reflexivity|].
  intros line col. cbn [Type_ tokenType_eqb].
  eapply Run_skip; [apply Tok_symbol; reflexivity|]. apply Run_ret.
Qed.

(** One string field of a stage in front of the rest of its body. *)
Lemma Run_stageLoop_field (key : string) (set : Stage -> str -> Stage)
  s st ind lvl N R res k :
  isName (lit key) = true -> forallb IsSpace ind = true ->
  (forall n R', Run opt (parseStageAssign opt n st)
                  (lit key ++ 61 :: 34 :: s ++ 34 :: 59 :: R') (set st s) R') ->
  (forall n, (N <= n)%nat ->
     Run opt (parseStageLoop opt n (if isEmpty s then st else set st s))
       R res k) ->
  forall n, (N + fieldSize s <= n)%nat ->
    Run opt (parseStageLoop opt n st)
      (textField true ind lvl (lit key) s ++ R) res k.
Proof.
  intros Hkey Hind Hitem Hloop n Hn. unfold textField, fieldSize in *.
  destruct (isEmpty s).
  - cbn [app]. apply Hloop. lia.
  - destruct n as [|n]; [lia|]. norm.
    apply Run_ws; [apply textIndent_spaces; exact Hind|].
    eapply Run_stageLoop_assign;
      [apply Tok_name; [exact Hkey|delim]|apply Hitem|].
    apply (Run_ws opt [10]); [reflexivity|]. apply Hloop. lia.
Qed.

Lemma Run_stageLoop_uv o st ind lvl N R res k :
  wfOptUV o -> forallb IsSpace ind = true ->
  (forall n, (N <= n)%nat ->
     Run opt (parseStageLoop opt n
                (match o with
                 | Some uv => stSetUVTransform st (Some uv)
                 | None => st
                 end)) R res k) ->
  forall n, (N + optUVsize o <= n)%nat ->
    Run opt (parseStageLoop opt n st) (textOptUV ind lvl o ++ R) res k.
Proof.
  intros Huv Hind Hloop n Hn. destruct o as [uv|]; cbn [textOptUV optUVsize] in *.
  - destruct n as [|n]; [lia|]. rewrite textUVTransform_class.
    pose proof (textIndent_spaces ind lvl Hind) as Hsp.
    apply Run_ws; [exact Hsp|].
    eapply Run_stageLoop_class;
      [unfold textUVClass; apply Tok_class; delim
      |apply Run_stageUV; [exact Huv|exact Hind|exact Hsp|exact Hsp|lia]|].
    apply (Run_ws opt [10]); [reflexivity|]. apply Hloop. lia.
  - cbn [app]. apply Hloop. lia.
Qed.

Lemma Run_stageLoop_extras ind lvl ws k extras :
  Forall wfNode extras -> Forall (fun n => stageExtra n = true) extras ->
  forallb IsSpace ind = true -> forallb IsSpace ws = true ->
  forall st n,
    (S (nodesSize extras) <= n)%nat ->
    Run opt (parseStageLoop opt n st)
      (flat_map (textNode ind lvl) extras ++ ws ++ 125 :: k)
      (fold_left stAddExtra extras st) k.
Proof.
  intros Hwf Hex Hind Hws. pose proof (textIndent_spaces ind lvl Hind) as Hsp.
  induction Hwf as [|nd extras Hnd Hwf IH]; intros st n Hn.
  - cbn [flat_map fold_left app]. apply Run_stageLoop_end; [lia|exact Hws].
  - inversion Hex as [|? ? Hx Hex']; subst.
    unfold nodesSize in *. cbn [List.map] in Hn.
    change (list_sum (nsize nd :: List.map nsize extras))
      with (nsize nd + list_sum (List.map nsize extras))%nat in Hn.
    pose proof (nsize_pos nd) as Hpos.
    destruct n as [|n]; [lia|].
    cbn [flat_map fold_left]. rewrite <- app_assoc.
    destruct nd as [name isArray v|name base body].
    + destruct Hnd as [Hname Hv]. cbn [nsize] in Hn. cbn [stageExtra] in Hx.
      apply negb_true_iff in Hx.
      cbn [textNode]. rewrite <- !app_assoc.
      apply Run_ws; [exact Hsp|].
      eapply Run_stageLoop_assign;
        [unfold textAssign; rewrite <- !app_assoc;
         apply Tok_name; [exact Hname|apply delimited_suffix]
        |apply Run_stageAssign; [exact Hname|exact Hv|lia|exact Hx]|].
      apply (Run_ws opt [10]); [reflexivity|].
      apply IH; [exact Hex'|lia].
    + apply wfNode_class in Hnd. destruct Hnd as (Hname & Hbase & Hbody).
      cbn [nsize] in Hn. cbn [stageExtra] in Hx. apply negb_true_iff in Hx.
      rewrite textNode_class.
      apply Run_ws; [exact Hsp|].
      eapply Run_stageLoop_class;
        [unfold textClass; apply Tok_class; delim
        |apply Run_stageClass; try assumption; unfold nodesSize; lia|].
      apply (Run_ws opt [10]); [reflexivity|].
      apply IH; [exact Hex'|lia].
Qed.

Definition wfStage (st : Stage) : Prop :=
  isName (StageName st) = true
  /\ hasPrefixKey (StageName st) (lit "stage") true = true
  /\ strSafe (Raw (Texture st)) = true
  /\ strSafe (StageUVSource st) = true
  /\ strSafe (StageTexGen st) = true
  /\ wfOptUV (StageUVTransform st)
  /\ Forall wfNode (StageExtras st)
  /\ Forall (fun n => stageExtra n = true) (StageExtras st).

(** What the parser reads back from the text of a stage: the texture
    reference parsed from its raw text, and neither [uvSource] nor
    [uvTransform] beside a [texGen]. *)
Definition canonStage (st : Stage) : Stage :=
  {| StageName := StageName st;
     Texture := if isEmpty (Raw (Texture st)) then TextureRef0
                else ParseTextureRef (Raw (Texture st));
     StageUVSource := if isEmpty (StageTexGen st) then StageUVSource st else [];
     StageTexGen := StageTexGen st;
     StageUVTransform :=
       if isEmpty (StageTexGen st) then StageUVTransform st else None;
     StageExtras := StageExtras st |}.

Lemma fold_stAddExtra extras st :
  fold_left stAddExtra extras st =
  {| StageName := StageName st; Texture := Texture st;
     StageUVSource := StageUVSource st; StageTexGen := StageTexGen st;
     StageUVTransform := StageUVTransform st;
     StageExtras := StageExtras st ++ extras |}.
Proof.
  revert st. induction extras as [|nd extras IH]; intros st; cbn [fold_left].
  - rewrite app_nil_r. destruct st; reflexivity.
  - rewrite IH. cbn. rewrite <- app_assoc. reflexivity.
Qed.

(** The body of a stage as the writer prints it, after the class
    header. *)
Definition textStageBody (ind : str) (lvl : Z) (s : Stage) (R : str) : str :=
  123 :: 10 :: textField true ind lvl (lit "texture") (Raw (Texture s))
  ++ textField true ind lvl (lit "uvSource")
       (if isEmpty (StageTexGen s) then StageUVSource s else [])
  ++ textField true ind lvl (lit "texGen") (StageTexGen s)
  ++ textOptUV ind lvl
       (if isEmpty (StageTexGen s) then StageUVTransform s else None)
  ++ flat_map (textNode ind lvl) (StageExtras s)
  ++ 125 :: 59 :: R.

Lemma Run_parseStageBody st n ind lvl R :
  wfStage st -> forallb IsSpace ind = true -> (stageSize st <= n)%nat ->
  Run opt (parseStageBody opt n (StageName st)) (textStageBody ind lvl st R)
    (canonStage st) R.
Proof.
  intros (Hname & Hpre & Hraw & Huvs & Htg & Huv & Hex & Hexx) Hind Hn.
  unfold parseStageBody, textStageBody.
  eapply Run_expect; [apply Tok_symbol; reflexivity|].
  intros line col. apply (Run_ws opt [10]); [reflexivity|].
  apply Run_bind with (a := canonStage st) (s1 := 59 :: R);
    [|eapply Run_expect; [apply Tok_symbol; reflexivity|];
      intros line1 col1; apply Run_ret].
  set (uvs := if isEmpty (StageTexGen st) then StageUVSource st else []).
  set (o := if isEmpty (StageTexGen st) then StageUVTransform st else None).
  assert (Huvs' : strSafe uvs = true).
  { unfold uvs. destruct (isEmpty (StageTexGen st)); [exact Huvs|reflexivity]. }
  assert (Ho : wfOptUV o).
  { unfold o. destruct (isEmpty (StageTexGen st)); [exact Huv|exact I]. }
  assert (Hsz : (S (nodesSize (StageExtras st)) + optUVsize o
                 + fieldSize (StageTexGen st) + fieldSize uvs
                 + fieldSize (Raw (Texture st)) <= n)%nat).
  { unfold stageSize in Hn. fold uvs o in Hn. lia. }
  assert (Hres : canonStage st =
            fold_left stAddExtra (StageExtras st)
              (match o with
               | Some uv =>
                   fun x => stSetUVTransform x (Some uv)
               | None => fun x => x
               end
                 ((if isEmpty (StageTexGen st) then fun x => x
                   else fun x => stSetTexGen x (StageTexGen st))
                    ((if isEmpty uvs then fun x => x
                      else fun x => stSetUVSource x uvs)
                       ((if isEmpty (Raw (Texture st)) then fun x => x
                         else fun x =>
                                stSetTexture x (ParseTextureRef (Raw (Texture st))))
                          (newStage (StageName st))))))).
  { rewrite fold_stAddExtra. unfold canonStage, o, uvs.
    destruct (isEmpty (Raw (Texture st))), (StageTexGen st) as [|c tg],
      (StageUVSource st) as [|d us], (StageUVTransform st) as [uv|];
      reflexivity. }
  rewrite Hres.
  apply (Run_stageLoop_field "texture"
           (fun x s => stSetTexture x (ParseTextureRef s)) _ _ ind lvl
           (S (nodesSize (StageExtras st)) + optUVsize o
            + fieldSize (StageTexGen st) + fieldSize uvs));
    [reflexivity|exact Hind
    |intros; apply Run_stageTexture; exact Hraw| |lia].
  intros n1 Hn1.
  apply (Run_stageLoop_field "uvSource" stSetUVSource _ _ ind lvl
           (S (nodesSize (StageExtras st)) + optUVsize o
            + fieldSize (StageTexGen st)));
    [reflexivity|exact Hind
    |intros; apply Run_stageUVSource; exact Huvs'| |lia].
  intros n2 Hn2.
  apply (Run_stageLoop_field "texGen" stSetTexGen _ _ ind lvl
           (S (nodesSize (StageExtras st)) + optUVsize o));
    [reflexivity|exact Hind
    |intros; apply Run_stageTexGen; exact Htg| |lia].
  intros n3 Hn3.
  apply (Run_stageLoop_uv o _ ind lvl (S (nodesSize (StageExtras st))));
    [exact Ho|exact Hind| |lia].
  intros n4 Hn4.
  assert (Hend : forall st0,
             Run opt (parseStageLoop opt n4 st0)
               (flat_map (textNode ind lvl) (StageExtras st) ++ [] ++ 125 :: 59 :: R)
               (fold_left stAddExtra (StageExtras st) st0) (59 :: R)).
  { intros st0. apply Run_stageLoop_extras; try assumption; reflexivity. }
  cbn [app] in Hend.
  destruct (isEmpty (Raw (Texture st))), (isEmpty uvs),
    (isEmpty (StageTexGen st)), o; apply Hend.
Qed.

(** *** Texture generators *)

Definition isTexGenField (name : str) (isArray : bool) : bool :=
  negb isArray && EqualFold name (lit "uvsource").

Definition texGenExtra (n : node) : bool :=
  match n with
  | NAssign name isArray _ => negb (isTexGenField name isArray)
  | NClass name base _ => negb (isUVClass name base)
  end.

Lemma Run_texGenUVSource tg s R n :
  strSafe s = true ->
  Run opt (parseTexGenAssign opt n tg)
    (lit "uvSource" ++ 61 :: 34 :: s ++ 34 :: 59 :: R)
    (tgSetUVSource tg s) R.
Proof.
  intros Hs. unfold parseTexGenAssign. field_head ("uvSource"%string).
  string_value Hs.
Qed.

Lemma Run_texGenAssign tg name isArray v n k :
  isName name = true -> wfValue v -> (vsize v <= n)%nat ->
  isTexGenField name isArray = false ->
  Run opt (parseTexGenAssign opt n tg) (textAssign name isArray v ++ k)
    (tgAddExtra tg (NAssign name isArray v)) k.
Proof.
  intros Hname Hv Hn Hx. unfold parseTexGenAssign. assign_head Hname.
  unfold isTexGenField in Hx. destruct isArray; cbn [negb andb] in *.
  - generic_value Hv Hn.
  - unfold matchKey. rewrite Hx. generic_value Hv Hn.
Qed.

Lemma Run_texGenUV tg uv n ind lvl ws1 ws2 R :
  wfUV uv -> forallb IsSpace ind = true -> forallb IsSpace ws1 = true ->
  forallb IsSpace ws2 = true -> (uvsize uv <= n)%nat ->
  Run opt (parseTexGenClass opt n tg) (textUVClass ind lvl ws1 ws2 uv R)
    (tgSetUVTransform tg (Some uv)) R.
Proof.
  intros Huv Hind Hws1 Hws2 Hn. unfold parseTexGenClass.
  uv_class Huv Hind Hws1 Hws2 Hn.
Qed.

Lemma Run_texGenClass tg name base body n ind lvl ws1 ws2 R :
  isName name = true -> isEmpty base || isName base = true ->
  Forall wfNode body -> forallb IsSpace ind = true ->
  forallb IsSpace ws1 = true -> forallb IsSpace ws2 = true ->
  (S (nodesSize body) <= n)%nat -> isUVClass name base = false ->
  Run opt (parseTexGenClass opt n tg)
    (textClass ind lvl ws1 ws2 name base body R)
    (tgAddExtra tg (NClass name base body)) R.
Proof.
  intros Hname Hbase Hbody Hind Hws1 Hws2 Hn Hx. unfold parseTexGenClass.
  unfold textClass. class_head Hname.
  eapply Run_bind; [apply (Run_parseBase opt _ _ _ Hbase Hws1)|].
  rewrite equalFold_on. unfold isUVClass in Hx. rewrite Hx.
  eapply Run_bind;
    [apply (Run_parseClassBody opt _ _ _ _ _ _ _ _ Hbody Hind Hn Hws2)|].
  apply Run_ret.
Qed.

Lemma Run_texGenLoop_assign tg tg' X X' lt s' res k n :
  Tok opt tokIdent lt X s' ->
  Run opt (parseTexGenAssign opt n tg) X tg' X' ->
  Run opt (parseTexGenLoop opt n tg') X' res k ->
  Run opt (parseTexGenLoop opt (S n) tg) X res k.
Proof.
  intros Htok Hitem Hloop. cbn [parseTexGenLoop].
  eapply Run_peek; [exact Htok|].
  intros line col. cbn [Type_ tokenType_eqb].
  eapply Run_bind; [exact Hitem|exact Hloop].
Qed.

Lemma Run_texGenLoop_class tg tg' X X' lt s' res k n :
  Tok opt tokClass lt X s' ->
  Run opt (parseTexGenClass opt n tg) X tg' X' ->
  Run opt (parseTexGenLoop opt n tg') X' res k ->
  Run opt (parseTexGenLoop opt (S n) tg) X res k.
Proof.
  intros Htok Hitem Hloop. cbn [parseTexGenLoop].
  eapply Run_peek; [exact Htok|].
  intros line col. cbn [Type_ tokenType_eqb].
  eapply Run_bind; [exact Hitem|exact Hloop].
Qed.

Lemma Run_texGenLoop_end tg ws k n :
  (1 <= n)%nat -> forallb IsSpace ws = true ->
  Run opt (parseTexGenLoop opt n tg) (ws ++ 125 :: k) tg k.
Proof.
  intros Hn Hws. destruct n as [|n]; [lia|]. cbn [parseTexGenLoop].
  apply Run_ws; [exact Hws|].
  eapply Run_peek; [apply Tok_symbol; reflexivity|].
  intros line col. cbn [Type_ tokenType_eqb].
  eapply Run_skip; [apply Tok_symbol; reflexivity|]. apply Run_ret.
Qed.

Lemma Run_texGenLoop_field s tg ind lvl N R res k :
  strSafe s = true -> forallb IsSpace ind = true ->
  (forall n, (N <= n)%nat ->
     Run opt (parseTexGenLoop opt n
                (if isEmpty s then tg else tgSetUVSource tg s)) R res k) ->
  forall n, (N + fieldSize s <= n)%nat ->
    Run opt (parseTexGenLoop opt n tg)
      (textField true ind lvl (lit "uvSource") s ++ R) res k.
Proof.
  intros Hs Hind Hloop n Hn. unfold textField, fieldSize in *.
  destruct (isEmpty s).
  - cbn [app]. apply Hloop. lia.
  - destruct n as [|n]; [lia|]. norm.
    apply Run_ws; [apply textIndent_spaces; exact Hind|].
    eapply Run_texGenLoop_assign;
      [apply (Tok_name opt (lit "uvSource")); [reflexivity|delim]
      |apply Run_texGenUVSource; exact Hs|].
    apply (Run_ws opt [10]); [reflexivity|]. apply Hloop. lia.
Qed.

Lemma Run_texGenLoop_uv o tg ind lvl N R res k :
  wfOptUV o -> forallb IsSpace ind = true ->
  (forall n, (N <= n)%nat ->
     Run opt (parseTexGenLoop opt n
                (match o with
                 | Some uv => tgSetUVTransform tg (Some uv)
                 | None => tg
                 end)) R res k) ->
  forall n, (N + optUVsize o <= n)%nat ->
    Run opt (parseTexGenLoop opt n tg) (textOptUV ind lvl o ++ R) res k.
Proof.
  intros Huv Hind Hloop n Hn. destruct o as [uv|]; cbn [textOptUV optUVsize] in *.
  - destruct n as [|n]; [lia|]. rewrite textUVTransform_class.
    pose proof (textIndent_spaces ind lvl Hind) as Hsp.
    apply Run_ws; [exact Hsp|].
    eapply Run_texGenLoop_class;
      [unfold textUVClass; apply Tok_class; delim
      |apply Run_texGenUV; [exact Huv|exact Hind|exact Hsp|exact Hsp|lia]|].
    apply (Run_ws opt [10]); [reflexivity|]. apply Hloop. lia.
  - cbn [app]. apply Hloop. lia.
Qed.

Lemma Run_texGenLoop_extras ind lvl ws k extras :
  Forall wfNode extras -> Forall (fun n => texGenExtra n = true) extras ->
  forallb IsSpace ind = true -> forallb IsSpace ws = true ->
  forall tg n,
    (S (nodesSize extras) <= n)%nat ->
    Run opt (parseTexGenLoop opt n tg)
      (flat_map (textNode ind lvl) extras ++ ws ++ 125 :: k)
      (fold_left tgAddExtra extras tg) k.
Proof.
  intros Hwf Hex Hind Hws. pose proof (textIndent_spaces ind lvl Hind) as Hsp.
  induction Hwf as [|nd extras Hnd Hwf IH]; intros tg n Hn.
  - cbn [flat_map fold_left app]. apply Run_texGenLoop_end; [lia|exact Hws].
  - inversion Hex as [|? ? Hx Hex']; subst.
    unfold nodesSize in *. cbn [List.map] in Hn.
    change (list_sum (nsize nd :: List.map nsize extras))
      with (nsize nd + list_sum (List.map nsize extras))%nat in Hn.
    pose proof (nsize_pos nd) as Hpos.
    destruct n as [|n]; [lia|].
    cbn [flat_map fold_left]. rewrite <- app_assoc.
    destruct nd as [name isArray v|name base body].
    + destruct Hnd as [Hname Hv]. cbn [nsize] in Hn. cbn [texGenExtra] in Hx.
      apply negb_true_iff in Hx.
      cbn [textNode]. rewrite <- !app_assoc.
      apply Run_ws; [exact Hsp|].
      eapply Run_texGenLoop_assign;
        [unfold textAssign; rewrite <- !app_assoc;
         apply Tok_name; [exact Hname|apply delimited_suffix]
        |apply Run_texGenAssign; [exact Hname|exact Hv|lia|exact Hx]|].
      apply (Run_ws opt [10]); [reflexivity|].
      apply IH; [exact Hex'|lia].
    + apply wfNode_class in Hnd. destruct Hnd as (Hname & Hbase & Hbody).
      cbn [nsize] in Hn. cbn [texGenExtra] in Hx. apply negb_true_iff in Hx.
      rewrite textNode_class.
      apply Run_ws; [exact Hsp|].
      eapply Run_texGenLoop_class;
        [unfold textClass; apply Tok_class; delim
        |apply Run_texGenClass; try assumption; unfold nodesSize; lia|].
      apply (Run_ws opt [10]); [reflexivity|].
      apply IH; [exact Hex'|lia].
Qed.

Definition wfTexGen (t : TexGen) : Prop :=
  isName (TexGenName t) = true
  /\ hasPrefixKey (TexGenName t) (lit "texgen") true = true
  /\ isEmpty (TexGenBase t) || isName (TexGenBase t) = true
  /\ strSafe (TexGenUVSource t) = true
  /\ wfOptUV (TexGenUVTransform t)
  /\ Forall wfNode (TexGenExtras t)
  /\ Forall (fun n => texGenExtra n = true) (TexGenExtras t).

Lemma fold_tgAddExtra extras tg :
  fold_left tgAddExtra extras tg =
  {| TexGenName := TexGenName tg; TexGenBase := TexGenBase tg;
     TexGenUVSource := TexGenUVSource tg;
     TexGenUVTransform := TexGenUVTransform tg;
     TexGenExtras := TexGenExtras tg ++ extras |}.
Proof.
  revert tg. induction extras as [|nd extras IH]; intros tg; cbn [fold_left].
  - rewrite app_nil_r. destruct tg; reflexivity.
  - rewrite IH. cbn. rewrite <- app_assoc. reflexivity.
Qed.

Definition textTexGenBody (ind : str) (lvl : Z) (t : TexGen) (R : str) : str :=
  123 :: 10 :: textField true ind lvl (lit "uvSource") (TexGenUVSource t)
  ++ textOptUV ind lvl (TexGenUVTransform t)
  ++ flat_map (textNode ind lvl) (TexGenExtras t)
  ++ 125 :: 59 :: R.

Lemma Run_parseTexGenBody t n ind lvl R :
  wfTexGen t -> forallb IsSpace ind = true -> (texGenSize t <= n)%nat ->
  Run opt (parseTexGenBody opt n (TexGenName t) (TexGenBase t))
    (textTexGenBody ind lvl t R) t R.
Proof.
  intros (Hname & Hpre & Hbase & Huvs & Huv & Hex & Hexx) Hind Hn.
  unfold parseTexGenBody, textTexGenBody.
  eapply Run_expect; [apply Tok_symbol; reflexivity|].
  intros line col. apply (Run_ws opt [10]); [reflexivity|].
  apply Run_bind with (a := t) (s1 := 59 :: R);
    [|eapply Run_expect; [apply Tok_symbol; reflexivity|];
      intros line1 col1; apply Run_ret].
  unfold texGenSize in Hn.
  assert (Hres : t =
            fold_left tgAddExtra (TexGenExtras t)
              (match TexGenUVTransform t with
               | Some uv => fun x => tgSetUVTransform x (Some uv)
               | None => fun x => x
               end
                 ((if isEmpty (TexGenUVSource t) then fun x => x
                   else fun x => tgSetUVSource x (TexGenUVSource t))
                    (newTexGen (TexGenName t) (TexGenBase t))))).
  { rewrite fold_tgAddExtra. destruct t as [nm bs us uvt ex].
    cbn [TexGenName TexGenBase TexGenUVSource TexGenUVTransform TexGenExtras].
    destruct us, uvt; reflexivity. }
  match goal with
  | |- Run _ ?c ?text _ ?k =>
      enough (Hrun : Run opt c text
                (fold_left tgAddExtra (TexGenExtras t)
                   (match TexGenUVTransform t with
                    | Some uv => fun x => tgSetUVTransform x (Some uv)
                    | None => fun x => x
                    end
                      ((if isEmpty (TexGenUVSource t) then fun x => x
                        else fun x => tgSetUVSource x (TexGenUVSource t))
                         (newTexGen (TexGenName t) (TexGenBase t))))) k)
        by (rewrite <- Hres in Hrun; exact Hrun)
  end.
  apply (Run_texGenLoop_field _ _ ind lvl
           (S (nodesSize (TexGenExtras t)) + optUVsize (TexGenUVTransform t)));
    [exact Huvs|exact Hind| |lia].
  intros n1 Hn1.
  apply (Run_texGenLoop_uv _ _ ind lvl (S (nodesSize (TexGenExtras t))));
    [exact Huv|exact Hind| |lia].
  intros n2 Hn2.
  assert (Hend : forall tg0,
             Run opt (parseTexGenLoop opt n2 tg0)
               (flat_map (textNode ind lvl) (TexGenExtras t) ++ [] ++ 125 :: 59 :: R)
               (fold_left tgAddExtra (TexGenExtras t) tg0) (59 :: R)).
  { intros tg0. apply Run_texGenLoop_extras; try assumption; reflexivity. }
  cbn [app] in Hend.
  destruct (isEmpty (TexGenUVSource t)), (TexGenUVTransform t); apply Hend.
Qed.

End RunFields.

(* ================================================================== *)
(** ** The top level *)

Section RunTop.
Context {U : Unicode} {F : Strconv}.
Variable opt : ParseOptions.
Hypothesis Hci : DisableCaseInsensitive opt = false.

(** The fields [parseTopAssign] and [parseTopClass] recognise. *)
Definition isTopField (name : str) (isArray : bool) : bool :=
  if isArray then
    EqualFold name (lit "ambient") || EqualFold name (lit "diffuse")
    || EqualFold name (lit "forceddiffuse") || EqualFold name (lit "emmisive")
    || EqualFold name (lit "specular")
  else
    EqualFold name (lit "specularpower") || EqualFold name (lit "pixelshaderid")
    || EqualFold name (lit "vertexshaderid").

Definition topExtra (n : node) : bool :=
  match n with
  | NAssign name isArray _ => negb (isTopField name isArray)
  | NClass name base _ =>
      negb (hasPrefixKey name (lit "stage") true && isEmpty base)
      && negb (hasPrefixKey name (lit "texgen") true)
  end.

Definition wfMaterial (m : Material) : Prop :=
  Forall numberText (Ambient m) /\ Forall numberText (Diffuse m)
  /\ Forall numberText (ForcedDiffuse m) /\ Forall numberText (Emmisive m)
  /\ Forall numberText (Specular m)
  /\ match SpecularPower m with Some v => numberText v | None => True end
  /\ strSafe (PixelShaderID m) = true /\ strSafe (VertexShaderID m) = true
  /\ Forall wfTexGen (TexGens m) /\ Forall wfStage (Stages m)
  /\ Forall wfNode (Extras m)
  /\ Forall (fun n => topExtra n = true) (Extras m).

Definition canonMaterial (m : Material) : Material :=
  {| Ambient := Ambient m; Diffuse := Diffuse m;
     ForcedDiffuse := ForcedDiffuse m; Emmisive := Emmisive m;
     Specular := Specular m; SpecularPower := SpecularPower m;
     PixelShaderID := PixelShaderID m; VertexShaderID := VertexShaderID m;
     Stages := List.map canonStage (Stages m); TexGens := TexGens m;
     Extras := Extras m |}.

Ltac top_head key isArr :=
  eapply Run_expect; [apply (Tok_name opt (lit key)); [reflexivity|delim]|];
  intros ?line ?col; cbn [Lit];
  eapply Run_bind; [apply (Run_parseArraySuffix opt isArr)|];
  eapply Run_expect; [apply Tok_symbol; reflexivity|];
  intros ?line ?col; cbv zeta; rewrite ?(ci_on opt Hci); keys.

Lemma Run_topArray (key : string) (set : Material -> list float64 -> Material)
  fs m n R :
  isName (lit key) = true ->
  matchKey (lit key) (lit "ambient") true
  || matchKey (lit key) (lit "diffuse") true
  || matchKey (lit key) (lit "forceddiffuse") true
  || matchKey (lit key) (lit "emmisive") true
  || matchKey (lit key) (lit "specular") true = true ->
  (forall vals,
     (if matchKey (lit key) (lit "ambient") true then mSetAmbient m vals
      else if matchKey (lit key) (lit "diffuse") true then mSetDiffuse m vals
      else if matchKey (lit key) (lit "forceddiffuse") true
           then mSetForcedDiffuse m vals
      else if matchKey (lit key) (lit "emmisive") true then mSetEmmisive m vals
      else if matchKey (lit key) (lit "specular") true then mSetSpecular m vals
      else m) = set m vals) ->
  Forall numberText fs -> (length fs < n)%nat ->
  Run opt (parseTopAssign opt n m)
    (lit key ++ 91 :: 93 :: 61 :: textFloats fs ++ 59 :: R) (set m fs) R.
Proof.
  intros Hname Hk1 Hk2 Hfs Hn. unfold parseTopAssign.
  eapply Run_expect; [apply Tok_name; [exact Hname|delim]|].
  intros line col. cbn [Lit].
  eapply Run_bind; [apply (Run_parseArraySuffix opt true)|].
  eapply Run_expect; [apply Tok_symbol; reflexivity|].
  intros line1 col1. cbv zeta. rewrite (ci_on opt Hci). rewrite Hk1.
  eapply Run_bind; [apply Run_parseNumberArray; [exact Hfs|exact Hn]|].
  rewrite Hk2.
  eapply Run_bind; [apply Run_expectSemicolon|]. apply Run_ret.
Qed.

Lemma Run_topSpecularPower f m n R :
  numberText f ->
  Run opt (parseTopAssign opt n m)
    (lit "specularPower" ++ 61 :: FormatFloat f ++ 59 :: R)
    (mSetSpecularPower m (Some f)) R.
Proof.
  intros Hf. unfold parseTopAssign. top_head ("specularPower"%string) false.
  eapply Run_bind; [apply Run_parseNumberValue; [exact Hf|delim]|].
  eapply Run_bind; [apply Run_expectSemicolon|]. apply Run_ret.
Qed.

Lemma Run_topPixelShaderID s m n R :
  strSafe s = true ->
  Run opt (parseTopAssign opt n m)
    (lit "PixelShaderID" ++ 61 :: 34 :: s ++ 34 :: 59 :: R)
    (mSetPixelShaderID m s) R.
Proof.
  intros Hs. unfold parseTopAssign. top_head ("PixelShaderID"%string) false.
  eapply Run_bind; [apply Run_parseStringValue; [exact Hs|delim]|].
  eapply Run_bind; [apply Run_expectSemicolon|]. apply Run_ret.
Qed.

Lemma Run_topVertexShaderID s m n R :
  strSafe s = true ->
  Run opt (parseTopAssign opt n m)
    (lit "VertexShaderID" ++ 61 :: 34 :: s ++ 34 :: 59 :: R)
    (mSetVertexShaderID m s) R.
Proof.
  intros Hs. unfold parseTopAssign. top_head ("VertexShaderID"%string) false.
  eapply Run_bind; [apply Run_parseStringValue; [exact Hs|delim]|].
  eapply Run_bind; [apply Run_expectSemicolon|]. apply Run_ret.
Qed.

Lemma Run_topAssign m name isArray v n k :
  isName name = true -> wfValue v -> (vsize v <= n)%nat ->
  isTopField name isArray = false ->
  Run opt (parseTopAssign opt n m) (textAssign name isArray v ++ k)
    (mAddExtra m (NAssign name isArray v)) k.
Proof.
  intros Hname Hv Hn Hx. unfold parseTopAssign.
  unfold textAssign; norm.
  eapply Run_expect; [apply Tok_name; [exact Hname|apply delimited_suffix]|].
  intros line col. cbn [Lit].
  eapply Run_bind; [apply Run_parseArraySuffix|].
  eapply Run_expect; [apply Tok_symbol; reflexivity|].
  intros line1 col1. cbv zeta. rewrite (ci_on opt Hci).
  unfold isTopField in Hx. unfold matchKey.
  destruct isArray.
  - rewrite Hx.
    eapply Run_bind; [apply (Run_parseValue opt _ Hv); [exact Hn|delim]|].
    eapply Run_bind; [apply Run_expectSemicolon|]. apply Run_ret.
  - apply orb_false_iff in Hx. destruct Hx as [Hx H3].
    apply orb_false_iff in Hx. destruct Hx as [H1 H2].
    rewrite H1, H2, H3.
    eapply Run_bind; [apply (Run_parseValue opt _ Hv); [exact Hn|delim]|].
    eapply Run_bind; [apply Run_expectSemicolon|]. apply Run_ret.
Qed.

Lemma isStageName_on name :
  isStageName opt name = hasPrefixKey name (lit "stage") true.
Proof. unfold isStageName. rewrite Hci. reflexivity. Qed.

Lemma isTexGenName_on name :
  isTexGenName opt name = hasPrefixKey name (lit "texgen") true.
Proof. unfold isTexGenName. rewrite Hci. reflexivity. Qed.

(** A name cannot start with both prefixes. *)
Lemma texgen_not_stage name :
  hasPrefixKey name (lit "texgen") true = true ->
  hasPrefixKey name (lit "stage") true = false.
Proof.
  unfold hasPrefixKey. cbn [negb].
  destruct name as [|c name]; [discriminate|].
  destruct (length (c :: name) <? length (lit "texgen"))%nat; [discriminate|].
  destruct (length (c :: name) <? length (lit "stage"))%nat; [reflexivity|].
  change (firstn (length (lit "texgen")) (c :: name))
    with (c :: firstn 5 name).
  change (firstn (length (lit "stage")) (c :: name))
    with (c :: firstn 4 name).
  cbn [List.map]. change (lit "texgen") with (116 :: lit "exgen").
  change (lit "stage") with (115 :: lit "tage"). cbn [HasPrefix].
  intros H. apply andb_true_iff in H. destruct H as [H _].
  apply Z.eqb_eq in H. rewrite H. reflexivity.
Qed.

Ltac top_class Hname :=
  eapply Run_expect; [apply Tok_class; delim|];
  intros ?line ?col; apply (Run_ws opt [32]); [reflexivity|];
  eapply Run_expect; [apply Tok_name; [exact Hname|apply delimited_base]|];
  intros ?line ?col; cbn [Lit].

Lemma Run_topTexGen t m n ind lvl R :
  wfTexGen t -> forallb IsSpace ind = true -> (texGenSize t <= n)%nat ->
  Run opt (parseTopClass opt n m)
    (lit "class" ++ 32 :: TexGenName t
     ++ (if negb (isEmpty (TexGenBase t)) then 32 :: 58 :: 32 :: TexGenBase t
         else [])
     ++ 10 :: textTexGenBody ind lvl t R)
    (mAddTexGen m t) R.
Proof.
  intros Hwf Hind Hn. unfold parseTopClass.
  pose proof Hwf as (Hname & Hpre & Hbase & _).
  top_class Hname.
  eapply Run_bind;
    [apply (Run_parseBase opt (TexGenBase t) [] _ Hbase eq_refl)|].
  cbv zeta. rewrite isStageName_on, isTexGenName_on.
  rewrite (texgen_not_stage _ Hpre), Hpre. cbn [andb].
  eapply Run_bind; [apply (Run_parseTexGenBody opt Hci t n ind lvl R Hwf Hind Hn)|].
  apply Run_ret.
Qed.

Lemma Run_topStage st m n ind lvl R :
  wfStage st -> forallb IsSpace ind = true -> (stageSize st <= n)%nat ->
  Run opt (parseTopClass opt n m)
    (lit "class" ++ 32 :: StageName st ++ 10 :: textStageBody ind lvl st R)
    (mAddStage m (canonStage st)) R.
Proof.
  intros Hwf Hind Hn. unfold parseTopClass.
  pose proof Hwf as (Hname & Hpre & _).
  eapply Run_expect; [apply Tok_class; delim|].
  intros line col. apply (Run_ws opt [32]); [reflexivity|].
  eapply Run_expect; [apply Tok_name; [exact Hname|delim]|].
  intros line1 col1. cbn [Lit].
  eapply Run_bind; [apply (Run_parseBase opt [] [] _ eq_refl eq_refl)|].
  cbv zeta. rewrite isStageName_on, Hpre. cbn [andb isEmpty].
  eapply Run_bind; [apply (Run_parseStageBody opt Hci st n ind lvl R Hwf Hind Hn)|].
  apply Run_ret.
Qed.

Lemma Run_topClass m name base body n ind lvl ws1 ws2 R :
  isName name = true -> isEmpty base || isName base = true ->
  Forall wfNode body -> forallb IsSpace ind = true ->
  forallb IsSpace ws1 = true -> forallb IsSpace ws2 = true ->
  (S (nodesSize body) <= n)%nat ->
  topExtra (NClass name base body) = true ->
  Run opt (parseTopClass opt n m)
    (textClass ind lvl ws1 ws2 name base body R)
    (mAddExtra m (NClass name base body)) R.
Proof.
  intros Hname Hbase Hbody Hind Hws1 Hws2 Hn Hx. unfold parseTopClass.
  unfold textClass. top_class Hname.
  eapply Run_bind; [apply (Run_parseBase opt _ _ _ Hbase Hws1)|].
  cbv zeta. rewrite isStageName_on, isTexGenName_on.
  cbn [topExtra] in Hx. apply andb_true_iff in Hx. destruct Hx as [H1 H2].
  apply negb_true_iff in H1. apply negb_true_iff in H2. rewrite H1, H2.
  eapply Run_bind;
    [apply (Run_parseClassBody opt _ _ _ _ _ _ _ _ Hbody Hind Hn Hws2)|].
  apply Run_ret.
Qed.

Lemma Run_topLoop_assign m m' X X' lt s' res k n :
  Tok opt tokIdent lt X s' ->
  Run opt (parseTopAssign opt n m) X m' X' ->
  Run opt (parseMaterialLoop opt n m') X' res k ->
  Run opt (parseMaterialLoop opt (S n) m) X res k.
Proof.
  intros Htok Hitem Hloop. cbn [parseMaterialLoop].
  eapply Run_peek; [exact Htok|].
  intros line col. cbn [Type_ tokenType_eqb].
  eapply Run_bind; [exact Hitem|exact Hloop].
Qed.

Lemma Run_topLoop_class m m' X X' lt s' res k n :
  Tok opt tokClass lt X s' ->
  Run opt (parseTopClass opt n m) X m' X' ->
  Run opt (parseMaterialLoop opt n m') X' res k ->
  Run opt (parseMaterialLoop opt (S n) m) X res k.
Proof.
  intros Htok Hitem Hloop. cbn [parseMaterialLoop].
  eapply Run_peek; [exact Htok|].
  intros line col. cbn [Type_ tokenType_eqb].
  eapply Run_bind; [exact Hitem|exact Hloop].
Qed.

Lemma Run_topLoop_end m n :
  (1 <= n)%nat -> Run opt (parseMaterialLoop opt n m) [] m [].
Proof.
  intros Hn. destruct n as [|n]; [lia|]. cbn [parseMaterialLoop].
  eapply Run_peek; [apply Tok_eof|].
  intros line col. cbn [Type_ tokenType_eqb]. apply Run_ret.
Qed.

Lemma Run_topLoop_array (key : string)
  (set : Material -> list float64 -> Material) fs m ind lvl N R res :
  isName (lit key) = true ->
  matchKey (lit key) (lit "ambient") true
  || matchKey (lit key) (lit "diffuse") true
  || matchKey (lit key) (lit "forceddiffuse") true
  || matchKey (lit key) (lit "emmisive") true
  || matchKey (lit key) (lit "specular") true = true ->
  (forall vals,
     (if matchKey (lit key) (lit "ambient") true then mSetAmbient m vals
      else if matchKey (lit key) (lit "diffuse") true then mSetDiffuse m vals
      else if matchKey (lit key) (lit "forceddiffuse") true
           then mSetForcedDiffuse m vals
      else if matchKey (lit key) (lit "emmisive") true then mSetEmmisive m vals
      else if matchKey (lit key) (lit "specular") true then mSetSpecular m vals
      else m) = set m vals) ->
  Forall numberText fs ->
  (forall n, (N <= n)%nat ->
     Run opt (parseMaterialLoop opt n
                (match fs with [] => m | _ => set m fs end)) R res []) ->
  forall n, (N + namedSize fs <= n)%nat ->
    Run opt (parseMaterialLoop opt n m)
      (textNamedArray false ind lvl (lit key) fs ++ R) res [].
Proof.
  intros Hname Hk1 Hk2 Hfs Hloop n Hn. unfold textNamedArray.
  destruct fs as [|f fs'].
  - cbn [app]. apply Hloop. cbn in Hn. lia.
  - assert (Hsz : namedSize (f :: fs') = S (S (length (f :: fs'))))
      by reflexivity.
    cbv iota in Hloop. remember (f :: fs') as fs eqn:Hf.
    rewrite Hsz in Hn. destruct n as [|n]; [lia|]. norm.
    eapply Run_topLoop_assign;
      [apply Tok_name; [exact Hname|delim]
      |apply (Run_topArray key set); [exact Hname|exact Hk1|exact Hk2
                                     |exact Hfs|lia]|].
    apply (Run_ws opt [10]); [reflexivity|]. apply Hloop. lia.
Qed.

Lemma Run_topLoop_specularPower (o : option float64) m N R res :
  match o with Some v => numberText v | None => True end ->
  (forall n, (N <= n)%nat ->
     Run opt (parseMaterialLoop opt n
                (match o with
                 | Some v => mSetSpecularPower m (Some v)
                 | None => m
                 end)) R res []) ->
  forall n, (N + match o with Some _ => 1 | None => 0 end <= n)%nat ->
    Run opt (parseMaterialLoop opt n m)
      (match o with
       | Some v => lit "specularPower" ++ 61 :: FormatFloat v ++ [59; 10]
       | None => []
       end ++ R) res [].
Proof.
  intros Ho Hloop n Hn. destruct o as [v|].
  - destruct n as [|n]; [lia|]. norm.
    eapply Run_topLoop_assign;
      [apply (Tok_name opt (lit "specularPower")); [reflexivity|delim]
      |apply Run_topSpecularPower; exact Ho|].
    apply (Run_ws opt [10]); [reflexivity|]. apply Hloop. lia.
  - cbn [app]. apply Hloop. lia.
Qed.

Lemma Run_topLoop_field (key : string) (set : Material -> str -> Material)
  s m ind lvl N R res :
  isName (lit key) = true ->
  (forall n R', Run opt (parseTopAssign opt n m)
                  (lit key ++ 61 :: 34 :: s ++ 34 :: 59 :: R') (set m s) R') ->
  (forall n, (N <= n)%nat ->
     Run opt (parseMaterialLoop opt n (if isEmpty s then m else set m s))
       R res []) ->
  forall n, (N + fieldSize s <= n)%nat ->
    Run opt (parseMaterialLoop opt n m)
      (textField false ind lvl (lit key) s ++ R) res [].
Proof.
  intros Hkey Hitem Hloop n Hn. unfold textField, fieldSize in *.
  destruct (isEmpty s).
  - cbn [app]. apply Hloop. lia.
  - destruct n as [|n]; [lia|]. norm.
    eapply Run_topLoop_assign;
      [apply Tok_name; [exact Hkey|delim]|apply Hitem|].
    apply (Run_ws opt [10]); [reflexivity|]. apply Hloop. lia.
Qed.

Lemma isName_nonempty s : isName s = true -> isEmpty s = false.
Proof. destruct s; [discriminate|reflexivity]. Qed.

Lemma textTexGen_body ind lvl t R :
  wfTexGen t ->
  textTexGen ind lvl t ++ R =
  lit "class" ++ 32 :: TexGenName t
  ++ (if negb (isEmpty (TexGenBase t)) then 32 :: 58 :: 32 :: TexGenBase t
      else [])
  ++ 10 :: textTexGenBody ind (lvl + 1) t (10 :: R).
Proof.
  intros (Hname & _). unfold textTexGen, textTexGenBody.
  rewrite (isName_nonempty _ Hname). rewrite <- !app_assoc.
  rewrite textHeader_class. norm. reflexivity.
Qed.

Lemma textStage_body ind lvl st R :
  wfStage st ->
  textStage ind lvl st ++ R =
  lit "class" ++ 32 :: StageName st
  ++ 10 :: textStageBody ind (lvl + 1) st (10 :: R).
Proof.
  intros (Hname & _). unfold textStage, textStageBody.
  rewrite (isName_nonempty _ Hname).
  change (lit "class ") with (lit "class" ++ [32]).
  destruct (isEmpty (StageTexGen st)); norm; reflexivity.
Qed.

Lemma Run_topLoop_texGens ind lvl R res tgs :
  Forall wfTexGen tgs -> forallb IsSpace ind = true ->
  forall m N,
    (forall n, (N <= n)%nat ->
       Run opt (parseMaterialLoop opt n (fold_left mAddTexGen tgs m)) R res []) ->
    forall n,
      (N + list_sum (List.map (fun t => S (texGenSize t)) tgs) <= n)%nat ->
      Run opt (parseMaterialLoop opt n m)
        (flat_map (textTexGen ind lvl) tgs ++ R) res [].
Proof.
  intros Hwf Hind. induction Hwf as [|t tgs Ht Hwf IH]; intros m N Hloop n Hn.
  - cbn [flat_map app]. apply Hloop. cbn in Hn. lia.
  - cbn [List.map] in Hn.
    change (list_sum (S (texGenSize t)
                      :: List.map (fun t => S (texGenSize t)) tgs))
      with (S (texGenSize t)
            + list_sum (List.map (fun t => S (texGenSize t)) tgs))%nat in Hn.
    destruct n as [|n]; [lia|].
    cbn [flat_map fold_left] in *. rewrite <- app_assoc.
    rewrite (textTexGen_body _ _ _ _ Ht).
    eapply Run_topLoop_class;
      [apply Tok_class; delim
      |apply Run_topTexGen; [exact Ht|exact Hind|lia]|].
    apply (Run_ws opt [10]); [reflexivity|].
    apply (IH (mAddTexGen m t) N); [exact Hloop|lia].
Qed.

Lemma Run_topLoop_stages ind lvl R res sts :
  Forall wfStage sts -> forallb IsSpace ind = true ->
  forall m N,
    (forall n, (N <= n)%nat ->
       Run opt (parseMaterialLoop opt n
                  (fold_left mAddStage (List.map canonStage sts) m)) R res []) ->
    forall n,
      (N + list_sum (List.map (fun s => S (stageSize s)) sts) <= n)%nat ->
      Run opt (parseMaterialLoop opt n m)
        (flat_map (textStage ind lvl) sts ++ R) res [].
Proof.
  intros Hwf Hind. induction Hwf as [|st sts Hst Hwf IH]; intros m N Hloop n Hn.
  - cbn [flat_map app]. apply Hloop. cbn in Hn. lia.
  - cbn [List.map] in Hn.
    change (list_sum (S (stageSize st)
                      :: List.map (fun s => S (stageSize s)) sts))
      with (S (stageSize st)
            + list_sum (List.map (fun s => S (stageSize s)) sts))%nat in Hn.
    destruct n as [|n]; [lia|].
    cbn [flat_map fold_left List.map] in *. rewrite <- app_assoc.
    rewrite (textStage_body _ _ _ _ Hst).
    eapply Run_topLoop_class;
      [apply Tok_class; delim
      |apply Run_topStage; [exact Hst|exact Hind|lia]|].
    apply (Run_ws opt [10]); [reflexivity|].
    apply (IH (mAddStage m (canonStage st)) N); [exact Hloop|lia].
Qed.

Lemma Run_topLoop_extras ind lvl extras :
  Forall wfNode extras -> Forall (fun n => topExtra n = true) extras ->
  forallb IsSpace ind = true ->
  forall m n,
    (S (nodesSize extras) <= n)%nat ->
    Run opt (parseMaterialLoop opt n m)
      (flat_map (textNode ind lvl) extras) (fold_left mAddExtra extras m) [].
Proof.
  intros Hwf Hex Hind. pose proof (textIndent_spaces ind lvl Hind) as Hsp.
  induction Hwf as [|nd extras Hnd Hwf IH]; intros m n Hn.
  - cbn [flat_map fold_left]. apply Run_topLoop_end. lia.
  - inversion Hex as [|? ? Hx Hex']; subst.
    unfold nodesSize in *. cbn [List.map] in Hn.
    change (list_sum (nsize nd :: List.map nsize extras))
      with (nsize nd + list_sum (List.map nsize extras))%nat in Hn.
    pose proof (nsize_pos nd) as Hpos.
    destruct n as [|n]; [lia|].
    cbn [flat_map fold_left].
    destruct nd as [name isArray v|name base body].
    + destruct Hnd as [Hname Hv]. cbn [nsize] in Hn. cbn [topExtra] in Hx.
      apply negb_true_iff in Hx.
      cbn [textNode]. rewrite <- !app_assoc.
      apply Run_ws; [exact Hsp|].
      eapply Run_topLoop_assign;
        [unfold textAssign; rewrite <- !app_assoc;
         apply Tok_name; [exact Hname|apply delimited_suffix]
        |apply Run_topAssign; [exact Hname|exact Hv|lia|exact Hx]|].
      apply (Run_ws opt [10]); [reflexivity|].
      apply IH; [exact Hex'|lia].
    + pose proof Hnd as Hnd'.
      apply wfNode_class in Hnd. destruct Hnd as (Hname & Hbase & Hbody).
      cbn [nsize] in Hn.
      rewrite textNode_class.
      apply Run_ws; [exact Hsp|].
      eapply Run_topLoop_class;
        [unfold textClass; apply Tok_class; delim
        |apply Run_topClass; try assumption; unfold nodesSize; lia|].
      apply (Run_ws opt [10]); [reflexivity|].
      apply IH; [exact Hex'|lia].
Qed.

Lemma fold_mAddTexGen tgs m :
  fold_left mAddTexGen tgs m =
  {| Ambient := Ambient m; Diffuse := Diffuse m;
     ForcedDiffuse := ForcedDiffuse m; Emmisive := Emmisive m;
     Specular := Specular m; SpecularPower := SpecularPower m;
     PixelShaderID := PixelShaderID m; VertexShaderID := VertexShaderID m;
     Stages := Stages m; TexGens := TexGens m ++ tgs; Extras := Extras m |}.
Proof.
  revert m. induction tgs as [|t tgs IH]; intros m; cbn [fold_left].
  - rewrite app_nil_r. destruct m; reflexivity.
  - rewrite IH. cbn. rewrite <- app_assoc. reflexivity.
Qed.

Lemma fold_mAddStage sts m :
  fold_left mAddStage sts m =
  {| Ambient := Ambient m; Diffuse := Diffuse m;
     ForcedDiffuse := ForcedDiffuse m; Emmisive := Emmisive m;
     Specular := Specular m; SpecularPower := SpecularPower m;
     PixelShaderID := PixelShaderID m; VertexShaderID := VertexShaderID m;
     Stages := Stages m ++ sts; TexGens := TexGens m; Extras := Extras m |}.
Proof.
  revert m. induction sts as [|t sts IH]; intros m; cbn [fold_left].
  - rewrite app_nil_r. destruct m; reflexivity.
  - rewrite IH. cbn. rewrite <- app_assoc. reflexivity.
Qed.

Lemma fold_mAddExtra ns m :
  fold_left mAddExtra ns m =
  {| Ambient := Ambient m; Diffuse := Diffuse m;
     ForcedDiffuse := ForcedDiffuse m; Emmisive := Emmisive m;
     Specular := Specular m; SpecularPower := SpecularPower m;
     PixelShaderID := PixelShaderID m; VertexShaderID := VertexShaderID m;
     Stages := Stages m; TexGens := TexGens m; Extras := Extras m ++ ns |}.
Proof.
  revert m. induction ns as [|t ns IH]; intros m; cbn [fold_left].
  - rewrite app_nil_r. destruct m; reflexivity.
  - rewrite IH. cbn. rewrite <- app_assoc. reflexivity.
Qed.

(** The scalar fields and the colour arrays of [m], set one after the
    other on the empty material. *)
Definition topFields (m : Material) : Material :=
  (if isEmpty (VertexShaderID m) then fun x => x
   else fun x => mSetVertexShaderID x (VertexShaderID m))
    ((if isEmpty (PixelShaderID m) then fun x => x
      else fun x => mSetPixelShaderID x (PixelShaderID m))
       (match SpecularPower m with
        | Some v => fun x => mSetSpecularPower x (Some v)
        | None => fun x => x
        end
          (match Specular m with
           | [] => fun x => x
           | _ => fun x => mSetSpecular x (Specular m)
           end
             (match Emmisive m with
              | [] => fun x => x
              | _ => fun x => mSetEmmisive x (Emmisive m)
              end
                (match ForcedDiffuse m with
                 | [] => fun x => x
                 | _ => fun x => mSetForcedDiffuse x (ForcedDiffuse m)
                 end
                   (match Diffuse m with
                    | [] => fun x => x
                    | _ => fun x => mSetDiffuse x (Diffuse m)
                    end
                      (match Ambient m with
                       | [] => fun x => x
                       | _ => fun x => mSetAmbient x (Ambient m)
                       end Material0))))))).

Lemma topFields_eq m :
  topFields m =
  {| Ambient := Ambient m; Diffuse := Diffuse m;
     ForcedDiffuse := ForcedDiffuse m; Emmisive := Emmisive m;
     Specular := Specular m; SpecularPower := SpecularPower m;
     PixelShaderID := PixelShaderID m; VertexShaderID := VertexShaderID m;
     Stages := []; TexGens := []; Extras := [] |}.
Proof.
  unfold topFields. destruct m as [a d fd e s sp px vx sts tgs ex].
  cbn [Ambient Diffuse ForcedDiffuse Emmisive Specular SpecularPower
       PixelShaderID VertexShaderID].
  destruct a, d, fd, e, s, sp, px, vx; reflexivity.
Qed.

Lemma canonMaterial_fold m :
  canonMaterial m =
  fold_left mAddExtra (Extras m)
    (fold_left mAddStage (List.map canonStage (Stages m))
       (fold_left mAddTexGen (TexGens m) (topFields m))).
Proof.
  rewrite fold_mAddExtra, fold_mAddStage, fold_mAddTexGen, topFields_eq.
  reflexivity.
Qed.

(** [parseMaterial] reads back what the writer prints. *)
Theorem Run_parseMaterial m n ind lvl :
  wfMaterial m -> forallb IsSpace ind = true -> (materialSize m <= n)%nat ->
  Run opt (parseMaterial opt n) (textMaterial ind lvl m) (canonMaterial m) [].
Proof.
  intros (Ha & Hd & Hfd & He & Hs & Hsp & Hpx & Hvx & Htg & Hst & Hex & Hexx)
    Hind Hn.
  unfold parseMaterial, textMaterial. rewrite canonMaterial_fold.
  unfold topFields. unfold materialSize in Hn.
  set (Nex := S (nodesSize (Extras m))).
  set (Nst := (Nex + list_sum (List.map (fun s => S (stageSize s)) (Stages m)))%nat).
  set (Ntg := (Nst + list_sum (List.map (fun t => S (texGenSize t)) (TexGens m)))%nat).
  set (Nvx := (Ntg + fieldSize (VertexShaderID m))%nat).
  set (Npx := (Nvx + fieldSize (PixelShaderID m))%nat).
  set (Nsp := (Npx + match SpecularPower m with Some _ => 1 | None => 0 end)%nat).
  set (Ns := (Nsp + namedSize (Specular m))%nat).
  set (Ne := (Ns + namedSize (Emmisive m))%nat).
  set (Nfd := (Ne + namedSize (ForcedDiffuse m))%nat).
  set (Nd := (Nfd + namedSize (Diffuse m))%nat).
  apply (Run_topLoop_array "ambient" mSetAmbient _ _ ind lvl Nd);
    [reflexivity|reflexivity|reflexivity|exact Ha| |unfold Nd, Nfd, Ne, Ns, Nsp,
       Npx, Nvx, Ntg, Nst, Nex; lia].
  intros n1 Hn1.
  apply (Run_topLoop_array "diffuse" mSetDiffuse _ _ ind lvl Nfd);
    [reflexivity|reflexivity|reflexivity|exact Hd| |unfold Nd in Hn1; lia].
  intros n2 Hn2.
  apply (Run_topLoop_array "forcedDiffuse" mSetForcedDiffuse _ _ ind lvl Ne);
    [reflexivity|reflexivity|reflexivity|exact Hfd| |unfold Nfd in Hn2; lia].
  intros n3 Hn3.
  apply (Run_topLoop_array "emmisive" mSetEmmisive _ _ ind lvl Ns);
    [reflexivity|reflexivity|reflexivity|exact He| |unfold Ne in Hn3; lia].
  intros n4 Hn4.
  apply (Run_topLoop_array "specular" mSetSpecular _ _ ind lvl Nsp);
    [reflexivity|reflexivity|reflexivity|exact Hs| |unfold Ns in Hn4; lia].
  intros n5 Hn5.
  apply (Run_topLoop_specularPower (SpecularPower m) _ Npx);
    [exact Hsp| |unfold Nsp in Hn5; lia].
  intros n6 Hn6.
  apply (Run_topLoop_field "PixelShaderID" mSetPixelShaderID _ _ ind lvl Nvx);
    [reflexivity|intros; apply Run_topPixelShaderID; exact Hpx|
    |unfold Npx in Hn6; lia].
  intros n7 Hn7.
  apply (Run_topLoop_field "VertexShaderID" mSetVertexShaderID _ _ ind lvl Ntg);
    [reflexivity|intros; apply Run_topVertexShaderID; exact Hvx|
    |unfold Nvx in Hn7; lia].
  intros n8 Hn8.
  apply (Run_topLoop_texGens ind lvl _ _ (TexGens m) Htg Hind _ Nst);
    [|unfold Ntg in Hn8; lia].
  intros n9 Hn9.
  apply (Run_topLoop_stages ind lvl _ _ (Stages m) Hst Hind _ Nex);
    [|unfold Nst in Hn9; lia].
  intros n10 Hn10.
  assert (Hend : forall m0,
             Run opt (parseMaterialLoop opt n10 m0)
               (flat_map (textNode ind lvl) (Extras m))
               (fold_left mAddExtra (Extras m) m0) []).
  { intros m0. apply Run_topLoop_extras; assumption. }
  destruct (Ambient m), (Diffuse m), (ForcedDiffuse m), (Emmisive m),
    (Specular m), (SpecularPower m), (isEmpty (PixelShaderID m)),
    (isEmpty (VertexShaderID m)); apply Hend.
Qed.

End RunTop.

(* ================================================================== *)
(** ** UTF-8: decoding what was encoded *)

(** [utf8.ValidRune]: a Unicode scalar value. *)
Definition ValidRune (r : rune) : bool :=
  ((0 <=? r) && (r <? 55296)) || ((57343 <? r) && (r <=? 1114111)).

Lemma bz_zb z : 0 <= z < 256 -> bz (zb z) = z.
Proof.
  intros Hz. unfold bz, zb.
  destruct (Byte.of_N (Z.to_N z)) as [b|] eqn:Hb.
  - apply Byte.to_of_N in Hb. rewrite Hb. lia.
  - apply Byte.of_N_None_iff in Hb. lia.
Qed.

(** The base-64 digits of a code point. *)
Lemma rune_digits r :
  0 <= r ->
  exists d0 d1 d2 d3,
    r = d0 + 64 * (d1 + 64 * (d2 + 64 * d3))
    /\ 0 <= d0 < 64 /\ 0 <= d1 < 64 /\ 0 <= d2 < 64 /\ 0 <= d3
    /\ r mod 64 = d0 /\ r / 64 = d1 + 64 * (d2 + 64 * d3)
    /\ (r / 64) mod 64 = d1 /\ r / 4096 = d2 + 64 * d3
    /\ (r / 4096) mod 64 = d2 /\ r / 262144 = d3.
Proof.
  intros Hr.
  exists (r mod 64), ((r / 64) mod 64), ((r / 4096) mod 64), (r / 262144).
  assert (E1 : r / 4096 = r / 64 / 64).
  { rewrite Z.div_div by lia. reflexivity. }
  assert (E2 : r / 262144 = r / 4096 / 64).
  { rewrite Z.div_div by lia. reflexivity. }
  pose proof (Z.div_mod r 64 ltac:(lia)) as D0.
  pose proof (Z.mod_pos_bound r 64 ltac:(lia)) as M0.
  pose proof (Z.div_mod (r / 64) 64 ltac:(lia)) as D1.
  pose proof (Z.mod_pos_bound (r / 64) 64 ltac:(lia)) as M1.
  pose proof (Z.div_mod (r / 4096) 64 ltac:(lia)) as D2.
  pose proof (Z.mod_pos_bound (r / 4096) 64 ltac:(lia)) as M2.
  assert (0 <= r / 262144) by (apply Z.div_pos; lia).
  rewrite <- E1 in D1. rewrite <- E2 in D2.
  repeat split; try lia.
Qed.

Ltac zcmp :=
  repeat match goal with
         | |- context [?a <=? ?b] =>
             first [destruct (Z.leb_spec a b); [|exfalso; lia]
                   |destruct (Z.leb_spec a b); [exfalso; lia|]]
         | |- context [?a <? ?b] =>
             first [destruct (Z.ltb_spec a b); [|exfalso; lia]
                   |destruct (Z.ltb_spec a b); [exfalso; lia|]]
         | |- context [?a =? ?b] =>
             first [destruct (Z.eqb_spec a b); [|exfalso; lia]
                   |destruct (Z.eqb_spec a b); [exfalso; lia|]]
         end.

Lemma utf8_decode_cons b0 t0 :
  utf8_decode (b0 :: t0) =
  let x0 := bz b0 in
  if x0 <? 128 then x0 :: utf8_decode t0
  else
    let bad := RuneError :: utf8_decode t0 in
    match t0 with
    | [] => bad
    | b1 :: t1 =>
        let x1 := bz b1 in
        if (194 <=? x0) && (x0 <=? 223) then
          if isCont 128 191 b1
          then ((x0 - 192) * 64 + (x1 - 128)) :: utf8_decode t1
          else bad
        else if (224 <=? x0) && (x0 <=? 239) then
          let lo := if x0 =? 224 then 160 else 128 in
          let hi := if x0 =? 237 then 159 else 191 in
          match t1 with
          | [] => bad
          | b2 :: t2 =>
              if isCont lo hi b1 && isCont 128 191 b2
              then ((x0 - 224) * 4096 + (x1 - 128) * 64 + (bz b2 - 128))
                     :: utf8_decode t2
              else bad
          end
        else if (240 <=? x0) && (x0 <=? 244) then
          let lo := if x0 =? 240 then 144 else 128 in
          let hi := if x0 =? 244 then 143 else 191 in
          match t1 with
          | [] => bad
          | b2 :: t2 =>
              match t2 with
              | [] => bad
              | b3 :: t3 =>
                  if isCont lo hi b1 && isCont 128 191 b2 && isCont 128 191 b3
                  then ((x0 - 240) * 262144 + (x1 - 128) * 4096
                        + (bz b2 - 128) * 64 + (bz b3 - 128))
                         :: utf8_decode t3
                  else bad
              end
          end
        else bad
    end.
Proof. reflexivity. Qed.

Lemma utf8_decode_1 x0 rest :
  0 <= x0 < 128 -> utf8_decode (zb x0 :: rest) = x0 :: utf8_decode rest.
Proof.
  intros H0. rewrite utf8_decode_cons. cbv zeta. rewrite bz_zb by lia.
  zcmp. reflexivity.
Qed.

Lemma utf8_decode_2 x0 x1 rest :
  194 <= x0 <= 223 -> 128 <= x1 <= 191 ->
  utf8_decode (zb x0 :: zb x1 :: rest)
  = ((x0 - 192) * 64 + (x1 - 128)) :: utf8_decode rest.
Proof.
  intros H0 H1. rewrite utf8_decode_cons. cbv zeta. unfold isCont.
  rewrite !bz_zb by lia. zcmp. reflexivity.
Qed.

Lemma utf8_decode_3 x0 x1 x2 rest :
  224 <= x0 <= 239 -> 128 <= x1 <= 191 -> 128 <= x2 <= 191 ->
  (x0 = 224 -> 160 <= x1) -> (x0 = 237 -> x1 <= 159) ->
  utf8_decode (zb x0 :: zb x1 :: zb x2 :: rest)
  = ((x0 - 224) * 4096 + (x1 - 128) * 64 + (x2 - 128)) :: utf8_decode rest.
Proof.
  intros H0 H1 H2 Hlo Hhi. rewrite utf8_decode_cons. cbv zeta. unfold isCont.
  rewrite !bz_zb by lia.
  destruct (Z.eqb_spec x0 224), (Z.eqb_spec x0 237); try lia;
    zcmp; reflexivity.
Qed.

Lemma utf8_decode_4 x0 x1 x2 x3 rest :
  240 <= x0 <= 244 -> 128 <= x1 <= 191 -> 128 <= x2 <= 191 ->
  128 <= x3 <= 191 ->
  (x0 = 240 -> 144 <= x1) -> (x0 = 244 -> x1 <= 143) ->
  utf8_decode (zb x0 :: zb x1 :: zb x2 :: zb x3 :: rest)
  = ((x0 - 240) * 262144 + (x1 - 128) * 4096 + (x2 - 128) * 64 + (x3 - 128))
      :: utf8_decode rest.
Proof.
  intros H0 H1 H2 H3 Hlo Hhi. rewrite utf8_decode_cons. cbv zeta.
  unfold isCont. rewrite !bz_zb by lia.
  destruct (Z.eqb_spec x0 240), (Z.eqb_spec x0 244); try lia;
    zcmp; reflexivity.
Qed.

Lemma utf8_decode_encodeRune r rest :
  ValidRune r = true ->
  utf8_decode (encodeRune r ++ rest) = r :: utf8_decode rest.
Proof.
  unfold ValidRune. intros Hv. btop Hv.
  assert (Hr : 0 <= r) by lia.
  destruct (rune_digits r Hr)
    as (d0 & d1 & d2 & d3 & Er & B0 & B1 & B2 & B3 & E0 & E1 & E2 & E3 & E4 & E5).
  unfold encodeRune. rewrite E4, E2, E0, E1, E3, E5.
  destruct (Z.leb_spec 0 r); [|exfalso; lia].
  destruct (Z.leb_spec r 127); cbn [andb].
  { cbn [app]. apply utf8_decode_1. lia. }
  destruct (Z.leb_spec 128 r); [|exfalso; lia].
  destruct (Z.leb_spec r 2047); cbn [andb].
  { cbn [app]. rewrite utf8_decode_2 by lia. f_equal. lia. }
  destruct (Z.ltb_spec r 0); [exfalso; lia|].
  destruct (Z.ltb_spec 1114111 r); [exfalso; lia|].
  destruct (Z.leb_spec 55296 r), (Z.leb_spec r 57343); cbn [andb orb];
    try (exfalso; lia).
  - destruct (Z.leb_spec r 65535); cbn [app].
    + rewrite utf8_decode_3 by lia. f_equal. lia.
    + rewrite utf8_decode_4 by lia. f_equal. lia.
  - destruct (Z.leb_spec r 65535); [|exfalso; lia]. cbn [app].
    rewrite utf8_decode_3 by lia. f_equal. lia.
Qed.

Lemma utf8_decode_encode s :
  forallb ValidRune s = true -> utf8_decode (utf8_encode s) = s.
Proof.
  unfold utf8_encode. induction s as [|r s IH]; [reflexivity|].
  cbn [forallb flat_map]. intros H. apply andb_true_iff in H.
  destruct H as [Hr Hs]. rewrite utf8_decode_encodeRune by exact Hr.
  rewrite IH by exact Hs. reflexivity.
Qed.

(* ================================================================== *)
(** ** The fuel of [Decode] is enough *)

Ltac len := repeat (progress (rewrite ?length_app; cbn [length])).

Section Lengths.
Context {U : Unicode} {F : Strconv}.

Lemma length_textSeparated {A} (tx : A -> str) (sz : A -> nat) xs :
  Forall (fun x => (sz x <= length (tx x))%nat) xs ->
  forall first,
    (list_sum (List.map sz xs) <= length (textSeparated tx first xs))%nat.
Proof.
  induction 1 as [|x xs Hx _ IH]; intros first; [cbn; lia|].
  cbn [List.map textSeparated].
  change (list_sum (sz x :: List.map sz xs))
    with (sz x + list_sum (List.map sz xs))%nat.
  specialize (IH false). len. lia.
Qed.

Lemma length_flat_map {A} (tx : A -> str) (sz : A -> nat) xs :
  Forall (fun x => (sz x <= length (tx x))%nat) xs ->
  (list_sum (List.map sz xs) <= length (flat_map tx xs))%nat.
Proof.
  induction 1 as [|x xs Hx _ IH]; [cbn; lia|].
  cbn [List.map flat_map].
  change (list_sum (sz x :: List.map sz xs))
    with (sz x + list_sum (List.map sz xs))%nat.
  len. lia.
Qed.

Lemma numberText_length f : numberText f -> (1 <= length (FormatFloat f))%nat.
Proof.
  unfold numberText. cbv zeta. intros [H _].
  destruct (FormatFloat f); [discriminate|cbn; lia].
Qed.

Lemma isName_length s : isName s = true -> (1 <= length s)%nat.
Proof. destruct s; [discriminate|cbn; lia]. Qed.

Lemma vsize_length v : wfValue v -> (vsize v <= length (textValue v))%nat.
Proof.
  induction v as [f|s|s|vals IH] using value_nested_ind; intros Hwf;
    cbn [vsize textValue].
  - apply numberText_length. exact Hwf.
  - len. lia.
  - apply isName_length. exact Hwf.
  - apply wfValue_array in Hwf.
    assert (Hall : Forall (fun x => (vsize x <= length (textValue x))%nat) vals).
    { rewrite Forall_forall in *. intros x Hx. apply IH; [exact Hx|].
      apply Hwf. exact Hx. }
    pose proof (length_textSeparated textValue vsize vals Hall true).
    len. lia.
Qed.

Lemma nsize_length ind lvl nd :
  wfNode nd -> (nsize nd <= length (textNode ind lvl nd))%nat.
Proof.
  revert lvl. induction nd as [name isArray v|name base body IH]
    using node_nested_ind; intros lvl Hwf; cbn [nsize textNode].
  - destruct Hwf as [_ Hv]. pose proof (vsize_length v Hv).
    unfold textAssign. len. lia.
  - apply wfNode_class in Hwf. destruct Hwf as (_ & _ & Hbody).
    assert (Hall : Forall (fun x => (nsize x
                                     <= length (textNode ind (lvl + 1) x))%nat)
                     body).
    { rewrite Forall_forall in *. intros x Hx. apply IH; [exact Hx|].
      apply Hbody. exact Hx. }
    pose proof (length_flat_map (textNode ind (lvl + 1)) nsize body Hall).
    len. lia.
Qed.

Lemma nodesSize_length ind lvl nodes :
  Forall wfNode nodes ->
  (nodesSize nodes <= length (flat_map (textNode ind lvl) nodes))%nat.
Proof.
  intros Hwf. apply length_flat_map. rewrite Forall_forall in *.
  intros x Hx. apply nsize_length. apply Hwf. exact Hx.
Qed.

Lemma namedSize_length indent ind lvl name fs :
  Forall numberText fs ->
  (namedSize fs <= length (textNamedArray indent ind lvl name fs))%nat.
Proof.
  intros Hfs. unfold namedSize, textNamedArray.
  destruct fs as [|f fs']; [cbn; lia|].
  remember (f :: fs') as fs eqn:Hf.
  assert (Hall : Forall (fun x => ((fun _ => 1%nat) x
                                   <= length (FormatFloat x))%nat) fs).
  { rewrite Forall_forall in *. intros x Hx. apply numberText_length.
    apply Hfs. exact Hx. }
  pose proof (length_textSeparated FormatFloat (fun _ => 1%nat) fs Hall true)
    as Hl.
  assert (Hone : list_sum (List.map (fun _ : float64 => 1%nat) fs) = length fs).
  { clear. induction fs as [|x xs IHx]; [reflexivity|].
    cbn [List.map length].
    change (list_sum (1%nat :: List.map (fun _ : float64 => 1%nat) xs))
      with (S (list_sum (List.map (fun _ : float64 => 1%nat) xs))).
    rewrite IHx. reflexivity. }
  rewrite Hone in Hl. unfold textFloats. len. lia.
Qed.

Lemma optUVsize_length ind lvl o :
  wfOptUV o -> (optUVsize o <= length (textOptUV ind lvl o))%nat.
Proof.
  destruct o as [uv|]; [|cbn; lia]. intros (Ha & Hu & Hd & Hp).
  cbn [optUVsize textOptUV]. unfold uvsize, textUVTransform.
  pose proof (namedSize_length true ind (lvl + 1) (lit "aside") _ Ha).
  pose proof (namedSize_length true ind (lvl + 1) (lit "up") _ Hu).
  pose proof (namedSize_length true ind (lvl + 1) (lit "dir") _ Hd).
  pose proof (namedSize_length true ind (lvl + 1) (lit "pos") _ Hp).
  len. lia.
Qed.

Lemma fieldSize_length indent ind lvl name s :
  (fieldSize s <= length (textField indent ind lvl name s))%nat.
Proof.
  unfold fieldSize, textField. destruct (isEmpty s); [cbn; lia|]. len. lia.
Qed.

Lemma stageSize_length ind lvl st :
  wfStage st -> (S (stageSize st) <= length (textStage ind lvl st))%nat.
Proof.
  intros (_ & _ & _ & _ & _ & Huv & Hex & _). unfold stageSize, textStage.
  pose proof (fieldSize_length true ind (lvl + 1) (lit "texture")
                (Raw (Texture st))).
  pose proof (fieldSize_length true ind (lvl + 1) (lit "texGen")
                (StageTexGen st)).
  pose proof (nodesSize_length ind (lvl + 1) _ Hex).
  destruct (isEmpty (StageTexGen st)).
  - pose proof (fieldSize_length true ind (lvl + 1) (lit "uvSource")
                  (StageUVSource st)).
    pose proof (optUVsize_length ind (lvl + 1) _ Huv).
    len. lia.
  - cbn [fieldSize isEmpty optUVsize]. len. lia.
Qed.

Lemma texGenSize_length ind lvl t :
  wfTexGen t -> (S (texGenSize t) <= length (textTexGen ind lvl t))%nat.
Proof.
  intros (_ & _ & _ & _ & Huv & Hex & _). unfold texGenSize, textTexGen.
  pose proof (fieldSize_length true ind (lvl + 1) (lit "uvSource")
                (TexGenUVSource t)).
  pose proof (optUVsize_length ind (lvl + 1) _ Huv).
  pose proof (nodesSize_length ind (lvl + 1) _ Hex).
  len. lia.
Qed.

Lemma materialSize_length ind lvl m :
  wfMaterial m -> (materialSize m <= S (length (textMaterial ind lvl m)))%nat.
Proof.
  intros (Ha & Hd & Hfd & He & Hs & Hsp & _ & _ & Htg & Hst & Hex & _).
  unfold materialSize, textMaterial.
  pose proof (namedSize_length false ind lvl (lit "ambient") _ Ha).
  pose proof (namedSize_length false ind lvl (lit "diffuse") _ Hd).
  pose proof (namedSize_length false ind lvl (lit "forcedDiffuse") _ Hfd).
  pose proof (namedSize_length false ind lvl (lit "emmisive") _ He).
  pose proof (namedSize_length false ind lvl (lit "specular") _ Hs).
  pose proof (fieldSize_length false ind lvl (lit "PixelShaderID")
                (PixelShaderID m)).
  pose proof (fieldSize_length false ind lvl (lit "VertexShaderID")
                (VertexShaderID m)).
  pose proof (nodesSize_length ind lvl _ Hex).
  assert (Htgs : (list_sum (List.map (fun t => S (texGenSize t)) (TexGens m))
                  <= length (flat_map (textTexGen ind lvl) (TexGens m)))%nat).
  { apply length_flat_map. rewrite Forall_forall in *. intros x Hx.
    apply texGenSize_length. apply Htg. exact Hx. }
  assert (Hsts : (list_sum (List.map (fun s => S (stageSize s)) (Stages m))
                  <= length (flat_map (textStage ind lvl) (Stages m)))%nat).
  { apply length_flat_map. rewrite Forall_forall in *. intros x Hx.
    apply stageSize_length. apply Hst. exact Hx. }
  destruct (SpecularPower m); len; lia.
Qed.

End Lengths.

(* ================================================================== *)
(** ** Round trip *)

Section RoundTrip.
Context {U : Unicode} {F : Strconv}.

(** Text that [Decode] takes as it is: Unicode scalar values, no
    byte-order mark in front. *)
Definition plainText (s : str) : bool :=
  forallb ValidRune s && negb (hd 0 s =? 65279).

(** The options under which [Parse] reads back what [Format] writes:
    white-space indentation, keys matched without regard to case. *)
Definition roundTripOptions (fo : option FormatOptions)
  (po : option ParseOptions) : Prop :=
  forallb IsSpace (Indent (normalizeFormatOptions fo)) = true
  /\ DisableCaseInsensitive (normalizeParseOptions po) = false.

Lemma defaultOptions_roundTrip : roundTripOptions None None.
Proof. split; reflexivity. Qed.

(** Parsing what [Format] wrote gives the canonical form of the
    material. *)
Theorem Parse_Format m fo po :
  wfMaterial m -> roundTripOptions fo po ->
  plainText (FormatText m fo) = true ->
  isBinaryRVMAT (Format m fo) = false ->
  Parse (Format m fo) po = Ok (canonMaterial m).
Proof.
  intros Hwf [Hind Hci] Hplain Hbin. unfold Parse, Decode. rewrite Hbin.
  unfold plainText in Hplain. apply andb_true_iff in Hplain.
  destruct Hplain as [Hvalid Hbom]. apply negb_true_iff in Hbom.
  apply Z.eqb_neq in Hbom.
  unfold Format. rewrite (utf8_decode_encode _ Hvalid).
  rewrite FormatText_text in *.
  set (ind := Indent (normalizeFormatOptions fo)) in *.
  set (text := textMaterial ind 0 m) in *.
  assert (Hat : atInput text (newLexer text)).
  { destruct (newLexer_at text) as [Hat|(s & Hs & _)]; [exact Hat|].
    rewrite Hs in Hbom. cbn in Hbom. contradiction. }
  unfold newParser.
  destruct (Run_parseMaterial (normalizeParseOptions po) Hci m
              (S (S (length text))) ind 0 Hwf Hind) with
    (p := mkParser (newLexer text) None) as (p' & Hrun & _).
  - pose proof (materialSize_length ind 0 m Hwf). fold text in H. lia.
  - apply Starts_at. exact Hat.
  - rewrite Hrun. reflexivity.
Qed.

End RoundTrip.

(* ================================================================== *)
(** ** Round trip, unknown fields and canonical stability *)







Section RoundTripClaims.
Context {U : Unicode} {F : Strconv}.

(** A stage the parser reads back as it is. *)
Definition stageCanonical (st : Stage) : Prop := canonStage st = st.

Lemma canonMaterial_id m :
  Forall stageCanonical (Stages m) -> canonMaterial m = m.
Proof.
  intros Hall. unfold canonMaterial.
  assert (Hmap : List.map canonStage (Stages m) = Stages m).
  { induction Hall as [|st sts Hst _ IH]; [reflexivity|].
    cbn [List.map]. rewrite Hst, IH. reflexivity. }
  rewrite Hmap. destruct m; reflexivity.
Qed.

Lemma canonMaterial_fixed m :
  canonMaterial m = m -> Forall stageCanonical (Stages m).
Proof.
  intros Heq. apply (f_equal Stages) in Heq. cbn [canonMaterial Stages] in Heq.
  revert Heq. generalize (Stages m) as sts.
  induction sts as [|st sts IH]; intros Heq; constructor.
  - cbn [List.map] in Heq. injection Heq as Hst _. exact Hst.
  - apply IH. cbn [List.map] in Heq. injection Heq as _ Hsts. exact Hsts.
Qed.

(** A stage whose texture text [ParseTextureRef] leaves as it is. *)
Definition textureNormal (st : Stage) : Prop :=
  Raw (ParseTextureRef (Raw (Texture st))) = Raw (Texture st).

Lemma textStage_canon ind lvl st :
  textureNormal st -> textStage ind lvl (canonStage st) = textStage ind lvl st.
Proof.
  unfold textureNormal, textStage, canonStage. intros Hraw.
  cbn [StageName Texture StageUVSource StageTexGen StageUVTransform
       StageExtras].
  assert (Hr : Raw (if isEmpty (Raw (Texture st)) then TextureRef0
                    else ParseTextureRef (Raw (Texture st)))
               = Raw (Texture st)).
  { destruct (isEmpty (Raw (Texture st))) eqn:He; [|exact Hraw].
    apply isEmpty_nil in He. rewrite He. reflexivity. }
  rewrite Hr. destruct (isEmpty (StageTexGen st)); reflexivity.
Qed.

Lemma textMaterial_canon ind lvl m :
  Forall textureNormal (Stages m) ->
  textMaterial ind lvl (canonMaterial m) = textMaterial ind lvl m.
Proof.
  intros Hall. unfold textMaterial, canonMaterial.
  cbn [Ambient Diffuse ForcedDiffuse Emmisive Specular SpecularPower
       PixelShaderID VertexShaderID Stages TexGens Extras].
  assert (Hst : flat_map (textStage ind lvl) (List.map canonStage (Stages m))
                = flat_map (textStage ind lvl) (Stages m)).
  { induction Hall as [|st sts Hst _ IH]; [reflexivity|].
    cbn [List.map flat_map]. rewrite (textStage_canon _ _ _ Hst), IH.
    reflexivity. }
  rewrite Hst. reflexivity.
Qed.

(** C1, as the code has it. For a material whose names, strings and
    numbers the lexer reads back from the writer's text, parsing what
    [Format] wrote succeeds and returns the canonical form of the
    material: every stage with its texture parsed from the raw text that
    was written and, when its [texGen] is set, without [uvSource] and
    without [uvTransform], which the writer leaves out.  The result is the
    material itself exactly when every stage is canonical; a stage that
    has both a [texGen] and a [uvTransform] is not. *)
Theorem round_trip m fo po :
  wfMaterial m -> roundTripOptions fo po ->
  plainText (FormatText m fo) = true ->
  isBinaryRVMAT (Format m fo) = false ->
  Parse (Format m fo) po = Ok (canonMaterial m)
  /\ (Parse (Format m fo) po = Ok m <-> Forall stageCanonical (Stages m))
  /\ (forall st, In st (Stages m) -> isEmpty (StageTexGen st) = false ->
        StageUVSource (canonStage st) = []
        /\ StageUVTransform (canonStage st) = None).
Proof.
  intros Hwf Hopt Hplain Hbin.
  pose proof (Parse_Format m fo po Hwf Hopt Hplain Hbin) as Hp.
  split; [exact Hp|]. split.
  - rewrite Hp. split.
    + intros Heq. injection Heq as Heq. apply canonMaterial_fixed. exact Heq.
    + intros Hcanon. rewrite (canonMaterial_id m Hcanon). reflexivity.
  - intros st _ Htg. unfold canonStage. cbn [StageUVSource StageUVTransform].
    rewrite Htg. split; reflexivity.
Qed.

(** C4, as the code has it. For a material whose names, strings and
    numbers the lexer reads back from the writer's text and whose texture
    texts [ParseTextureRef] leaves as they are, parsing what [Format]
    wrote succeeds, and formatting the result gives the same bytes. *)
Theorem format_idempotent m fo po :
  wfMaterial m -> roundTripOptions fo po ->
  plainText (FormatText m fo) = true ->
  isBinaryRVMAT (Format m fo) = false ->
  Forall textureNormal (Stages m) ->
  exists m', Parse (Format m fo) po = Ok m' /\ Format m' fo = Format m fo.
Proof.
  intros Hwf Hopt Hplain Hbin Htex. exists (canonMaterial m).
  split; [exact (Parse_Format m fo po Hwf Hopt Hplain Hbin)|].
  unfold Format. rewrite !FormatText_text.
  rewrite (textMaterial_canon _ _ _ Htex). reflexivity.
Qed.


End RoundTripClaims.

(** *** Examples *)

Definition decimal (m : Z) (k : nat) : @float64 Ref.decStrconv :=
  Ref.mkDec m k.

(** A material with colours, shaders, a texture generator, two stages and
    generic nodes, among them the assignment of [Sun] to [mainLight] and a
    class with a nested class. *)
Definition sample : @Material Ref.decStrconv :=
  {| Ambient := [decimal 1 0; decimal 5 1; decimal 0 0; decimal 1 0];
     Diffuse := [];
     ForcedDiffuse := [decimal (-25) 2];
     Emmisive := [];
     Specular := [];
     SpecularPower := Some (decimal 40 0);
     PixelShaderID := lit "Super";
     VertexShaderID := lit "Super";
     Stages :=
       [ {| StageName := lit "Stage1";
            Texture := ParseTextureRef (U := Ref.asciiUnicode)
                         (lit "a\b_nohq.paa");
            StageUVSource := [];
            StageTexGen := lit "0";
            StageUVTransform := None;
            StageExtras := [] |};
         {| StageName := lit "stage2";
            Texture := ParseTextureRef (U := Ref.asciiUnicode)
                         (lit "#(argb,8,8,3)color(0.5,0.5,0.5,1,DT)");
            StageUVSource := lit "tex";
            StageTexGen := [];
            StageUVTransform :=
              Some {| Aside := [decimal 1 0; decimal 0 0; decimal 0 0];
                      Up := [decimal 0 0; decimal 1 0; decimal 0 0];
                      Dir := [];
                      Pos := [decimal 0 0] |};
            StageExtras :=
              [NAssign (lit "filter") false (VIdent (lit "Anizotropic"))] |} ];
     TexGens :=
       [ {| TexGenName := lit "TexGen0";
            TexGenBase := lit "Base";
            TexGenUVSource := lit "tex";
            TexGenUVTransform :=
              Some {| Aside := []; Up := []; Dir := []; Pos := [] |};
            TexGenExtras :=
              [NClass (lit "inner") [] []] |} ];
     Extras :=
       [ NAssign (lit "mainLight") false (VString (lit "Sun"));
         NAssign (lit "values") true
           (VArray [VNumber (decimal 1 0);
                    VArray [VString (lit "a"); VIdent (lit "b")];
                    VArray []]);
         NClass (lit "Custom") (lit "Parent")
           [ NAssign (lit "x") false (VNumber (decimal 15 1));
             NClass (lit "Nested") [] [] ] ] |}.

Ltac wf_solve :=
  repeat first
    [ exact I
    | match goal with
      | |- _ = true => vm_compute; reflexivity
      | |- _ = _ => reflexivity
      | |- stageCanonical _ => unfold stageCanonical
      | |- textureNormal _ => unfold textureNormal
      end
    | split
    | constructor ].

Lemma sample_wf : wfMaterial (U := Ref.asciiUnicode) sample.
Proof. wf_solve. Defined.

Lemma sample_plain : plainText (FormatText sample None) = true.
Proof. vm_compute. reflexivity. Defined.

Lemma sample_text : isBinaryRVMAT (Format sample None) = false.
Proof. vm_compute. reflexivity. Defined.

(** An accepted document whose stage has a [texGen] and a
    [uvTransform], and what [Parse] makes of it. *)
Definition texGenExample : list byte :=
  src "class Stage1 { texGen='0'; class uvTransform {}; };".

Definition texGenParsed : @Material Ref.decStrconv :=
  mAddStage Material0
    (stSetUVTransform (stSetTexGen (newStage (lit "Stage1")) (lit "0"))
       (Some UVTransform0)).

Lemma texGenExample_parsed :
  Parse (U := Ref.asciiUnicode) (F := Ref.decStrconv) texGenExample None
  = Ok texGenParsed.
Proof. reflexivity. Qed.

Lemma texGenParsed_again :
  Parse (U := Ref.asciiUnicode) (F := Ref.decStrconv)
    (Format texGenParsed None) None
  = Ok (mAddStage Material0 (stSetTexGen (newStage (lit "Stage1")) (lit "0"))).
Proof. reflexivity. Qed.

(** An accepted document whose string holds a double quote. *)
Definition quoteExample : list byte := src "PixelShaderID='a''b';".

Definition quoteParsed : @Material Ref.decStrconv :=
  mSetPixelShaderID Material0 (lit "a" ++ [34] ++ lit "b").

Lemma quoteExample_parsed :
  Parse (U := Ref.asciiUnicode) (F := Ref.decStrconv) quoteExample None
  = Ok quoteParsed.
Proof. reflexivity. Qed.

Lemma quoteParsed_again :
  Parse (U := Ref.asciiUnicode) (F := Ref.decStrconv)
    (Format quoteParsed None) None
  = Err (ErrParse 1 18 (lit "expected ;")).
Proof. reflexivity. Qed.




(** The round trip of [sample]. *)
Lemma round_trip_witness :
  Parse (U := Ref.asciiUnicode) (F := Ref.decStrconv)
    (Format sample None) None = Ok sample.
Proof.
  apply (proj2 (proj1 (proj2 (round_trip (U := Ref.asciiUnicode) sample None
                                None sample_wf defaultOptions_roundTrip
                                sample_plain sample_text)))).
  wf_solve.
Defined.

(** C1 as stated fails on the parse result of an accepted document whose
    stage has a [texGen] and a [uvTransform]: the writer leaves the
    [uvTransform] out, and parsing what it wrote gives another
    material. *)
Lemma round_trip_counterexample :
  ~ (forall (U : Unicode) (F : Strconv) (input : list byte) (m : Material),
       Parse input None = Ok m -> Parse (Format m None) None = Ok m).
Proof.
  intros Hall.
  specialize (Hall Ref.asciiUnicode Ref.decStrconv texGenExample texGenParsed
                texGenExample_parsed).
  rewrite texGenParsed_again in Hall.
  apply (f_equal (fun r => match r with
                           | Ok m => List.map StageUVTransform (Stages m)
                           | Err _ => []
                           end)) in Hall.
  discriminate Hall.
Qed.

(** Canonical stability of [sample]. *)
Lemma format_idempotent_witness :
  exists m',
    Parse (U := Ref.asciiUnicode) (F := Ref.decStrconv)
      (Format sample None) None = Ok m'
    /\ Format m' None = Format sample None.
Proof.
  apply (format_idempotent (U := Ref.asciiUnicode) sample None None
           sample_wf defaultOptions_roundTrip sample_plain sample_text).
  wf_solve.
Defined.

(** C4 as stated fails on the parse result of an accepted document whose
    string holds a double quote: the writer does not escape it, and what
    it wrote is not accepted. *)
Lemma format_idempotent_counterexample :
  ~ (forall (U : Unicode) (F : Strconv) (input : list byte) (m : Material),
       Parse input None = Ok m ->
       exists m', Parse (Format m None) None = Ok m'
                  /\ Format m' None = Format m None).
Proof.
  intros Hall.
  destruct (Hall Ref.asciiUnicode Ref.decStrconv quoteExample quoteParsed
              quoteExample_parsed) as (m' & Hm' & _).
  rewrite quoteParsed_again in Hm'. discriminate Hm'.
Qed.



(* ================================================================== *)
(** ** Texture references of a parse result *)

Section TextureNormal.
Context {U : Unicode} {F : Strconv}.

Lemma dropWhile_split f s :
  exists pre, s = pre ++ dropWhile f s /\ forallb f pre = true.
Proof.
  induction s as [|c s (pre & Hs & Hpre)]; [exists []; auto|].
  cbn [dropWhile]. destruct (f c) eqn:Hc.
  - exists (c :: pre). cbn. rewrite Hc, Hpre, <- Hs. auto.
  - exists []. auto.
Qed.

Lemma dropWhile_head f s c t : dropWhile f s = c :: t -> f c = false.
Proof.
  induction s as [|x s IH]; [discriminate|]. cbn [dropWhile].
  destruct (f x) eqn:Hx; [exact IH|]. intros Heq. inversion Heq; subst.
  exact Hx.
Qed.

Lemma dropWhile_fixed f s :
  match s with [] => True | c :: _ => f c = false end -> dropWhile f s = s.
Proof. destruct s as [|c s]; [reflexivity|]. cbn. intros ->. reflexivity. Qed.

Lemma TrimSpace_idem s : TrimSpace (TrimSpace s) = TrimSpace s.
Proof.
  unfold TrimSpace.
  set (a := dropWhile IsSpace s).
  set (b := dropWhile IsSpace (rev a)).
  assert (Hb : dropWhile IsSpace b = b).
  { apply dropWhile_fixed. destruct b as [|c t] eqn:Eb; [exact I|].
    exact (dropWhile_head _ _ _ _ Eb). }
  assert (Ht : dropWhile IsSpace (rev b) = rev b).
  { apply dropWhile_fixed.
    destruct (dropWhile_split IsSpace (rev a)) as (pre & Hsplit & _).
    fold b in Hsplit. apply (f_equal (@rev Z)) in Hsplit.
    rewrite rev_involutive, rev_app_distr in Hsplit.
    destruct (rev b) as [|c t] eqn:Er; [exact I|].
    cbn [app] in Hsplit. unfold a in Hsplit.
    exact (dropWhile_head _ _ _ _ Hsplit). }
  rewrite Ht, rev_involutive, Hb. reflexivity.
Qed.

Lemma strSafe_no_quote s : strSafe s = true -> ~ In 34 s.
Proof.
  induction s as [|c s IH]; [intros _ []|]. cbn [strSafe].
  intros H. apply andb_true_iff in H. destruct H as [H Hs].
  apply andb_true_iff in H. destruct H as [Hc _].
  apply negb_true_iff, Z.eqb_neq in Hc.
  intros [Heq|Hin]; [congruence|exact (IH Hs Hin)].
Qed.

Lemma HasPrefix_last_In p : forall s q,
  HasPrefix s (p ++ [q]) = true -> In q s.
Proof.
  induction p as [|x p IH]; intros [|c s] q H; cbn in H; try discriminate.
  - apply andb_true_iff in H. destruct H as [H _].
    apply Z.eqb_eq in H. left. exact H.
  - apply andb_true_iff in H. destruct H as [_ H]. right. exact (IH _ _ H).
Qed.

Lemma ToLowerRune_quote c : ToLowerRune c = 34 -> c = 34.
Proof.
  unfold ToLowerRune, asciiLower.
  destruct (Z.ltb_spec c 128) as [Hlt|Hge].
  - destruct (Z.leb_spec 65 c), (Z.leb_spec c 90); cbn; lia.
  - intros H. destruct (LowerNotQuote c Hge H).
Qed.

Lemma no_quote_prefix s :
  ~ In 34 s -> HasPrefix (ToLower s) (lit "texture=" ++ [34]) = false.
Proof.
  intros Hq. destruct (HasPrefix _ _) eqn:H; [|reflexivity]. exfalso.
  apply HasPrefix_last_In in H. unfold ToLower in H. apply in_map_iff in H.
  destruct H as (c & Hc & Hin). apply ToLowerRune_quote in Hc. subst c.
  exact (Hq Hin).
Qed.

Lemma no_quote_suffix s : ~ In 34 s -> TrimSuffix s [34; 59] = s.
Proof.
  intros Hq. unfold TrimSuffix, HasSuffix.
  destruct (HasPrefix (rev s) (rev [34; 59])) eqn:H; [|reflexivity]. exfalso.
  apply (HasPrefix_last_In [59]) in H. apply in_rev in H. exact (Hq H).
Qed.

Lemma NormalizeTextureRaw_trimmed s :
  TrimSpace (NormalizeTextureRaw s) = NormalizeTextureRaw s.
Proof.
  unfold NormalizeTextureRaw. cbv zeta.
  destruct (HasPrefix _ _); apply TrimSpace_idem.
Qed.

(** Texture text without a double quote that [NormalizeTextureRaw]
    returned is left as it is by a second pass. *)
Lemma NormalizeTextureRaw_idem s :
  ~ In 34 (NormalizeTextureRaw s) ->
  NormalizeTextureRaw (NormalizeTextureRaw s) = NormalizeTextureRaw s.
Proof.
  intros Hq. pose proof (NormalizeTextureRaw_trimmed s) as Ht.
  revert Hq Ht. generalize (NormalizeTextureRaw s) as r. intros r Hq Ht.
  unfold NormalizeTextureRaw. cbv zeta.
  rewrite Ht, (no_quote_prefix r Hq), (no_quote_suffix r Hq). exact Ht.
Qed.

Lemma Raw_ParseTextureRef s : Raw (ParseTextureRef s) = NormalizeTextureRaw s.
Proof.
  unfold ParseTextureRef. cbv zeta.
  destruct (HasPrefix _ _); [destruct (parseProcedural _)|]; reflexivity.
Qed.

Lemma ParseTextureRef_normal s :
  ParseTextureRef (NormalizeTextureRaw s) = ParseTextureRef s ->
  ParseTextureRef (Raw (ParseTextureRef s)) = ParseTextureRef s.
Proof. rewrite Raw_ParseTextureRef. exact (fun H => H). Qed.

Lemma ParseTextureRef_idem s :
  ~ In 34 (Raw (ParseTextureRef s)) ->
  ParseTextureRef (Raw (ParseTextureRef s)) = ParseTextureRef s.
Proof.
  rewrite Raw_ParseTextureRef. intros Hq.
  unfold ParseTextureRef at 1. cbv zeta.
  rewrite (NormalizeTextureRaw_idem s Hq). reflexivity.
Qed.

(** The texture of a stage the parser built: never assigned, or what
    [ParseTextureRef] returned. *)
Definition texParsed (t : TextureRef) : Prop :=
  t = TextureRef0 \/ exists s, t = ParseTextureRef s.

Lemma texParsed_normal t :
  texParsed t -> ~ In 34 (Raw t) -> Raw (ParseTextureRef (Raw t)) = Raw t.
Proof.
  intros [->|(s & ->)] Hq.
  - reflexivity.
  - rewrite (ParseTextureRef_idem s Hq). reflexivity.
Qed.

Lemma texParsed_canon t :
  texParsed t -> ~ In 34 (Raw t) -> isEmpty (Raw t) = false ->
  ParseTextureRef (Raw t) = t.
Proof.
  intros [->|(s & ->)] Hq He.
  - discriminate He.
  - exact (ParseTextureRef_idem s Hq).
Qed.

End TextureNormal.

(* ================================================================== *)
(** ** What the parser returns *)

Section Shape.
Context {U : Unicode} {F : Strconv}.

(** The names in a value or node are identifiers. *)
Fixpoint shValue (v : value) : Prop :=
  match v with
  | VIdent s => isName s = true
  | VArray vals =>
      (fix all (l : list value) : Prop :=
         match l with
         | [] => True
         | x :: l' => shValue x /\ all l'
         end) vals
  | _ => True
  end.

Fixpoint shNode (n : node) : Prop :=
  match n with
  | NAssign name _ val => isName name = true /\ shValue val
  | NClass name base body =>
      isName name = true /\ isEmpty base || isName base = true
      /\ (fix all (l : list node) : Prop :=
            match l with
            | [] => True
            | x :: l' => shNode x /\ all l'
            end) body
  end.

(** The strings and the numbers in a value or node are ones the writer
    prints so that the lexer reads them back. *)
Fixpoint prValue (v : value) : Prop :=
  match v with
  | VNumber f => numberText f
  | VString s => strSafe s = true
  | VIdent _ => True
  | VArray vals =>
      (fix all (l : list value) : Prop :=
         match l with
         | [] => True
         | x :: l' => prValue x /\ all l'
         end) vals
  end.

Fixpoint prNode (n : node) : Prop :=
  match n with
  | NAssign _ _ val => prValue val
  | NClass _ _ body =>
      (fix all (l : list node) : Prop :=
         match l with
         | [] => True
         | x :: l' => prNode x /\ all l'
         end) body
  end.

Lemma shValue_array vals : shValue (VArray vals) <-> Forall shValue vals.
Proof.
  induction vals as [|v vals IH].
  - split; [constructor|exact (fun _ => I)].
  - split.
    + intros [Hv Hvs]. constructor; [exact Hv|]. apply IH. exact Hvs.
    + intros Hall. inversion Hall as [|? ? Hv Hvs]; subst.
      split; [exact Hv|]. apply IH. exact Hvs.
Qed.

Lemma prValue_array vals : prValue (VArray vals) <-> Forall prValue vals.
Proof.
  induction vals as [|v vals IH].
  - split; [constructor|exact (fun _ => I)].
  - split.
    + intros [Hv Hvs]. constructor; [exact Hv|]. apply IH. exact Hvs.
    + intros Hall. inversion Hall as [|? ? Hv Hvs]; subst.
      split; [exact Hv|]. apply IH. exact Hvs.
Qed.

Lemma shNode_class name base body :
  shNode (NClass name base body) <->
  isName name = true /\ isEmpty base || isName base = true
  /\ Forall shNode body.
Proof.
  cbn [shNode].
  assert (Hb : (fix all (l : list node) : Prop :=
                  match l with
                  | [] => True
                  | x :: l' => shNode x /\ all l'
                  end) body <-> Forall shNode body).
  { induction body as [|n body IH].
    - split; [constructor|exact (fun _ => I)].
    - split.
      + intros [Hn Hb]. constructor; [exact Hn|]. apply IH. exact Hb.
      + intros Hall. inversion Hall as [|? ? Hn Hb]; subst.
        split; [exact Hn|]. apply IH. exact Hb. }
  rewrite Hb. reflexivity.
Qed.

Lemma prNode_class name base body :
  prNode (NClass name base body) <-> Forall prNode body.
Proof.
  cbn [prNode]. induction body as [|n body IH].
  - split; [constructor|exact (fun _ => I)].
  - split.
    + intros [Hn Hb]. constructor; [exact Hn|]. apply IH. exact Hb.
    + intros Hall. inversion Hall as [|? ? Hn Hb]; subst.
      split; [exact Hn|]. apply IH. exact Hb.
Qed.

Lemma wfValue_parts v : shValue v -> prValue v -> wfValue v.
Proof.
  induction v as [f|s|s|vals IH] using value_nested_ind; intros Hs Hp.
  - exact Hp.
  - exact Hp.
  - exact Hs.
  - apply wfValue_array. apply shValue_array in Hs. apply prValue_array in Hp.
    rewrite Forall_forall in *. intros x Hx. apply IH; auto.
Qed.

Lemma wfNode_parts n : shNode n -> prNode n -> wfNode n.
Proof.
  induction n as [name isArray v|name base body IH] using node_nested_ind;
    intros Hs Hp.
  - destruct Hs as [Hname Hv]. split; [exact Hname|].
    apply wfValue_parts; assumption.
  - apply wfNode_class. apply shNode_class in Hs. apply prNode_class in Hp.
    destruct Hs as (Hname & Hbase & Hbody). split; [exact Hname|].
    split; [exact Hbase|].
    rewrite Forall_forall in *. intros x Hx. apply IH; auto.
Qed.

Lemma wfNodes_parts ns : Forall shNode ns -> Forall prNode ns -> Forall wfNode ns.
Proof.
  intros Hs Hp. rewrite Forall_forall in *. intros x Hx.
  apply wfNode_parts; auto.
Qed.

(** The shape of a stage, of a texture generator and of a material: the
    names, the texture as the parser sets it, and the extras that are
    none of the recognised fields. *)
Definition shStage (st : Stage) : Prop :=
  isName (StageName st) = true
  /\ hasPrefixKey (StageName st) (lit "stage") true = true
  /\ texParsed (Texture st)
  /\ Forall shNode (StageExtras st)
  /\ Forall (fun n => stageExtra n = true) (StageExtras st).

Definition shTexGen (t : TexGen) : Prop :=
  isName (TexGenName t) = true
  /\ hasPrefixKey (TexGenName t) (lit "texgen") true = true
  /\ isEmpty (TexGenBase t) || isName (TexGenBase t) = true
  /\ Forall shNode (TexGenExtras t)
  /\ Forall (fun n => texGenExtra n = true) (TexGenExtras t).

Definition shMaterial (m : Material) : Prop :=
  Forall shTexGen (TexGens m) /\ Forall shStage (Stages m)
  /\ Forall shNode (Extras m)
  /\ Forall (fun n => topExtra n = true) (Extras m).

(** The strings and numbers of a stage, of a texture generator and of a
    material. *)
Definition prStage (st : Stage) : Prop :=
  strSafe (Raw (Texture st)) = true
  /\ strSafe (StageUVSource st) = true
  /\ strSafe (StageTexGen st) = true
  /\ wfOptUV (StageUVTransform st)
  /\ Forall prNode (StageExtras st).

Definition prTexGen (t : TexGen) : Prop :=
  strSafe (TexGenUVSource t) = true
  /\ wfOptUV (TexGenUVTransform t)
  /\ Forall prNode (TexGenExtras t).

Definition printable (m : Material) : Prop :=
  Forall numberText (Ambient m) /\ Forall numberText (Diffuse m)
  /\ Forall numberText (ForcedDiffuse m) /\ Forall numberText (Emmisive m)
  /\ Forall numberText (Specular m)
  /\ match SpecularPower m with Some v => numberText v | None => True end
  /\ strSafe (PixelShaderID m) = true /\ strSafe (VertexShaderID m) = true
  /\ Forall prTexGen (TexGens m) /\ Forall prStage (Stages m)
  /\ Forall prNode (Extras m).

Lemma wfMaterial_parts m : shMaterial m -> printable m -> wfMaterial m.
Proof.
  intros (Stg & Sst & Sex & Sexx)
    (Ha & Hd & Hfd & He & Hs & Hsp & Hpx & Hvx & Ptg & Pst & Pex).
  repeat (split; [assumption|]).
  split; [|split; [|split; [|exact Sexx]]].
  - rewrite Forall_forall in *. intros t Ht.
    destruct (Stg t Ht) as (H1 & H2 & H3 & H4 & H5).
    destruct (Ptg t Ht) as (P1 & P2 & P3).
    repeat (split; [assumption|]).
    split; [apply wfNodes_parts; assumption|exact H5].
  - rewrite Forall_forall in *. intros st Hst.
    destruct (Sst st Hst) as (H1 & H2 & _ & H3 & H4).
    destruct (Pst st Hst) as (P1 & P2 & P3 & P4 & P5).
    repeat (split; [assumption|]).
    split; [apply wfNodes_parts; assumption|exact H4].
  - apply wfNodes_parts; assumption.
Qed.

End Shape.

(* ================================================================== *)
(** ** The shape of a parse result *)

Section ParseShape.
Context {U : Unicode} {F : Strconv}.
Variable opt : ParseOptions.

(** An identifier token holds a name. *)
Definition tokGood (t : token) : Prop :=
  Type_ t = tokIdent -> isName (Lit t) = true.

Definition goodP (p : parser) : Prop :=
  match pbuf p with
  | Some t => tokGood t
  | None => True
  end.

(** [Inv P c]: what the call [c] returns satisfies [P]. *)
Definition Inv {A} (P : A -> Prop) (c : M A) : Prop :=
  forall p a p', goodP p -> c p = (Ok a, p') -> P a /\ goodP p'.

Lemma Inv_ret {A} (P : A -> Prop) a : P a -> Inv P (ret a).
Proof. intros Ha p a' p' Hp Hc. inversion Hc; subst. auto. Qed.

Lemma Inv_fail {A} (P : A -> Prop) e : Inv P (fail e).
Proof. intros p a p' _ Hc. discriminate Hc. Qed.

Lemma Inv_bind {A B} (P : A -> Prop) (Q : B -> Prop) (c : M A) (k : A -> M B) :
  Inv P c -> (forall a, P a -> Inv Q (k a)) -> Inv Q (bind c k).
Proof.
  intros Hc Hk p b p' Hp Hrun. unfold bind in Hrun.
  destruct (c p) as [[a|e] p1] eqn:Hcp; [|discriminate].
  destruct (Hc p a p1 Hp Hcp) as [Ha Hp1].
  exact (Hk a Ha p1 b p' Hp1 Hrun).
Qed.

Lemma Inv_weaken {A} (P Q : A -> Prop) (c : M A) :
  Inv P c -> (forall a, P a -> Q a) -> Inv Q c.
Proof.
  intros Hc HPQ p a p' Hp Hrun. destruct (Hc p a p' Hp Hrun). auto.
Qed.

Lemma readWhile_all part n : forall l b s l',
  readWhile part n l b = (s, l') ->
  exists t, s = b ++ t /\ forallb part t = true.
Proof.
  induction n as [|n IH]; intros l b s l' H; cbn [readWhile] in H.
  - inversion H; subst. exists []. rewrite app_nil_r. auto.
  - destruct (part (lch l)) eqn:Hc.
    + destruct (leof (lread l)).
      * inversion H; subst. exists [lch l]. cbn. rewrite Hc. auto.
      * destruct (IH _ _ _ _ H) as (t & -> & Ht).
        exists (lch l :: t). rewrite <- app_assoc. cbn. rewrite Hc. auto.
    + inversion H; subst. exists []. rewrite app_nil_r. auto.
Qed.

Lemma readWhile_first part n l s l' :
  part (lch l) = true -> readWhile part (S n) l [] = (s, l') ->
  exists t, s = lch l :: t /\ forallb part t = true.
Proof.
  intros Hc H. cbn [readWhile] in H. rewrite Hc in H.
  destruct (leof (lread l)).
  - inversion H; subst. exists []. auto.
  - destruct (readWhile_all _ _ _ _ _ _ H) as (t & -> & Ht). exists t. auto.
Qed.

Lemma lnext_good l : tokGood (fst (fst (lnext opt l))).
Proof.
  unfold lnext. generalize (skipWhitespace opt l). intros l1.
  destruct (leof l1); [intro H; discriminate H|].
  repeat match goal with
         | |- context [if ?c =? ?k then _ else _] =>
             destruct (c =? k); [intro H; try discriminate H|]
         end.
  - destruct (readString l1) as [[s e] l']. discriminate H.
  - destruct (isIdentStart (lch l1)) eqn:Hs.
    + destruct (readIdent l1) as [s l'] eqn:Hr.
      destruct (EqualFold s (lit "class")) eqn:Hcl; [intro H; discriminate H|].
      intros _. cbn [fst Lit]. unfold readIdent, lfuel in Hr.
      assert (Hp : isIdentPart (lch l1) = true).
      { unfold isIdentStart in Hs. unfold isIdentPart.
        destruct (IsLetter (lch l1)); [reflexivity|].
        destruct (IsDigit (lch l1)); [reflexivity|]. exact Hs. }
      destruct (readWhile_first _ _ _ _ _ Hp Hr) as (t & -> & Ht).
      unfold isName. cbn [isIdentWord]. rewrite Hs, Ht, Hcl. reflexivity.
    + destruct (isNumberStart (lch l1)) eqn:Hn.
      * destruct (readNumberOrIdent l1) as [s l'] eqn:Hr.
        destruct (isValidNumber s) eqn:Hv; [intro H; discriminate H|].
        intros _. cbn [fst Lit]. unfold readNumberOrIdent, lfuel in Hr.
        assert (Hp : isWordPart (lch l1) = true).
        { unfold isNumberStart in Hn. unfold isWordPart, isIdentPart.
          destruct (IsDigit (lch l1)); [rewrite orb_true_r; reflexivity|].
          cbn in Hn. rewrite Hn. rewrite !orb_true_r. reflexivity. }
        destruct (readWhile_first _ _ _ _ _ Hp Hr) as (t & -> & Ht).
        unfold isName. cbn [isNumberWord]. rewrite Hn, Ht, Hv.
        rewrite orb_true_r. reflexivity.
      * intro H; discriminate H.
Qed.

Lemma nextRaw_good p t e p' :
  goodP p -> nextRaw opt p = ((t, e), p') -> tokGood t /\ goodP p'.
Proof.
  unfold nextRaw, goodP. intros Hp H.
  destruct (pbuf p) as [b|].
  - inversion H; subst. split; [exact Hp|exact I].
  - pose proof (lnext_good (pl p)) as Hg.
    destruct (lnext opt (pl p)) as [[t0 e0] l']. inversion H; subst.
    split; [exact Hg|exact I].
Qed.

Lemma peekRaw_good p t e p' :
  goodP p -> peekRaw opt p = ((t, e), p') -> tokGood t /\ goodP p'.
Proof.
  unfold peekRaw. intros Hp H.
  destruct (pbuf p) as [b|] eqn:Hb.
  - inversion H; subst. unfold goodP in *. rewrite Hb in *. auto.
  - pose proof (lnext_good (pl p)) as Hg.
    destruct (lnext opt (pl p)) as [[t0 e0] l'].
    destruct e0; inversion H; subst; split; try exact Hg; exact I.
Qed.

Lemma Inv_next : Inv tokGood (next opt).
Proof.
  intros p a p' Hp H. unfold next, lift in H.
  destruct (nextRaw opt p) as [[t e] p1] eqn:Hn.
  destruct (nextRaw_good _ _ _ _ Hp Hn).
  destruct e; inversion H; subst. auto.
Qed.

Lemma Inv_peek : Inv tokGood (peek opt).
Proof.
  intros p a p' Hp H. unfold peek, lift in H.
  destruct (peekRaw opt p) as [[t e] p1] eqn:Hn.
  destruct (peekRaw_good _ _ _ _ Hp Hn).
  destruct e; inversion H; subst. auto.
Qed.

Lemma Inv_peekAny : Inv tokGood (peekAny opt).
Proof.
  intros p a p' Hp H. unfold peekAny in H.
  destruct (peekRaw opt p) as [[t e] p1] eqn:Hn.
  destruct (peekRaw_good _ _ _ _ Hp Hn).
  inversion H; subst. auto.
Qed.

Lemma Inv_skip : Inv (fun _ => True) (skip opt).
Proof.
  intros p a p' Hp H. unfold skip in H.
  destruct (nextRaw opt p) as [[t e] p1] eqn:Hn.
  destruct (nextRaw_good _ _ _ _ Hp Hn).
  inversion H; subst. auto.
Qed.

Lemma Inv_expect tt : Inv (fun _ => True) (expect opt tt).
Proof.
  unfold expect. eapply Inv_bind; [apply Inv_next|]. intros tok _.
  destruct (negb _); [apply Inv_fail|apply Inv_ret; exact I].
Qed.

Lemma Inv_name : Inv (fun t => isName (Lit t) = true) (expect opt tokIdent).
Proof.
  unfold expect. eapply Inv_bind; [apply Inv_next|]. intros tok Hg.
  destruct (Type_ tok) eqn:Ht; cbn; try apply Inv_fail.
  apply Inv_ret. exact (Hg Ht).
Qed.

Lemma Inv_expectSemicolon : Inv (fun _ => True) (expectSemicolon opt).
Proof.
  unfold expectSemicolon. eapply Inv_bind; [apply Inv_expect|]. intros _ _.
  apply Inv_ret. exact I.
Qed.

(** One step of a proof of [Inv]: through a bind whose first call is one
    of the calls above, a result, a failure or a branch. *)
Ltac inv_step :=
  cbv beta in *;
  lazymatch goal with
  | |- Inv _ (ret _) => apply Inv_ret
  | |- Inv _ (fail _) => apply Inv_fail
  | |- Inv _ (bind (peek _) _) => eapply Inv_bind; [apply Inv_peek|intros ? ?]
  | |- Inv _ (bind (peekAny _) _) =>
      eapply Inv_bind; [apply Inv_peekAny|intros ? ?]
  | |- Inv _ (bind (next _) _) => eapply Inv_bind; [apply Inv_next|intros ? ?]
  | |- Inv _ (bind (skip _) _) => eapply Inv_bind; [apply Inv_skip|intros _ _]
  | |- Inv _ (bind (expect _ tokIdent) _) =>
      eapply Inv_bind; [apply Inv_name|intros ? ?]
  | |- Inv _ (bind (expect _ _) _) =>
      eapply Inv_bind; [apply Inv_expect|intros _ _]
  | |- Inv _ (bind (expectSemicolon _) _) =>
      eapply Inv_bind; [apply Inv_expectSemicolon|intros _ _]
  | |- Inv _ (if ?b then _ else _) => destruct b eqn:?
  | |- Inv _ (match ?x with _ => _ end) => destruct x eqn:?
  end.

Ltac inv_bind L := eapply Inv_bind; [apply L|intros ? ?; cbv beta in *].

Tactic Notation "inv_from" constr(L) "as" ident(x) ident(H) :=
  eapply Inv_bind; [apply L|intros x H; cbv beta in *].

Lemma Inv_parseArraySuffix : Inv (fun _ => True) (parseArraySuffix opt).
Proof. unfold parseArraySuffix. repeat inv_step; exact I. Qed.

Lemma Inv_parseBase :
  Inv (fun b => isEmpty b || isName b = true) (parseBase opt).
Proof.
  unfold parseBase. repeat inv_step.
  - match goal with H : isName _ = true |- _ => rewrite H end.
    apply orb_true_r.
  - reflexivity.
Qed.

Lemma Inv_parseNumberArrayLoop relaxed n : forall arr,
  Inv (fun _ => True) (parseNumberArrayLoop opt relaxed n arr).
Proof.
  induction n as [|n IH]; intros arr; cbn [parseNumberArrayLoop].
  - apply Inv_fail.
  - cbv zeta. repeat inv_step; try exact I; apply IH.
Qed.

Lemma Inv_parseNumberArray n : Inv (fun _ => True) (parseNumberArray opt n).
Proof.
  unfold parseNumberArray, parseNumberArrayWithRelax. inv_step.
  apply Inv_parseNumberArrayLoop.
Qed.

Lemma Inv_parseNumberValue : Inv (fun _ => True) (parseNumberValue opt).
Proof.
  unfold parseNumberValue.
  eapply Inv_bind; [apply Inv_expect|intros tok _].
  repeat inv_step; exact I.
Qed.

Lemma Inv_parseStringValue : Inv (fun _ => True) (parseStringValue opt).
Proof. unfold parseStringValue. repeat inv_step; exact I. Qed.

Lemma Inv_parseStringOrNumberValue relaxed :
  Inv (fun _ => True) (parseStringOrNumberValue opt relaxed).
Proof. unfold parseStringOrNumberValue. repeat inv_step; exact I. Qed.

Lemma Inv_parseUVTransformLoop n : forall uv,
  Inv (fun _ => True) (parseUVTransformLoop opt n uv).
Proof.
  induction n as [|n IH]; intros uv; cbn [parseUVTransformLoop].
  - apply Inv_fail.
  - repeat inv_step; try exact I.
    inv_bind Inv_parseArraySuffix. inv_step.
    inv_bind Inv_parseNumberArray. cbv zeta. inv_step. apply IH.
Qed.

Lemma Inv_parseUVTransformBody n :
  Inv (fun _ => True) (parseUVTransformBody opt n).
Proof.
  unfold parseUVTransformBody. inv_step.
  inv_bind Inv_parseUVTransformLoop. repeat inv_step. exact I.
Qed.

(** *** Values and nodes *)

Lemma Inv_parseArrayLoop pv :
  Inv shValue pv ->
  forall n arr, Forall shValue arr ->
  Inv (Forall shValue) (parseArrayLoop opt pv n arr).
Proof.
  intros Hpv. induction n as [|n IH]; intros arr Harr; cbn [parseArrayLoop].
  - apply Inv_fail.
  - repeat inv_step; [exact Harr|].
    inv_from Hpv as v Hv. cbv zeta.
    assert (Forall shValue (arr ++ [v])).
    { apply Forall_app. split; [exact Harr|].
      constructor; [exact Hv|constructor]. }
    repeat inv_step; apply IH; assumption.
Qed.

Lemma Inv_parseValue n : Inv shValue (parseValue opt n).
Proof.
  induction n as [|n IH]; cbn [parseValue].
  - apply Inv_fail.
  - eapply Inv_bind; [apply Inv_next|intros tok Hg].
    destruct (Type_ tok) eqn:Ht; try apply Inv_fail.
    + apply Inv_ret. exact (Hg Ht).
    + destruct (ParseFloat (Lit tok)); [apply Inv_ret; exact I|apply Inv_fail].
    + apply Inv_ret. exact I.
    + eapply Inv_bind;
        [apply (Inv_parseArrayLoop _ IH); constructor|intros arr Harr].
      apply Inv_ret. apply shValue_array. exact Harr.
Qed.

Lemma Inv_parseAssign n : Inv shNode (parseAssign opt n).
Proof.
  unfold parseAssign. inv_step. inv_bind Inv_parseArraySuffix. inv_step.
  inv_bind Inv_parseValue. repeat inv_step. split; assumption.
Qed.

Lemma Inv_parseBodyLoop pn :
  Inv shNode pn ->
  forall n body, Forall shNode body ->
  Inv (Forall shNode) (parseBodyLoop opt pn n body).
Proof.
  intros Hpn. induction n as [|n IH]; intros body Hbody; cbn [parseBodyLoop].
  - apply Inv_fail.
  - repeat inv_step; [exact Hbody|].
    inv_from Hpn as nd Hnd. apply IH.
    apply Forall_app. split; [exact Hbody|].
    constructor; [exact Hnd|constructor].
Qed.

Lemma Inv_parseClassWith pn n :
  Inv shNode pn -> Inv shNode (parseClassWith opt pn n).
Proof.
  intros Hpn. unfold parseClassWith. repeat inv_step.
  inv_bind Inv_parseBase. inv_step.
  eapply Inv_bind; [apply (Inv_parseBodyLoop _ Hpn); constructor|intros body Hb].
  repeat inv_step. apply shNode_class. auto.
Qed.

Lemma Inv_parseNode n : Inv shNode (parseNode opt n).
Proof.
  induction n as [|n IH]; cbn [parseNode].
  - apply Inv_fail.
  - repeat inv_step.
    + apply Inv_parseClassWith. exact IH.
    + apply Inv_parseAssign.
Qed.

Lemma Inv_parseClassBody n name base :
  isName name = true -> isEmpty base || isName base = true ->
  Inv (fun nd => shNode nd /\ exists body, nd = NClass name base body)
    (parseClassBody opt n name base).
Proof.
  intros Hname Hbase. unfold parseClassBody. inv_step.
  eapply Inv_bind;
    [apply (Inv_parseBodyLoop _ (Inv_parseNode n)); constructor|intros body Hb].
  repeat inv_step. split; [apply shNode_class; auto|eauto].
Qed.

End ParseShape.

Section ParseShapeFields.
Context {U : Unicode} {F : Strconv}.
Variable opt : ParseOptions.
Hypothesis Hci : DisableCaseInsensitive opt = false.

Ltac inv_step :=
  cbv beta in *;
  lazymatch goal with
  | |- Inv _ (ret _) => apply Inv_ret
  | |- Inv _ (fail _) => apply Inv_fail
  | |- Inv _ (bind (peek _) _) =>
      eapply Inv_bind; [apply Inv_peek|intros ? ?]
  | |- Inv _ (bind (skip _) _) => eapply Inv_bind; [apply Inv_skip|intros _ _]
  | |- Inv _ (bind (expect _ tokIdent) _) =>
      eapply Inv_bind; [apply Inv_name|intros ? ?]
  | |- Inv _ (bind (expect _ _) _) =>
      eapply Inv_bind; [apply Inv_expect|intros _ _]
  | |- Inv _ (bind (expectSemicolon _) _) =>
      eapply Inv_bind; [apply Inv_expectSemicolon|intros _ _]
  | |- Inv _ (bind (parseArraySuffix _) _) =>
      eapply Inv_bind; [apply Inv_parseArraySuffix|intros ? _]
  | |- Inv _ (bind (parseStringValue _) _) =>
      eapply Inv_bind; [apply Inv_parseStringValue|intros ? _]
  | |- Inv _ (bind (parseStringOrNumberValue _ _) _) =>
      eapply Inv_bind; [apply Inv_parseStringOrNumberValue|intros ? _]
  | |- Inv _ (bind (parseNumberValue _) _) =>
      eapply Inv_bind; [apply Inv_parseNumberValue|intros ? _]
  | |- Inv _ (bind (parseNumberArray _ _) _) =>
      eapply Inv_bind; [apply Inv_parseNumberArray|intros ? _]
  | |- Inv _ (bind (parseUVTransformBody _ _) _) =>
      eapply Inv_bind; [apply Inv_parseUVTransformBody|intros ? _]
  | |- Inv _ (if ?b then _ else _) => destruct b eqn:?
  end.

Tactic Notation "inv_from" constr(L) "as" ident(x) ident(H) :=
  eapply Inv_bind; [apply L|intros x H; cbv beta in *].

(** *** Stages *)

Lemma shStage_set st st' :
  StageName st' = StageName st -> Texture st' = Texture st ->
  StageExtras st' = StageExtras st -> shStage st -> shStage st'.
Proof. unfold shStage. intros -> -> ->. exact (fun H => H). Qed.

Lemma shStage_texture st s :
  shStage st -> shStage (stSetTexture st (ParseTextureRef s)).
Proof.
  intros (H1 & H2 & _ & H3 & H4). unfold shStage. cbn.
  repeat (split; [assumption|]).
  split; [right; exists s; reflexivity|]. split; assumption.
Qed.

Lemma shStage_add st n :
  shStage st -> shNode n -> stageExtra n = true -> shStage (stAddExtra st n).
Proof.
  intros (H1 & H2 & H3 & H4 & H5) Hn He. unfold shStage. cbn.
  repeat (split; [assumption|]).
  split; apply Forall_app; split; try assumption; constructor; auto.
Qed.

Lemma Inv_parseStageClass n st :
  shStage st -> Inv shStage (parseStageClass opt n st).
Proof.
  intros Hst. unfold parseStageClass. inv_step.
  inv_from (Inv_name opt) as nameTok Hname.
  inv_from (Inv_parseBase opt) as base Hbase.
  rewrite (equalFold_on opt Hci).
  destruct (EqualFold (Lit nameTok) (lit "uvTransform") && isEmpty base)
    eqn:Huv.
  - repeat inv_step. apply (shStage_set st); [reflexivity|reflexivity|reflexivity|exact Hst].
  - inv_from (Inv_parseClassBody opt n (Lit nameTok) base Hname Hbase) as cn Hcn.
    inv_step. destruct Hcn as (Hsh & body & ->).
    apply shStage_add; [exact Hst|exact Hsh|].
    cbn [stageExtra]. unfold isUVClass. rewrite Huv. reflexivity.
Qed.

Lemma Inv_stageGeneric n st name (isArray : bool) :
  shStage st -> isName name = true -> isStageField name isArray = false ->
  Inv shStage
    (val <- parseValue opt n ;;
     expectSemicolon opt ;;;
     ret (stAddExtra st (NAssign name isArray val))).
Proof.
  intros Hst Hname Hf.
  inv_from (Inv_parseValue opt n) as val Hval. repeat inv_step.
  apply shStage_add; [exact Hst|split; assumption|].
  cbn [stageExtra]. rewrite Hf. reflexivity.
Qed.

Lemma Inv_parseStageAssign n st :
  shStage st -> Inv shStage (parseStageAssign opt n st).
Proof.
  intros Hst. unfold parseStageAssign.
  inv_from (Inv_name opt) as nameTok Hname.
  eapply Inv_bind; [apply Inv_parseArraySuffix|intros isArray _].
  inv_step. cbv zeta. rewrite (ci_on opt Hci). unfold matchKey.
  destruct isArray; cbn [negb].
  - apply Inv_stageGeneric; [exact Hst|exact Hname|reflexivity].
  - destruct (EqualFold (Lit nameTok) (lit "texture")) eqn:H1.
    { repeat inv_step. apply shStage_texture. exact Hst. }
    destruct (EqualFold (Lit nameTok) (lit "uvsource")) eqn:H2.
    { repeat inv_step. apply (shStage_set st); [reflexivity|reflexivity|reflexivity|exact Hst]. }
    destruct (EqualFold (Lit nameTok) (lit "texgen")) eqn:H3.
    { repeat inv_step. apply (shStage_set st); [reflexivity|reflexivity|reflexivity|exact Hst]. }
    apply Inv_stageGeneric; [exact Hst|exact Hname|].
    unfold isStageField. rewrite H1, H2, H3. reflexivity.
Qed.

Lemma Inv_parseStageLoop n : forall st,
  shStage st -> Inv shStage (parseStageLoop opt n st).
Proof.
  induction n as [|n IH]; intros st Hst; cbn [parseStageLoop].
  - apply Inv_fail.
  - repeat inv_step; [exact Hst| |].
    + inv_from (Inv_parseStageClass n st Hst) as st' Hst'. apply IH. exact Hst'.
    + inv_from (Inv_parseStageAssign n st Hst) as st' Hst'. apply IH. exact Hst'.
Qed.

Lemma Inv_parseStageBody n name :
  isName name = true -> hasPrefixKey name (lit "stage") true = true ->
  Inv shStage (parseStageBody opt n name).
Proof.
  intros Hname Hpre. unfold parseStageBody. inv_step.
  eapply Inv_bind; [apply Inv_parseStageLoop|intros st Hst].
  - unfold shStage. cbn. repeat (split; [assumption|]).
    split; [left; reflexivity|]. split; constructor.
  - repeat inv_step. exact Hst.
Qed.

(** *** Texture generators *)

Lemma shTexGen_set t t' :
  TexGenName t' = TexGenName t -> TexGenBase t' = TexGenBase t ->
  TexGenExtras t' = TexGenExtras t -> shTexGen t -> shTexGen t'.
Proof. unfold shTexGen. intros -> -> ->. exact (fun H => H). Qed.

Lemma shTexGen_add t n :
  shTexGen t -> shNode n -> texGenExtra n = true -> shTexGen (tgAddExtra t n).
Proof.
  intros (H1 & H2 & H3 & H4 & H5) Hn He. unfold shTexGen. cbn.
  repeat (split; [assumption|]).
  split; apply Forall_app; split; try assumption; constructor; auto.
Qed.

Lemma Inv_parseTexGenClass n tg :
  shTexGen tg -> Inv shTexGen (parseTexGenClass opt n tg).
Proof.
  intros Htg. unfold parseTexGenClass. inv_step.
  inv_from (Inv_name opt) as nameTok Hname.
  inv_from (Inv_parseBase opt) as base Hbase.
  rewrite (equalFold_on opt Hci).
  destruct (EqualFold (Lit nameTok) (lit "uvTransform") && isEmpty base)
    eqn:Huv.
  - repeat inv_step.
    apply (shTexGen_set tg); [reflexivity|reflexivity|reflexivity|exact Htg].
  - inv_from (Inv_parseClassBody opt n (Lit nameTok) base Hname Hbase) as cn Hcn.
    inv_step. destruct Hcn as (Hsh & body & ->).
    apply shTexGen_add; [exact Htg|exact Hsh|].
    cbn [texGenExtra]. unfold isUVClass. rewrite Huv. reflexivity.
Qed.

Lemma Inv_texGenGeneric n tg name (isArray : bool) :
  shTexGen tg -> isName name = true -> isTexGenField name isArray = false ->
  Inv shTexGen
    (val <- parseValue opt n ;;
     expectSemicolon opt ;;;
     ret (tgAddExtra tg (NAssign name isArray val))).
Proof.
  intros Htg Hname Hf.
  inv_from (Inv_parseValue opt n) as val Hval. repeat inv_step.
  apply shTexGen_add; [exact Htg|split; assumption|].
  cbn [texGenExtra]. rewrite Hf. reflexivity.
Qed.

Lemma Inv_parseTexGenAssign n tg :
  shTexGen tg -> Inv shTexGen (parseTexGenAssign opt n tg).
Proof.
  intros Htg. unfold parseTexGenAssign.
  inv_from (Inv_name opt) as nameTok Hname.
  eapply Inv_bind; [apply Inv_parseArraySuffix|intros isArray _].
  inv_step. cbv zeta. rewrite (ci_on opt Hci). unfold matchKey.
  destruct isArray; cbn [negb].
  - apply Inv_texGenGeneric; [exact Htg|exact Hname|reflexivity].
  - destruct (EqualFold (Lit nameTok) (lit "uvsource")) eqn:H1.
    { repeat inv_step.
      apply (shTexGen_set tg); [reflexivity|reflexivity|reflexivity|exact Htg]. }
    apply Inv_texGenGeneric; [exact Htg|exact Hname|].
    unfold isTexGenField. rewrite H1. reflexivity.
Qed.

Lemma Inv_parseTexGenLoop n : forall tg,
  shTexGen tg -> Inv shTexGen (parseTexGenLoop opt n tg).
Proof.
  induction n as [|n IH]; intros tg Htg; cbn [parseTexGenLoop].
  - apply Inv_fail.
  - repeat inv_step; [exact Htg| |].
    + inv_from (Inv_parseTexGenClass n tg Htg) as tg' Htg'. apply IH. exact Htg'.
    + inv_from (Inv_parseTexGenAssign n tg Htg) as tg' Htg'. apply IH. exact Htg'.
Qed.

Lemma Inv_parseTexGenBody n name base :
  isName name = true -> hasPrefixKey name (lit "texgen") true = true ->
  isEmpty base || isName base = true ->
  Inv shTexGen (parseTexGenBody opt n name base).
Proof.
  intros Hname Hpre Hbase. unfold parseTexGenBody. inv_step.
  eapply Inv_bind; [apply Inv_parseTexGenLoop|intros tg Htg].
  - unfold shTexGen. cbn. auto.
  - repeat inv_step. exact Htg.
Qed.

(** *** The top level *)

Lemma shMaterial_set m m' :
  Stages m' = Stages m -> TexGens m' = TexGens m -> Extras m' = Extras m ->
  shMaterial m -> shMaterial m'.
Proof. unfold shMaterial. intros -> -> ->. exact (fun H => H). Qed.

Lemma shMaterial_add m n :
  shMaterial m -> shNode n -> topExtra n = true -> shMaterial (mAddExtra m n).
Proof.
  intros (H1 & H2 & H3 & H4) Hn He. unfold shMaterial. cbn.
  repeat (split; [assumption|]).
  split; apply Forall_app; split; try assumption; constructor; auto.
Qed.

Lemma Inv_parseTopClass n m :
  shMaterial m -> Inv shMaterial (parseTopClass opt n m).
Proof.
  intros Hm. unfold parseTopClass. inv_step.
  inv_from (Inv_name opt) as nameTok Hname.
  inv_from (Inv_parseBase opt) as base Hbase. cbv zeta.
  unfold isStageName, isTexGenName. rewrite Hci. cbn [negb].
  destruct (hasPrefixKey (Lit nameTok) (lit "stage") true && isEmpty base)
    eqn:Hs.
  - apply andb_true_iff in Hs. destruct Hs as [Hs _].
    inv_from (Inv_parseStageBody n (Lit nameTok) Hname Hs) as st Hst.
    inv_step. destruct Hm as (H1 & H2 & H3 & H4). unfold shMaterial. cbn.
    split; [exact H1|]. split; [|split; assumption].
    apply Forall_app. split; [exact H2|]. constructor; [exact Hst|constructor].
  - destruct (hasPrefixKey (Lit nameTok) (lit "texgen") true) eqn:Ht.
    + inv_from (Inv_parseTexGenBody n (Lit nameTok) base Hname Ht Hbase)
        as tg Htg.
      inv_step. destruct Hm as (H1 & H2 & H3 & H4). unfold shMaterial. cbn.
      split; [|split; [exact H2|split; assumption]].
      apply Forall_app. split; [exact H1|]. constructor; [exact Htg|constructor].
    + inv_from (Inv_parseClassBody opt n (Lit nameTok) base Hname Hbase)
        as cn Hcn.
      inv_step. destruct Hcn as (Hsh & body & ->).
      apply shMaterial_add; [exact Hm|exact Hsh|].
      cbn [topExtra]. rewrite Hs, Ht. reflexivity.
Qed.

Lemma Inv_topGeneric n m name (isArray : bool) :
  shMaterial m -> isName name = true -> isTopField name isArray = false ->
  Inv shMaterial
    (val <- parseValue opt n ;;
     expectSemicolon opt ;;;
     ret (mAddExtra m (NAssign name isArray val))).
Proof.
  intros Hm Hname Hf.
  inv_from (Inv_parseValue opt n) as val Hval. repeat inv_step.
  apply shMaterial_add; [exact Hm|split; assumption|].
  cbn [topExtra]. rewrite Hf. reflexivity.
Qed.

Lemma Inv_parseTopAssign n m :
  shMaterial m -> Inv shMaterial (parseTopAssign opt n m).
Proof.
  intros Hm. unfold parseTopAssign.
  inv_from (Inv_name opt) as nameTok Hname.
  eapply Inv_bind; [apply Inv_parseArraySuffix|intros isArray _].
  inv_step. cbv zeta. rewrite (ci_on opt Hci). unfold matchKey.
  destruct isArray.
  - destruct (EqualFold (Lit nameTok) (lit "ambient")
              || EqualFold (Lit nameTok) (lit "diffuse")
              || EqualFold (Lit nameTok) (lit "forceddiffuse")
              || EqualFold (Lit nameTok) (lit "emmisive")
              || EqualFold (Lit nameTok) (lit "specular")) eqn:Hk.
    + inv_step. inv_step.
      repeat match goal with
             | |- Inv _ (ret (if ?b then _ else _)) => destruct b
             end;
        apply Inv_ret;
        try (apply (shMaterial_set m);
             [reflexivity|reflexivity|reflexivity|exact Hm]);
        exact Hm.
    + apply Inv_topGeneric; [exact Hm|exact Hname|exact Hk].
  - destruct (EqualFold (Lit nameTok) (lit "specularpower")) eqn:H1.
    { repeat inv_step.
      apply (shMaterial_set m); [reflexivity|reflexivity|reflexivity|exact Hm]. }
    destruct (EqualFold (Lit nameTok) (lit "pixelshaderid")) eqn:H2.
    { repeat inv_step.
      apply (shMaterial_set m); [reflexivity|reflexivity|reflexivity|exact Hm]. }
    destruct (EqualFold (Lit nameTok) (lit "vertexshaderid")) eqn:H3.
    { repeat inv_step.
      apply (shMaterial_set m); [reflexivity|reflexivity|reflexivity|exact Hm]. }
    apply Inv_topGeneric; [exact Hm|exact Hname|].
    unfold isTopField. rewrite H1, H2, H3. reflexivity.
Qed.

Lemma Inv_parseMaterialLoop n : forall m,
  shMaterial m -> Inv shMaterial (parseMaterialLoop opt n m).
Proof.
  induction n as [|n IH]; intros m Hm; cbn [parseMaterialLoop].
  - apply Inv_fail.
  - repeat inv_step; [exact Hm| |].
    + inv_from (Inv_parseTopClass n m Hm) as m' Hm'. apply IH. exact Hm'.
    + inv_from (Inv_parseTopAssign n m Hm) as m' Hm'. apply IH. exact Hm'.
Qed.

Lemma Inv_parseMaterial n : Inv shMaterial (parseMaterial opt n).
Proof.
  unfold parseMaterial. apply Inv_parseMaterialLoop.
  unfold shMaterial. cbn. repeat split; constructor.
Qed.

End ParseShapeFields.

Section ParseShapeTop.
Context {U : Unicode} {F : Strconv}.

(** What [Parse] returns, with case-insensitive keys, has the shape of a
    material: names that are identifiers, stages and texture generators
    under their prefixes, and no recognised field among the extras. *)
Lemma Parse_shape data o m :
  DisableCaseInsensitive (normalizeParseOptions o) = false ->
  Parse data o = Ok m -> shMaterial m.
Proof.
  intros Hci H. unfold Parse, Decode in H.
  destruct (isBinaryRVMAT data); [discriminate|]. cbv zeta in H.
  destruct (parseMaterial _ _ _) as [r p'] eqn:Hrun. cbn [fst] in H. subst r.
  exact (proj1 (Inv_parseMaterial _ Hci _ (newParser (utf8_decode data))
                  _ _ I Hrun)).
Qed.

Lemma Parse_wf data o m :
  DisableCaseInsensitive (normalizeParseOptions o) = false ->
  Parse data o = Ok m -> printable m -> wfMaterial m.
Proof.
  intros Hci H Hp. apply wfMaterial_parts; [|exact Hp].
  exact (Parse_shape data o m Hci H).
Qed.

End ParseShapeTop.

(* ================================================================== *)
(** ** Parse results through the writer *)

Section ParseResults.
Context {U : Unicode} {F : Strconv}.

(** X1. Every token of the lexer is classified by its literal: an
    identifier token holds a name (an identifier word other than the
    keyword, or a number-like word that is not a valid number), a
    [class] token an identifier word equal to [class] up to case,
    whatever the options, a number token a valid number, a punctuation
    token its one character, and the end-of-file token nothing. *)
Theorem token_classes (opt : ParseOptions) (l : lexer) :
  let t := fst (fst (lnext opt l)) in
  match Type_ t with
  | tokEOF => Lit t = []
  | tokIdent => isName (Lit t) = true
  | tokClass =>
      isIdentWord (Lit t) = true /\ EqualFold (Lit t) (lit "class") = true
  | tokNumber =>
      isNumberWord (Lit t) = true /\ isValidNumber (Lit t) = true
  | tokString => True
  | ty => exists c, Lit t = [c] /\ symbolOf c = Some ty
  end.
Proof.
  cbv zeta. unfold lnext. generalize (skipWhitespace opt l). intros l1.
  destruct (leof l1); [reflexivity|].
  unfold symbolOf.
  repeat match goal with
         | |- context [if ?c =? ?k then _ else _] =>
             destruct (c =? k) eqn:?;
             [cbn [fst Type_ Lit]; try (eexists; split; [reflexivity|]);
              repeat match goal with
                     | H : (_ =? _) = _ |- _ => rewrite H
                     end; try reflexivity|]
         end.
  - destruct (readString l1) as [[s e] l']. exact I.
  - destruct (isIdentStart (lch l1)) eqn:Hs.
    + destruct (readIdent l1) as [s l'] eqn:Hr.
      unfold readIdent, lfuel in Hr.
      assert (Hp : isIdentPart (lch l1) = true).
      { unfold isIdentStart in Hs. unfold isIdentPart.
        destruct (IsLetter (lch l1)); [reflexivity|].
        destruct (IsDigit (lch l1)); [reflexivity|]. exact Hs. }
      destruct (readWhile_first _ _ _ _ _ Hp Hr) as (t & -> & Ht).
      destruct (EqualFold (lch l1 :: t) (lit "class")) eqn:Hcl;
        cbn [fst Type_ Lit].
      * split; [|exact Hcl]. cbn [isIdentWord]. rewrite Hs, Ht. reflexivity.
      * unfold isName. cbn [isIdentWord]. rewrite Hs, Ht, Hcl. reflexivity.
    + destruct (isNumberStart (lch l1)) eqn:Hn; [|reflexivity].
      destruct (readNumberOrIdent l1) as [s l'] eqn:Hr.
      unfold readNumberOrIdent, lfuel in Hr.
      assert (Hp : isWordPart (lch l1) = true).
      { unfold isNumberStart in Hn. unfold isWordPart, isIdentPart.
        destruct (IsDigit (lch l1)); [rewrite orb_true_r; reflexivity|].
        cbn in Hn. rewrite Hn. rewrite !orb_true_r. reflexivity. }
      destruct (readWhile_first _ _ _ _ _ Hp Hr) as (t & -> & Ht).
      destruct (isValidNumber (lch l1 :: t)) eqn:Hv; cbn [fst Type_ Lit].
      * split; [|exact Hv]. cbn [isNumberWord]. rewrite Hn, Ht. reflexivity.
      * unfold isName. cbn [isNumberWord]. rewrite Hn, Ht, Hv.
        rewrite orb_true_r. reflexivity.
Qed.

(** X2. What [Parse] returns under case-insensitive keys has the shape
    the writer needs: every name is a name the lexer reads back, every
    stage name starts with [stage] and every texture-generator name with
    [texgen] up to case, every stage texture is unset or what
    [ParseTextureRef] returned, and no extra is a field that its scope
    recognises.  So a parse result whose strings and numbers are
    printable is well formed for the writer. *)
Theorem parse_result_shape (data : list byte) (o : option ParseOptions)
  (m : Material) :
  DisableCaseInsensitive (normalizeParseOptions o) = false ->
  Parse data o = Ok m ->
  shMaterial m /\ (printable m -> wfMaterial m).
Proof.
  intros Hci H. pose proof (Parse_shape data o m Hci H) as Hs.
  split; [exact Hs|]. intros Hp. exact (wfMaterial_parts m Hs Hp).
Qed.


(** A stage that the round trip gives back as it is: its texture is
    unset or not empty, and beside a [texGen] it has neither [uvSource]
    nor [uvTransform]. *)
Definition stagePlain (st : Stage) : Prop :=
  (isEmpty (Raw (Texture st)) = true -> Texture st = TextureRef0)
  /\ (isEmpty (StageTexGen st) = false ->
      StageUVSource st = [] /\ StageUVTransform st = None).

Lemma stageCanonical_plain st :
  texParsed (Texture st) -> ~ In 34 (Raw (Texture st)) ->
  stageCanonical st <-> stagePlain st.
Proof.
  intros Htex Hq. unfold stageCanonical, stagePlain, canonStage. split.
  - intros Heq. split.
    + intros He. apply (f_equal Texture) in Heq. cbn [Texture] in Heq.
      rewrite He in Heq. symmetry. exact Heq.
    + intros Htg. split.
      * apply (f_equal StageUVSource) in Heq. cbn [StageUVSource] in Heq.
        rewrite Htg in Heq. symmetry. exact Heq.
      * apply (f_equal StageUVTransform) in Heq.
        cbn [StageUVTransform] in Heq. rewrite Htg in Heq. symmetry.
        exact Heq.
  - intros [Ht Hg].
    assert (H1 : (if isEmpty (Raw (Texture st)) then TextureRef0
                  else ParseTextureRef (Raw (Texture st))) = Texture st).
    { destruct (isEmpty (Raw (Texture st))) eqn:He.
      - symmetry. exact (Ht eq_refl).
      - exact (texParsed_canon _ Htex Hq He). }
    rewrite H1. destruct (isEmpty (StageTexGen st)) eqn:Htg.
    + destruct st; reflexivity.
    + destruct (Hg eq_refl) as [Hu Hv]. destruct st; cbn in *.
      rewrite Hu, Hv. reflexivity.
Qed.

Lemma parsed_stages m :
  shMaterial m -> printable m ->
  Forall (fun st => texParsed (Texture st) /\ ~ In 34 (Raw (Texture st)))
    (Stages m).
Proof.
  intros (_ & Hs & _) (_ & _ & _ & _ & _ & _ & _ & _ & _ & Hp & _).
  rewrite Forall_forall in *. intros st Hin.
  destruct (Hs st Hin) as (_ & _ & Htex & _).
  destruct (Hp st Hin) as (Hraw & _).
  split; [exact Htex|]. apply strSafe_no_quote. exact Hraw.
Qed.

(** X4. The round trip of a parse result.  Let [Parse], under
    case-insensitive keys, accept an input with the material [m], and
    let the strings and numbers of [m] be printable.  Then the document
    [Format] writes for [m] is accepted and gives the canonical form of
    [m]; it gives [m] itself exactly when every stage is plain; and
    formatting the result writes the same bytes again. *)
Theorem parsed_round_trip (data : list byte) (pi : option ParseOptions)
  (m : Material) (fo : option FormatOptions) (po : option ParseOptions) :
  Parse data pi = Ok m ->
  DisableCaseInsensitive (normalizeParseOptions pi) = false ->
  printable m -> roundTripOptions fo po ->
  plainText (FormatText m fo) = true ->
  isBinaryRVMAT (Format m fo) = false ->
  Parse (Format m fo) po = Ok (canonMaterial m)
  /\ (Parse (Format m fo) po = Ok m <-> Forall stagePlain (Stages m))
  /\ Format (canonMaterial m) fo = Format m fo.
Proof.
  intros Hparse Hci Hpr Hopt Hplain Hbin.
  pose proof (Parse_shape data pi m Hci Hparse) as Hsh.
  pose proof (wfMaterial_parts m Hsh Hpr) as Hwf.
  pose proof (Parse_Format m fo po Hwf Hopt Hplain Hbin) as Hp.
  pose proof (parsed_stages m Hsh Hpr) as Hst.
  split; [exact Hp|]. split.
  - rewrite Hp. split.
    + intros Heq. injection Heq as Heq. apply canonMaterial_fixed in Heq.
      rewrite Forall_forall in *. intros st Hin.
      destruct (Hst st Hin) as [Htex Hq].
      apply (stageCanonical_plain st Htex Hq). exact (Heq st Hin).
    + intros Hall. rewrite canonMaterial_id; [reflexivity|].
      rewrite Forall_forall in *. intros st Hin.
      destruct (Hst st Hin) as [Htex Hq].
      apply (stageCanonical_plain st Htex Hq). exact (Hall st Hin).
  - unfold Format. rewrite !FormatText_text.
    rewrite textMaterial_canon; [reflexivity|].
    rewrite Forall_forall in *. intros st Hin.
    destruct (Hst st Hin) as [Htex Hq]. unfold textureNormal.
    exact (texParsed_normal _ Htex Hq).
Qed.

End ParseResults.

(** A document in the hand-written style, with comments, whose parse
    result is [sample]. *)
Definition document : list byte :=
  src "// a material
ambient[] = {1.0, 0.5, 0, 1};
forcedDiffuse[] = {-0.25};
specularPower = 40;
PixelShaderID = 'Super';
VertexShaderID = 'Super';
mainLight = 'Sun';
class Stage1 { texture = 'a\b_nohq.paa'; texGen = 0; };
class TexGen0 : Base { uvSource = 'tex'; class uvTransform {}; class inner {}; };
class stage2
{
  texture = '#(argb,8,8,3)color(0.5,0.5,0.5,1,DT)';
  uvSource = 'tex';
  filter = Anizotropic;
  class uvTransform { aside[] = {1,0,0}; up[] = {0,1,0}; pos[] = {0}; };
};
values[] = {1, {'a', b}, {}};
/* a class the parser does not model */
class Custom : Parent { x = 1.5; class Nested {}; };
".

Lemma document_parsed :
  Parse (U := Ref.asciiUnicode) (F := Ref.decStrconv) document None
  = Ok sample.
Proof. reflexivity. Defined.

Lemma sample_printable : printable (U := Ref.asciiUnicode) sample.
Proof. wf_solve. Defined.

Lemma parse_result_shape_witness :
  shMaterial (U := Ref.asciiUnicode) sample
  /\ (printable (U := Ref.asciiUnicode) sample
      -> wfMaterial (U := Ref.asciiUnicode) sample).
Proof.
  exact (parse_result_shape (U := Ref.asciiUnicode) document None sample
           eq_refl document_parsed).
Defined.



Lemma parsed_round_trip_witness :
  Parse (U := Ref.asciiUnicode) (F := Ref.decStrconv)
    (Format sample None) None
  = Ok (canonMaterial (U := Ref.asciiUnicode) sample)
  /\ (Parse (U := Ref.asciiUnicode) (F := Ref.decStrconv)
        (Format sample None) None = Ok sample
      <-> Forall stagePlain (Stages sample))
  /\ Format (canonMaterial (U := Ref.asciiUnicode) sample) None
     = Format sample None.
Proof.
  exact (parsed_round_trip (U := Ref.asciiUnicode) document None sample None
           None document_parsed eq_refl sample_printable
           defaultOptions_roundTrip sample_plain sample_text).
Defined.

(* ================================================================== *)
(** ** Termination: the fuel of the loops *)

Section LexerLeft.
Context {U : Unicode} {F : Strconv}.
Variable opt : ParseOptions.

(** What the lexer has left to read: the current character and the
    unread input. *)
Definition lexLeft (l : lexer) : nat :=
  if leof l then O else S (length (lr l)).

Lemma lread_le l : (lexLeft (lread l) <= lexLeft l)%nat.
Proof.
  unfold lexLeft, lread. destruct (lr l) as [|c rest]; cbn.
  - destruct (leof l); lia.
  - destruct (c =? 10); cbn; destruct (leof l); lia.
Qed.

Lemma lread_lt l : leof l = false -> (lexLeft (lread l) < lexLeft l)%nat.
Proof.
  unfold lexLeft, lread. intros ->. destruct (lr l) as [|c rest]; cbn.
  - lia.
  - destruct (c =? 10); cbn; lia.
Qed.

Lemma lexLeft_fuel l : (lexLeft l < lfuel l)%nat.
Proof. unfold lexLeft, lfuel. destruct (leof l); lia. Qed.

Lemma lexLeft_eof l : lexLeft l = O -> leof l = true.
Proof. unfold lexLeft. destruct (leof l); [reflexivity|discriminate]. Qed.

Lemma skipSpaces_le n : forall l,
  (lexLeft (fst (skipSpaces n l)) <= lexLeft l)%nat.
Proof.
  induction n as [|n IH]; intros l; cbn [skipSpaces fst]; [lia|].
  destruct (IsSpace (lch l)); cbn [fst]; [|lia].
  pose proof (lread_le l). destruct (leof (lread l)); cbn [fst]; [lia|].
  specialize (IH (lread l)). lia.
Qed.

Lemma skipLine_le n : forall l, (lexLeft (skipLine n l) <= lexLeft l)%nat.
Proof.
  induction n as [|n IH]; intros l; cbn [skipLine]; [lia|].
  destruct (negb (lch l =? 10) && negb (leof l)); [|lia].
  pose proof (lread_le l). specialize (IH (lread l)). lia.
Qed.

Lemma skipBlock_le n : forall l,
  (lexLeft (fst (skipBlock n l)) <= lexLeft l)%nat.
Proof.
  induction n as [|n IH]; intros l; cbn [skipBlock fst]; [lia|].
  destruct (leof l); cbn [fst]; [lia|].
  pose proof (lread_le l). pose proof (lread_le (lread l)).
  destruct ((lch l =? 42) && (lpeek l =? 47)); cbn [fst]; [lia|].
  specialize (IH (lread l)). lia.
Qed.

Lemma skipWhitespaceLoop_le n : forall l,
  (lexLeft (skipWhitespaceLoop opt n l) <= lexLeft l)%nat.
Proof.
  induction n as [|n IH]; intros l; cbn [skipWhitespaceLoop]; [lia|].
  pose proof (skipSpaces_le (lfuel l) l) as H1.
  destruct (skipSpaces (lfuel l) l) as [l1 atEnd]. cbn [fst] in H1.
  destruct atEnd; [exact H1|].
  destruct (negb (DisableComments opt) && (lch l1 =? 47)); [|exact H1].
  pose proof (lread_le l1). pose proof (lread_le (lread l1)).
  destruct (lpeek l1 =? 47).
  - cbv zeta.
    pose proof (skipLine_le (lfuel (lread (lread l1))) (lread (lread l1))).
    specialize (IH (skipLine (lfuel (lread (lread l1))) (lread (lread l1)))).
    lia.
  - destruct (lpeek l1 =? 42); [|exact H1]. cbv zeta.
    pose proof (skipBlock_le (lfuel (lread (lread l1))) (lread (lread l1)))
      as H4.
    destruct (skipBlock _ _) as [l3 atEnd3]. cbn [fst] in H4.
    destruct atEnd3; [lia|]. specialize (IH l3). lia.
Qed.

Lemma readWhile_le part n : forall l b,
  (lexLeft (snd (readWhile part n l b)) <= lexLeft l)%nat.
Proof.
  induction n as [|n IH]; intros l b; cbn [readWhile snd]; [lia|].
  destruct (part (lch l)); cbn [snd]; [|lia].
  pose proof (lread_le l). destruct (leof (lread l)); cbn [snd]; [lia|].
  specialize (IH (lread l) (b ++ [lch l])). lia.
Qed.

Lemma readWhile_lt part n l b :
  part (lch l) = true -> leof l = false ->
  (lexLeft (snd (readWhile part (S n) l b)) < lexLeft l)%nat.
Proof.
  intros Hc He. cbn [readWhile]. rewrite Hc.
  pose proof (lread_lt l He). destruct (leof (lread l)); cbn [snd]; [lia|].
  pose proof (readWhile_le part n (lread l) (b ++ [lch l])). lia.
Qed.

Lemma readStringLoop_le n : forall l b,
  (lexLeft (snd (readStringLoop n l b)) <= lexLeft l)%nat.
Proof.
  induction n as [|n IH]; intros l b; cbn [readStringLoop snd]; [lia|].
  destruct (leof l); cbn [snd]; [lia|].
  pose proof (lread_le l). pose proof (lread_le (lread l)).
  destruct (lch l =? 34).
  - destruct (lpeek l =? 34); cbn [snd]; [|lia].
    specialize (IH (lread (lread l)) (b ++ [34])). lia.
  - destruct ((lch l =? 92) && ((lpeek l =? 92) || (lpeek l =? 34))).
    + cbv zeta. specialize (IH (lread (lread l)) (b ++ [lch (lread l)])). lia.
    + specialize (IH (lread l) (b ++ [lch l])). lia.
Qed.

(** The loop of [readString] reads a character per turn: its fuel is
    never used up. *)
Lemma readStringLoop_fuel n : forall l b,
  (lexLeft l < n)%nat -> snd (fst (readStringLoop n l b)) <> Some ErrFuel.
Proof.
  induction n as [|n IH]; intros l b Hn; [lia|]. cbn [readStringLoop].
  destruct (leof l) eqn:He; [cbn; discriminate|].
  pose proof (lread_lt l He). pose proof (lread_le (lread l)).
  destruct (lch l =? 34).
  - destruct (lpeek l =? 34); [|cbn; discriminate]. apply IH. lia.
  - destruct ((lch l =? 92) && ((lpeek l =? 92) || (lpeek l =? 34)));
      apply IH; lia.
Qed.

(** [lexer.next] never runs out of fuel and never goes back; a token
    other than the end of the file costs a character at least, and at
    the end of the file the lexer stays there. *)
Lemma lnext_left l t e l' :
  lnext opt l = ((t, e), l') ->
  (lexLeft l' <= lexLeft l)%nat /\ e <> Some ErrFuel
  /\ (e = None -> Type_ t = tokEOF -> lexLeft l' = O)
  /\ (e = None -> Type_ t <> tokEOF -> (lexLeft l' < lexLeft l)%nat).
Proof.
  unfold lnext. pose proof (skipWhitespaceLoop_le (lfuel l) l) as Hws.
  fold (skipWhitespace opt l) in Hws. revert Hws.
  generalize (skipWhitespace opt l). intros l1 Hws.
  destruct (leof l1) eqn:He.
  { intros H. inversion H; subst.
    assert (lexLeft l' = O) by (unfold lexLeft; rewrite He; reflexivity).
    cbn [Type_]. repeat split; try discriminate; intros; try lia.
    contradiction. }
  pose proof (lread_lt l1 He) as Hlt.
  assert (Hsym : forall ty,
            ty <> tokEOF ->
            ((mkToken [lch l1] ty (lline l1) (lcol l1), @None error), lread l1)
            = ((t, e), l') ->
            (lexLeft l' <= lexLeft l)%nat /\ e <> Some ErrFuel
            /\ (e = None -> Type_ t = tokEOF -> lexLeft l' = O)
            /\ (e = None -> Type_ t <> tokEOF
                -> (lexLeft l' < lexLeft l)%nat)).
  { intros ty Hty H. inversion H; subst. cbn [Type_].
    repeat split; try discriminate; intros; try lia. contradiction. }
  cbv zeta.
  do 8 (destruct (lch l1 =? _); [apply Hsym; discriminate|]).
  destruct (lch l1 =? 34).
  { unfold readString.
    pose proof (readStringLoop_le (lfuel (lread l1)) (lread l1) []) as H1.
    pose proof (readStringLoop_fuel (lfuel (lread l1)) (lread l1) []
                  (lexLeft_fuel _)) as H2.
    destruct (readStringLoop _ _ _) as [[s e0] l0]. cbn [fst snd] in *.
    intros H. inversion H; subst. cbn [Type_].
    repeat split; try exact H2; intros; try lia. discriminate. }
  destruct (isIdentStart (lch l1)) eqn:Hs.
  { assert (Hp : isIdentPart (lch l1) = true).
    { unfold isIdentStart in Hs. unfold isIdentPart.
      destruct (IsLetter (lch l1)); [reflexivity|].
      destruct (IsDigit (lch l1)); [reflexivity|]. exact Hs. }
    unfold readIdent, lfuel.
    pose proof (readWhile_lt isIdentPart (S (length (lr l1))) l1 [] Hp He)
      as H1.
    destruct (readWhile _ _ _ _) as [s l0]. cbn [snd] in H1.
    destruct (EqualFold s _); intros H; inversion H; subst; cbn [Type_];
      repeat split; try discriminate; intros; try lia; discriminate. }
  destruct (isNumberStart (lch l1)) eqn:Hn.
  { assert (Hp : isWordPart (lch l1) = true).
    { unfold isNumberStart in Hn. unfold isWordPart, isIdentPart.
      destruct (IsDigit (lch l1)); [rewrite orb_true_r; reflexivity|].
      cbn in Hn. rewrite Hn. rewrite !orb_true_r. reflexivity. }
    unfold readNumberOrIdent, lfuel.
    pose proof (readWhile_lt isWordPart (S (length (lr l1))) l1 [] Hp He)
      as H1.
    destruct (readWhile _ _ _ _) as [s l0]. cbn [snd] in H1.
    destruct (isValidNumber s); intros H; inversion H; subst; cbn [Type_];
      repeat split; try discriminate; intros; try lia; discriminate. }
  intros H. inversion H; subst.
  repeat split; try discriminate; intros; try lia; discriminate.
Qed.

End LexerLeft.

Section ParserLeft.
Context {U : Unicode} {F : Strconv}.
Variable opt : ParseOptions.

Definition isEOF (t : token) : bool := tokenType_eqb (Type_ t) tokEOF.

(** What the parser has left to read: the token in its buffer, unless it
    is the end of the file, and what its lexer has left. *)
Definition tokensLeft (p : parser) : nat :=
  match pbuf p with
  | Some t => (if isEOF t then 0 else 1) + lexLeft (pl p)
  | None => lexLeft (pl p)
  end.

(** Behind a buffered end of file the lexer is at the end. *)
Definition okP (p : parser) : Prop :=
  match pbuf p with
  | Some t => isEOF t = true -> lexLeft (pl p) = O
  | None => True
  end.

(** [Triple P c Q]: from a state with [P] left to read, the call [c]
    does not run out of fuel, and when it returns [a] it leaves [Q a]. *)
Definition Triple {A} (P : nat -> Prop) (c : M A) (Q : A -> nat -> Prop)
  : Prop :=
  forall p, okP p -> P (tokensLeft p) ->
  match c p with
  | (Ok a, p') => okP p' /\ Q a (tokensLeft p')
  | (Err e, _) => e <> ErrFuel
  end.

Definition Below (k : nat) : nat -> Prop := fun m => (m < k)%nat.
Definition AtEnd (k : nat) : nat -> Prop := fun m => m = O /\ (O < k)%nat.
Definition Keeps {A} (k : nat) : A -> nat -> Prop := fun _ m => (m < k)%nat.
Definition Eats {A} (k : nat) : A -> nat -> Prop :=
  fun _ m => (S m < k)%nat.

Lemma isEOF_true t : isEOF t = true -> Type_ t = tokEOF.
Proof. unfold isEOF. destruct (Type_ t); cbn; congruence. Qed.

Lemma isEOF_false t : isEOF t = false -> Type_ t <> tokEOF.
Proof. unfold isEOF. intros H Heq. rewrite Heq in H. discriminate H. Qed.

Lemma isEOF_of t : Type_ t = tokEOF -> isEOF t = true.
Proof. unfold isEOF. intros ->. reflexivity. Qed.

Lemma lnext_at_end l :
  lexLeft l = O ->
  exists t l', lnext opt l = ((t, None), l') /\ Type_ t = tokEOF.
Proof.
  intros H0. unfold lnext.
  pose proof (skipWhitespaceLoop_le opt (lfuel l) l) as Hws.
  fold (skipWhitespace opt l) in Hws. revert Hws.
  generalize (skipWhitespace opt l). intros l1 Hws.
  rewrite (lexLeft_eof l1) by lia. eauto.
Qed.

Lemma nextRaw_left p t e p' :
  okP p -> nextRaw opt p = ((t, e), p') ->
  okP p' /\ (tokensLeft p' <= tokensLeft p)%nat /\ e <> Some ErrFuel
  /\ (e = None -> isEOF t = true -> tokensLeft p' = O)
  /\ (e = None -> isEOF t = false -> (tokensLeft p' < tokensLeft p)%nat).
Proof.
  unfold nextRaw, okP, tokensLeft. intros Hok H.
  destruct (pbuf p) as [b|].
  - inversion H; subst. cbn [pbuf pl].
    split; [exact I|]. split; [lia|]. split; [discriminate|].
    split; intros _ Hb; rewrite Hb in *; [auto|lia].
  - destruct (lnext opt (pl p)) as [[t0 e0] l'] eqn:Hl.
    inversion H; subst. cbn [pbuf pl].
    destruct (lnext_left opt _ _ _ _ Hl) as (H1 & H2 & H3 & H4).
    split; [exact I|]. split; [exact H1|]. split; [exact H2|].
    split; intros He Hb.
    + apply H3; [exact He|]. apply isEOF_true. exact Hb.
    + apply H4; [exact He|]. apply isEOF_false. exact Hb.
Qed.

Lemma peekRaw_left p t e p' :
  okP p -> peekRaw opt p = ((t, e), p') ->
  okP p' /\ (tokensLeft p' <= tokensLeft p)%nat /\ e <> Some ErrFuel
  /\ (e = None -> isEOF t = true -> tokensLeft p' = O)
  /\ (tokensLeft p = O -> e = None /\ isEOF t = true).
Proof.
  unfold peekRaw. intros Hok H.
  destruct (pbuf p) as [b|] eqn:Hb.
  - inversion H; subst. unfold okP, tokensLeft in *. rewrite Hb in *.
    split; [exact Hok|]. split; [lia|]. split; [discriminate|].
    split.
    + intros _ He. rewrite He. rewrite (Hok He). reflexivity.
    + intros H0. split; [reflexivity|]. destruct (isEOF t); [reflexivity|lia].
  - destruct (lnext opt (pl p)) as [[t0 e0] l'] eqn:Hl.
    destruct (lnext_left opt _ _ _ _ Hl) as (H1 & H2 & H3 & H4).
    assert (Hend : tokensLeft p = O -> e0 = None /\ isEOF t0 = true).
    { unfold tokensLeft. rewrite Hb. intros H0.
      destruct (lnext_at_end _ H0) as (t1 & l1 & Hl1 & Ht1).
      rewrite Hl in Hl1. inversion Hl1; subst.
      split; [reflexivity|]. apply isEOF_of. exact Ht1. }
    unfold okP, tokensLeft in *. rewrite Hb in *.
    destruct e0 as [e0|]; inversion H; subst; cbn [pbuf pl].
    + split; [exact I|]. split; [exact H1|]. split; [exact H2|].
      split; [discriminate|exact Hend].
    + split.
      { intros He. apply H3; [reflexivity|]. apply isEOF_true. exact He. }
      split.
      { destruct (isEOF t) eqn:He.
        - rewrite H3; [lia|reflexivity|]. apply isEOF_true. exact He.
        - specialize (H4 eq_refl (isEOF_false _ He)). lia. }
      split; [discriminate|]. split; [|exact Hend].
      intros _ He. rewrite He.
      rewrite H3; [reflexivity|reflexivity|]. apply isEOF_true. exact He.
Qed.

Lemma T_ret {A} (P : nat -> Prop) (a : A) (Q : A -> nat -> Prop) :
  (forall m, P m -> Q a m) -> Triple P (ret a) Q.
Proof. intros H p Hok Hp. cbn. auto. Qed.

Lemma T_fail {A} (P : nat -> Prop) e (Q : A -> nat -> Prop) :
  e <> ErrFuel -> Triple P (fail e) Q.
Proof. intros H p Hok Hp. cbn. exact H. Qed.

Lemma T_absurd {A} (P : nat -> Prop) (c : M A) (Q : A -> nat -> Prop) :
  (forall m, ~ P m) -> Triple P c Q.
Proof. intros H p Hok Hp. destruct (H _ Hp). Qed.

Lemma T_bind {A B} (P : nat -> Prop) (c : M A) (Q : A -> nat -> Prop)
  (k : A -> M B) (R : B -> nat -> Prop) :
  Triple P c Q -> (forall a, Triple (Q a) (k a) R) -> Triple P (bind c k) R.
Proof.
  intros Hc Hk p Hok Hp. unfold bind. specialize (Hc p Hok Hp).
  destruct (c p) as [[a|e] p1]; [|exact Hc].
  destruct Hc as [Hok1 Hq]. exact (Hk a p1 Hok1 Hq).
Qed.

Lemma T_pre {A} (P P' : nat -> Prop) (c : M A) (Q : A -> nat -> Prop) :
  (forall m, P' m -> P m) -> Triple P c Q -> Triple P' c Q.
Proof. intros H Hc p Hok Hp. exact (Hc p Hok (H _ Hp)). Qed.

Lemma T_post {A} (P : nat -> Prop) (c : M A) (Q Q' : A -> nat -> Prop) :
  Triple P c Q -> (forall a m, Q a m -> Q' a m) -> Triple P c Q'.
Proof.
  intros Hc H p Hok Hp. specialize (Hc p Hok Hp).
  destruct (c p) as [[a|e] p1]; [|exact Hc].
  destruct Hc as [Hok1 Hq]. split; [exact Hok1|]. apply H. exact Hq.
Qed.

Lemma T_eat {A B} k (c : M A) (f : A -> M B) (Q : B -> nat -> Prop) :
  Triple (Below k) c (Eats k) ->
  (forall a k', k = S k' -> Triple (Below k') (f a) Q) ->
  Triple (Below k) (bind c f) Q.
Proof.
  intros Hc Hf. apply T_bind with (Q := Eats k); [exact Hc|]. intros a.
  destruct k as [|k']; [apply T_absurd; unfold Eats; intros m; lia|].
  apply T_pre with (P := Below k'); [unfold Eats, Below; intros m; lia|].
  apply Hf. reflexivity.
Qed.

Lemma T_keep {A B} k (c : M A) (f : A -> M B) (Q : B -> nat -> Prop) :
  Triple (Below k) c (Keeps k) ->
  (forall a, Triple (Below k) (f a) Q) ->
  Triple (Below k) (bind c f) Q.
Proof.
  intros Hc Hf. apply T_bind with (Q := Keeps k); [exact Hc|]. exact Hf.
Qed.

Lemma T_peek {B} k (f : token -> M B) (Q : B -> nat -> Prop) :
  (forall tok, Triple (Below k) (f tok) Q) ->
  Triple (Below k) (bind (peek opt) f) Q.
Proof.
  intros Hf. apply T_keep; [|exact Hf]. intros p Hok Hp.
  unfold peek, lift. destruct (peekRaw opt p) as [[t e] p1] eqn:Hr.
  destruct (peekRaw_left _ _ _ _ Hok Hr) as (H1 & H2 & H3 & _).
  destruct e as [e|].
  - intros ->. apply H3. reflexivity.
  - split; [exact H1|]. unfold Keeps, Below in *. lia.
Qed.

Lemma T_peek_end {B} k (f : token -> M B) (Q : B -> nat -> Prop) :
  (forall tok, Type_ tok = tokEOF -> Triple (AtEnd k) (f tok) Q) ->
  Triple (AtEnd k) (bind (peek opt) f) Q.
Proof.
  intros Hf.
  apply T_bind with (Q := fun t m => Type_ t = tokEOF /\ AtEnd k m).
  - intros p Hok [H0 Hk]. unfold peek, lift.
    destruct (peekRaw opt p) as [[t e] p1] eqn:Hr.
    destruct (peekRaw_left _ _ _ _ Hok Hr) as (H1 & H2 & H3 & H4 & H5).
    destruct (H5 H0) as [-> He].
    split; [exact H1|]. split; [apply isEOF_true; exact He|].
    split; [lia|exact Hk].
  - intros tok p Hok [Ht Hp]. exact (Hf tok Ht p Hok Hp).
Qed.

Lemma T_peekAny {B} k (f : token -> M B) (Q : B -> nat -> Prop) :
  (forall tok, Triple (Below k) (f tok) Q) ->
  Triple (Below k) (bind (peekAny opt) f) Q.
Proof.
  intros Hf. apply T_keep; [|exact Hf]. intros p Hok Hp.
  unfold peekAny. destruct (peekRaw opt p) as [[t e] p1] eqn:Hr.
  destruct (peekRaw_left _ _ _ _ Hok Hr) as (H1 & H2 & _).
  split; [exact H1|]. unfold Keeps, Below in *. lia.
Qed.

Lemma T_skip {B} k (f : unit -> M B) (Q : B -> nat -> Prop) :
  (forall u, Triple (Below k) (f u) Q) ->
  Triple (Below k) (bind (skip opt) f) Q.
Proof.
  intros Hf. apply T_keep; [|exact Hf]. intros p Hok Hp.
  unfold skip. destruct (nextRaw opt p) as [[t e] p1] eqn:Hr.
  destruct (nextRaw_left _ _ _ _ Hok Hr) as (H1 & H2 & _).
  split; [exact H1|]. unfold Keeps, Below in *. lia.
Qed.

Lemma T_next {B} k (f : token -> M B) (Q : B -> nat -> Prop) :
  (forall tok k', k = S k' -> isEOF tok = false ->
     Triple (Below k') (f tok) Q) ->
  (forall tok, Type_ tok = tokEOF -> Triple (AtEnd k) (f tok) Q) ->
  Triple (Below k) (bind (next opt) f) Q.
Proof.
  intros Hf Hend.
  apply T_bind with
    (Q := fun t m => if isEOF t then AtEnd k m else (S m < k)%nat).
  - intros p Hok Hp. unfold next, lift.
    destruct (nextRaw opt p) as [[t e] p1] eqn:Hr.
    destruct (nextRaw_left _ _ _ _ Hok Hr) as (H1 & H2 & H3 & H4 & H5).
    destruct e as [e|].
    + intros ->. apply H3. reflexivity.
    + split; [exact H1|]. unfold Below, AtEnd in *.
      destruct (isEOF t) eqn:He.
      * split; [apply H4; reflexivity|lia].
      * specialize (H5 eq_refl eq_refl). lia.
  - intros tok. destruct (isEOF tok) eqn:He.
    + apply Hend. apply isEOF_true. exact He.
    + destruct k as [|k']; [apply T_absurd; intros m; lia|].
      apply T_pre with (P := Below k'); [unfold Below; intros m; lia|].
      apply Hf; [reflexivity|exact He].
Qed.

Ltac tdone := unfold Below, AtEnd, Keeps, Eats in *; intros; lia.

Lemma expect_left k ty :
  ty <> tokEOF -> Triple (Below k) (expect opt ty) (Eats k).
Proof.
  intros Hty. unfold expect. apply T_next.
  - intros tok k' -> _. destruct (negb _); [apply T_fail; discriminate|].
    apply T_ret. tdone.
  - intros tok Heof. rewrite Heof.
    destruct ty; try contradiction; cbn; apply T_fail; discriminate.
Qed.

Lemma expectSemicolon_left k :
  Triple (Below k) (expectSemicolon opt) (Eats k).
Proof.
  unfold expectSemicolon.
  eapply T_eat; [apply expect_left; discriminate|]. intros _ k' ->.
  apply T_ret. tdone.
Qed.

(** One step through a call of the primitives, a result, a failure or a
    branch. *)
Ltac tstep :=
  lazymatch goal with
  | |- Triple _ (ret _) _ => apply T_ret; tdone
  | |- Triple _ (fail ErrFuel) _ => apply T_absurd; tdone
  | |- Triple _ (fail _) _ => apply T_fail; discriminate
  | |- Triple (Below _) (bind (peek _) _) _ => apply T_peek; intros ?tok
  | |- Triple (AtEnd _) (bind (peek _) _) _ =>
      apply T_peek_end; intros ?tok ?Heof
  | |- Triple (Below _) (bind (peekAny _) _) _ =>
      apply T_peekAny; intros ?tok
  | |- Triple (Below _) (bind (skip _) _) _ => apply T_skip; intros _
  | |- Triple (Below _) (bind (next _) _) _ =>
      apply T_next; [intros ?tok ?k ?Hk ?Hne; subst|intros ?tok ?Heof]
  | |- Triple (Below _) (bind (expect _ _) _) _ =>
      eapply T_eat; [apply expect_left; discriminate|intros ?tok ?k ?Hk; subst]
  | |- Triple (Below _) (bind (expectSemicolon _) _) _ =>
      eapply T_eat; [apply expectSemicolon_left|intros _ ?k ?Hk; subst]
  | |- Triple _ (if ?b then _ else _) _ => destruct b eqn:?
  | |- Triple _ (match ?x with _ => _ end) _ => destruct x eqn:?
  end.

Tactic Notation "teat" constr(L) :=
  eapply T_eat; [apply L; lia|intros ? ?k ?Hk; subst].

Tactic Notation "tkeep" constr(L) :=
  eapply T_keep; [apply L; lia|intros ?].

Tactic Notation "tcall" constr(L) :=
  eapply T_post; [apply L; lia|tdone].

Lemma parseArraySuffix_left k :
  Triple (Below k) (parseArraySuffix opt) (Keeps k).
Proof. unfold parseArraySuffix. repeat tstep. Qed.

Lemma parseBase_left k : Triple (Below k) (parseBase opt) (Keeps k).
Proof. unfold parseBase. repeat tstep. Qed.

Lemma parseNumberArrayLoop_left relaxed n : forall k arr,
  (k <= n)%nat ->
  Triple (Below k) (parseNumberArrayLoop opt relaxed n arr) (Keeps k).
Proof.
  induction n as [|n IH]; intros k arr Hk; cbn [parseNumberArrayLoop].
  - tstep.
  - cbv zeta. tstep. tstep; [repeat tstep|].
    apply T_next.
    + intros numTok k' -> _.
      assert (Happ : forall f,
                Triple (Below k')
                  (tok0 <- peek opt ;;
                   if tokenType_eqb (Type_ tok0) tokComma
                   then skip opt ;;; parseNumberArrayLoop opt relaxed n
                                       (arr ++ [f])
                   else if tokenType_eqb (Type_ tok0) tokRBrace
                        then parseNumberArrayLoop opt relaxed n (arr ++ [f])
                        else fail (errorf tok0
                                     (lit "expected ',' or '}' in array")))
                  (Keeps (S k'))).
      { intros f. tstep. tstep; [tstep|tstep; [|tstep]]; tcall IH. }
      destruct (parseNumberToken numTok); [apply Happ|].
      destruct (negb relaxed); [tstep|apply Happ].
    + intros numTok Heof.
      assert (Happ : forall f,
                Triple (AtEnd k)
                  (tok0 <- peek opt ;;
                   if tokenType_eqb (Type_ tok0) tokComma
                   then skip opt ;;; parseNumberArrayLoop opt relaxed n
                                       (arr ++ [f])
                   else if tokenType_eqb (Type_ tok0) tokRBrace
                        then parseNumberArrayLoop opt relaxed n (arr ++ [f])
                        else fail (errorf tok0
                                     (lit "expected ',' or '}' in array")))
                  (Keeps k)).
      { intros f. tstep. rewrite Heof0. cbn. tstep. }
      destruct (parseNumberToken numTok); [apply Happ|].
      destruct (negb relaxed); [tstep|apply Happ].
Qed.


Lemma parseNumberArray_left n k :
  (k <= S n)%nat -> Triple (Below k) (parseNumberArray opt n) (Eats k).
Proof.
  intros Hk. unfold parseNumberArray, parseNumberArrayWithRelax. tstep.
  tcall parseNumberArrayLoop_left.
Qed.

Lemma parseNumberValue_left k :
  Triple (Below k) (parseNumberValue opt) (Eats k).
Proof. unfold parseNumberValue. repeat tstep. Qed.

Lemma parseStringValue_left k :
  Triple (Below k) (parseStringValue opt) (Eats k).
Proof.
  unfold parseStringValue. tstep.
  - repeat tstep.
  - rewrite Heof. tstep.
Qed.

Lemma parseStringOrNumberValue_left relaxed k :
  Triple (Below k) (parseStringOrNumberValue opt relaxed) (Keeps k).
Proof.
  unfold parseStringOrNumberValue. tstep.
  - repeat tstep.
  - rewrite Heof. repeat tstep.
Qed.

Lemma parseArrayLoop_left pv N :
  (forall k, (k <= N)%nat -> Triple (Below k) pv (Eats k)) ->
  forall n k arr, (n <= N)%nat -> (k <= n)%nat ->
  Triple (Below k) (parseArrayLoop opt pv n arr) (Keeps k).
Proof.
  intros Hpv. induction n as [|n IH]; intros k arr HN Hk;
    cbn [parseArrayLoop].
  - tstep.
  - tstep. tstep; [repeat tstep|]. teat Hpv. cbv zeta. tstep.
    tstep; [tstep|tstep; [|tstep]]; tcall IH.
Qed.

Lemma parseValue_left n : forall k,
  (k <= n)%nat -> Triple (Below k) (parseValue opt n) (Eats k).
Proof.
  induction n as [|n IH]; intros k Hk; cbn [parseValue].
  - tstep.
  - tstep.
    + destruct (Type_ tok) eqn:Ht; repeat tstep.
      eapply T_keep.
      { apply (parseArrayLoop_left (parseValue opt n) n);
          [intros k1 Hk1; apply IH; exact Hk1|lia|lia]. }
      intros arr. tstep.
    + rewrite Heof. tstep.
Qed.

Lemma parseAssign_left n k :
  (k <= S n)%nat -> Triple (Below k) (parseAssign opt n) (Eats k).
Proof.
  intros Hk. unfold parseAssign. tstep. tkeep parseArraySuffix_left.
  tstep. teat parseValue_left. repeat tstep.
Qed.

Lemma parseBodyLoop_left pn N :
  (forall k, (k <= N)%nat -> Triple (Below k) pn (Eats k)) ->
  forall n k body, (n <= N)%nat -> (k <= n)%nat ->
  Triple (Below k) (parseBodyLoop opt pn n body) (Keeps k).
Proof.
  intros Hpn. induction n as [|n IH]; intros k body HN Hk;
    cbn [parseBodyLoop].
  - tstep.
  - tstep. tstep; [repeat tstep|]. teat Hpn. tcall IH.
Qed.

Lemma parseClassWith_left pn n k :
  (forall k, (k <= n)%nat -> Triple (Below k) pn (Eats k)) ->
  (k <= S n)%nat -> Triple (Below k) (parseClassWith opt pn n) (Eats k).
Proof.
  intros Hpn Hk. unfold parseClassWith. tstep. tstep.
  tkeep parseBase_left. tstep.
  eapply T_keep; [apply (parseBodyLoop_left pn n Hpn); lia|]. intros body.
  repeat tstep.
Qed.

Lemma parseNode_left n : forall k,
  (k <= n)%nat -> Triple (Below k) (parseNode opt n) (Eats k).
Proof.
  induction n as [|n IH]; intros k Hk; cbn [parseNode].
  - tstep.
  - tstep. tstep.
    + apply parseClassWith_left; [exact IH|lia].
    + apply parseAssign_left. lia.
Qed.

Lemma parseClassBody_left n name base k :
  (k <= S n)%nat ->
  Triple (Below k) (parseClassBody opt n name base) (Eats k).
Proof.
  intros Hk. unfold parseClassBody. tstep.
  eapply T_keep;
    [apply (parseBodyLoop_left (parseNode opt n) n (parseNode_left n)); lia|].
  intros body. repeat tstep.
Qed.

Lemma parseUVTransformLoop_left n : forall k uv,
  (k <= n)%nat ->
  Triple (Below k) (parseUVTransformLoop opt n uv) (Keeps k).
Proof.
  induction n as [|n IH]; intros k uv Hk; cbn [parseUVTransformLoop].
  - tstep.
  - tstep. tstep; [repeat tstep|]. tstep. tkeep parseArraySuffix_left.
    tstep. teat parseNumberArray_left. cbv zeta. tstep. tcall IH.
Qed.

Lemma parseUVTransformBody_left n k :
  (k <= S n)%nat -> Triple (Below k) (parseUVTransformBody opt n) (Eats k).
Proof.
  intros Hk. unfold parseUVTransformBody. tstep.
  tkeep parseUVTransformLoop_left. repeat tstep.
Qed.

(** *** Stages, texture generators and the top level *)

Lemma parseStageClass_left n st k :
  (k <= S n)%nat -> Triple (Below k) (parseStageClass opt n st) (Eats k).
Proof.
  intros Hk. unfold parseStageClass. tstep. tstep. tkeep parseBase_left.
  tstep.
  - teat parseUVTransformBody_left. tstep.
  - teat parseClassBody_left. tstep.
Qed.

Lemma parseStageAssign_left n st k :
  (k <= S n)%nat -> Triple (Below k) (parseStageAssign opt n st) (Eats k).
Proof.
  intros Hk. unfold parseStageAssign. tstep. tkeep parseArraySuffix_left.
  tstep. cbv zeta.
  match goal with
  | |- Triple (Below ?kk) _ _ =>
      assert (Hgen : forall name (isArray : bool),
                Triple (Below kk)
                  (val <- parseValue opt n ;;
                   expectSemicolon opt ;;;
                   ret (stAddExtra st (NAssign name isArray val)))
                  (Eats (S (S kk))))
  end.
  { intros name isArray. teat parseValue_left. repeat tstep. }
  repeat tstep; try apply Hgen.
  - teat parseStringValue_left. repeat tstep.
  - teat parseStringValue_left. repeat tstep.
  - tkeep parseStringOrNumberValue_left. repeat tstep.
Qed.

Lemma parseStageLoop_left n : forall k st,
  (k <= n)%nat -> Triple (Below k) (parseStageLoop opt n st) (Keeps k).
Proof.
  induction n as [|n IH]; intros k st Hk; cbn [parseStageLoop].
  - tstep.
  - tstep. tstep; [repeat tstep|]. tstep.
    + teat parseStageClass_left. tcall IH.
    + teat parseStageAssign_left. tcall IH.
Qed.

Lemma parseStageBody_left n name k :
  (k <= S n)%nat -> Triple (Below k) (parseStageBody opt n name) (Eats k).
Proof.
  intros Hk. unfold parseStageBody. tstep. tkeep parseStageLoop_left.
  repeat tstep.
Qed.

Lemma parseTexGenClass_left n tg k :
  (k <= S n)%nat -> Triple (Below k) (parseTexGenClass opt n tg) (Eats k).
Proof.
  intros Hk. unfold parseTexGenClass. tstep. tstep. tkeep parseBase_left.
  tstep.
  - teat parseUVTransformBody_left. tstep.
  - teat parseClassBody_left. tstep.
Qed.

Lemma parseTexGenAssign_left n tg k :
  (k <= S n)%nat -> Triple (Below k) (parseTexGenAssign opt n tg) (Eats k).
Proof.
  intros Hk. unfold parseTexGenAssign. tstep. tkeep parseArraySuffix_left.
  tstep. cbv zeta.
  match goal with
  | |- Triple (Below ?kk) _ _ =>
      assert (Hgen : forall name (isArray : bool),
                Triple (Below kk)
                  (val <- parseValue opt n ;;
                   expectSemicolon opt ;;;
                   ret (tgAddExtra tg (NAssign name isArray val)))
                  (Eats (S (S kk))))
  end.
  { intros name isArray. teat parseValue_left. repeat tstep. }
  repeat tstep; try apply Hgen.
  teat parseStringValue_left. repeat tstep.
Qed.

Lemma parseTexGenLoop_left n : forall k tg,
  (k <= n)%nat -> Triple (Below k) (parseTexGenLoop opt n tg) (Keeps k).
Proof.
  induction n as [|n IH]; intros k tg Hk; cbn [parseTexGenLoop].
  - tstep.
  - tstep. tstep; [repeat tstep|]. tstep.
    + teat parseTexGenClass_left. tcall IH.
    + teat parseTexGenAssign_left. tcall IH.
Qed.

Lemma parseTexGenBody_left n name base k :
  (k <= S n)%nat ->
  Triple (Below k) (parseTexGenBody opt n name base) (Eats k).
Proof.
  intros Hk. unfold parseTexGenBody. tstep. tkeep parseTexGenLoop_left.
  repeat tstep.
Qed.

Lemma parseTopClass_left n m k :
  (k <= S n)%nat -> Triple (Below k) (parseTopClass opt n m) (Eats k).
Proof.
  intros Hk. unfold parseTopClass. tstep. tstep. tkeep parseBase_left.
  cbv zeta. tstep; [|tstep].
  - teat parseStageBody_left. tstep.
  - teat parseTexGenBody_left. tstep.
  - teat parseClassBody_left. tstep.
Qed.

Lemma parseTopAssign_left n m k :
  (k <= S n)%nat -> Triple (Below k) (parseTopAssign opt n m) (Eats k).
Proof.
  intros Hk. unfold parseTopAssign. tstep. tkeep parseArraySuffix_left.
  tstep. cbv zeta.
  match goal with
  | |- Triple (Below ?kk) _ _ =>
      assert (Hgen : forall name (isArray : bool),
                Triple (Below kk)
                  (val <- parseValue opt n ;;
                   expectSemicolon opt ;;;
                   ret (mAddExtra m (NAssign name isArray val)))
                  (Eats (S (S kk))))
  end.
  { intros name isArray. teat parseValue_left. repeat tstep. }
  tstep.
  - tstep; [|apply Hgen]. teat parseNumberArray_left. tstep. tstep.
  - repeat tstep; try apply Hgen.
    + teat parseNumberValue_left. repeat tstep.
    + teat parseStringValue_left. repeat tstep.
    + teat parseStringValue_left. repeat tstep.
Qed.

Lemma parseMaterialLoop_left n : forall k m,
  (k <= n)%nat -> Triple (Below k) (parseMaterialLoop opt n m) (Keeps k).
Proof.
  induction n as [|n IH]; intros k m Hk; cbn [parseMaterialLoop].
  - tstep.
  - tstep. tstep; [tstep|]. tstep.
    + teat parseTopClass_left. tcall IH.
    + teat parseTopAssign_left. tcall IH.
Qed.

Lemma newLexer_left input :
  (lexLeft (newLexer input) <= S (length input))%nat.
Proof.
  unfold newLexer.
  set (l0 := mkLexer input 0 false 1 0).
  assert (H0 : lexLeft l0 = S (length input)) by reflexivity.
  pose proof (lread_le l0). pose proof (lread_le (lread l0)).
  cbv zeta. destruct (lch (lread l0) =? 65279); lia.
Qed.

(** With the fuel of [Decode] the parser never runs out of fuel. *)
Lemma parseMaterial_fuel input n :
  (S (S (length input)) <= n)%nat ->
  fst (parseMaterial opt n (newParser input)) <> Err ErrFuel.
Proof.
  intros Hn. unfold parseMaterial.
  pose proof (parseMaterialLoop_left n n Material0 (le_n n)
                (newParser input) I) as H.
  pose proof (newLexer_left input) as Hl.
  destruct (parseMaterialLoop opt n Material0 (newParser input))
    as [[m|e] p'].
  - cbn. discriminate.
  - cbn. intros Heq. injection Heq as ->. apply H; [|reflexivity].
    unfold Below, tokensLeft, newParser. cbn [pbuf pl]. lia.
Qed.

End ParserLeft.

Section FuelStable.
Context {U : Unicode} {F : Strconv}.
Variable opt : ParseOptions.

(** A result that is the marker of a loop out of fuel. *)
Definition outOfFuel {A} (r : res A) : bool :=
  match r with
  | Err ErrFuel => true
  | _ => false
  end.

(** [Mono c c']: where [c] does not run out of fuel, [c'] does what [c]
    does. *)
Definition Mono {A} (c c' : M A) : Prop :=
  forall p, outOfFuel (fst (c p)) = false -> c' p = c p.

Lemma Mono_refl {A} (c : M A) : Mono c c.
Proof. intros p _. reflexivity. Qed.

Lemma Mono_fuel {A} (c' : M A) : Mono (fail ErrFuel) c'.
Proof. intros p H. discriminate H. Qed.

Lemma Mono_bind {A B} (c c' : M A) (k k' : A -> M B) :
  Mono c c' -> (forall a, Mono (k a) (k' a)) -> Mono (bind c k) (bind c' k').
Proof.
  intros Hc Hk p H. unfold bind in *.
  destruct (c p) as [[a|e] p1] eqn:Hcp.
  - rewrite (Hc p) by (rewrite Hcp; reflexivity). rewrite Hcp.
    apply Hk. exact H.
  - rewrite (Hc p) by (rewrite Hcp; exact H). rewrite Hcp. reflexivity.
Qed.

Ltac mstep :=
  first
    [ apply Mono_refl
    | apply Mono_fuel
    | assumption
    | lazymatch goal with
      | |- Mono (bind _ _) (bind _ _) => apply Mono_bind; [|intros ?]
      | |- Mono (if ?b then _ else _) _ => destruct b
      | |- Mono (match ?x with _ => _ end) _ => destruct x
      end ].

Lemma parseNumberArrayLoop_step relaxed n : forall m arr,
  m = S n ->
  Mono (parseNumberArrayLoop opt relaxed n arr)
    (parseNumberArrayLoop opt relaxed m arr).
Proof.
  induction n as [|n IH]; intros m arr Hm; [apply Mono_fuel|].
  destruct m as [|m]; [discriminate|]. injection Hm as Hm.
  cbn [parseNumberArrayLoop]. cbv zeta. repeat mstep; apply IH; exact Hm.
Qed.

Lemma parseNumberArray_mono n :
  Mono (parseNumberArray opt n) (parseNumberArray opt (S n)).
Proof.
  unfold parseNumberArray, parseNumberArrayWithRelax. mstep; [mstep|].
  apply parseNumberArrayLoop_step. reflexivity.
Qed.

Lemma parseArrayLoop_step pv pv' :
  Mono pv pv' ->
  forall n m arr, m = S n ->
  Mono (parseArrayLoop opt pv n arr) (parseArrayLoop opt pv' m arr).
Proof.
  intros Hpv. induction n as [|n IH]; intros m arr Hm; [apply Mono_fuel|].
  destruct m as [|m]; [discriminate|]. injection Hm as Hm.
  cbn [parseArrayLoop]. cbv zeta. repeat mstep; apply IH; exact Hm.
Qed.

Lemma parseValue_step n : forall m,
  m = S n -> Mono (parseValue opt n) (parseValue opt m).
Proof.
  induction n as [|n IH]; intros m Hm; [apply Mono_fuel|].
  destruct m as [|m]; [discriminate|]. injection Hm as Hm.
  cbn [parseValue]. repeat mstep.
  apply parseArrayLoop_step; [apply IH; exact Hm|exact Hm].
Qed.

Lemma parseValue_mono n : Mono (parseValue opt n) (parseValue opt (S n)).
Proof. apply parseValue_step. reflexivity. Qed.

Lemma parseAssign_mono n : Mono (parseAssign opt n) (parseAssign opt (S n)).
Proof. unfold parseAssign. repeat mstep. apply parseValue_mono. Qed.

Lemma parseBodyLoop_step pn pn' :
  Mono pn pn' ->
  forall n m body, m = S n ->
  Mono (parseBodyLoop opt pn n body) (parseBodyLoop opt pn' m body).
Proof.
  intros Hpn. induction n as [|n IH]; intros m body Hm; [apply Mono_fuel|].
  destruct m as [|m]; [discriminate|]. injection Hm as Hm.
  cbn [parseBodyLoop]. repeat mstep; apply IH; exact Hm.
Qed.

Lemma parseNode_step n : forall m,
  m = S n -> Mono (parseNode opt n) (parseNode opt m).
Proof.
  induction n as [|n IH]; intros m Hm; [apply Mono_fuel|].
  destruct m as [|m]; [discriminate|]. injection Hm as Hm.
  cbn [parseNode]. mstep; [mstep|]. mstep.
  - unfold parseClassWith. repeat mstep.
    apply parseBodyLoop_step; [apply IH; exact Hm|exact Hm].
  - subst m. apply parseAssign_mono.
Qed.

Lemma parseNode_mono n : Mono (parseNode opt n) (parseNode opt (S n)).
Proof. apply parseNode_step. reflexivity. Qed.

Lemma parseClassBody_mono n name base :
  Mono (parseClassBody opt n name base) (parseClassBody opt (S n) name base).
Proof.
  unfold parseClassBody. repeat mstep.
  apply parseBodyLoop_step; [apply parseNode_mono|reflexivity].
Qed.

Lemma parseUVTransformLoop_step n : forall m uv,
  m = S n ->
  Mono (parseUVTransformLoop opt n uv) (parseUVTransformLoop opt m uv).
Proof.
  induction n as [|n IH]; intros m uv Hm; [apply Mono_fuel|].
  destruct m as [|m]; [discriminate|]. injection Hm as Hm.
  cbn [parseUVTransformLoop]. cbv zeta.
  mstep; [mstep|]. mstep; [mstep|]. mstep; [mstep|]. mstep; [mstep|].
  mstep; [mstep|]. mstep; [subst m; apply parseNumberArray_mono|].
  mstep; [mstep|]. apply IH. exact Hm.
Qed.

Lemma parseUVTransformBody_mono n :
  Mono (parseUVTransformBody opt n) (parseUVTransformBody opt (S n)).
Proof.
  unfold parseUVTransformBody. repeat mstep.
  apply parseUVTransformLoop_step. reflexivity.
Qed.

Lemma parseStageClass_mono n st :
  Mono (parseStageClass opt n st) (parseStageClass opt (S n) st).
Proof.
  unfold parseStageClass. repeat mstep.
  - apply parseUVTransformBody_mono.
  - apply parseClassBody_mono.
Qed.

Lemma parseStageAssign_mono n st :
  Mono (parseStageAssign opt n st) (parseStageAssign opt (S n) st).
Proof.
  unfold parseStageAssign. cbv zeta. repeat mstep; apply parseValue_mono.
Qed.

Lemma parseStageLoop_step n : forall m st,
  m = S n -> Mono (parseStageLoop opt n st) (parseStageLoop opt m st).
Proof.
  induction n as [|n IH]; intros m st Hm; [apply Mono_fuel|].
  destruct m as [|m]; [discriminate|]. injection Hm as Hm.
  cbn [parseStageLoop]. mstep; [mstep|]. mstep; [mstep|]. mstep.
  - mstep; [subst m; apply parseStageClass_mono|]. apply IH. exact Hm.
  - mstep; [subst m; apply parseStageAssign_mono|]. apply IH. exact Hm.
Qed.

Lemma parseStageBody_mono n name :
  Mono (parseStageBody opt n name) (parseStageBody opt (S n) name).
Proof.
  unfold parseStageBody. repeat mstep. apply parseStageLoop_step.
  reflexivity.
Qed.

Lemma parseTexGenClass_mono n tg :
  Mono (parseTexGenClass opt n tg) (parseTexGenClass opt (S n) tg).
Proof.
  unfold parseTexGenClass. repeat mstep.
  - apply parseUVTransformBody_mono.
  - apply parseClassBody_mono.
Qed.

Lemma parseTexGenAssign_mono n tg :
  Mono (parseTexGenAssign opt n tg) (parseTexGenAssign opt (S n) tg).
Proof.
  unfold parseTexGenAssign. cbv zeta. repeat mstep; apply parseValue_mono.
Qed.

Lemma parseTexGenLoop_step n : forall m tg,
  m = S n -> Mono (parseTexGenLoop opt n tg) (parseTexGenLoop opt m tg).
Proof.
  induction n as [|n IH]; intros m tg Hm; [apply Mono_fuel|].
  destruct m as [|m]; [discriminate|]. injection Hm as Hm.
  cbn [parseTexGenLoop]. mstep; [mstep|]. mstep; [mstep|]. mstep.
  - mstep; [subst m; apply parseTexGenClass_mono|]. apply IH. exact Hm.
  - mstep; [subst m; apply parseTexGenAssign_mono|]. apply IH. exact Hm.
Qed.

Lemma parseTexGenBody_mono n name base :
  Mono (parseTexGenBody opt n name base) (parseTexGenBody opt (S n) name base).
Proof.
  unfold parseTexGenBody. repeat mstep. apply parseTexGenLoop_step.
  reflexivity.
Qed.

Lemma parseTopClass_mono n m :
  Mono (parseTopClass opt n m) (parseTopClass opt (S n) m).
Proof.
  unfold parseTopClass. cbv zeta. repeat mstep.
  - apply parseStageBody_mono.
  - apply parseTexGenBody_mono.
  - apply parseClassBody_mono.
Qed.

Lemma parseTopAssign_mono n m :
  Mono (parseTopAssign opt n m) (parseTopAssign opt (S n) m).
Proof.
  unfold parseTopAssign. cbv zeta.
  repeat mstep; first [apply parseValue_mono|apply parseNumberArray_mono].
Qed.

Lemma parseMaterialLoop_step n : forall m m0,
  m = S n -> Mono (parseMaterialLoop opt n m0) (parseMaterialLoop opt m m0).
Proof.
  induction n as [|n IH]; intros m m0 Hm; [apply Mono_fuel|].
  destruct m as [|m]; [discriminate|]. injection Hm as Hm.
  cbn [parseMaterialLoop]. mstep; [mstep|]. mstep; [mstep|]. mstep.
  - mstep; [subst m; apply parseTopClass_mono|]. apply IH. exact Hm.
  - mstep; [subst m; apply parseTopAssign_mono|]. apply IH. exact Hm.
Qed.

(** More fuel than [Decode] gives changes nothing. *)
Lemma parseMaterial_stable input k :
  parseMaterial opt (S (S (length input)) + k) (newParser input)
  = parseMaterial opt (S (S (length input))) (newParser input).
Proof.
  induction k as [|k IH]; [rewrite Nat.add_0_r; reflexivity|].
  rewrite <- IH. rewrite Nat.add_succ_r. unfold parseMaterial.
  apply parseMaterialLoop_step; [reflexivity|].
  pose proof (parseMaterial_fuel opt input (S (S (length input)) + k)) as H.
  unfold parseMaterial in H.
  destruct (fst (parseMaterialLoop opt _ Material0 (newParser input)))
    as [m|e]; [reflexivity|].
  destruct e; try reflexivity. exfalso. apply H; [lia|reflexivity].
Qed.

End FuelStable.

Section LexerFuel.
Context {U : Unicode} {F : Strconv}.
Variable opt : ParseOptions.

(** The characters a lexer in any state can still read. *)
Definition rawLeft (l : lexer) : nat :=
  (length (lr l) + if leof l then 0 else 1)%nat.

Lemma rawLeft_fuel l : (rawLeft l < lfuel l)%nat.
Proof. unfold rawLeft, lfuel. destruct (leof l); lia. Qed.

Lemma lread_raw_le l : (rawLeft (lread l) <= rawLeft l)%nat.
Proof.
  unfold rawLeft, lread. destruct (lr l) as [|c rest]; cbn; [lia|].
  destruct (c =? 10); cbn; destruct (leof l); lia.
Qed.

Lemma lread_raw_lt l :
  rawLeft l <> O -> (rawLeft (lread l) < rawLeft l)%nat.
Proof.
  unfold rawLeft, lread. destruct (lr l) as [|c rest]; cbn.
  - destruct (leof l); lia.
  - destruct (c =? 10); cbn; destruct (leof l); lia.
Qed.

Lemma rawLeft_live l : leof l = false -> rawLeft l <> O.
Proof. unfold rawLeft. intros ->. lia. Qed.

Lemma lread_live l : leof (lread l) = false -> rawLeft l <> O.
Proof.
  unfold rawLeft, lread. destruct (lr l) as [|c rest]; cbn; [discriminate|].
  intros _. lia.
Qed.

Lemma lread_end l : rawLeft l = O -> lch (lread l) = 0.
Proof.
  unfold rawLeft, lread. destruct (lr l) as [|c rest]; cbn; [reflexivity|].
  lia.
Qed.

Lemma skipSpaces_step n : forall m l,
  m = S n -> (rawLeft l < n)%nat -> skipSpaces m l = skipSpaces n l.
Proof.
  induction n as [|n IH]; intros m l Hm Hl; [lia|].
  destruct m as [|m]; [discriminate|]. injection Hm as Hm.
  cbn [skipSpaces]. destruct (IsSpace (lch l)); [|reflexivity].
  destruct (leof (lread l)) eqn:He; [reflexivity|].
  apply IH; [exact Hm|]. pose proof (lread_raw_lt l (lread_live l He)). lia.
Qed.

Lemma skipLine_step n : forall m l,
  m = S n -> (rawLeft l < n)%nat -> skipLine m l = skipLine n l.
Proof.
  induction n as [|n IH]; intros m l Hm Hl; [lia|].
  destruct m as [|m]; [discriminate|]. injection Hm as Hm.
  cbn [skipLine]. destruct (lch l =? 10); cbn [negb andb]; [reflexivity|].
  destruct (leof l) eqn:He; cbn [negb]; [reflexivity|].
  apply IH; [exact Hm|]. pose proof (lread_raw_lt l (rawLeft_live l He)). lia.
Qed.

Lemma skipBlock_step n : forall m l,
  m = S n -> (rawLeft l < n)%nat -> skipBlock m l = skipBlock n l.
Proof.
  induction n as [|n IH]; intros m l Hm Hl; [lia|].
  destruct m as [|m]; [discriminate|]. injection Hm as Hm.
  cbn [skipBlock]. destruct (leof l) eqn:He; [reflexivity|].
  destruct ((lch l =? 42) && (lpeek l =? 47)); [reflexivity|].
  apply IH; [exact Hm|]. pose proof (lread_raw_lt l (rawLeft_live l He)). lia.
Qed.

Lemma readWhile_step part n : forall m l b,
  m = S n -> (rawLeft l < n)%nat -> readWhile part m l b = readWhile part n l b.
Proof.
  induction n as [|n IH]; intros m l b Hm Hl; [lia|].
  destruct m as [|m]; [discriminate|]. injection Hm as Hm.
  cbn [readWhile]. destruct (part (lch l)); [|reflexivity].
  cbv zeta. destruct (leof (lread l)) eqn:He; [reflexivity|].
  apply IH; [exact Hm|]. pose proof (lread_raw_lt l (lread_live l He)). lia.
Qed.

Lemma readStringLoop_step n : forall m l b,
  m = S n -> (rawLeft l < n)%nat ->
  readStringLoop m l b = readStringLoop n l b.
Proof.
  induction n as [|n IH]; intros m l b Hm Hl; [lia|].
  destruct m as [|m]; [discriminate|]. injection Hm as Hm.
  cbn [readStringLoop]. destruct (leof l) eqn:He; [reflexivity|].
  pose proof (lread_raw_lt l (rawLeft_live l He)).
  pose proof (lread_raw_le (lread l)).
  destruct (lch l =? 34).
  - destruct (lpeek l =? 34); [|reflexivity]. apply IH; [exact Hm|lia].
  - destruct ((lch l =? 92) && ((lpeek l =? 92) || (lpeek l =? 34)));
      cbv zeta; apply IH; try exact Hm; lia.
Qed.

Lemma skipSpaces_raw_le n : forall l,
  (rawLeft (fst (skipSpaces n l)) <= rawLeft l)%nat.
Proof.
  induction n as [|n IH]; intros l; cbn [skipSpaces fst]; [lia|].
  destruct (IsSpace (lch l)); cbn [fst]; [|lia].
  pose proof (lread_raw_le l). destruct (leof (lread l)); cbn [fst]; [lia|].
  specialize (IH (lread l)). lia.
Qed.

Lemma skipLine_raw_le n : forall l,
  (rawLeft (skipLine n l) <= rawLeft l)%nat.
Proof.
  induction n as [|n IH]; intros l; cbn [skipLine]; [lia|].
  destruct (negb (lch l =? 10) && negb (leof l)); [|lia].
  pose proof (lread_raw_le l). specialize (IH (lread l)). lia.
Qed.

Lemma skipBlock_raw_le n : forall l,
  (rawLeft (fst (skipBlock n l)) <= rawLeft l)%nat.
Proof.
  induction n as [|n IH]; intros l; cbn [skipBlock fst]; [lia|].
  destruct (leof l); cbn [fst]; [lia|].
  pose proof (lread_raw_le l). pose proof (lread_raw_le (lread l)).
  destruct ((lch l =? 42) && (lpeek l =? 47)); cbn [fst]; [lia|].
  specialize (IH (lread l)). lia.
Qed.

Lemma IsSpace_zero : IsSpace 0 = false.
Proof. reflexivity. Qed.

(** At the end of the input the loop over white space and comments
    does nothing, whatever its fuel. *)
Lemma skipWhitespaceLoop_end n l :
  lch l = 0 -> skipWhitespaceLoop opt n l = l.
Proof.
  intros Hc. destruct n as [|n]; [reflexivity|]. cbn [skipWhitespaceLoop].
  unfold lfuel. cbn [skipSpaces]. rewrite Hc, IsSpace_zero.
  rewrite Hc. cbn. rewrite andb_false_r. reflexivity.
Qed.

Lemma skipWhitespaceLoop_step n : forall m l,
  m = S n -> (rawLeft l < n)%nat ->
  skipWhitespaceLoop opt m l = skipWhitespaceLoop opt n l.
Proof.
  induction n as [|n IH]; intros m l Hm Hl; [lia|].
  destruct m as [|m]; [discriminate|]. injection Hm as Hm.
  cbn [skipWhitespaceLoop].
  pose proof (skipSpaces_raw_le (lfuel l) l) as H1.
  destruct (skipSpaces (lfuel l) l) as [l1 atEnd]. cbn [fst] in H1.
  destruct atEnd; [reflexivity|].
  destruct (negb (DisableComments opt) && (lch l1 =? 47)); [|reflexivity].
  pose proof (lread_raw_le l1). pose proof (lread_raw_le (lread l1)).
  destruct (Nat.eq_dec (rawLeft l1) O) as [Hz|Hz].
  - (* the lexer is at the end: the comment is empty *)
    assert (Hc : lch (lread (lread l1)) = 0).
    { apply lread_end. lia. }
    assert (He : leof (lread (lread l1)) = true).
    { unfold rawLeft in *. destruct (leof (lread (lread l1))); [reflexivity|].
      lia. }
    destruct (lpeek l1 =? 47).
    + cbv zeta. unfold lfuel. cbn [skipLine]. rewrite He.
      rewrite andb_false_r. rewrite !skipWhitespaceLoop_end by exact Hc.
      reflexivity.
    + destruct (lpeek l1 =? 42); [|reflexivity]. cbv zeta.
      unfold lfuel. cbn [skipBlock]. rewrite He. reflexivity.
  - pose proof (lread_raw_lt l1 Hz).
    destruct (lpeek l1 =? 47).
    + cbv zeta. apply IH; [exact Hm|].
      pose proof (skipLine_raw_le (lfuel (lread (lread l1)))
                    (lread (lread l1))). lia.
    + destruct (lpeek l1 =? 42); [|reflexivity]. cbv zeta.
      pose proof (skipBlock_raw_le (lfuel (lread (lread l1)))
                    (lread (lread l1))) as H4.
      destruct (skipBlock _ _) as [l3 atEnd3]. cbn [fst] in H4.
      destruct atEnd3; [reflexivity|]. apply IH; [exact Hm|lia].
Qed.

(** X6. The loops of the lexer read a character per turn, so the fuel
    the model gives them is never used up: with any more fuel each loop
    returns what it returns with the fuel [lfuel], in every state of the
    lexer. *)
Theorem lexer_fuel_stable (l : lexer) (k : nat) :
  skipSpaces (lfuel l + k) l = skipSpaces (lfuel l) l
  /\ skipLine (lfuel l + k) l = skipLine (lfuel l) l
  /\ skipBlock (lfuel l + k) l = skipBlock (lfuel l) l
  /\ skipWhitespaceLoop opt (lfuel l + k) l = skipWhitespace opt l
  /\ (forall part b,
        readWhile part (lfuel l + k) l b = readWhile part (lfuel l) l b)
  /\ (forall b,
        readStringLoop (lfuel l + k) l b = readStringLoop (lfuel l) l b
        /\ snd (fst (readStringLoop (lfuel l) l b)) <> Some ErrFuel).
Proof.
  pose proof (rawLeft_fuel l) as Hf. unfold skipWhitespace.
  induction k as [|k (H1 & H2 & H3 & H4 & H5 & H6)].
  - rewrite Nat.add_0_r. repeat split; try reflexivity.
    apply readStringLoop_fuel. apply lexLeft_fuel.
  - rewrite Nat.add_succ_r.
    rewrite <- H1, <- H2, <- H3, <- H4.
    split; [apply skipSpaces_step; [reflexivity|lia]|].
    split; [apply skipLine_step; [reflexivity|lia]|].
    split; [apply skipBlock_step; [reflexivity|lia]|].
    split; [apply skipWhitespaceLoop_step; [reflexivity|lia]|].
    split.
    + intros part b. rewrite <- H5. apply readWhile_step; [reflexivity|lia].
    + intros b. destruct (H6 b) as [H6a H6b]. split; [|exact H6b].
      rewrite <- H6a. apply readStringLoop_step; [reflexivity|lia].
Qed.

(** X5. [Parse] ends on every input: every turn of a loop of the parser
    takes a token, so the fuel that [Decode] is given is never used up,
    and with any more fuel the parser returns the same result. *)
Theorem parse_terminates (data : list byte) (o : option ParseOptions) :
  Parse data o <> Err ErrFuel
  /\ forall k,
       (if isBinaryRVMAT data then Err ErrBinaryRVMAT
        else fst (parseMaterial (normalizeParseOptions o)
                    (S (S (length (utf8_decode data))) + k)
                    (newParser (utf8_decode data))))
       = Parse data o.
Proof.
  unfold Parse, Decode. split.
  - destruct (isBinaryRVMAT data); [discriminate|]. cbv zeta.
    apply parseMaterial_fuel. lia.
  - intros k. destruct (isBinaryRVMAT data); [reflexivity|]. cbv zeta.
    rewrite parseMaterial_stable. reflexivity.
Qed.

End LexerFuel.


(* ================================================================== *)
(** ** The errors of the validator *)

Section ValidatorErrors.
Context {U : Unicode} {F : Strconv} {L : Lists} {H : Host}.

(** The colour arrays [Validate] checks, under the names it reports. *)
Definition colorFields (m : Material) : list (string * list float64) :=
  [("ambient"%string, Ambient m); ("diffuse"%string, Diffuse m);
   ("forcedDiffuse"%string, ForcedDiffuse m);
   ("emmisive"%string, Emmisive m); ("specular"%string, Specular m)].

(** A colour array that is neither empty nor of four components. *)
Definition badColor (vals : list float64) : bool :=
  negb ((length vals =? 0)%nat || (length vals =? 4)%nat).

Definition colorError (name : string) : Issue :=
  errorIssue "color must have 4 components" (lit name).

(** The [duplicate Stage name] errors about the name [n]. *)
Definition isDupFor (n : str) (i : Issue) : bool :=
  str_eqb (Message i) (lit "duplicate Stage name") && str_eqb (Path i) n.

(** The number of stages of the name [n]. *)
Definition named (n : str) (stages : list Stage) : nat :=
  length (filter (fun st => str_eqb (StageName st) n) stages).

Lemma validateColor_bad name vals :
  validateColor name vals = if badColor vals then [colorError name] else [].
Proof.
  unfold validateColor, badColor. destruct vals as [|v vals]; [reflexivity|].
  cbn [length Nat.eqb orb]. reflexivity.
Qed.

Lemma Forall_flat_map_all {A B} (P : B -> Prop) (f : A -> list B) xs :
  (forall x, Forall P (f x)) -> Forall P (flat_map f xs).
Proof.
  intros Hf. induction xs as [|x xs IH]; cbn; [constructor|].
  apply Forall_app. split; [apply Hf|exact IH].
Qed.

Ltac all_tac :=
  repeat match goal with
  | |- Forall _ (_ ++ _) => apply Forall_app; split
  | |- Forall _ (flat_map _ _) => apply Forall_flat_map_all; intros ?
  | |- Forall _ (if ?b then _ else _) => destruct b
  | |- Forall _ (match ?x with _ => _ end) => destruct x
  | |- Forall _ (let _ := _ in _) => cbv zeta
  | |- Forall _ [] => constructor
  | |- Forall _ (_ :: _) => constructor
  | |- _ = _ => reflexivity
  end.

(** The checks other than the two that report errors. *)
Definition warningChecks (vopt : ValidateOptions) (m : Material)
  : list (list Issue) :=
  [missingShaderIssues m; shaderNameIssues vopt m; allTextureIssues vopt m;
   flat_map (stageIssues vopt) (Stages m)].

Lemma warningChecks_warn vopt m part :
  In part (warningChecks vopt m) ->
  Forall (fun i => Level i = IssueWarning) part.
Proof.
  intros [<-|[<-|[<-|[<-|[]]]]].
  - unfold missingShaderIssues. all_tac.
  - unfold shaderNameIssues. all_tac.
  - unfold allTextureIssues, textureIssues. all_tac.
  - unfold stageIssues, stageNameIssues, uvWiringIssues. all_tac.
Qed.

Lemma warningChecks_other vopt m part n :
  In part (warningChecks vopt m) ->
  Forall (fun i => isDupFor n i = false) part.
Proof.
  unfold isDupFor. intros [<-|[<-|[<-|[<-|[]]]]].
  - unfold missingShaderIssues. all_tac.
  - unfold shaderNameIssues. all_tac.
  - unfold allTextureIssues, textureIssues. all_tac.
  - unfold stageIssues, stageNameIssues, uvWiringIssues. all_tac.
Qed.

Lemma colorIssues_fields m :
  colorIssues m
  = flat_map (fun nv => validateColor (fst nv) (snd nv)) (colorFields m).
Proof.
  unfold colorIssues, colorFields. cbn [flat_map fst snd].
  rewrite app_nil_r. reflexivity.
Qed.

Lemma In_colorIssues_field m i :
  In i (colorIssues m) <->
  exists name vals,
    In (name, vals) (colorFields m) /\ badColor vals = true
    /\ i = colorError name.
Proof.
  rewrite colorIssues_fields, in_flat_map. split.
  - intros ([name vals] & Hin & Hi). cbn [fst snd] in Hi.
    rewrite validateColor_bad in Hi.
    destruct (badColor vals) eqn:Hb; [|destruct Hi].
    destruct Hi as [<-|[]]. exists name, vals. auto.
  - intros (name & vals & Hin & Hb & ->). exists (name, vals).
    split; [exact Hin|]. cbn [fst snd]. rewrite validateColor_bad, Hb.
    left. reflexivity.
Qed.

Lemma colorIssues_other m n :
  Forall (fun i => isDupFor n i = false) (colorIssues m).
Proof.
  rewrite Forall_forall. intros i Hi. apply In_colorIssues_field in Hi.
  destruct Hi as (name & vals & Hin & _ & ->).
  destruct Hin as [Heq|[Heq|[Heq|[Heq|[Heq|[]]]]]]; inversion Heq;
    reflexivity.
Qed.

Lemma duplicateIssues_errors seen stages :
  Forall (fun i => Level i = IssueError
                   /\ Message i = lit "duplicate Stage name")
    (duplicateIssues seen stages).
Proof.
  revert seen. induction stages as [|st stages IH]; intros seen;
    cbn [duplicateIssues]; [constructor|].
  destruct (isEmpty (StageName st)); [apply IH|].
  destruct (existsb _ seen); [|apply IH].
  constructor; [split; reflexivity|apply IH].
Qed.

Lemma str_eqb_refl s : str_eqb s s = true.
Proof. apply str_eqb_eq. reflexivity. Qed.

Lemma str_eqb_false a b : a <> b -> str_eqb a b = false.
Proof.
  intros Hne. destruct (str_eqb a b) eqn:He; [|reflexivity].
  apply str_eqb_eq in He. contradiction.
Qed.

Lemma existsb_same a b seen :
  a = b -> existsb (str_eqb a) seen = existsb (str_eqb b) seen.
Proof. intros ->. reflexivity. Qed.

(** The loop over the names seen so far reports a name once for each
    stage that repeats it. *)
Lemma duplicateIssues_count n stages : forall seen,
  n <> [] ->
  length (filter (isDupFor n) (duplicateIssues seen stages))
  = if existsb (str_eqb n) seen then named n stages
    else pred (named n stages).
Proof.
  unfold named.
  induction stages as [|st stages IH]; intros seen Hn;
    cbn [duplicateIssues filter length].
  - destruct (existsb _ seen); reflexivity.
  - destruct (isEmpty (StageName st)) eqn:He.
    + apply isEmpty_nil in He. rewrite He.
      rewrite (str_eqb_false [] n) by congruence. apply IH. exact Hn.
    + destruct (str_eqb (StageName st) n) eqn:Hsn.
      * apply str_eqb_eq in Hsn. rewrite Hsn.
        destruct (existsb (str_eqb n) seen) eqn:Hseen.
        -- cbn [filter]. unfold isDupFor at 1. cbn [Message Path errorIssue].
           rewrite !str_eqb_refl. cbn [andb length].
           rewrite (IH seen Hn), Hseen. reflexivity.
        -- rewrite (IH (n :: seen) Hn). cbn [existsb].
           rewrite str_eqb_refl. cbn [orb length pred]. reflexivity.
      * assert (Hns : str_eqb n (StageName st) = false).
        { apply str_eqb_false. intros Heq. rewrite Heq, str_eqb_refl in Hsn.
          discriminate Hsn. }
        destruct (existsb (str_eqb (StageName st)) seen).
        -- cbn [filter]. unfold isDupFor at 1. cbn [Message Path errorIssue].
           rewrite Hsn, andb_false_r. apply IH. exact Hn.
        -- rewrite (IH (StageName st :: seen) Hn). cbn [existsb].
           rewrite Hns. reflexivity.
Qed.

Lemma filter_none {A} (f : A -> bool) l :
  Forall (fun x => f x = false) l -> filter f l = [].
Proof.
  induction 1 as [|x l Hx _ IH]; [reflexivity|]. cbn. rewrite Hx. exact IH.
Qed.

Lemma Validate_parts m o :
  Validate m o
  = missingShaderIssues m
    ++ shaderNameIssues (normalizeValidateOptions o) m
    ++ colorIssues m
    ++ allTextureIssues (normalizeValidateOptions o) m
    ++ flat_map (stageIssues (normalizeValidateOptions o)) (Stages m)
    ++ duplicateIssues [] (Stages m).
Proof. reflexivity. Qed.

(** X7. The errors of [Validate].  Every issue other than the colour
    errors and the duplicate-name errors is a warning.  A colour field
    is reported exactly when its array is neither empty nor of four
    components.  A non-empty stage name is reported as a duplicate once
    for each stage that repeats it: the number of its errors is the
    number of stages of that name less one.  None of this depends on
    the options. *)
Theorem validation_errors (m : Material) (o : option ValidateOptions) :
  (forall i, In i (Validate m o) -> Level i = IssueError ->
     Message i = lit "color must have 4 components"
     \/ Message i = lit "duplicate Stage name")
  /\ (forall name vals, In (name, vals) (colorFields m) ->
        (In (colorError name) (Validate m o) <-> badColor vals = true))
  /\ (forall n, n <> [] ->
        length (filter (isDupFor n) (Validate m o))
        = pred (named n (Stages m))).
Proof.
  set (vopt := normalizeValidateOptions o).
  pose proof (warningChecks_warn vopt m) as Hw.
  pose proof (warningChecks_other vopt m) as Ho.
  unfold warningChecks in Hw, Ho.
  assert (Hw1 := Hw _ (or_introl eq_refl)).
  assert (Hw2 := Hw _ (or_intror (or_introl eq_refl))).
  assert (Hw3 := Hw _ (or_intror (or_intror (or_introl eq_refl)))).
  assert (Hw4 := Hw _ (or_intror (or_intror (or_intror (or_introl eq_refl))))).
  rewrite Forall_forall in Hw1, Hw2, Hw3, Hw4.
  rewrite Validate_parts. fold vopt. split; [|split].
  - intros i Hin Herr. rewrite !in_app_iff in Hin.
    destruct Hin as [Hin|[Hin|[Hin|[Hin|[Hin|Hin]]]]].
    + rewrite (Hw1 i Hin) in Herr. discriminate Herr.
    + rewrite (Hw2 i Hin) in Herr. discriminate Herr.
    + apply In_colorIssues_field in Hin.
      destruct Hin as (name & vals & _ & _ & ->). left. reflexivity.
    + rewrite (Hw3 i Hin) in Herr. discriminate Herr.
    + rewrite (Hw4 i Hin) in Herr. discriminate Herr.
    + pose proof (duplicateIssues_errors [] (Stages m)) as Hd.
      rewrite Forall_forall in Hd. right. exact (proj2 (Hd i Hin)).
  - intros name vals Hfield. split.
    + intros Hin. rewrite !in_app_iff in Hin.
      destruct Hin as [Hin|[Hin|[Hin|[Hin|[Hin|Hin]]]]].
      * specialize (Hw1 _ Hin). discriminate Hw1.
      * specialize (Hw2 _ Hin). discriminate Hw2.
      * apply In_colorIssues_field in Hin.
        destruct Hin as (name' & vals' & Hfield' & Hbad & Heq).
        assert (Hsame : vals' = vals).
        { apply (f_equal Path) in Heq. cbn [Path colorError errorIssue] in Heq.
          destruct Hfield as [H1|[H1|[H1|[H1|[H1|[]]]]]];
            destruct Hfield' as [H2|[H2|[H2|[H2|[H2|[]]]]]];
            inversion H1; inversion H2; subst; try reflexivity;
            discriminate Heq. }
        rewrite <- Hsame. exact Hbad.
      * specialize (Hw3 _ Hin). discriminate Hw3.
      * specialize (Hw4 _ Hin). discriminate Hw4.
      * pose proof (duplicateIssues_errors [] (Stages m)) as Hd.
        rewrite Forall_forall in Hd. destruct (Hd _ Hin) as [_ Hmsg].
        discriminate Hmsg.
    + intros Hbad. rewrite !in_app_iff. right. right. left.
      apply In_colorIssues_field. exists name, vals. auto.
  - intros n Hn. rewrite !filter_app, !length_app.
    rewrite (filter_none _ _ (Ho _ n (or_introl eq_refl))).
    rewrite (filter_none _ _ (Ho _ n (or_intror (or_introl eq_refl)))).
    rewrite (filter_none _ _ (colorIssues_other m n)).
    rewrite (filter_none _ _
               (Ho _ n (or_intror (or_intror (or_introl eq_refl))))).
    rewrite (filter_none _ _
               (Ho _ n (or_intror (or_intror (or_intror
                                                 (or_introl eq_refl)))))).
    cbn [length Nat.add].
    rewrite (duplicateIssues_count n (Stages m) [] Hn). reflexivity.
Qed.

End ValidatorErrors.

(** X8. Without file checks [Validate] asks the host for nothing but
    [filepath.Ext]: two hosts that agree on it give the same issues,
    whatever their files are.  The file checks are off without options
    and whenever [GameRoot] is empty. *)
Theorem validate_without_files {U : Unicode} {F : Strconv} {L : Lists}
  (H1 H2 : Host) (m : Material) (o : option ValidateOptions) :
  (forall p, @filepathExt H1 p = @filepathExt H2 p) ->
  DisableFileCheck (normalizeValidateOptions o) = true ->
  Validate (H := H1) m o = Validate (H := H2) m o
  /\ DisableFileCheck (normalizeValidateOptions None) = true
  /\ (forall o', GameRoot o' = [] ->
        DisableFileCheck (normalizeValidateOptions (Some o')) = true).
Proof.
  intros Hext Hoff. split; [|split].
  - unfold Validate. cbv zeta. do 3 f_equal. f_equal.
    unfold allTextureIssues. rewrite Hoff. cbn [negb orb].
    destruct (negb (DisableExtensionsCheck (normalizeValidateOptions o)));
      [|reflexivity].
    induction (Stages m) as [|st sts IH]; [reflexivity|].
    cbn [flat_map]. rewrite IH. f_equal.
    unfold textureIssues, hasAllowedExt. rewrite Hoff, Hext. reflexivity.
  - reflexivity.
  - intros o' Hroot. cbn. rewrite Hroot. reflexivity.
Qed.

(** A host on which every file exists. *)
Definition fullHost : Host :=
  {| filepathExt := @filepathExt Ref.bareHost;
     filepathIsAbs := @filepathIsAbs Ref.bareHost;
     filepathClean := @filepathClean Ref.bareHost;
     filepathJoin := @filepathJoin Ref.bareHost;
     filepathFromSlash := @filepathFromSlash Ref.bareHost;
     statOK := fun _ => true |}.

Lemma validate_without_files_witness :
  Validate (U := Ref.asciiUnicode) (L := noLists) (H := Ref.bareHost)
    probe None
  = Validate (U := Ref.asciiUnicode) (L := noLists) (H := fullHost)
      probe None.
Proof.
  exact (proj1 (validate_without_files (U := Ref.asciiUnicode)
                  (L := noLists) Ref.bareHost fullHost probe None
                  (fun p => eq_refl) eq_refl)).
Defined.


(* ================================================================== *)
(** ** Validation of procedural textures *)

(** [TextureValidateOptions] *)
Record TextureValidateOptions := {
  DisableProceduralFnCheck : bool;
  DisableProceduralArgsCheck : bool;
  DisableTextureTagCheck : bool
}.

(** [TextureValidateOptions.normalize] *)
Definition normalizeTextureValidateOptions
  (o : option TextureValidateOptions) : TextureValidateOptions :=
  match o with
  | None => {| DisableProceduralFnCheck := false;
               DisableProceduralArgsCheck := false;
               DisableTextureTagCheck := false |}
  | Some o => o
  end.

(** The tables of the procedural functions and of the texture tags (the
    file that declares them is not part of the sources at hand):
    membership in each [map[string]struct{}]. *)
Class TextureLists := {
  knownProceduralFns : str -> bool;
  knownTextureTags : str -> bool
}.

(** [proceduralArgsOK] *)
Definition proceduralArgsOK (fn : str) (args : list str) : bool :=
  let n := length args in
  if str_eqb fn (lit "color") then (n =? 4)%nat || (n =? 5)%nat
  else if str_eqb fn (lit "fresnel") then (n =? 2)%nat
  else if str_eqb fn (lit "fresnelglass") then
    (n =? 0)%nat || (n =? 1)%nat || (n =? 2)%nat
  else if str_eqb fn (lit "irradiance") then (n =? 1)%nat
  else true.

(** [withStageContext] *)
Definition withStageContext (issue : Issue) (stage : str) : Issue :=
  if isEmpty stage then issue
  else if isEmpty (Path issue) then
    {| Level := Level issue; Code := Code issue; Message := Message issue;
       Path := stage |}
  else
    {| Level := Level issue; Code := Code issue; Message := Message issue;
       Path := stage ++ lit ": " ++ Path issue |}.

Section TextureValidator.
Context {U : Unicode} {F : Strconv} {L : Lists} {H : Host}
  {T : TextureLists}.

(** [TextureRef.IsPath] *)
Definition isPath (t : TextureRef) : bool :=
  match Kind t with TextureKindPath => true | _ => false end.

(** The tag that the tag check of [validateTexture] looks up. *)
Definition tagOf (pt : ProceduralTexture) : str :=
  match Color pt with
  | Some c => ColorTag c
  | None => if (length (Args pt) =? 5)%nat then nth 4 (Args pt) [] else []
  end.

(** [validateTexture] *)
Definition validateTexture (t : TextureRef) (opt : TextureValidateOptions)
  : list Issue :=
  if isEmpty (Raw t) then []
  else if isPath t then []
  else
    match ParsedOK t, Procedural t with
    | true, Some pt =>
        let fn := ToLower (Func pt) in
        (if negb (DisableProceduralFnCheck opt)
            && negb (knownProceduralFns fn)
         then [warning "unknown procedural function" (Func pt)] else [])
        ++ (if negb (DisableProceduralArgsCheck opt)
               && negb (proceduralArgsOK fn (Args pt))
            then [warning "unexpected procedural argument count" (Func pt)]
            else [])
        ++ (if negb (DisableTextureTagCheck opt) && str_eqb fn (lit "color")
            then
              let tag := tagOf pt in
              if negb (isEmpty tag) && negb (knownTextureTags (ToLower tag))
              then [warning "unknown texture tag" tag] else []
            else [])
    | _, _ =>
        if negb (DisableProceduralFnCheck opt)
           || negb (DisableProceduralArgsCheck opt)
           || negb (DisableTextureTagCheck opt)
        then [warning "procedural texture parse failed" (Raw t)] else []
    end.

(** [TextureRef.Validate] *)
Definition TextureValidate (t : TextureRef)
  (o : option TextureValidateOptions) : list Issue :=
  validateTexture t (normalizeTextureValidateOptions o).

(** The issues [ValidateWithTextureOptions] appends for one stage. *)
Definition stageTextureIssues (texOpt : TextureValidateOptions) (st : Stage)
  : list Issue :=
  List.map (fun i => withStageContext i (StageName st))
    (TextureValidate (Texture st) (Some texOpt)).

(** [ValidateWithTextureOptions], on a material that is not nil. *)
Definition ValidateWithTextureOptions (m : Material)
  (o : option ValidateOptions) (texOpt : option TextureValidateOptions)
  : list Issue :=
  Validate m o
  ++ match texOpt with
     | None => []
     | Some t => flat_map (stageTextureIssues t) (Stages m)
     end.

Lemma validateTexture_warnings t opt :
  Forall (fun i => Level i = IssueWarning) (validateTexture t opt).
Proof.
  unfold validateTexture.
  repeat match goal with
  | |- Forall _ (_ ++ _) => apply Forall_app; split
  | |- Forall _ (if ?b then _ else _) => destruct b
  | |- Forall _ (match ?x with _ => _ end) => destruct x
  | |- Forall _ (let _ := _ in _) => cbv zeta
  | |- Forall _ [] => constructor
  | |- Forall _ (_ :: _) => constructor
  | |- _ = _ => reflexivity
  end.
Qed.

Lemma validateTexture_off t opt :
  DisableProceduralFnCheck opt = true ->
  DisableProceduralArgsCheck opt = true ->
  DisableTextureTagCheck opt = true ->
  validateTexture t opt = [].
Proof.
  intros H1 H2 H3. unfold validateTexture. rewrite H1, H2, H3.
  destruct (isEmpty (Raw t)); [reflexivity|].
  destruct (isPath t); [reflexivity|].
  destruct (ParsedOK t); [|reflexivity].
  destruct (Procedural t); reflexivity.
Qed.

Lemma validateTexture_length t opt :
  (length (validateTexture t opt) <= 3)%nat.
Proof.
  unfold validateTexture.
  destruct (isEmpty (Raw t)); [cbn; lia|].
  destruct (isPath t); [cbn; lia|].
  destruct (ParsedOK t), (Procedural t);
    repeat match goal with
           | |- context [if ?b then _ else _] => destruct b
           end; cbn; lia.
Qed.

Lemma withStageContext_level i stage :
  Level (withStageContext i stage) = Level i.
Proof.
  unfold withStageContext. destruct (isEmpty stage); [reflexivity|].
  destruct (isEmpty (Path i)); reflexivity.
Qed.

Lemma HasPrefix_app a b : HasPrefix (a ++ b) a = true.
Proof.
  induction a as [|c a IH]; cbn; [destruct b; reflexivity|].
  rewrite Z.eqb_refl. exact IH.
Qed.

Lemma withStageContext_path i stage :
  stage <> [] ->
  Message (withStageContext i stage) = Message i
  /\ HasPrefix (Path (withStageContext i stage)) stage = true
  /\ (Path i <> [] ->
      Path (withStageContext i stage) = stage ++ lit ": " ++ Path i).
Proof.
  intros Hs. unfold withStageContext.
  destruct stage as [|c stage]; [contradiction|]. cbn [isEmpty].
  destruct (Path i) as [|d p] eqn:Hp; cbn [isEmpty Path Message].
  - split; [reflexivity|]. split; [|intros Hne; contradiction].
    rewrite <- (app_nil_r (c :: stage)) at 1. apply HasPrefix_app.
  - split; [reflexivity|]. split; [apply HasPrefix_app|reflexivity].
Qed.

(** X9. [ValidateWithTextureOptions] extends [Validate]: its result is
    the issues of [Validate] followed by the texture issues of the
    stages.  It appends nothing without texture options, with the three
    texture checks disabled, or when every stage has an empty or a path
    texture.  What it appends are warnings, at most three for a stage,
    each with the message of [validateTexture] and, for a stage with a
    name, a path that starts with the name of the stage. *)
Theorem texture_validation_extends (m : Material)
  (o : option ValidateOptions) (texOpt : option TextureValidateOptions) :
  exists extra,
    ValidateWithTextureOptions m o texOpt = Validate m o ++ extra
    /\ Forall (fun i => Level i = IssueWarning) extra
    /\ (length extra <= 3 * length (Stages m))%nat
    /\ (texOpt = None -> extra = [])
    /\ (forall t, texOpt = Some t ->
          DisableProceduralFnCheck t = true ->
          DisableProceduralArgsCheck t = true ->
          DisableTextureTagCheck t = true -> extra = [])
    /\ (Forall (fun st => isEmpty (Raw (Texture st)) || isPath (Texture st)
                          = true) (Stages m) -> extra = [])
    /\ (forall t, texOpt = Some t ->
        forall i, In i extra ->
        exists st j,
          In st (Stages m) /\ In j (validateTexture (Texture st) t)
          /\ i = withStageContext j (StageName st)
          /\ Message i = Message j
          /\ (StageName st <> [] ->
              HasPrefix (Path i) (StageName st) = true)).
Proof.
  unfold ValidateWithTextureOptions. eexists. split; [reflexivity|].
  destruct texOpt as [t|].
  - split; [|split; [|split; [discriminate|split; [|split]]]].
    + apply Forall_flat_map_all. intros st. unfold stageTextureIssues.
      rewrite Forall_map.
      eapply Forall_impl; [|apply (validateTexture_warnings (Texture st) t)].
      intros i Hi. rewrite withStageContext_level. exact Hi.
    + induction (Stages m) as [|st sts IH]; [cbn; lia|].
      cbn [flat_map]. rewrite length_app. unfold stageTextureIssues at 1.
      rewrite length_map. unfold TextureValidate. cbn [length].
      pose proof (validateTexture_length (Texture st)
                    (normalizeTextureValidateOptions (Some t))). lia.
    + intros t' Heq H1 H2 H3. injection Heq as <-.
      induction (Stages m) as [|st sts IH]; [reflexivity|].
      cbn [flat_map]. rewrite IH. unfold stageTextureIssues, TextureValidate.
      cbn [normalizeTextureValidateOptions].
      rewrite (validateTexture_off _ _ H1 H2 H3). reflexivity.
    + intros Hall. induction Hall as [|st sts Hst _ IH]; [reflexivity|].
      cbn [flat_map]. rewrite IH. unfold stageTextureIssues, TextureValidate.
      unfold validateTexture.
      destruct (isEmpty (Raw (Texture st))); [reflexivity|].
      cbn [orb] in Hst. rewrite Hst. reflexivity.
    + intros t' Heq i Hin. injection Heq as <-.
      apply in_flat_map in Hin. destruct Hin as (st & Hst & Hi).
      unfold stageTextureIssues in Hi. apply in_map_iff in Hi.
      destruct Hi as (j & <- & Hj). exists st, j.
      split; [exact Hst|]. split; [exact Hj|]. split; [reflexivity|].
      destruct (StageName st) as [|c n] eqn:Hn.
      * split; [reflexivity|]. intros Hne. contradiction.
      * destruct (withStageContext_path j (c :: n)) as (Hm & Hp & _);
          [discriminate|].
        split; [exact Hm|]. intros _. exact Hp.
  - split; [constructor|]. split; [cbn; lia|].
    split; [reflexivity|]. split; [discriminate|].
    split; [reflexivity|]. discriminate.
Qed.

End TextureValidator.


Section ProceduralPayloads.
Context {U : Unicode} {F : Strconv} {T : TextureLists}.

(** A procedural reference that parsed. *)
Definition parsedRef (raw : str) (pt : ProceduralTexture) : TextureRef :=
  {| Procedural := Some pt; Raw := NormalizeTextureRaw raw;
     Kind := TextureKindProcedural; ParsedOK := true |}.

Lemma str_eqb_lit a b : a = b -> str_eqb a b = true.
Proof. intros ->. apply str_eqb_eq. reflexivity. Qed.

(** X10. The typed payloads of [fresnel], [fresnelGlass] and
    [irradiance].  For every texture string whose header and function
    call parse: when the function name lower-cases to [fresnel] or
    [fresnelglass], one argument that converts gives the payload
    [(a, 0)] and two that convert give [(a, b)]; when it lower-cases to
    [irradiance], one argument that converts gives its value; with
    another number of arguments or an argument that does not convert,
    and for every function other than these and [color], the reference
    keeps [ParsedOK] and carries no payload. *)
Theorem procedural_payloads (raw : str) (pt : ProceduralTexture) :
  parseProceduralHead (NormalizeTextureRaw raw) = Some pt ->
  let fn := ToLower (Func pt) in
  (fn = lit "fresnel" \/ fn = lit "fresnelglass" ->
     (forall a x,
        Args pt = [a] -> parseFloatArg a = Some x ->
        ParseTextureRef raw
        = parsedRef raw
            (setFresnel pt (Some {| FresnelA := x; FresnelB := fzero |})))
     /\ (forall a b x y,
           Args pt = [a; b] ->
           parseFloatArg a = Some x -> parseFloatArg b = Some y ->
           ParseTextureRef raw
           = parsedRef raw
               (setFresnel pt (Some {| FresnelA := x; FresnelB := y |})))
     /\ ((length (Args pt) <> 1%nat /\ length (Args pt) <> 2%nat)
         \/ parseFloatArg (nth 0 (Args pt) []) = None
         \/ (length (Args pt) = 2%nat
             /\ parseFloatArg (nth 1 (Args pt) []) = None) ->
         ParseTextureRef raw = parsedRef raw pt))
  /\ (fn = lit "irradiance" ->
        (forall a x,
           Args pt = [a] -> parseFloatArg a = Some x ->
           ParseTextureRef raw
           = parsedRef raw
               (setIrradiance pt (Some {| IrradianceValue := x |})))
        /\ (length (Args pt) <> 1%nat
            \/ parseFloatArg (nth 0 (Args pt) []) = None ->
            ParseTextureRef raw = parsedRef raw pt))
  /\ (fn <> lit "color" -> fn <> lit "fresnel" ->
      fn <> lit "fresnelglass" -> fn <> lit "irradiance" ->
      ParseTextureRef raw = parsedRef raw pt).
Proof.
  intros Hhead fn. rewrite (ParseTextureRef_head _ _ Hhead).
  unfold parsedRef, parseProceduralArgs. fold fn.
  split; [|split].
  - intros Hfn.
    assert (Hcall : (if str_eqb fn (lit "color") then parseProceduralColor pt
                     else if str_eqb fn (lit "fresnel")
                          then parseProceduralFresnel pt
                          else if str_eqb fn (lit "fresnelglass")
                               then parseProceduralFresnel pt
                               else if str_eqb fn (lit "irradiance")
                                    then parseProceduralIrradiance pt
                                    else pt)
                    = parseProceduralFresnel pt).
    { destruct Hfn as [-> | ->]; reflexivity. }
    rewrite Hcall. unfold parseProceduralFresnel.
    split; [|split].
    + intros a x Hargs Hx. rewrite Hargs. cbn. rewrite Hx. reflexivity.
    + intros a b x y Hargs Hx Hy. rewrite Hargs. cbn. rewrite Hx, Hy.
      reflexivity.
    + intros [[H1 H2]|[Hnone|[H2 Hnone]]].
      * destruct (Nat.eqb_spec (length (Args pt)) 1); [contradiction|].
        destruct (Nat.eqb_spec (length (Args pt)) 2); [contradiction|].
        reflexivity.
      * cbv zeta. destruct (negb _ && negb _); [reflexivity|].
        rewrite Hnone. reflexivity.
      * cbv zeta. rewrite H2. cbn [Nat.eqb negb andb].
        destruct (parseFloatArg (nth 0 (Args pt) [])); [|reflexivity].
        rewrite Hnone. reflexivity.
  - intros Hfn. rewrite Hfn.
    change (str_eqb (lit "irradiance") (lit "color")) with false.
    change (str_eqb (lit "irradiance") (lit "fresnel")) with false.
    change (str_eqb (lit "irradiance") (lit "fresnelglass")) with false.
    change (str_eqb (lit "irradiance") (lit "irradiance")) with true.
    cbv iota. unfold parseProceduralIrradiance. split.
    + intros a x Hargs Hx. rewrite Hargs. cbn. rewrite Hx. reflexivity.
    + intros [H1|Hnone].
      * destruct (Nat.eqb_spec (length (Args pt)) 1); [contradiction|].
        reflexivity.
      * destruct (negb _); [reflexivity|]. rewrite Hnone. reflexivity.
  - intros H1 H2 H3 H4.
    rewrite (str_eqb_false _ _ H1), (str_eqb_false _ _ H2),
      (str_eqb_false _ _ H3), (str_eqb_false _ _ H4). reflexivity.
Qed.

Lemma parseProceduralColor_args pt : Args (parseProceduralColor pt) = Args pt.
Proof.
  unfold parseProceduralColor. cbv zeta.
  repeat match goal with
         | |- context [if ?b then _ else _] => destruct b
         | |- context [match ?x with Some _ => _ | None => _ end] =>
             destruct x
         end; reflexivity.
Qed.

Lemma parseProceduralArgs_view pt :
  let p := parseProceduralArgs pt in
  let fn := ToLower (Func pt) in
  let n := length (Args pt) in
  Func p = Func pt /\ Args p = Args pt
  /\ (Color pt = None -> Color p <> None ->
      fn = lit "color" /\ (n = 4 \/ n = 5)%nat)
  /\ (Irradiance pt = None -> Irradiance p <> None ->
      fn = lit "irradiance" /\ n = 1%nat)
  /\ (Fresnel pt = None -> Fresnel p <> None ->
      (fn = lit "fresnel" \/ fn = lit "fresnelglass")
      /\ (n = 1 \/ n = 2)%nat).
Proof.
  cbv zeta. unfold parseProceduralArgs.
  destruct (str_eqb (ToLower (Func pt)) (lit "color")) eqn:H1;
    [|destruct (str_eqb (ToLower (Func pt)) (lit "fresnel")) eqn:H2;
      [|destruct (str_eqb (ToLower (Func pt)) (lit "fresnelglass")) eqn:H3;
        [|destruct (str_eqb (ToLower (Func pt)) (lit "irradiance")) eqn:H4]]].
  - apply str_eqb_eq in H1. unfold parseProceduralColor. cbv zeta.
    destruct (Nat.eqb_spec (length (Args pt)) 4) as [E4|E4];
      destruct (Nat.eqb_spec (length (Args pt)) 5) as [E5|E5];
      cbn [negb andb];
      repeat match goal with
             | |- context [match ?x with Some _ => _ | None => _ end] =>
                 destruct x
             end;
      cbn [setColor Func Args Color Fresnel Irradiance];
      repeat split; try congruence; intros; try congruence; auto.
  - apply str_eqb_eq in H2. unfold parseProceduralFresnel. cbv zeta.
    destruct (Nat.eqb_spec (length (Args pt)) 1) as [E1|E1];
      destruct (Nat.eqb_spec (length (Args pt)) 2) as [E2|E2];
      cbn [negb andb];
      repeat match goal with
             | |- context [match ?x with Some _ => _ | None => _ end] =>
                 destruct x
             end;
      cbn [setFresnel Func Args Color Fresnel Irradiance];
      repeat split; try congruence; intros; try congruence; auto.
  - apply str_eqb_eq in H3. unfold parseProceduralFresnel. cbv zeta.
    destruct (Nat.eqb_spec (length (Args pt)) 1) as [E1|E1];
      destruct (Nat.eqb_spec (length (Args pt)) 2) as [E2|E2];
      cbn [negb andb];
      repeat match goal with
             | |- context [match ?x with Some _ => _ | None => _ end] =>
                 destruct x
             end;
      cbn [setFresnel Func Args Color Fresnel Irradiance];
      repeat split; try congruence; intros; try congruence; auto.
  - apply str_eqb_eq in H4. unfold parseProceduralIrradiance.
    destruct (Nat.eqb_spec (length (Args pt)) 1) as [E1|E1];
      cbn [negb];
      repeat match goal with
             | |- context [match ?x with Some _ => _ | None => _ end] =>
                 destruct x
             end;
      cbn [setIrradiance Func Args Color Fresnel Irradiance];
      repeat split; try congruence; intros; try congruence; auto.
  - repeat split; try congruence; intros; congruence.
Qed.

Lemma ParseTextureRef_procedural raw pt :
  Procedural (ParseTextureRef raw) = Some pt ->
  exists pt0,
    parseProceduralHead (NormalizeTextureRaw raw) = Some pt0
    /\ pt = parseProceduralArgs pt0
    /\ ParseTextureRef raw = parsedRef raw pt.
Proof.
  unfold ParseTextureRef, parseProcedural, parsedRef. cbv zeta.
  destruct (HasPrefix (NormalizeTextureRaw raw) (lit "#("));
    [|discriminate].
  destruct (parseProceduralHead (NormalizeTextureRaw raw)) as [pt0|];
    [|discriminate].
  cbn [Procedural]. intros Heq. injection Heq as <-. eauto.
Qed.

Lemma parseProceduralHead_fresh raw pt :
  parseProceduralHead raw = Some pt ->
  Color pt = None /\ Fresnel pt = None /\ Irradiance pt = None
  /\ raw <> [].
Proof.
  unfold parseProceduralHead.
  destruct raw as [|c raw]; [discriminate|].
  repeat match goal with
         | |- context [if ?b then _ else _] => destruct b; try discriminate
         | |- context [match ?x with Some _ => _ | None => _ end] =>
             destruct x; try discriminate
         | |- context [let (_, _) := ?x in _] => destruct x
         end.
  intros Heq. injection Heq as <-. cbn. repeat split. discriminate.
Qed.

End ProceduralPayloads.


Section ArgumentCheck.
Context {U : Unicode} {F : Strconv} {T : TextureLists}.

Definition argumentCountWarning (fn : str) : Issue :=
  warning "unexpected procedural argument count" fn.

Lemma In_argumentCount raw pt opt :
  Procedural (ParseTextureRef raw) = Some pt ->
  (In (argumentCountWarning (Func pt))
     (validateTexture (ParseTextureRef raw) opt)
   <-> DisableProceduralArgsCheck opt = false
       /\ proceduralArgsOK (ToLower (Func pt)) (Args pt) = false).
Proof.
  intros Hp.
  destruct (ParseTextureRef_procedural raw pt Hp) as (pt0 & Hh & Hpt & Href).
  destruct (parseProceduralHead_fresh _ _ Hh) as (_ & _ & _ & Hraw).
  rewrite Href. unfold validateTexture, parsedRef.
  cbn [Raw ParsedOK Procedural isPath Kind].
  destruct (NormalizeTextureRaw raw) as [|c r]; [contradiction|].
  cbn [isEmpty]. cbv zeta. rewrite !in_app_iff. split.
  - intros [Hin|[Hin|Hin]].
    + destruct (negb _ && negb _); [|destruct Hin].
      destruct Hin as [Heq|[]]. discriminate Heq.
    + destruct (DisableProceduralArgsCheck opt); [destruct Hin|].
      destruct (proceduralArgsOK _ _); [destruct Hin|]. auto.
    + destruct (negb _ && str_eqb _ _); [|destruct Hin].
      destruct (negb _ && negb _); [|destruct Hin].
      destruct Hin as [Heq|[]]. discriminate Heq.
  - intros [-> ->]. right. left. left. reflexivity.
Qed.

(** X11. The argument-count check of [validateTexture] on a reference
    that [ParseTextureRef] built.  The warning is reported exactly when
    the check is enabled and [proceduralArgsOK] rejects the arguments.
    A reference with a colour payload or an irradiance payload is never
    reported.  A reference with a Fresnel payload is reported exactly
    when the check is enabled and it is [fresnel] with one argument:
    the parser decorates [fresnel] with one argument, the validator
    wants two. *)
Theorem texture_argument_check (raw : str) (pt : ProceduralTexture)
  (opt : TextureValidateOptions) :
  Procedural (ParseTextureRef raw) = Some pt ->
  let reported :=
    In (argumentCountWarning (Func pt))
      (validateTexture (ParseTextureRef raw) opt) in
  (reported <-> DisableProceduralArgsCheck opt = false
                /\ proceduralArgsOK (ToLower (Func pt)) (Args pt) = false)
  /\ (Color pt <> None \/ Irradiance pt <> None -> ~ reported)
  /\ (Fresnel pt <> None ->
      (reported <-> DisableProceduralArgsCheck opt = false
                    /\ ToLower (Func pt) = lit "fresnel"
                    /\ length (Args pt) = 1%nat)).
Proof.
  intros Hp. cbv zeta.
  pose proof (In_argumentCount raw pt opt Hp) as Hin.
  destruct (ParseTextureRef_procedural raw pt Hp) as (pt0 & Hh & Hpt & _).
  destruct (parseProceduralHead_fresh _ _ Hh) as (Hc & Hf & Hi & _).
  destruct (parseProceduralArgs_view pt0) as (Hfn & Hargs & Vc & Vi & Vf).
  rewrite <- Hpt in *. rewrite Hfn, Hargs in *.
  split; [exact Hin|]. split.
  - intros [Hcol|Hirr] Hrep; apply Hin in Hrep; destruct Hrep as [_ Hbad].
    + destruct (Vc Hc Hcol) as [Heq Hn]. unfold proceduralArgsOK in Hbad.
      rewrite Heq in Hbad. cbn in Hbad.
      destruct Hn as [Hn|Hn]; rewrite Hn in Hbad; discriminate Hbad.
    + destruct (Vi Hi Hirr) as [Heq Hn]. unfold proceduralArgsOK in Hbad.
      rewrite Heq, Hn in Hbad. discriminate Hbad.
  - intros Hfr. destruct (Vf Hf Hfr) as [Heq Hn]. rewrite Hin. split.
    + intros [Hoff Hbad]. split; [exact Hoff|].
      unfold proceduralArgsOK in Hbad.
      destruct Heq as [Heq|Heq]; rewrite Heq in *; cbn in Hbad.
      * split; [reflexivity|]. destruct Hn as [Hn|Hn]; [exact Hn|].
        rewrite Hn in Hbad. discriminate Hbad.
      * destruct Hn as [Hn|Hn]; rewrite Hn in Hbad; discriminate Hbad.
    + intros (Hoff & Hfn1 & Hn1). split; [exact Hoff|].
      unfold proceduralArgsOK. rewrite Hfn1, Hn1. reflexivity.
Qed.

End ArgumentCheck.

(** *** Examples of procedural textures *)

(** Tables that know every function and every tag. *)
Definition allTextureLists : TextureLists :=
  {| knownProceduralFns := fun _ => true;
     knownTextureTags := fun _ => true |}.

Definition fresnelExample : str := lit "#(ai,64,1,1)fresnel(1.3,7)".

Definition fresnelHead : @ProceduralTexture Ref.decStrconv :=
  {| Color := None; Fresnel := None; Irradiance := None;
     Format_ := lit "ai"; Func := lit "fresnel";
     Args := [lit "1.3"; lit "7"]; Width := 64; Height := 1; Mip := 1 |}.

Lemma fresnelExample_head :
  parseProceduralHead (U := Ref.asciiUnicode) (F := Ref.decStrconv)
    (NormalizeTextureRaw (U := Ref.asciiUnicode) fresnelExample)
  = Some fresnelHead.
Proof. reflexivity. Defined.

Lemma procedural_payloads_witness :
  ParseTextureRef (U := Ref.asciiUnicode) (F := Ref.decStrconv)
    fresnelExample
  = parsedRef (U := Ref.asciiUnicode) fresnelExample
      (setFresnel fresnelHead
         (Some {| FresnelA := decimal 13 1; FresnelB := decimal 7 0 |})).
Proof.
  apply (proj1 (proj2 (proj1 (procedural_payloads (U := Ref.asciiUnicode)
                                (F := Ref.decStrconv) fresnelExample
                                fresnelHead fresnelExample_head)
                         (or_introl eq_refl)))
           (lit "1.3") (lit "7")); reflexivity.
Defined.

(** [fresnel] with one argument: decorated, and reported. *)
Definition fresnelOne : str := lit "#(ai,64,1,1)fresnel(1.3)".

Definition fresnelOneParsed : @ProceduralTexture Ref.decStrconv :=
  {| Color := None;
     Fresnel := Some {| FresnelA := decimal 13 1; FresnelB := decimal 0 0 |};
     Irradiance := None;
     Format_ := lit "ai"; Func := lit "fresnel";
     Args := [lit "1.3"]; Width := 64; Height := 1; Mip := 1 |}.

Lemma fresnelOne_parsed :
  Procedural (ParseTextureRef (U := Ref.asciiUnicode) (F := Ref.decStrconv)
                fresnelOne)
  = Some fresnelOneParsed.
Proof. reflexivity. Defined.

Lemma texture_argument_check_witness :
  In (argumentCountWarning (lit "fresnel"))
    (validateTexture (U := Ref.asciiUnicode) (T := allTextureLists)
       (ParseTextureRef (U := Ref.asciiUnicode) (F := Ref.decStrconv)
          fresnelOne)
       (normalizeTextureValidateOptions None)).
Proof.
  apply (proj2 (proj2 (texture_argument_check (U := Ref.asciiUnicode)
                         (F := Ref.decStrconv) (T := allTextureLists)
                         fresnelOne fresnelOneParsed
                         (normalizeTextureValidateOptions None)
                         fresnelOne_parsed)) ltac:(discriminate)).
  repeat split.
Defined.

(* ================================================================== *)
(** ** The one-token buffer of the parser *)

Section Lookahead.
Context {U : Unicode} {F : Strconv}.
Variable opt : ParseOptions.

(** X12. The look-ahead of the parser.  [peek] returns what [next] would
    return, the token or the error, and stops at the same place of the
    input; a token that was peeked is not lexed again: [peek] followed
    by [next] is [next], and [peek] followed by [peek] is [peek]. *)
Theorem parser_lookahead (p : parser) :
  fst (peek opt p) = fst (next opt p)
  /\ pl (snd (peek opt p)) = pl (snd (next opt p))
  /\ (peek opt ;;; next opt) p = next opt p
  /\ (peek opt ;;; peek opt) p = peek opt p.
Proof.
  unfold bind, peek, next, lift, peekRaw, nextRaw.
  destruct (pbuf p) as [t|] eqn:Hb.
  - cbn. rewrite Hb. auto.
  - destruct (lnext opt (pl p)) as [[t [e|]] l']; cbn; auto.
Qed.

End Lookahead.

(* ================================================================== *)
(** ** Quoted strings *)

(** The escaped form of a string: every double quote doubled and every
    backslash doubled.  (The writer does not escape; this is the text
    from which [readString] returns the string.) *)
Fixpoint escapeString (s : str) : str :=
  match s with
  | [] => []
  | c :: s' =>
      (if c =? 34 then [34; 34] else if c =? 92 then [92; 92] else [c])
      ++ escapeString s'
  end.

Section QuotedStrings.
Context {U : Unicode} {F : Strconv}.
Variable opt : ParseOptions.

Lemma rawLeft_at s l : atInput s l -> rawLeft l = length s.
Proof.
  unfold rawLeft. destruct s as [|c s]; cbn.
  - intros (-> & _ & ->). reflexivity.
  - intros (-> & _ & ->). lia.
Qed.

Lemma length_escapeString s : (length s <= length (escapeString s))%nat.
Proof.
  induction s as [|c s IH]; cbn [escapeString]; [lia|].
  rewrite length_app. destruct (c =? 34); [cbn; lia|].
  destruct (c =? 92); cbn; lia.
Qed.

Lemma readStringLoop_escaped s :
  forall rest l n b,
    hd 0 rest <> 34 ->
    atInput (escapeString s ++ 34 :: rest) l ->
    (length (escapeString s) < n)%nat ->
    exists l', readStringLoop n l b = ((b ++ s, None), l')
               /\ atInput rest l'.
Proof.
  induction s as [|c s IH]; intros rest l n b Hrest Hat Hn.
  - destruct n as [|n]; [cbn in Hn; lia|]. cbn [escapeString app] in Hat.
    pose proof Hat as (He & Hc & Hr). cbn [readStringLoop].
    rewrite He, Hc, (lpeek_at _ _ _ Hat). rewrite Z.eqb_refl.
    apply Z.eqb_neq in Hrest. rewrite Hrest. rewrite app_nil_r.
    exists (lread l). split; [reflexivity|]. exact (lread_at _ _ _ Hat).
  - destruct n as [|n]; [cbn in Hn; lia|].
    cbn [escapeString] in Hat, Hn. rewrite <- app_assoc in Hat.
    rewrite length_app in Hn.
    replace (b ++ c :: s) with ((b ++ [c]) ++ s)
      by (rewrite <- app_assoc; reflexivity).
    destruct (Z.eqb_spec c 34) as [->|H34].
    + cbn [app] in Hat. pose proof Hat as (He & Hc & Hr).
      cbn [readStringLoop]. rewrite He, Hc, (lpeek_at _ _ _ Hat).
      cbn [hd]. rewrite Z.eqb_refl.
      apply IH; [exact Hrest| |cbn in Hn; lia].
      apply lread_at with (c := 34). apply lread_at with (c := 34). exact Hat.
    + destruct (Z.eqb_spec c 92) as [->|H92].
      * cbn [app] in Hat. pose proof Hat as (He & Hc & Hr).
        cbn [readStringLoop]. rewrite He, Hc, (lpeek_at _ _ _ Hat).
        cbn [hd]. replace (92 =? 34) with false by reflexivity.
        rewrite Z.eqb_refl. cbn [andb orb].
        pose proof (lread_at _ _ _ Hat) as Hat1.
        destruct Hat1 as (_ & Hc1 & _). rewrite Hc1.
        apply IH; [exact Hrest| |cbn in Hn; lia].
        apply lread_at with (c := 92). apply lread_at with (c := 92).
        exact Hat.
      * cbn [app] in Hat. pose proof Hat as (He & Hc & Hr).
        cbn [readStringLoop]. rewrite He, Hc.
        apply Z.eqb_neq in H34. apply Z.eqb_neq in H92.
        rewrite H34, H92. cbn [andb].
        apply IH; [exact Hrest| |cbn in Hn; lia].
        apply lread_at with (c := c). exact Hat.
Qed.

(** Reading consumes at least one character for each character of the
    literal and one more for the closing quote. *)
Lemma readStringLoop_length n :
  forall l b b' l',
    readStringLoop n l b = ((b', None), l') ->
    (length b' + rawLeft l' + 1 <= length b + rawLeft l)%nat.
Proof.
  induction n as [|n IH]; intros l b b' l' H; [discriminate|].
  cbn [readStringLoop] in H.
  destruct (leof l) eqn:He; [discriminate|].
  pose proof (lread_raw_lt l (rawLeft_live l He)) as H1.
  pose proof (lread_raw_le (lread l)) as H2.
  destruct (lch l =? 34).
  - destruct (lpeek l =? 34).
    + apply IH in H. rewrite length_app in H. cbn [length] in H. lia.
    + injection H as <- <-. lia.
  - destruct ((lch l =? 92) && ((lpeek l =? 92) || (lpeek l =? 34))).
    + apply IH in H. rewrite length_app in H. cbn [length] in H. lia.
    + apply IH in H. rewrite length_app in H. cbn [length] in H. lia.
Qed.

Lemma readStringLoop_exact s :
  forall rest l n b l',
    atInput (s ++ 34 :: rest) l ->
    readStringLoop n l b = ((b ++ s, None), l') -> atInput rest l' ->
    strSafe s = true.
Proof.
  induction s as [|c s IH]; intros rest l n b l' Hat H Hat'; [reflexivity|].
  destruct n as [|n]; [discriminate|].
  cbn [app] in Hat. pose proof Hat as (He & Hc & Hr).
  pose proof (lread_at _ _ _ Hat) as Hat1.
  pose proof (rawLeft_at _ _ Hat1) as Hl1.
  pose proof (rawLeft_at _ _ Hat') as Hl'.
  rewrite length_app in Hl1. cbn [length] in Hl1.
  pose proof (lread_raw_lt (lread l)) as Hl2.
  cbn [readStringLoop] in H. rewrite He, Hc, (lpeek_at _ _ _ Hat) in H.
  assert (Hesc : forall x,
             readStringLoop n (lread (lread l)) (b ++ [x])
             = ((b ++ c :: s, None), l') -> False).
  { intros x Hx. apply readStringLoop_length in Hx.
    rewrite !length_app in Hx. cbn [length] in Hx. lia. }
  destruct (Z.eqb_spec c 34) as [->|H34].
  - destruct (hd 0 (s ++ 34 :: rest) =? 34).
    + exfalso. exact (Hesc _ H).
    + injection H as Hb _. exfalso.
      apply (f_equal (@length _)) in Hb. rewrite length_app in Hb.
      cbn [length] in Hb. lia.
  - destruct ((c =? 92)
              && ((hd 0 (s ++ 34 :: rest) =? 92)
                  || (hd 0 (s ++ 34 :: rest) =? 34))) eqn:Hcond.
    + exfalso. exact (Hesc _ H).
    + replace (b ++ c :: s) with ((b ++ [c]) ++ s) in H
        by (rewrite <- app_assoc; reflexivity).
      pose proof (IH rest (lread l) n (b ++ [c]) l' Hat1 H Hat') as Hs.
      cbn [strSafe]. rewrite Hs, andb_true_r.
      apply Z.eqb_neq in H34. rewrite H34. cbn [negb andb].
      destruct (c =? 92); [|reflexivity]. cbn [andb] in Hcond.
      destruct s as [|d s]; cbn [app hd] in Hcond.
      * discriminate.
      * apply orb_false_iff in Hcond. destruct Hcond as [Hd _].
        rewrite Hd. reflexivity.
Qed.

Lemma skipWhitespace_quote ws X l :
  forallb IsSpace ws = true -> atInput (ws ++ 34 :: X) l ->
  atInput (34 :: X) (skipWhitespace opt l).
Proof.
  intros Hws Hat.
  apply skipWhitespace_spaces with (ws := ws);
    [exact Hws|split; [reflexivity|discriminate]|exact Hat].
Qed.

(** X13. Every string can be written as a quoted string.  From the text
    of an opening quote, the string with each double quote and each
    backslash doubled, and a closing quote that no double quote follows,
    the lexer returns a string token whose literal is the string, and
    stops behind the closing quote. *)
Theorem string_escapes (ws s rest : str) (l : lexer) :
  forallb IsSpace ws = true -> hd 0 rest <> 34 ->
  atInput (ws ++ 34 :: escapeString s ++ 34 :: rest) l ->
  exists line col l',
    lnext opt l = ((mkToken s tokString line col, None), l')
    /\ atInput rest l'.
Proof.
  intros Hws Hrest Hat.
  pose proof (skipWhitespace_quote _ _ _ Hws Hat) as Hat1.
  unfold lnext. cbv zeta. pose proof Hat1 as (He & Hc & Hr).
  rewrite He, Hc. cbn [Z.eqb Pos.eqb]. unfold readString.
  pose proof (lread_at _ _ _ Hat1) as Hat2.
  destruct (readStringLoop_escaped s rest (lread (skipWhitespace opt l))
              (lfuel (lread (skipWhitespace opt l))) [] Hrest Hat2)
    as (l' & Hl & Hat').
  { pose proof (lfuel_at _ _ Hat2) as Hf. rewrite length_app in Hf. lia. }
  rewrite Hl. cbn [app]. eexists _, _, _. split; [reflexivity|exact Hat'].
Qed.

(** X14. What [writeQuoted] writes is read back exactly for the strings
    without a double quote, without a backslash in front of a backslash
    and without a backslash at the end.  From the text of a quote, the
    string as it is, and a quote that no double quote follows, the lexer
    returns a string token with the string as its literal and stops
    behind the second quote if and only if the string is such a one. *)
Theorem quoted_read_back (ws s rest : str) (l : lexer) :
  forallb IsSpace ws = true -> hd 0 rest <> 34 ->
  atInput (ws ++ 34 :: s ++ 34 :: rest) l ->
  ((exists line col l',
      lnext opt l = ((mkToken s tokString line col, None), l')
      /\ atInput rest l')
   <-> strSafe s = true).
Proof.
  intros Hws Hrest Hat.
  pose proof (skipWhitespace_quote _ _ _ Hws Hat) as Hat1.
  pose proof Hat1 as (He & Hc & Hr).
  pose proof (lread_at _ _ _ Hat1) as Hat2.
  assert (Hnext : lnext opt l
                  = (let '((s0, err), l') := readString (skipWhitespace opt l) in
                     ((mkToken s0 tokString (lline (skipWhitespace opt l))
                         (lcol (skipWhitespace opt l)), err), l'))).
  { unfold lnext. cbv zeta. rewrite He, Hc. reflexivity. }
  rewrite Hnext. unfold readString. split.
  - intros (line & col & l' & Hl & Hat').
    destruct (readStringLoop _ _ _) as [[s0 err] l0] eqn:Hloop.
    injection Hl as Hs _ _ Herr Hl0. subst s0 err l0.
    exact (readStringLoop_exact s rest _ _ [] l' Hat2 Hloop Hat').
  - intros Hs.
    destruct (readStringLoop_safe s rest (lread (skipWhitespace opt l))
                (lfuel (lread (skipWhitespace opt l))) [] Hs Hrest Hat2)
      as (l' & Hl & Hat').
    { pose proof (lfuel_at _ _ Hat2) as Hf. rewrite length_app in Hf. lia. }
    rewrite Hl. cbn [app]. eexists _, _, _. split; [reflexivity|exact Hat'].
Qed.

End QuotedStrings.

(** A string of a letter, a double quote and a backslash, escaped,
    behind a blank, and a semicolon behind it. *)
Definition escapedExample : str :=
  [32] ++ 34 :: escapeString [97; 34; 92] ++ 34 :: [59].

Lemma string_escapes_witness :
  exists line col l',
    lnext (U := Ref.asciiUnicode) (F := Ref.decStrconv)
      (normalizeParseOptions None) (newLexer escapedExample)
    = ((mkToken [97; 34; 92] tokString line col, None), l')
    /\ atInput [59] l'.
Proof.
  apply (string_escapes (normalizeParseOptions None) [32] [97; 34; 92] [59]);
    [reflexivity|discriminate|vm_compute; auto].
Defined.

(** The string [a\b] as the writer quotes it. *)
Definition quotedExample : str := 34 :: [97; 92; 98] ++ 34 :: [59].

Lemma quoted_read_back_witness :
  (exists line col l',
      lnext (U := Ref.asciiUnicode) (F := Ref.decStrconv)
        (normalizeParseOptions None) (newLexer quotedExample)
      = ((mkToken [97; 92; 98] tokString line col, None), l')
      /\ atInput [59] l')
  <-> strSafe [97; 92; 98] = true.
Proof.
  apply (quoted_read_back (normalizeParseOptions None) [] [97; 92; 98] [59]);
    [reflexivity|discriminate|vm_compute; auto].
Defined.

(* ================================================================== *)
(** ** The positions of the tokens *)

(** The line and the column of the last character of a text, as
    [lexer.read] counts them from line 1 and column 0: a line feed
    starts a line at column 0, every other character is one column. *)
Definition lineOf (s : str) : Z :=
  fold_left (fun ln c => if c =? 10 then ln + 1 else ln) s 1.

Definition colOf (s : str) : Z :=
  fold_left (fun col c => if c =? 10 then 0 else col + 1) s 0.

(** [Here pre s l]: the lexer [l] has read the text [pre] and the first
    character of [s], which is its current character, and [s] is ahead
    of it. *)
Definition Here (pre s : str) (l : lexer) : Prop :=
  atInput s l
  /\ lline l = lineOf (pre ++ firstn 1 s)
  /\ lcol l = colOf (pre ++ firstn 1 s).

(** [Reads l l']: the lexer [l'] is [l] after some calls of [read]. *)
Inductive Reads : lexer -> lexer -> Prop :=
| Reads_refl l : Reads l l
| Reads_step l l' : Reads (lread l) l' -> Reads l l'.

(** Text that [skipWhitespace] passes over before it stops in front of
    what follows: white space and, when they are enabled, closed
    comments. *)
Inductive Skipped {U : Unicode} (comments : bool) : str -> Prop :=
| Skipped_nil : Skipped comments []
| Skipped_space c s :
    IsSpace c = true -> Skipped comments s -> Skipped comments (c :: s)
| Skipped_line body s :
    comments = true -> ~ In 10 body -> Skipped comments s ->
    Skipped comments (47 :: 47 :: body ++ 10 :: s)
| Skipped_block body s :
    comments = true -> Contains body [42; 47] = false ->
    Skipped comments s ->
    Skipped comments (47 :: 42 :: body ++ 42 :: 47 :: s).

(** Text at which [skipWhitespace] stops: the end of the input, or a
    character that is not white space and does not open a comment. *)
Definition tokenBegin {U : Unicode} (comments : bool) (s : str) : Prop :=
  match s with
  | [] => True
  | c :: r =>
      IsSpace c = false
      /\ (comments = true -> c = 47 -> hd 0 r <> 47 /\ hd 0 r <> 42)
  end.

Section Positions.
Context {U : Unicode} {F : Strconv}.
Variable opt : ParseOptions.

Lemma lineOf_snoc s c :
  lineOf (s ++ [c]) = if c =? 10 then lineOf s + 1 else lineOf s.
Proof. unfold lineOf. rewrite fold_left_app. reflexivity. Qed.

Lemma colOf_snoc s c :
  colOf (s ++ [c]) = if c =? 10 then 0 else colOf s + 1.
Proof. unfold colOf. rewrite fold_left_app. reflexivity. Qed.

Lemma atInput_inj s s' l : atInput s l -> atInput s' l -> s = s'.
Proof.
  destruct s as [|c s], s' as [|c' s']; cbn; intros (He & Hc & Hr) (He' & Hc' & Hr');
    congruence.
Qed.

Lemma Here_read pre c s l : Here pre (c :: s) l -> Here (pre ++ [c]) s (lread l).
Proof.
  intros (Hat & Hl & Hc). split; [exact (lread_at _ _ _ Hat)|].
  destruct Hat as (He & Hch & Hr). cbn [firstn] in Hl, Hc.
  unfold lread. rewrite Hr. destruct s as [|d s]; cbn [firstn lline lcol].
  - rewrite app_nil_r. auto.
  - rewrite lineOf_snoc, colOf_snoc.
    destruct (d =? 10); cbn [lline lcol]; rewrite ?Hl, ?Hc; auto.
Qed.

Lemma Here_read_nil pre l : Here pre [] l -> Here pre [] (lread l).
Proof.
  intros (Hat & Hl & Hc). split; [exact (lread_at_nil _ Hat)|].
  destruct Hat as (He & Hch & Hr). unfold lread. rewrite Hr. cbn. auto.
Qed.

Lemma Here_reads l l' :
  Reads l l' ->
  forall pre s, Here pre s l ->
  exists t s', s = t ++ s' /\ Here (pre ++ t) s' l'.
Proof.
  induction 1 as [l|l l' _ IH]; intros pre s Hh.
  - exists [], s. rewrite app_nil_r. auto.
  - destruct s as [|c s].
    + apply Here_read_nil in Hh. exact (IH _ _ Hh).
    + apply Here_read in Hh. destruct (IH _ _ Hh) as (t & s' & -> & Hh').
      exists (c :: t), s'. rewrite <- app_assoc in Hh'. auto.
Qed.

Lemma Here_at pre t s l l' :
  Here pre (t ++ s) l -> Reads l l' -> atInput s l' -> Here (pre ++ t) s l'.
Proof.
  intros Hh Hr Hat.
  destruct (Here_reads _ _ Hr _ _ Hh) as (t' & s' & Heq & Hh').
  pose proof (atInput_inj _ _ _ (proj1 Hh') Hat) as ->.
  apply app_inv_tail in Heq. subst t'. exact Hh'.
Qed.

Lemma Here_end pre s l l' :
  Here pre s l -> Reads l l' -> leof l' = true -> Here (pre ++ s) [] l'.
Proof.
  intros Hh Hr He.
  destruct (Here_reads _ _ Hr _ _ Hh) as (t & s' & -> & Hh').
  destruct s' as [|c s']; [rewrite app_nil_r; exact Hh'|].
  destruct Hh' as ((He' & _) & _). congruence.
Qed.

Lemma Reads_trans a b c : Reads a b -> Reads b c -> Reads a c.
Proof.
  induction 1 as [|l l' _ IH]; intros Hc; [exact Hc|].
  apply Reads_step. exact (IH Hc).
Qed.

Lemma Reads_read l : Reads l (lread l).
Proof. apply Reads_step, Reads_refl. Qed.

Lemma Reads_read2 l : Reads l (lread (lread l)).
Proof. apply Reads_step, Reads_read. Qed.

Lemma skipSpaces_reads n : forall l, Reads l (fst (skipSpaces n l)).
Proof.
  induction n as [|n IH]; intros l; cbn [skipSpaces fst]; [apply Reads_refl|].
  destruct (IsSpace (lch l)); cbn [fst]; [|apply Reads_refl].
  destruct (leof (lread l)); cbn [fst]; [apply Reads_read|].
  apply Reads_step, IH.
Qed.

Lemma skipLine_reads n : forall l, Reads l (skipLine n l).
Proof.
  induction n as [|n IH]; intros l; cbn [skipLine]; [apply Reads_refl|].
  destruct (negb (lch l =? 10) && negb (leof l)); [|apply Reads_refl].
  apply Reads_step, IH.
Qed.

Lemma skipBlock_reads n : forall l, Reads l (fst (skipBlock n l)).
Proof.
  induction n as [|n IH]; intros l; cbn [skipBlock fst]; [apply Reads_refl|].
  destruct (leof l); cbn [fst]; [apply Reads_refl|].
  destruct ((lch l =? 42) && (lpeek l =? 47)); cbn [fst];
    [apply Reads_read2|].
  apply Reads_step, IH.
Qed.

Lemma skipWhitespaceLoop_reads n : forall l, Reads l (skipWhitespaceLoop opt n l).
Proof.
  induction n as [|n IH]; intros l; cbn [skipWhitespaceLoop];
    [apply Reads_refl|].
  pose proof (skipSpaces_reads (lfuel l) l) as H1.
  destruct (skipSpaces (lfuel l) l) as [l1 atEnd]. cbn [fst] in H1.
  destruct atEnd; [exact H1|].
  destruct (negb (DisableComments opt) && (lch l1 =? 47)); [|exact H1].
  destruct (lpeek l1 =? 47).
  - eapply Reads_trans; [exact H1|].
    eapply Reads_trans; [apply Reads_read2|].
    eapply Reads_trans; [apply skipLine_reads|]. apply IH.
  - destruct (lpeek l1 =? 42); [|exact H1].
    pose proof (skipBlock_reads (lfuel (lread (lread l1))) (lread (lread l1)))
      as H3.
    destruct (skipBlock _ _) as [l3 atEnd3]. cbn [fst] in H3.
    assert (H13 : Reads l l3).
    { eapply Reads_trans; [exact H1|].
      eapply Reads_trans; [apply Reads_read2|exact H3]. }
    destruct atEnd3; [exact H13|].
    eapply Reads_trans; [exact H13|apply IH].
Qed.

Lemma readWhile_reads part n : forall l b, Reads l (snd (readWhile part n l b)).
Proof.
  induction n as [|n IH]; intros l b; cbn [readWhile snd]; [apply Reads_refl|].
  destruct (part (lch l)); cbn [snd]; [|apply Reads_refl].
  destruct (leof (lread l)); cbn [snd]; [apply Reads_read|].
  apply Reads_step, IH.
Qed.

(** The string loop only reads, and it reports an unterminated string
    at the end of the input. *)
Lemma readStringLoop_reads n : forall l b,
  Reads l (snd (readStringLoop n l b))
  /\ match snd (fst (readStringLoop n l b)) with
     | None => True
     | Some e =>
         e = ErrFuel
         \/ (leof (snd (readStringLoop n l b)) = true
             /\ e = lerrorf (snd (readStringLoop n l b))
                      (lit "unterminated string"))
     end.
Proof.
  induction n as [|n IH]; intros l b; cbn [readStringLoop].
  - cbn. split; [apply Reads_refl|]. left; reflexivity.
  - destruct (leof l) eqn:He.
    + cbn. split; [apply Reads_refl|]. right. auto.
    + destruct (lch l =? 34).
      * destruct (lpeek l =? 34).
        -- destruct (IH (lread (lread l)) (b ++ [34])) as [H1 H2].
           split; [|exact H2].
           eapply Reads_trans; [apply Reads_read2|exact H1].
        -- cbn. split; [apply Reads_read|exact I].
      * destruct ((lch l =? 92) && ((lpeek l =? 92) || (lpeek l =? 34))).
        -- destruct (IH (lread (lread l)) (b ++ [lch (lread l)])) as [H1 H2].
           split; [|exact H2].
           eapply Reads_trans; [apply Reads_read2|exact H1].
        -- destruct (IH (lread l) (b ++ [lch l])) as [H1 H2].
           split; [|exact H2]. apply Reads_step. exact H1.
Qed.

(** [skipWhitespace] passes over skipped text and stops. *)
Lemma skipWhitespaceLoop_skipped b X :
  Skipped (negb (DisableComments opt)) b ->
  tokenBegin (negb (DisableComments opt)) X ->
  forall l n, atInput (b ++ X) l -> (length b < n)%nat ->
  atInput X (skipWhitespaceLoop opt n l).
Proof.
  intros Hb HX.
  induction Hb as [|c s Hsp Hb IH|body s Hcm Hnl Hb IH|body s Hcm Hno Hb IH];
    intros l n Hat Hn.
  - destruct n as [|n]; [cbn in Hn; lia|]. cbn [app] in Hat.
    destruct X as [|c r].
    + rewrite skipWhitespaceLoop_nil by exact Hat. exact Hat.
    + destruct HX as [Hsp Hcm]. cbn [skipWhitespaceLoop]. unfold lfuel.
      rewrite (skipSpaces_nonspace _ _ _ _ Hat Hsp).
      pose proof Hat as (He & Hc & Hr). rewrite Hc.
      destruct (negb (DisableComments opt)) eqn:Hd; cbn [andb]; [|exact Hat].
      destruct (Z.eqb_spec c 47) as [->|H47]; [|exact Hat].
      destruct (Hcm eq_refl eq_refl) as [H1 H2].
      rewrite (lpeek_at _ _ _ Hat).
      apply Z.eqb_neq in H1. apply Z.eqb_neq in H2. rewrite H1, H2.
      exact Hat.
  - destruct n as [|n]; [cbn in Hn; lia|]. cbn [app] in Hat.
    rewrite (skipWhitespaceLoop_space opt n _ _ _ Hat Hsp).
    apply IH; [apply lread_at with (c := c); exact Hat | cbn in Hn; lia].
  - destruct n as [|n]; [cbn in Hn; lia|]. cbn [skipWhitespaceLoop].
    cbn [app] in Hat. rewrite <- app_assoc in Hat. cbn [app] in Hat.
    pose proof Hat as (He & Hc & Hr).
    unfold lfuel at 1. rewrite (skipSpaces_nonspace _ _ _ _ Hat) by reflexivity.
    rewrite Hcm, Hc. rewrite (lpeek_at _ _ _ Hat). cbn [hd].
    replace (47 =? 47) with true by reflexivity. cbn [andb].
    set (l2 := lread (lread l)).
    assert (Hat2 : atInput (body ++ 10 :: s ++ X) l2).
    { apply lread_at with (c := 47). apply lread_at with (c := 47). exact Hat. }
    assert (Hat3 : atInput (10 :: s ++ X) (skipLine (lfuel l2) l2)).
    { apply skipLine_body with (body := body); auto.
      pose proof (lfuel_at _ _ Hat2) as Hf. rewrite length_app in Hf. lia. }
    cbn [length] in Hn. rewrite length_app in Hn. cbn [length] in Hn.
    destruct n as [|n]; [lia|].
    rewrite (skipWhitespaceLoop_space opt n _ _ _ Hat3) by reflexivity.
    apply IH; [apply lread_at with (c := 10); exact Hat3 | lia].
  - destruct n as [|n]; [cbn in Hn; lia|]. cbn [skipWhitespaceLoop].
    cbn [app] in Hat. rewrite <- app_assoc in Hat. cbn [app] in Hat.
    pose proof Hat as (He & Hc & Hr).
    unfold lfuel at 1. rewrite (skipSpaces_nonspace _ _ _ _ Hat) by reflexivity.
    rewrite Hcm, Hc. rewrite (lpeek_at _ _ _ Hat). cbn [hd].
    replace (47 =? 47) with true by reflexivity.
    replace (42 =? 47) with false by reflexivity.
    replace (42 =? 42) with true by reflexivity. cbn [andb].
    set (l2 := lread (lread l)).
    assert (Hat2 : atInput (body ++ 42 :: 47 :: s ++ X) l2).
    { apply lread_at with (c := 42). apply lread_at with (c := 47). exact Hat. }
    destruct (skipBlock_body body (s ++ X) l2 (lfuel l2) Hno Hat2)
      as (l3 & Hl3 & Hat3).
    { pose proof (lfuel_at _ _ Hat2) as Hf. rewrite length_app in Hf. lia. }
    rewrite Hl3.
    cbn [length] in Hn. rewrite length_app in Hn. cbn [length] in Hn.
    apply IH; [exact Hat3 | lia].
Qed.

Lemma skipWhitespace_skipped b X l :
  Skipped (negb (DisableComments opt)) b ->
  tokenBegin (negb (DisableComments opt)) X ->
  atInput (b ++ X) l -> atInput X (skipWhitespace opt l).
Proof.
  intros Hb HX Hat. unfold skipWhitespace.
  apply (skipWhitespaceLoop_skipped b X Hb HX); [exact Hat|].
  pose proof (lfuel_at _ _ Hat) as Hf. rewrite length_app in Hf. lia.
Qed.

(** The token of [lexer.next] starts where [skipWhitespace] stops, and an
    error is reported there or at the end of the input. *)
Lemma lnext_from l :
  let l1 := skipWhitespace opt l in
  Reads l1 (snd (lnext opt l))
  /\ match snd (fst (lnext opt l)) with
     | None =>
         Line (fst (fst (lnext opt l))) = lline l1
         /\ Col (fst (fst (lnext opt l))) = lcol l1
     | Some e =>
         (leof l1 = false
          /\ e = lerrorf l1 (lit "unexpected character '" ++ [lch l1]
                                ++ lit "'"))
         \/ (exists le, Reads l1 le /\ leof le = true
                        /\ e = lerrorf le (lit "unterminated string"))
     end.
Proof.
  cbv zeta. unfold lnext. cbv zeta.
  set (l1 := skipWhitespace opt l).
  destruct (leof l1) eqn:He; [cbn; split; [apply Reads_refl|auto]|].
  repeat match goal with
         | |- context [if ?c =? ?k then _ else _] =>
             destruct (c =? k);
               [cbn; split; [apply Reads_read|auto]|]
         end.
  destruct (lch l1 =? 34).
  - unfold readString.
    pose proof (readStringLoop_reads (lfuel (lread l1)) (lread l1) []) as [H1 H2].
    pose proof (readStringLoop_fuel (lfuel (lread l1)) (lread l1) []) as H3.
    destruct (readStringLoop _ _ _) as [[s err] l'].
    cbn [fst snd] in *.
    split; [apply Reads_step; exact H1|].
    destruct err as [e|]; [|auto].
    right. exists l'. split; [apply Reads_step; exact H1|].
    destruct H2 as [->|[H2 ->]]; [|auto].
    exfalso. apply H3; [|reflexivity].
    unfold lexLeft, lfuel. destruct (leof (lread l1)); lia.
  - destruct (isIdentStart (lch l1)).
    + unfold readIdent.
      pose proof (readWhile_reads isIdentPart (lfuel l1) l1 []) as H1.
      destruct (readWhile _ _ _ _) as [s l']. cbn [snd] in H1.
      destruct (EqualFold s (lit "class")); cbn; auto.
    + destruct (isNumberStart (lch l1)).
      * unfold readNumberOrIdent.
        pose proof (readWhile_reads isWordPart (lfuel l1) l1 []) as H1.
        destruct (readWhile _ _ _ _) as [s l']. cbn [snd] in H1.
        destruct (isValidNumber s); cbn; auto.
      * cbn. split; [apply Reads_refl|]. left. auto.
Qed.

(** X15. The positions the lexer reports.  Let the lexer have read the
    text [pre] and stand at a text that begins with white space and
    closed comments [b], followed by [X], the end of the input or the
    start of a token.  The token [next] returns carries the line and the
    column of the first character of [X] (at the end of the input, of
    the last character read); lines count from 1, a line feed starts a
    line at column 0 and every other character is one column, the byte
    order mark included.  An unexpected character is reported at its own
    position, an unterminated string at the end of the input.  After the
    call the lexer has read what it passed.  The lexer [newLexer]
    returns has read nothing but the byte order mark. *)
Theorem token_positions (pre b X : str) (l : lexer) :
  Skipped (negb (DisableComments opt)) b ->
  tokenBegin (negb (DisableComments opt)) X ->
  Here pre (b ++ X) l ->
  (let '((tok, err), l') := lnext opt l in
   (exists t rest, X = t ++ rest /\ Here (pre ++ b ++ t) rest l')
   /\ match err with
      | None =>
          Line tok = lineOf (pre ++ b ++ firstn 1 X)
          /\ Col tok = colOf (pre ++ b ++ firstn 1 X)
      | Some e =>
          (exists c r,
             X = c :: r
             /\ e = ErrLex (lineOf (pre ++ b ++ [c])) (colOf (pre ++ b ++ [c]))
                      (lit "unexpected character '" ++ [c] ++ lit "'"))
          \/ e = ErrLex (lineOf (pre ++ b ++ X)) (colOf (pre ++ b ++ X))
                   (lit "unterminated string")
      end)
  /\ (forall input,
        Here [] input (newLexer input)
        \/ exists s, input = 65279 :: s /\ Here [65279] s (newLexer input)).
Proof.
  intros Hb HX Hh. split.
  - pose proof (skipWhitespace_skipped b X l Hb HX (proj1 Hh)) as Hat1.
    assert (Hh1 : Here (pre ++ b) X (skipWhitespace opt l)).
    { apply (Here_at pre b X l); [exact Hh| |exact Hat1].
      apply skipWhitespaceLoop_reads. }
    pose proof (lnext_from l) as [Hr Hpos]. cbv zeta in Hr, Hpos.
    destruct (lnext opt l) as [[tok err] l']. cbn [fst snd] in Hr, Hpos.
    split.
    + destruct (Here_reads _ _ Hr _ _ Hh1) as (t & rest & Heq & Hh').
      exists t, rest. rewrite <- !app_assoc in Hh'. auto.
    + pose proof Hh1 as (Hat & Hl & Hc). rewrite <- !app_assoc in Hl, Hc.
      destruct err as [e|].
      * destruct Hpos as [[He ->]|(le & Hrl & Hle & ->)].
        -- left. destruct X as [|c r].
           ++ destruct Hat as (He' & _). congruence.
           ++ exists c, r. split; [reflexivity|].
              destruct Hat as (_ & Hch & _). unfold lerrorf.
              cbn [firstn] in Hl, Hc. rewrite Hl, Hc, Hch. reflexivity.
        -- right.
           pose proof (Here_end _ _ _ _ Hh1 Hrl Hle) as (_ & Hl' & Hc').
           cbn [firstn] in Hl', Hc'. rewrite app_nil_r in Hl', Hc'.
           rewrite <- !app_assoc in Hl', Hc'.
           unfold lerrorf. rewrite Hl', Hc'. reflexivity.
      * destruct Hpos as [H1 H2]. rewrite H1, H2. auto.
  - intros input. unfold newLexer.
    assert (Hh0 : Here [] input (lread (mkLexer input 0 false 1 0))).
    { unfold Here, lread. cbn [lr]. destruct input as [|c s]; cbn [app firstn].
      - cbn. auto.
      - unfold lineOf, colOf. cbn [fold_left].
        destruct (c =? 10); cbn; auto. }
    destruct input as [|c s].
    + left. pose proof Hh0 as ((He & Hc & Hr) & _). rewrite Hc.
      cbn [Z.eqb]. exact Hh0.
    + pose proof Hh0 as ((He & Hc & Hr) & _). rewrite Hc.
      destruct (Z.eqb_spec c 65279) as [->|Hne].
      * right. exists s. split; [reflexivity|].
        apply (Here_read [] 65279 s). exact Hh0.
      * left. exact Hh0.
Qed.

End Positions.

(** A line comment, a line feed and a blank in front of a letter. *)
Definition skippedExample : str := 47 :: 47 :: [32; 99] ++ 10 :: [32].

Lemma token_positions_witness :
  let '((tok, err), l') :=
    lnext (U := Ref.asciiUnicode) (F := Ref.decStrconv)
      (normalizeParseOptions None) (newLexer (skippedExample ++ [120])) in
  (exists t rest,
     [120] = t ++ rest /\ Here ([] ++ skippedExample ++ t) rest l')
  /\ match err with
     | None =>
         Line tok = lineOf ([] ++ skippedExample ++ firstn 1 [120])
         /\ Col tok = colOf ([] ++ skippedExample ++ firstn 1 [120])
     | Some e =>
         (exists c r,
            [120] = c :: r
            /\ e = ErrLex (lineOf ([] ++ skippedExample ++ [c]))
                     (colOf ([] ++ skippedExample ++ [c]))
                     (lit "unexpected character '" ++ [c] ++ lit "'"))
         \/ e = ErrLex (lineOf ([] ++ skippedExample ++ [120]))
                  (colOf ([] ++ skippedExample ++ [120]))
                  (lit "unterminated string")
     end.
Proof.
  refine (proj1 (token_positions (U := Ref.asciiUnicode) (F := Ref.decStrconv)
                   (normalizeParseOptions None) [] skippedExample [120]
                   (newLexer (skippedExample ++ [120])) _ _ _)).
  - apply Skipped_line; [reflexivity|cbn; intuition discriminate|].
    apply Skipped_space; [reflexivity|apply Skipped_nil].
  - split; [reflexivity|intros _ H; discriminate H].
  - vm_compute. auto.
Defined.

(* ================================================================== *)
(** ** Comments and positions do not change the tokens *)

(** Two lexers with the same input ahead of them. *)
Definition sameInput (l l0 : lexer) : Prop :=
  lr l = lr l0 /\ lch l = lch l0 /\ leof l = leof l0.

(** An error without its position. *)
Definition unplaced (e : error) : error :=
  match e with
  | ErrLex _ _ msg => ErrLex 0 0 msg
  | ErrParse _ _ msg => ErrParse 0 0 msg
  | e => e
  end.

Section SameTokens.
Context {U : Unicode} {F : Strconv}.
Variable opt : ParseOptions.

Lemma sameInput_refl l : sameInput l l.
Proof. repeat split. Qed.

Lemma sameInput_read l l0 : sameInput l l0 -> sameInput (lread l) (lread l0).
Proof.
  intros (Hr & Hc & He). unfold lread. rewrite <- Hr.
  destruct (lr l) as [|c r]; [repeat split|].
  destruct (c =? 10); repeat split; cbn; exact He.
Qed.

Lemma sameInput_peek l l0 : sameInput l l0 -> lpeek l = lpeek l0.
Proof. intros (Hr & _). unfold lpeek. rewrite Hr. reflexivity. Qed.

Lemma sameInput_fuel l l0 : sameInput l l0 -> lfuel l = lfuel l0.
Proof. intros (Hr & _). unfold lfuel. rewrite Hr. reflexivity. Qed.

Lemma sameInput_at s l l0 : atInput s l -> atInput s l0 -> sameInput l l0.
Proof.
  destruct s as [|c s]; cbn; intros (He & Hc & Hr) (He0 & Hc0 & Hr0);
    repeat split; congruence.
Qed.

Lemma skipSpaces_same n : forall l l0,
  sameInput l l0 ->
  sameInput (fst (skipSpaces n l)) (fst (skipSpaces n l0))
  /\ snd (skipSpaces n l) = snd (skipSpaces n l0).
Proof.
  induction n as [|n IH]; intros l l0 Hs; cbn [skipSpaces]; [auto|].
  pose proof Hs as (_ & Hc & _). rewrite <- Hc.
  destruct (IsSpace (lch l)); [|auto].
  pose proof (sameInput_read _ _ Hs) as Hs1.
  pose proof Hs1 as (_ & _ & He1). rewrite <- He1.
  destruct (leof (lread l)); [auto|]. apply IH. exact Hs1.
Qed.

Lemma skipLine_same n : forall l l0,
  sameInput l l0 -> sameInput (skipLine n l) (skipLine n l0).
Proof.
  induction n as [|n IH]; intros l l0 Hs; cbn [skipLine]; [exact Hs|].
  pose proof Hs as (_ & Hc & He). rewrite <- Hc, <- He.
  destruct (negb (lch l =? 10) && negb (leof l)); [|exact Hs].
  apply IH, sameInput_read, Hs.
Qed.

Lemma skipBlock_same n : forall l l0,
  sameInput l l0 ->
  sameInput (fst (skipBlock n l)) (fst (skipBlock n l0))
  /\ snd (skipBlock n l) = snd (skipBlock n l0).
Proof.
  induction n as [|n IH]; intros l l0 Hs; cbn [skipBlock]; [auto|].
  pose proof Hs as (_ & Hc & He). rewrite <- Hc, <- He.
  rewrite <- (sameInput_peek _ _ Hs).
  destruct (leof l); [auto|].
  destruct ((lch l =? 42) && (lpeek l =? 47)).
  - split; [|reflexivity]. cbn [fst].
    apply sameInput_read, sameInput_read, Hs.
  - apply IH, sameInput_read, Hs.
Qed.

Lemma skipWhitespaceLoop_same n : forall l l0,
  sameInput l l0 ->
  sameInput (skipWhitespaceLoop opt n l) (skipWhitespaceLoop opt n l0).
Proof.
  induction n as [|n IH]; intros l l0 Hs; cbn [skipWhitespaceLoop];
    [exact Hs|].
  rewrite <- (sameInput_fuel _ _ Hs).
  pose proof (skipSpaces_same (lfuel l) _ _ Hs) as [H1 H2].
  destruct (skipSpaces (lfuel l) l) as [l1 e1].
  destruct (skipSpaces (lfuel l) l0) as [l1' e1'].
  cbn [fst snd] in H1, H2. subst e1'.
  destruct e1; [exact H1|].
  pose proof H1 as (_ & Hc & _). rewrite <- Hc.
  destruct (negb (DisableComments opt) && (lch l1 =? 47)); [|exact H1].
  rewrite <- (sameInput_peek _ _ H1).
  pose proof (sameInput_read _ _ (sameInput_read _ _ H1)) as H2.
  rewrite <- (sameInput_fuel _ _ H2).
  destruct (lpeek l1 =? 47).
  - apply IH, skipLine_same, H2.
  - destruct (lpeek l1 =? 42); [|exact H1].
    pose proof (skipBlock_same (lfuel (lread (lread l1))) _ _ H2) as [H3 H4].
    destruct (skipBlock _ (lread (lread l1))) as [l3 e3].
    destruct (skipBlock _ (lread (lread l1'))) as [l3' e3'].
    cbn [fst snd] in H3, H4. subst e3'.
    destruct e3; [exact H3|]. apply IH, H3.
Qed.

Lemma readWhile_same part n : forall l l0 b,
  sameInput l l0 ->
  fst (readWhile part n l b) = fst (readWhile part n l0 b)
  /\ sameInput (snd (readWhile part n l b)) (snd (readWhile part n l0 b)).
Proof.
  induction n as [|n IH]; intros l l0 b Hs; cbn [readWhile]; [auto|].
  pose proof Hs as (_ & Hc & _). rewrite <- Hc.
  destruct (part (lch l)); [|auto].
  pose proof (sameInput_read _ _ Hs) as Hs1.
  pose proof Hs1 as (_ & _ & He1). rewrite <- He1.
  destruct (leof (lread l)); [auto|]. apply IH. exact Hs1.
Qed.

Lemma readStringLoop_same n : forall l l0 b,
  sameInput l l0 ->
  fst (fst (readStringLoop n l b)) = fst (fst (readStringLoop n l0 b))
  /\ option_map unplaced (snd (fst (readStringLoop n l b)))
     = option_map unplaced (snd (fst (readStringLoop n l0 b)))
  /\ sameInput (snd (readStringLoop n l b)) (snd (readStringLoop n l0 b)).
Proof.
  induction n as [|n IH]; intros l l0 b Hs; cbn [readStringLoop]; [cbn; auto|].
  pose proof Hs as (_ & Hc & He). rewrite <- Hc, <- He.
  rewrite <- (sameInput_peek _ _ Hs).
  pose proof (sameInput_read _ _ Hs) as Hs1.
  pose proof (sameInput_read _ _ Hs1) as Hs2.
  destruct (leof l); [cbn; auto|].
  destruct (lch l =? 34).
  - destruct (lpeek l =? 34); [apply IH, Hs2|]. cbn. auto.
  - destruct ((lch l =? 92) && ((lpeek l =? 92) || (lpeek l =? 34))).
    + pose proof Hs1 as (_ & Hc1 & _). rewrite <- Hc1. apply IH, Hs2.
    + apply IH, Hs1.
Qed.

(** What [lexer.next] does behind [skipWhitespace] depends on the input
    ahead only; the positions go into the token and into the error. *)
Lemma lnext_same l l0 :
  sameInput (skipWhitespace opt l) (skipWhitespace opt l0) ->
  Type_ (fst (fst (lnext opt l))) = Type_ (fst (fst (lnext opt l0)))
  /\ Lit (fst (fst (lnext opt l))) = Lit (fst (fst (lnext opt l0)))
  /\ option_map unplaced (snd (fst (lnext opt l)))
     = option_map unplaced (snd (fst (lnext opt l0)))
  /\ sameInput (snd (lnext opt l)) (snd (lnext opt l0)).
Proof.
  unfold lnext. cbv zeta.
  generalize (skipWhitespace opt l) (skipWhitespace opt l0).
  intros l1 l1' Hs.
  pose proof Hs as (_ & Hc & He). rewrite <- Hc, <- He.
  pose proof (sameInput_read _ _ Hs) as Hs1.
  destruct (leof l1); [cbn; auto|].
  repeat match goal with
         | |- context [if ?c =? ?k then _ else _] =>
             destruct (c =? k); [solve [cbn; auto]|]
         end.
  destruct (lch l1 =? 34).
  - unfold readString. cbv zeta. rewrite <- (sameInput_fuel _ _ Hs1).
    pose proof (readStringLoop_same (lfuel (lread l1)) _ _ [] Hs1)
      as (H1 & H2 & H3).
    destruct (readStringLoop _ (lread l1) _) as [[s e] l'].
    destruct (readStringLoop _ (lread l1') _) as [[s' e'] l''].
    cbn in *. auto.
  - destruct (isIdentStart (lch l1)).
    + unfold readIdent. rewrite <- (sameInput_fuel _ _ Hs).
      pose proof (readWhile_same isIdentPart (lfuel l1) _ _ [] Hs) as (H1 & H2).
      destruct (readWhile _ _ l1 _) as [s l'].
      destruct (readWhile _ _ l1' _) as [s' l''].
      cbn [fst snd] in H1, H2. subst s'.
      destruct (EqualFold s (lit "class")); cbn; auto.
    + destruct (isNumberStart (lch l1)).
      * unfold readNumberOrIdent. rewrite <- (sameInput_fuel _ _ Hs).
        pose proof (readWhile_same isWordPart (lfuel l1) _ _ [] Hs) as (H1 & H2).
        destruct (readWhile _ _ l1 _) as [s l'].
        destruct (readWhile _ _ l1' _) as [s' l''].
        cbn [fst snd] in H1, H2. subst s'.
        destruct (isValidNumber s); cbn; auto.
      * cbn. auto.
Qed.

(** X16. White space and comments in front of a token change nothing
    but positions.  When a lexer stands at white space and closed
    comments followed by a text [X] (the end of the input or the start
    of a token) and another lexer stands at [X], whatever their
    positions, [next] returns tokens of the same type and literal, or
    errors with the same message, and leaves the same input ahead.  A
    slash that opens no comment (every slash when comments are
    disabled) is an unexpected character. *)
Theorem comments_skipped (b X : str) (l l0 : lexer) :
  Skipped (negb (DisableComments opt)) b ->
  tokenBegin (negb (DisableComments opt)) X ->
  atInput (b ++ X) l -> atInput X l0 ->
  (Type_ (fst (fst (lnext opt l))) = Type_ (fst (fst (lnext opt l0)))
   /\ Lit (fst (fst (lnext opt l))) = Lit (fst (fst (lnext opt l0)))
   /\ option_map unplaced (snd (fst (lnext opt l)))
      = option_map unplaced (snd (fst (lnext opt l0)))
   /\ sameInput (snd (lnext opt l)) (snd (lnext opt l0)))
  /\ (forall r, X = 47 :: r ->
      lnext opt l0
      = ((token0, Some (lerrorf l0 (lit "unexpected character '/'"))), l0)).
Proof.
  intros Hb HX Hat Hat0. split.
  - apply lnext_same.
    apply (sameInput_at X).
    + exact (skipWhitespace_skipped opt b X l Hb HX Hat).
    + exact (skipWhitespace_skipped opt [] X l0
               (Skipped_nil _) HX Hat0).
  - intros r ->.
    assert (Hl : skipWhitespace opt l0 = l0).
    { unfold skipWhitespace, lfuel. cbn [skipWhitespaceLoop].
      destruct HX as [Hsp Hcm]. unfold lfuel.
      rewrite (skipSpaces_nonspace _ _ _ _ Hat0 Hsp).
      pose proof Hat0 as (He & Hc & Hr). rewrite Hc.
      destruct (negb (DisableComments opt)); cbn [andb]; [|reflexivity].
      destruct (Hcm eq_refl eq_refl) as [H1 H2].
      rewrite (lpeek_at _ _ _ Hat0).
      apply Z.eqb_neq in H1. apply Z.eqb_neq in H2. rewrite H1, H2.
      reflexivity. }
    unfold lnext. cbv zeta. rewrite Hl.
    pose proof Hat0 as (He & Hc & Hr). rewrite He, Hc. reflexivity.
Qed.

End SameTokens.

(** A block comment and a line feed in front of a word. *)
Definition commentExample : str := 47 :: 42 :: [99] ++ 42 :: 47 :: [10].

Lemma comments_skipped_witness :
  Type_ (fst (fst (lnext (U := Ref.asciiUnicode) (F := Ref.decStrconv)
                     (normalizeParseOptions None)
                     (newLexer (commentExample ++ [120; 59])))))
  = Type_ (fst (fst (lnext (U := Ref.asciiUnicode) (F := Ref.decStrconv)
                       (normalizeParseOptions None) (newLexer [120; 59]))))
  /\ Lit (fst (fst (lnext (U := Ref.asciiUnicode) (F := Ref.decStrconv)
                      (normalizeParseOptions None)
                      (newLexer (commentExample ++ [120; 59])))))
     = Lit (fst (fst (lnext (U := Ref.asciiUnicode) (F := Ref.decStrconv)
                        (normalizeParseOptions None) (newLexer [120; 59])))).
Proof.
  refine ((fun H => conj (proj1 (proj1 H)) (proj1 (proj2 (proj1 H))))
            (comments_skipped (U := Ref.asciiUnicode) (F := Ref.decStrconv)
               (normalizeParseOptions None) commentExample [120; 59]
               (newLexer (commentExample ++ [120; 59])) (newLexer [120; 59])
               _ _ _ _)).
  - apply Skipped_block; [reflexivity|reflexivity|].
    apply Skipped_space; [reflexivity|apply Skipped_nil].
  - split; [reflexivity|intros _ H; discriminate H].
  - vm_compute. auto.
  - vm_compute. auto.
Defined.

(* ================================================================== *)
(** ** The flags of the validator *)

Definition hasMessage (msg : string) (i : Issue) : bool :=
  str_eqb (Message i) (lit msg).

(** The issues that are reported under the options [v1] and no longer
    under [v2], which disables what [v1] disables and possibly more. *)
Definition silenced (v1 v2 : ValidateOptions) (i : Issue) : bool :=
  (DisableShaderNameCheck v2 && negb (DisableShaderNameCheck v1)
   && (hasMessage "unknown PixelShaderID" i
       || hasMessage "unknown VertexShaderID" i
       || hasMessage "unknown Stage name" i))
  || (DisableExtensionsCheck v2 && negb (DisableExtensionsCheck v1)
      && hasMessage "unexpected texture extension" i)
  || (DisableFileCheck v2 && negb (DisableFileCheck v1)
      && hasMessage "texture file not found" i)
  || (DisableFileCheck v2 && DisableExtensionsCheck v2
      && hasMessage "texture path contains '..'" i).

Section ValidatorFlags.
Context {U : Unicode} {F : Strconv} {L : Lists} {H : Host}.

Ltac messages :=
  unfold warning, errorIssue, silenced, hasMessage; cbn [Message];
  repeat match goal with
         | |- context [str_eqb (lit ?a) (lit ?b)] =>
             let v := eval vm_compute in (str_eqb (lit a) (lit b)) in
             change (str_eqb (lit a) (lit b)) with v
         end;
  rewrite ?andb_false_r, ?orb_false_r; cbn [negb andb orb].

Ltac branches :=
  repeat match goal with
         | |- context [if ?b then _ else _] => destruct b
         | |- context [match ?x with _ => _ end] => destruct x
         end.

Lemma filter_flat_map {A B} (p : B -> bool) (f g : A -> list B) xs :
  (forall x, In x xs -> filter p (f x) = g x) ->
  filter p (flat_map f xs) = flat_map g xs.
Proof.
  induction xs as [|x xs IH]; intros Hx; [reflexivity|].
  cbn [flat_map]. rewrite filter_app, Hx by (left; reflexivity).
  rewrite IH; [reflexivity|]. intros y Hy. apply Hx. right. exact Hy.
Qed.

Lemma filter_flat_map_nil {A B} (p : B -> bool) (f : A -> list B) xs :
  (forall x, In x xs -> filter p (f x) = []) ->
  filter p (flat_map f xs) = [].
Proof.
  induction xs as [|x xs IH]; intros Hx; [reflexivity|].
  cbn [flat_map]. rewrite filter_app, Hx by (left; reflexivity).
  apply IH. intros y Hy. apply Hx. right. exact Hy.
Qed.

Variables v1 v2 : ValidateOptions.
Hypothesis Hroot : GameRoot v1 = GameRoot v2.
Hypothesis Hexcl : ExcludePaths v1 = ExcludePaths v2.
Hypothesis Hfile : DisableFileCheck v1 = true -> DisableFileCheck v2 = true.
Hypothesis Hext :
  DisableExtensionsCheck v1 = true -> DisableExtensionsCheck v2 = true.
Hypothesis Hname :
  DisableShaderNameCheck v1 = true -> DisableShaderNameCheck v2 = true.

Let keep (i : Issue) : bool := negb (silenced v1 v2 i).

Lemma keep_missingShader m :
  filter keep (missingShaderIssues m) = missingShaderIssues m.
Proof.
  unfold missingShaderIssues, keep.
  destruct (Stages m); [reflexivity|].
  destruct (isEmpty (PixelShaderID m)), (isEmpty (VertexShaderID m));
    cbn [app filter]; messages; reflexivity.
Qed.

Lemma keep_colorIssues m : filter keep (colorIssues m) = colorIssues m.
Proof.
  unfold colorIssues, validateColor, keep. rewrite !filter_app.
  repeat match goal with
         | |- context [match ?x with [] => _ | _ :: _ => _ end] =>
             destruct x
         | |- context [if ?b then _ else _] => destruct b
         end; cbn [filter app]; messages; reflexivity.
Qed.

Lemma keep_duplicateIssues sts : forall seen,
  filter keep (duplicateIssues seen sts) = duplicateIssues seen sts.
Proof.
  induction sts as [|st sts IH]; intros seen; cbn [duplicateIssues];
    [reflexivity|].
  destruct (isEmpty (StageName st)); [apply IH|].
  destruct (existsb (str_eqb (StageName st)) seen); [|apply IH].
  cbn [filter]. unfold keep at 1. messages. rewrite IH. reflexivity.
Qed.

Lemma keep_shaderNames m :
  filter keep (shaderNameIssues v1 m) = shaderNameIssues v2 m.
Proof.
  unfold shaderNameIssues, keep.
  destruct (DisableShaderNameCheck v1) eqn:H1.
  - rewrite (Hname eq_refl). reflexivity.
  - cbn [negb]. rewrite filter_app.
    destruct (DisableShaderNameCheck v2) eqn:H2; cbn [negb];
      branches; cbn [filter app]; messages; rewrite ?H1, ?H2;
      reflexivity.
Qed.

Lemma keep_stageIssues st :
  filter keep (stageIssues v1 st) = stageIssues v2 st.
Proof.
  unfold stageIssues, stageNameIssues, uvWiringIssues, keep.
  rewrite filter_app.
  destruct (DisableShaderNameCheck v1) eqn:H1.
  - rewrite (Hname eq_refl). cbn [negb andb filter app].
    branches; cbn [filter]; messages; reflexivity.
  - destruct (DisableShaderNameCheck v2) eqn:H2; cbn [negb andb];
      branches; cbn [filter app]; messages; rewrite ?H1, ?H2;
      reflexivity.
Qed.

Lemma keep_textureIssues m :
  filter keep (allTextureIssues v1 m) = allTextureIssues v2 m.
Proof.
  unfold allTextureIssues.
  destruct (DisableFileCheck v1) eqn:F1, (DisableExtensionsCheck v1) eqn:E1;
    try rewrite (Hfile eq_refl); try rewrite (Hext eq_refl);
    cbn [negb orb]; [reflexivity| | |].
  all: destruct (DisableFileCheck v2) eqn:F2,
         (DisableExtensionsCheck v2) eqn:E2;
    try discriminate (Hfile eq_refl); try discriminate (Hext eq_refl);
    cbn [negb orb].
  all: first [apply filter_flat_map | apply filter_flat_map_nil];
    intros st _.
  all: unfold textureIssues, keep; rewrite ?F1, ?E1, ?F2, ?E2, <- ?Hroot,
         <- ?Hexcl; cbv zeta; cbn [negb andb];
       branches; cbn [filter app]; messages; rewrite ?F1, ?E1, ?F2, ?E2;
       reflexivity.
Qed.

End ValidatorFlags.

Section ValidatorFlagsTop.
Context {U : Unicode} {F : Strconv} {L : Lists} {H : Host}.

(** X17. Disabling checks of the validator only removes issues.  When
    the options [o2] have the game root and the excluded paths of [o1]
    and disable every check [o1] disables, [Validate] under [o2] returns
    the issues it returns under [o1], in the same order, without those
    of the checks that [o2] disables beyond [o1]: the three unknown-name
    warnings for the shader-name flag, the extension warning for the
    extension flag, the file-not-found warning for the file flag.  The
    warning for a texture path that contains two dots has no flag of its
    own: it is reported unless both the file check and the extension
    check are disabled. *)
Theorem validator_flags (m : Material) (o1 o2 : option ValidateOptions) :
  let v1 := normalizeValidateOptions o1 in
  let v2 := normalizeValidateOptions o2 in
  GameRoot v1 = GameRoot v2 -> ExcludePaths v1 = ExcludePaths v2 ->
  (DisableFileCheck v1 = true -> DisableFileCheck v2 = true) ->
  (DisableExtensionsCheck v1 = true -> DisableExtensionsCheck v2 = true) ->
  (DisableShaderNameCheck v1 = true -> DisableShaderNameCheck v2 = true) ->
  Validate m o2 = filter (fun i => negb (silenced v1 v2 i)) (Validate m o1)
  /\ (length (Validate m o2) <= length (Validate m o1))%nat.
Proof.
  intros v1 v2 Hroot Hexcl Hfile Hext Hname.
  assert (Heq : Validate m o2
                = filter (fun i => negb (silenced v1 v2 i)) (Validate m o1)).
  { unfold Validate. fold v1 v2. rewrite !filter_app.
    rewrite (keep_missingShader v1 v2), (keep_colorIssues v1 v2),
      (keep_duplicateIssues v1 v2),
      (keep_shaderNames v1 v2 Hname),
      (keep_textureIssues v1 v2 Hroot Hexcl Hfile Hext).
    rewrite (filter_flat_map _ (stageIssues v1) (stageIssues v2));
      [reflexivity|].
    intros st _. apply (keep_stageIssues v1 v2 Hname). }
  split; [exact Heq|]. rewrite Heq. apply filter_length_le.
Qed.

End ValidatorFlagsTop.

(** Options that disable the extension check and the shader-name
    check. *)
Definition quietOptions : ValidateOptions :=
  {| GameRoot := []; ExcludePaths := []; DisableFileCheck := false;
     DisableExtensionsCheck := true; DisableShaderNameCheck := true |}.

Lemma validator_flags_witness :
  Validate (U := Ref.asciiUnicode) (L := noLists) (H := Ref.bareHost)
    probe (Some quietOptions)
  = filter
      (fun i => negb (silenced (normalizeValidateOptions None)
                        (normalizeValidateOptions (Some quietOptions)) i))
      (Validate (U := Ref.asciiUnicode) (L := noLists) (H := Ref.bareHost)
         probe None)
  /\ (length (Validate (U := Ref.asciiUnicode) (L := noLists)
                (H := Ref.bareHost) probe (Some quietOptions))
      <= length (Validate (U := Ref.asciiUnicode) (L := noLists)
                   (H := Ref.bareHost) probe None))%nat.
Proof.
  apply (validator_flags (U := Ref.asciiUnicode) (L := noLists)
           (H := Ref.bareHost) probe None (Some quietOptions));
    try reflexivity; intros H; discriminate H.
Defined.

(* ================================================================== *)
(** ** Case-sensitive keys *)

Section CaseSensitive.
Context {U : Unicode} {F : Strconv}.
Variable opt : ParseOptions.
Hypothesis Hcs : DisableCaseInsensitive opt = true.

(** The names [parseTopAssign] and [parseTopClass] recognise when keys
    are matched with regard to case. *)
Definition isTopFieldExact (name : str) (isArray : bool) : bool :=
  if isArray then
    str_eqb name (lit "ambient") || str_eqb name (lit "diffuse")
    || str_eqb name (lit "forceddiffuse") || str_eqb name (lit "emmisive")
    || str_eqb name (lit "specular")
  else
    str_eqb name (lit "specularpower") || str_eqb name (lit "pixelshaderid")
    || str_eqb name (lit "vertexshaderid").

Definition topExtraExact (n : node) : bool :=
  match n with
  | NAssign name isArray _ => negb (isTopFieldExact name isArray)
  | NClass name base _ =>
      negb (HasPrefix name (lit "stage") && isEmpty base)
      && negb (HasPrefix name (lit "texgen"))
  end.

Lemma ci_off : ci opt = false.
Proof. unfold ci. rewrite Hcs. reflexivity. Qed.

Lemma isStageName_off name : isStageName opt name = HasPrefix name (lit "stage").
Proof. unfold isStageName, hasPrefixKey. rewrite Hcs. reflexivity. Qed.

Lemma isTexGenName_off name :
  isTexGenName opt name = HasPrefix name (lit "texgen").
Proof. unfold isTexGenName, hasPrefixKey. rewrite Hcs. reflexivity. Qed.

Lemma Run_topAssign_exact m name isArray v n k :
  isName name = true -> wfValue v -> (vsize v <= n)%nat ->
  isTopFieldExact name isArray = false ->
  Run opt (parseTopAssign opt n m) (textAssign name isArray v ++ k)
    (mAddExtra m (NAssign name isArray v)) k.
Proof.
  intros Hname Hv Hn Hx. unfold parseTopAssign.
  unfold textAssign; norm.
  eapply Run_expect; [apply Tok_name; [exact Hname|apply delimited_suffix]|].
  intros line col. cbn [Lit].
  eapply Run_bind; [apply Run_parseArraySuffix|].
  eapply Run_expect; [apply Tok_symbol; reflexivity|].
  intros line1 col1. cbv zeta. rewrite ci_off.
  unfold isTopFieldExact in Hx. unfold matchKey.
  destruct isArray.
  - rewrite Hx.
    eapply Run_bind; [apply (Run_parseValue opt _ Hv); [exact Hn|delim]|].
    eapply Run_bind; [apply Run_expectSemicolon|]. apply Run_ret.
  - apply orb_false_iff in Hx. destruct Hx as [Hx H3].
    apply orb_false_iff in Hx. destruct Hx as [H1 H2].
    rewrite H1, H2, H3.
    eapply Run_bind; [apply (Run_parseValue opt _ Hv); [exact Hn|delim]|].
    eapply Run_bind; [apply Run_expectSemicolon|]. apply Run_ret.
Qed.

Lemma Run_topClass_exact m name base body n ind lvl ws1 ws2 R :
  isName name = true -> isEmpty base || isName base = true ->
  Forall wfNode body -> forallb IsSpace ind = true ->
  forallb IsSpace ws1 = true -> forallb IsSpace ws2 = true ->
  (S (nodesSize body) <= n)%nat ->
  topExtraExact (NClass name base body) = true ->
  Run opt (parseTopClass opt n m)
    (textClass ind lvl ws1 ws2 name base body R)
    (mAddExtra m (NClass name base body)) R.
Proof.
  intros Hname Hbase Hbody Hind Hws1 Hws2 Hn Hx. unfold parseTopClass.
  unfold textClass.
  eapply Run_expect; [apply Tok_class; delim|].
  intros line col. apply (Run_ws opt [32]); [reflexivity|].
  eapply Run_expect; [apply Tok_name; [exact Hname|apply delimited_base]|].
  intros line1 col1. cbn [Lit].
  eapply Run_bind; [apply (Run_parseBase opt _ _ _ Hbase Hws1)|].
  cbv zeta. rewrite isStageName_off, isTexGenName_off.
  cbn [topExtraExact] in Hx. apply andb_true_iff in Hx. destruct Hx as [H1 H2].
  apply negb_true_iff in H1. apply negb_true_iff in H2. rewrite H1, H2.
  eapply Run_bind;
    [apply (Run_parseClassBody opt _ _ _ _ _ _ _ _ Hbody Hind Hn Hws2)|].
  apply Run_ret.
Qed.

(** Generic nodes at the top level, and what follows them. *)
Lemma Run_topLoop_nodes ind lvl nodes :
  Forall wfNode nodes -> Forall (fun n => topExtraExact n = true) nodes ->
  forallb IsSpace ind = true ->
  forall m N R res,
    (forall n, (N <= n)%nat ->
       Run opt (parseMaterialLoop opt n (fold_left mAddExtra nodes m))
         R res []) ->
    forall n, (N + nodesSize nodes <= n)%nat ->
      Run opt (parseMaterialLoop opt n m)
        (flat_map (textNode ind lvl) nodes ++ R) res [].
Proof.
  intros Hwf Hex Hind. pose proof (textIndent_spaces ind lvl Hind) as Hsp.
  induction Hwf as [|nd nodes Hnd Hwf IH]; intros m N R res Hloop n Hn.
  - cbn [flat_map fold_left app] in *. apply Hloop. lia.
  - inversion Hex as [|? ? Hx Hex']; subst.
    unfold nodesSize in *. cbn [List.map] in Hn.
    change (list_sum (nsize nd :: List.map nsize nodes))
      with (nsize nd + list_sum (List.map nsize nodes))%nat in Hn.
    pose proof (nsize_pos nd) as Hpos.
    destruct n as [|n]; [lia|].
    cbn [flat_map fold_left] in *. rewrite <- app_assoc.
    destruct nd as [name isArray v|name base body].
    + destruct Hnd as [Hname Hv]. cbn [nsize] in Hn. cbn [topExtraExact] in Hx.
      apply negb_true_iff in Hx.
      cbn [textNode]. rewrite <- !app_assoc.
      apply Run_ws; [exact Hsp|].
      eapply Run_topLoop_assign;
        [unfold textAssign; rewrite <- !app_assoc;
         apply Tok_name; [exact Hname|apply delimited_suffix]
        |apply Run_topAssign_exact; [exact Hname|exact Hv|lia|exact Hx]|].
      apply (Run_ws opt [10]); [reflexivity|].
      apply (IH Hex' _ N); [exact Hloop|lia].
    + pose proof Hnd as Hnd'.
      apply wfNode_class in Hnd. destruct Hnd as (Hname & Hbase & Hbody).
      cbn [nsize] in Hn.
      rewrite textNode_class.
      apply Run_ws; [exact Hsp|].
      eapply Run_topLoop_class;
        [unfold textClass; apply Tok_class; delim
        |apply Run_topClass_exact; try assumption; unfold nodesSize; lia|].
      apply (Run_ws opt [10]); [reflexivity|].
      apply (IH Hex' _ N); [exact Hloop|lia].
Qed.

(** The colour arrays the writer spells in lower case. *)
Lemma Run_topArray_exact (key : string)
  (set : Material -> list float64 -> Material) fs m n R :
  isName (lit key) = true ->
  matchKey (lit key) (lit "ambient") false
  || matchKey (lit key) (lit "diffuse") false
  || matchKey (lit key) (lit "forceddiffuse") false
  || matchKey (lit key) (lit "emmisive") false
  || matchKey (lit key) (lit "specular") false = true ->
  (forall vals,
     (if matchKey (lit key) (lit "ambient") false then mSetAmbient m vals
      else if matchKey (lit key) (lit "diffuse") false then mSetDiffuse m vals
      else if matchKey (lit key) (lit "forceddiffuse") false
           then mSetForcedDiffuse m vals
      else if matchKey (lit key) (lit "emmisive") false
           then mSetEmmisive m vals
      else if matchKey (lit key) (lit "specular") false
           then mSetSpecular m vals
      else m) = set m vals) ->
  Forall numberText fs -> (length fs < n)%nat ->
  Run opt (parseTopAssign opt n m)
    (lit key ++ 91 :: 93 :: 61 :: textFloats fs ++ 59 :: R) (set m fs) R.
Proof.
  intros Hname Hk1 Hk2 Hfs Hn. unfold parseTopAssign.
  eapply Run_expect; [apply Tok_name; [exact Hname|delim]|].
  intros line col. cbn [Lit].
  eapply Run_bind; [apply (Run_parseArraySuffix opt true)|].
  eapply Run_expect; [apply Tok_symbol; reflexivity|].
  intros line1 col1. cbv zeta. rewrite ci_off. rewrite Hk1.
  eapply Run_bind; [apply Run_parseNumberArray; [exact Hfs|exact Hn]|].
  rewrite Hk2.
  eapply Run_bind; [apply Run_expectSemicolon|]. apply Run_ret.
Qed.

Lemma Run_topLoop_array_exact (key : string)
  (set : Material -> list float64 -> Material) fs m ind lvl N R res :
  isName (lit key) = true ->
  matchKey (lit key) (lit "ambient") false
  || matchKey (lit key) (lit "diffuse") false
  || matchKey (lit key) (lit "forceddiffuse") false
  || matchKey (lit key) (lit "emmisive") false
  || matchKey (lit key) (lit "specular") false = true ->
  (forall vals,
     (if matchKey (lit key) (lit "ambient") false then mSetAmbient m vals
      else if matchKey (lit key) (lit "diffuse") false then mSetDiffuse m vals
      else if matchKey (lit key) (lit "forceddiffuse") false
           then mSetForcedDiffuse m vals
      else if matchKey (lit key) (lit "emmisive") false
           then mSetEmmisive m vals
      else if matchKey (lit key) (lit "specular") false
           then mSetSpecular m vals
      else m) = set m vals) ->
  Forall numberText fs ->
  (forall n, (N <= n)%nat ->
     Run opt (parseMaterialLoop opt n
                (match fs with [] => m | _ => set m fs end)) R res []) ->
  forall n, (N + namedSize fs <= n)%nat ->
    Run opt (parseMaterialLoop opt n m)
      (textNamedArray false ind lvl (lit key) fs ++ R) res [].
Proof.
  intros Hname Hk1 Hk2 Hfs Hloop n Hn. unfold textNamedArray.
  destruct fs as [|f fs'].
  - cbn [app]. apply Hloop. cbn in Hn. lia.
  - assert (Hsz : namedSize (f :: fs') = S (S (length (f :: fs'))))
      by reflexivity.
    cbv iota in Hloop. remember (f :: fs') as fs eqn:Hf.
    rewrite Hsz in Hn. destruct n as [|n]; [lia|]. norm.
    eapply Run_topLoop_assign;
      [apply Tok_name; [exact Hname|delim]
      |apply (Run_topArray_exact key set); [exact Hname|exact Hk1|exact Hk2
                                           |exact Hfs|lia]|].
    apply (Run_ws opt [10]); [reflexivity|]. apply Hloop. lia.
Qed.

End CaseSensitive.

(** *** The writer's text as generic nodes *)

Section WrittenNodes.
Context {F : Strconv}.

(** A numeric array as a generic value. *)
Definition floatsValue (fs : list float64) : value :=
  VArray (List.map VNumber fs).

(** The generic nodes that print as a numeric array, as a string field,
    as a [uvTransform] class, as a stage and as a texture generator. *)
Definition arrayNodes (name : string) (fs : list float64) : list node :=
  match fs with
  | [] => []
  | _ => [NAssign (lit name) true (floatsValue fs)]
  end.

Definition fieldNodes (name : string) (s : str) : list node :=
  if isEmpty s then [] else [NAssign (lit name) false (VString s)].

Definition uvNode (uv : UVTransform) : node :=
  NClass (lit "uvTransform") []
    (arrayNodes "aside" (Aside uv) ++ arrayNodes "up" (Up uv)
     ++ arrayNodes "dir" (Dir uv) ++ arrayNodes "pos" (Pos uv)).

Definition optUVNodes (o : option UVTransform) : list node :=
  match o with
  | Some uv => [uvNode uv]
  | None => []
  end.

Definition stageNode (st : Stage) : node :=
  NClass (StageName st) []
    (fieldNodes "texture" (Raw (Texture st))
     ++ (if isEmpty (StageTexGen st)
         then fieldNodes "uvSource" (StageUVSource st) else [])
     ++ fieldNodes "texGen" (StageTexGen st)
     ++ (if isEmpty (StageTexGen st)
         then optUVNodes (StageUVTransform st) else [])
     ++ StageExtras st).

Definition texGenNode (t : TexGen) : node :=
  NClass (TexGenName t) (TexGenBase t)
    (fieldNodes "uvSource" (TexGenUVSource t)
     ++ optUVNodes (TexGenUVTransform t)
     ++ TexGenExtras t).

(** The nodes behind the colour arrays [ambient] and [diffuse], and those
    behind [emmisive] and [specular], in the order of the writer. *)
Definition writtenNodes (m : Material) : list node :=
  match SpecularPower m with
  | Some v => [NAssign (lit "specularPower") false (VNumber v)]
  | None => []
  end
  ++ fieldNodes "PixelShaderID" (PixelShaderID m)
  ++ fieldNodes "VertexShaderID" (VertexShaderID m)
  ++ List.map texGenNode (TexGens m)
  ++ List.map stageNode (Stages m)
  ++ Extras m.

(** What [Parse] reads, with regard to case, from the text of a material
    whose stages and texture generators have names that do not start
    with [stage] and [texgen] in lower case: the four colour arrays the
    writer spells as the parser does, and everything else as generic
    nodes. *)
Definition readExact (m : Material) : Material :=
  {| Ambient := Ambient m; Diffuse := Diffuse m; ForcedDiffuse := [];
     Emmisive := Emmisive m; Specular := Specular m; SpecularPower := None;
     PixelShaderID := []; VertexShaderID := []; Stages := []; TexGens := [];
     Extras := arrayNodes "forcedDiffuse" (ForcedDiffuse m)
               ++ writtenNodes m |}.

Lemma textSeparated_numbers fs : forall first,
  textSeparated textValue first (List.map VNumber fs)
  = textSeparated FormatFloat first fs.
Proof.
  induction fs as [|f fs IH]; intros first; cbn [List.map textSeparated];
    [reflexivity|].
  rewrite IH. reflexivity.
Qed.

Lemma textFloats_value fs : textValue (floatsValue fs) = textFloats fs.
Proof.
  unfold floatsValue, textFloats. cbn [textValue].
  rewrite textSeparated_numbers. reflexivity.
Qed.

Lemma text_arrayNodes ind lvl (name : string) fs :
  flat_map (textNode ind lvl) (arrayNodes name fs)
  = textNamedArray true ind lvl (lit name) fs.
Proof.
  unfold arrayNodes, textNamedArray. destruct fs as [|f fs]; [reflexivity|].
  cbn [flat_map textNode]. unfold textAssign. rewrite textFloats_value.
  rewrite app_nil_r. norm. reflexivity.
Qed.

Lemma text_arrayNodes_top ind (name : string) fs :
  flat_map (textNode ind 0) (arrayNodes name fs)
  = textNamedArray false ind 0 (lit name) fs.
Proof.
  rewrite text_arrayNodes. unfold textNamedArray.
  destruct fs; reflexivity.
Qed.

Lemma text_fieldNodes ind lvl (name : string) s :
  flat_map (textNode ind lvl) (fieldNodes name s)
  = textField true ind lvl (lit name) s.
Proof.
  unfold fieldNodes, textField. destruct (isEmpty s); [reflexivity|].
  cbn [flat_map textNode textValue]. unfold textAssign. cbn [textValue].
  rewrite app_nil_r. norm. reflexivity.
Qed.

Lemma text_fieldNodes_top ind (name : string) s :
  flat_map (textNode ind 0) (fieldNodes name s)
  = textField false ind 0 (lit name) s.
Proof.
  rewrite text_fieldNodes. unfold textField.
  destruct (isEmpty s); reflexivity.
Qed.

Lemma text_uvNode ind lvl uv :
  textNode ind lvl (uvNode uv) = textUVTransform ind lvl uv.
Proof.
  unfold uvNode, textUVTransform. cbn [textNode].
  rewrite !flat_map_app, !text_arrayNodes.
  change (textHeader (lit "uvTransform") [])
    with (lit "class uvTransform" ++ [10]).
  norm. reflexivity.
Qed.

Lemma text_optUVNodes ind lvl o :
  flat_map (textNode ind lvl) (optUVNodes o) = textOptUV ind lvl o.
Proof.
  destruct o as [uv|]; [|reflexivity].
  cbn [optUVNodes flat_map textOptUV]. rewrite text_uvNode.
  apply app_nil_r.
Qed.

Lemma text_stageNode ind st :
  isEmpty (StageName st) = false ->
  textNode ind 0 (stageNode st) = textStage ind 0 st.
Proof.
  intros Hname. unfold stageNode, textStage. rewrite Hname.
  cbn [textNode]. rewrite !flat_map_app, !text_fieldNodes.
  change (textIndent ind 0) with (@nil rune). unfold textHeader.
  cbn [isEmpty negb].
  destruct (isEmpty (StageTexGen st));
    rewrite ?text_fieldNodes, ?text_optUVNodes; norm; reflexivity.
Qed.

Lemma text_texGenNode ind t :
  isEmpty (TexGenName t) = false ->
  textNode ind 0 (texGenNode t) = textTexGen ind 0 t.
Proof.
  intros Hname. unfold texGenNode, textTexGen. rewrite Hname.
  cbn [textNode]. rewrite !flat_map_app, text_fieldNodes, text_optUVNodes.
  change (textIndent ind 0) with (@nil rune). norm. reflexivity.
Qed.

End WrittenNodes.

Section WrittenNodesWF.
Context {U : Unicode} {F : Strconv}.

Lemma wf_floatsValue fs : Forall numberText fs -> wfValue (floatsValue fs).
Proof.
  intros Hfs. unfold floatsValue. apply wfValue_array.
  induction Hfs as [|f fs Hf _ IH]; cbn [List.map]; constructor;
    [exact Hf|exact IH].
Qed.

Lemma wf_arrayNodes (name : string) fs :
  isName (lit name) = true -> Forall numberText fs ->
  Forall wfNode (arrayNodes name fs).
Proof.
  intros Hname Hfs. unfold arrayNodes. destruct fs as [|f fs]; constructor;
    [|constructor].
  split; [exact Hname|apply wf_floatsValue; exact Hfs].
Qed.

Lemma wf_fieldNodes (name : string) s :
  isName (lit name) = true -> strSafe s = true ->
  Forall wfNode (fieldNodes name s).
Proof.
  intros Hname Hs. unfold fieldNodes. destruct (isEmpty s); constructor;
    [|constructor].
  split; [exact Hname|exact Hs].
Qed.

Lemma wf_optUVNodes o : wfOptUV o -> Forall wfNode (optUVNodes o).
Proof.
  destruct o as [uv|]; [|constructor]. intros (Ha & Hu & Hd & Hp).
  constructor; [|constructor]. unfold uvNode. apply wfNode_class.
  split; [reflexivity|]. split; [reflexivity|].
  repeat (apply Forall_app; split); apply wf_arrayNodes;
    solve [reflexivity|assumption].
Qed.

Lemma wf_stageNode st : wfStage st -> wfNode (stageNode st).
Proof.
  intros (Hname & _ & Htex & Huv & Htg & Hopt & Hex & _).
  unfold stageNode. apply wfNode_class.
  split; [exact Hname|]. split; [reflexivity|].
  repeat (apply Forall_app; split).
  - apply wf_fieldNodes; [reflexivity|exact Htex].
  - destruct (isEmpty (StageTexGen st)); [|constructor].
    apply wf_fieldNodes; [reflexivity|exact Huv].
  - apply wf_fieldNodes; [reflexivity|exact Htg].
  - destruct (isEmpty (StageTexGen st)); [|constructor].
    apply wf_optUVNodes. exact Hopt.
  - exact Hex.
Qed.

Lemma wf_texGenNode t : wfTexGen t -> wfNode (texGenNode t).
Proof.
  intros (Hname & _ & Hbase & Huv & Hopt & Hex & _).
  unfold texGenNode. apply wfNode_class.
  split; [exact Hname|]. split; [exact Hbase|].
  repeat (apply Forall_app; split).
  - apply wf_fieldNodes; [reflexivity|exact Huv].
  - apply wf_optUVNodes. exact Hopt.
  - exact Hex.
Qed.

(** A prefix matched with regard to case is matched without. *)
Lemma HasPrefix_split p : forall s,
  HasPrefix s p = true -> exists r, s = p ++ r.
Proof.
  induction p as [|c p IH]; intros s H; [exists s; reflexivity|].
  destruct s as [|d s]; [discriminate|]. cbn [HasPrefix] in H.
  apply andb_true_iff in H. destruct H as [Hd H]. apply Z.eqb_eq in Hd.
  destruct (IH s H) as (r & ->). exists r. subst d. reflexivity.
Qed.

Lemma firstn_length_app {A} (p r : list A) : firstn (length p) (p ++ r) = p.
Proof. induction p as [|c p IH]; cbn; [reflexivity|]. rewrite IH. reflexivity. Qed.

Lemma HasPrefix_fold s p :
  List.map asciiLower p = p -> HasPrefix s p = true ->
  hasPrefixKey s p true = true.
Proof.
  intros Hp H. destruct (HasPrefix_split p s H) as (r & ->).
  unfold hasPrefixKey. cbn [negb].
  replace (length (p ++ r) <? length p)%nat with false
    by (symmetry; apply Nat.ltb_ge; rewrite length_app; lia).
  rewrite firstn_length_app, Hp. rewrite <- (app_nil_r p) at 1.
  apply HasPrefix_app.
Qed.

Lemma stage_not_exact name :
  hasPrefixKey name (lit "stage") true = false ->
  HasPrefix name (lit "stage") = false.
Proof.
  intros H. destruct (HasPrefix name (lit "stage")) eqn:Hp; [|reflexivity].
  rewrite (HasPrefix_fold _ _ eq_refl Hp) in H. discriminate.
Qed.

Lemma texgen_not_exact name :
  hasPrefixKey name (lit "texgen") true = false ->
  HasPrefix name (lit "texgen") = false.
Proof.
  intros H. destruct (HasPrefix name (lit "texgen")) eqn:Hp; [|reflexivity].
  rewrite (HasPrefix_fold _ _ eq_refl Hp) in H. discriminate.
Qed.

Lemma stage_not_texgen name :
  hasPrefixKey name (lit "stage") true = true ->
  hasPrefixKey name (lit "texgen") true = false.
Proof.
  intros H. destruct (hasPrefixKey name (lit "texgen") true) eqn:Ht;
    [|reflexivity].
  rewrite (texgen_not_stage _ Ht) in H. discriminate.
Qed.

Lemma exact_stageNode st :
  wfStage st -> HasPrefix (StageName st) (lit "stage") = false ->
  topExtraExact (stageNode st) = true.
Proof.
  intros (_ & Hp & _) Hx. unfold stageNode. cbn [topExtraExact].
  rewrite Hx. rewrite (texgen_not_exact _ (stage_not_texgen _ Hp)).
  reflexivity.
Qed.

Lemma exact_texGenNode t :
  wfTexGen t -> HasPrefix (TexGenName t) (lit "texgen") = false ->
  topExtraExact (texGenNode t) = true.
Proof.
  intros (_ & Hp & _) Hx. unfold texGenNode. cbn [topExtraExact].
  rewrite Hx. rewrite (stage_not_exact _ (texgen_not_stage _ Hp)).
  reflexivity.
Qed.

Lemma exact_key name (key : string) :
  EqualFold name (lit key) = false ->
  EqualFold (lit key) (lit key) = true -> str_eqb name (lit key) = false.
Proof.
  intros H Hk. destruct (str_eqb name (lit key)) eqn:He; [|reflexivity].
  apply str_eqb_eq in He. subst name. congruence.
Qed.

Lemma exact_topExtra n : topExtra n = true -> topExtraExact n = true.
Proof.
  destruct n as [name isArray v|name base body];
    cbn [topExtra topExtraExact]; intros H.
  - apply negb_true_iff in H. apply negb_true_iff.
    unfold isTopField in H. unfold isTopFieldExact.
    destruct isArray;
      repeat match type of H with
             | _ || _ = false =>
                 let H1 := fresh "H" in
                 apply orb_false_iff in H; destruct H as [H H1];
                 rewrite (exact_key _ _ H1 eq_refl)
             end;
      rewrite (exact_key _ _ H eq_refl); reflexivity.
  - apply andb_true_iff in H. destruct H as [H1 H2].
    apply negb_true_iff in H2. rewrite (texgen_not_exact _ H2).
    rewrite andb_true_r. apply negb_true_iff.
    apply negb_true_iff in H1. apply andb_false_iff in H1.
    destruct H1 as [H1|H1].
    + rewrite (stage_not_exact _ H1). reflexivity.
    + rewrite H1. apply andb_false_r.
Qed.

End WrittenNodesWF.

Section ReadExact.
Context {U : Unicode} {F : Strconv}.

(** Names the parser does not take for a stage or a texture generator
    when it matches with regard to case. *)
Definition plainNames (m : Material) : Prop :=
  Forall (fun st => HasPrefix (StageName st) (lit "stage") = false) (Stages m)
  /\ Forall (fun t => HasPrefix (TexGenName t) (lit "texgen") = false)
       (TexGens m).

Lemma flat_map_nodes {A} (tx : A -> str) (nd : A -> node) ind xs :
  (forall x, In x xs -> textNode ind 0 (nd x) = tx x) ->
  flat_map (textNode ind 0) (List.map nd xs) = flat_map tx xs.
Proof.
  induction xs as [|x xs IH]; intros Hx; [reflexivity|].
  cbn [List.map flat_map]. rewrite Hx by (left; reflexivity).
  rewrite IH; [reflexivity|]. intros y Hy. apply Hx. right. exact Hy.
Qed.

Lemma text_writtenNodes ind m :
  wfMaterial m ->
  flat_map (textNode ind 0) (writtenNodes m)
  = match SpecularPower m with
    | Some v => lit "specularPower" ++ 61 :: FormatFloat v ++ [59; 10]
    | None => []
    end
    ++ textField false ind 0 (lit "PixelShaderID") (PixelShaderID m)
    ++ textField false ind 0 (lit "VertexShaderID") (VertexShaderID m)
    ++ flat_map (textTexGen ind 0) (TexGens m)
    ++ flat_map (textStage ind 0) (Stages m)
    ++ flat_map (textNode ind 0) (Extras m).
Proof.
  intros (_ & _ & _ & _ & _ & _ & _ & _ & Htg & Hst & _).
  unfold writtenNodes. rewrite !flat_map_app, !text_fieldNodes_top.
  rewrite (flat_map_nodes (textTexGen ind 0) texGenNode).
  2:{ intros t Ht. rewrite Forall_forall in Htg.
      destruct (Htg t Ht) as (Hname & _).
      apply text_texGenNode, isName_nonempty, Hname. }
  rewrite (flat_map_nodes (textStage ind 0) stageNode).
  2:{ intros st Hs. rewrite Forall_forall in Hst.
      destruct (Hst st Hs) as (Hname & _).
      apply text_stageNode, isName_nonempty, Hname. }
  destruct (SpecularPower m) as [v|]; [|reflexivity].
  cbn [flat_map textNode]. unfold textAssign. cbn [textValue].
  change (textIndent ind 0) with (@nil rune). norm. reflexivity.
Qed.

Lemma wf_writtenNodes m :
  wfMaterial m -> Forall wfNode (writtenNodes m).
Proof.
  intros (_ & _ & _ & _ & _ & Hsp & Hpx & Hvx & Htg & Hst & Hex & _).
  unfold writtenNodes. repeat (apply Forall_app; split).
  - destruct (SpecularPower m) as [v|]; constructor; [|constructor].
    split; [reflexivity|exact Hsp].
  - apply wf_fieldNodes; [reflexivity|exact Hpx].
  - apply wf_fieldNodes; [reflexivity|exact Hvx].
  - rewrite Forall_forall in *. intros n Hn. apply in_map_iff in Hn.
    destruct Hn as (t & <- & Ht). apply wf_texGenNode, Htg, Ht.
  - rewrite Forall_forall in *. intros n Hn. apply in_map_iff in Hn.
    destruct Hn as (st & <- & Hs). apply wf_stageNode, Hst, Hs.
  - exact Hex.
Qed.

Lemma exact_fieldNodes (name : string) s :
  isTopFieldExact (lit name) false = false ->
  Forall (fun n => topExtraExact n = true) (fieldNodes name s).
Proof.
  intros Hx. unfold fieldNodes. destruct (isEmpty s); constructor;
    [|constructor].
  cbn [topExtraExact]. rewrite Hx. reflexivity.
Qed.

Lemma exact_writtenNodes m :
  wfMaterial m -> plainNames m ->
  Forall (fun n => topExtraExact n = true) (writtenNodes m).
Proof.
  intros (_ & _ & _ & _ & _ & _ & _ & _ & Htg & Hst & _ & Hex) [Hps Hpt].
  unfold writtenNodes. repeat (apply Forall_app; split).
  - destruct (SpecularPower m) as [v|]; constructor; [|constructor].
    reflexivity.
  - apply exact_fieldNodes. reflexivity.
  - apply exact_fieldNodes. reflexivity.
  - rewrite Forall_forall in *. intros n Hn. apply in_map_iff in Hn.
    destruct Hn as (t & <- & Ht).
    apply exact_texGenNode; [apply Htg, Ht|apply Hpt, Ht].
  - rewrite Forall_forall in *. intros n Hn. apply in_map_iff in Hn.
    destruct Hn as (st & <- & Hs).
    apply exact_stageNode; [apply Hst, Hs|apply Hps, Hs].
  - rewrite Forall_forall in *. intros n Hn. apply exact_topExtra, Hex, Hn.
Qed.

(** The material after the two groups of colour arrays and the generic
    nodes between and behind them. *)
Lemma readExact_fold m :
  readExact m =
  fold_left mAddExtra (writtenNodes m)
    (match Specular m with
     | [] => fun x => x
     | _ => fun x => mSetSpecular x (Specular m)
     end
       (match Emmisive m with
        | [] => fun x => x
        | _ => fun x => mSetEmmisive x (Emmisive m)
        end
          (fold_left mAddExtra (arrayNodes "forcedDiffuse" (ForcedDiffuse m))
             (match Diffuse m with
              | [] => fun x => x
              | _ => fun x => mSetDiffuse x (Diffuse m)
              end
                (match Ambient m with
                 | [] => fun x => x
                 | _ => fun x => mSetAmbient x (Ambient m)
                 end Material0))))).
Proof.
  rewrite !fold_mAddExtra. unfold readExact.
  destruct m as [a d fd e s sp px vx sts tgs ex].
  cbn [Ambient Diffuse ForcedDiffuse Emmisive Specular SpecularPower
       PixelShaderID VertexShaderID Stages TexGens Extras].
  destruct a, d, e, s; reflexivity.
Qed.

Variable opt : ParseOptions.
Hypothesis Hcs : DisableCaseInsensitive opt = true.

(** [parseMaterial], matching with regard to case, on the text of the
    writer. *)
Theorem Run_parseMaterial_exact m n ind :
  wfMaterial m -> plainNames m -> forallb IsSpace ind = true ->
  (length (textMaterial ind 0 m) < n)%nat ->
  Run opt (parseMaterial opt n) (textMaterial ind 0 m) (readExact m) [].
Proof.
  intros Hwf Hplain Hind Hn.
  pose proof (text_writtenNodes ind m Hwf) as Htext.
  pose proof (wf_writtenNodes m Hwf) as Hwfw.
  pose proof (exact_writtenNodes m Hwf Hplain) as Hxw.
  destruct Hwf as (Ha & Hd & Hfd & He & Hs & _).
  pose proof (wf_arrayNodes "forcedDiffuse" _ eq_refl Hfd) as Hwff.
  assert (Hxf : Forall (fun n => topExtraExact n = true)
                  (arrayNodes "forcedDiffuse" (ForcedDiffuse m))).
  { unfold arrayNodes. destruct (ForcedDiffuse m); constructor;
      [reflexivity|constructor]. }
  unfold parseMaterial, textMaterial in *. rewrite <- Htext in *.
  rewrite <- (text_arrayNodes_top ind "forcedDiffuse") in *.
  rewrite readExact_fold.
  pose proof (namedSize_length false ind 0 (lit "ambient") _ Ha) as La.
  pose proof (namedSize_length false ind 0 (lit "diffuse") _ Hd) as Ld.
  pose proof (namedSize_length false ind 0 (lit "emmisive") _ He) as Le.
  pose proof (namedSize_length false ind 0 (lit "specular") _ Hs) as Ls.
  pose proof (nodesSize_length ind 0 _ Hwff) as Lf.
  pose proof (nodesSize_length ind 0 _ Hwfw) as Lw.
  rewrite !length_app in Hn.
  set (Nw := (1 + nodesSize (writtenNodes m))%nat).
  set (Ns := (Nw + namedSize (Specular m))%nat).
  set (Ne := (Ns + namedSize (Emmisive m))%nat).
  set (Nf := (Ne + nodesSize (arrayNodes "forcedDiffuse" (ForcedDiffuse m)))%nat).
  set (Nd := (Nf + namedSize (Diffuse m))%nat).
  apply (Run_topLoop_array_exact opt Hcs "ambient" mSetAmbient _ _ ind 0 Nd);
    [reflexivity|reflexivity|reflexivity|exact Ha|
    |unfold Nd, Nf, Ne, Ns, Nw; lia].
  intros n1 Hn1.
  apply (Run_topLoop_array_exact opt Hcs "diffuse" mSetDiffuse _ _ ind 0 Nf);
    [reflexivity|reflexivity|reflexivity|exact Hd| |unfold Nd in Hn1; lia].
  intros n2 Hn2.
  apply (Run_topLoop_nodes opt Hcs ind 0 _ Hwff Hxf Hind _ Ne);
    [|unfold Nf in Hn2; lia].
  intros n3 Hn3.
  apply (Run_topLoop_array_exact opt Hcs "emmisive" mSetEmmisive _ _ ind 0 Ns);
    [reflexivity|reflexivity|reflexivity|exact He| |unfold Ne in Hn3; lia].
  intros n4 Hn4.
  apply (Run_topLoop_array_exact opt Hcs "specular" mSetSpecular _ _ ind 0 Nw);
    [reflexivity|reflexivity|reflexivity|exact Hs| |unfold Ns in Hn4; lia].
  intros n5 Hn5.
  assert (Hend : forall m0,
             Run opt (parseMaterialLoop opt n5 m0)
               (flat_map (textNode ind 0) (writtenNodes m))
               (fold_left mAddExtra (writtenNodes m) m0) []).
  { intros m0.
    rewrite <- (app_nil_r (flat_map (textNode ind 0) (writtenNodes m))).
    apply (Run_topLoop_nodes opt Hcs ind 0 _ Hwfw Hxw Hind _ 1%nat);
      [|unfold Nw in Hn5; lia].
    intros n6 Hn6. apply Run_topLoop_end. exact Hn6. }
  destruct (Ambient m), (Diffuse m), (Emmisive m), (Specular m); apply Hend.
Qed.

End ReadExact.

Section ReadExactTop.
Context {U : Unicode} {F : Strconv}.

(** X18. Keys matched with regard to case.  With
    [DisableCaseInsensitive] the parser knows its keys in lower case
    only, and the writer spells four of them otherwise.  Let [m] be well
    formed for the writer, with stages and texture generators whose
    names do not start with [stage] and [texgen] in lower case (as
    [Stage1] and [TexGen0] do not).  From what [Format] writes for [m],
    [Parse] keeps [ambient], [diffuse], [emmisive] and [specular], and
    returns everything else as generic nodes, in the order of the text:
    [forcedDiffuse], [specularPower], [PixelShaderID], [VertexShaderID],
    the texture generators, the stages, and the extras of [m].  So the
    result is [m] only when [m] has none of these. *)
Theorem case_sensitive_reading (m : Material) (fo : option FormatOptions)
  (po : option ParseOptions) :
  wfMaterial m -> plainNames m ->
  forallb IsSpace (Indent (normalizeFormatOptions fo)) = true ->
  DisableCaseInsensitive (normalizeParseOptions po) = true ->
  plainText (FormatText m fo) = true ->
  isBinaryRVMAT (Format m fo) = false ->
  Parse (Format m fo) po = Ok (readExact m)
  /\ (readExact m = m
      <-> ForcedDiffuse m = [] /\ SpecularPower m = None
          /\ PixelShaderID m = [] /\ VertexShaderID m = []
          /\ Stages m = [] /\ TexGens m = []).
Proof.
  intros Hwf Hnames Hind Hcs Hplain Hbin. split.
  - unfold Parse, Decode. rewrite Hbin.
    unfold plainText in Hplain. apply andb_true_iff in Hplain.
    destruct Hplain as [Hvalid Hbom]. apply negb_true_iff in Hbom.
    apply Z.eqb_neq in Hbom.
    unfold Format. rewrite (utf8_decode_encode _ Hvalid).
    rewrite FormatText_text in *.
    set (ind := Indent (normalizeFormatOptions fo)) in *.
    set (text := textMaterial ind 0 m) in *.
    assert (Hat : atInput text (newLexer text)).
    { destruct (newLexer_at text) as [Hat|(s & Hs & _)]; [exact Hat|].
      rewrite Hs in Hbom. cbn in Hbom. contradiction. }
    unfold newParser.
    destruct (Run_parseMaterial_exact (normalizeParseOptions po) Hcs m
                (S (S (length text))) ind Hwf Hnames Hind) with
      (p := mkParser (newLexer text) None) as (p' & Hrun & _).
    + fold text. lia.
    + apply Starts_at. exact Hat.
    + rewrite Hrun. reflexivity.
  - split.
    + intros Heq.
      pose proof (f_equal ForcedDiffuse Heq) as H1.
      pose proof (f_equal SpecularPower Heq) as H2.
      pose proof (f_equal PixelShaderID Heq) as H3.
      pose proof (f_equal VertexShaderID Heq) as H4.
      pose proof (f_equal Stages Heq) as H5.
      pose proof (f_equal TexGens Heq) as H6.
      cbn in H1, H2, H3, H4, H5, H6. auto 7.
    + intros (H1 & H2 & H3 & H4 & H5 & H6). unfold readExact, writtenNodes.
      destruct m as [a d fd e s sp px vx sts tgs ex]. cbn in *. subst.
      reflexivity.
Qed.

End ReadExactTop.

(** A material in the spelling of the writer, and options that match
    keys with regard to case. *)
Definition written : @Material Ref.decStrconv :=
  {| Ambient := [decimal 1 0; decimal 1 0; decimal 1 0; decimal 1 0];
     Diffuse := [];
     ForcedDiffuse := [decimal 0 0; decimal 0 0; decimal 0 0; decimal 0 0];
     Emmisive := [];
     Specular := [decimal 5 1];
     SpecularPower := Some (decimal 40 0);
     PixelShaderID := lit "Super";
     VertexShaderID := lit "Super";
     Stages :=
       [ {| StageName := lit "Stage1";
            Texture := ParseTextureRef (U := Ref.asciiUnicode)
                         (lit "a\b_nohq.paa");
            StageUVSource := lit "tex";
            StageTexGen := [];
            StageUVTransform :=
              Some {| Aside := [decimal 1 0; decimal 0 0; decimal 0 0];
                      Up := []; Dir := []; Pos := [] |};
            StageExtras := [] |} ];
     TexGens :=
       [ {| TexGenName := lit "TexGen0";
            TexGenBase := [];
            TexGenUVSource := lit "tex";
            TexGenUVTransform := None;
            TexGenExtras := [] |} ];
     Extras := [NAssign (lit "mainLight") false (VString (lit "Sun"))] |}.

Definition exactOptions : ParseOptions :=
  {| DisableCaseInsensitive := true; DisableComments := false;
     DisableRelaxedNumbers := false |}.

Lemma written_wf : wfMaterial (U := Ref.asciiUnicode) written.
Proof. wf_solve. Defined.

Lemma case_sensitive_reading_witness :
  Parse (U := Ref.asciiUnicode) (Format written None) (Some exactOptions)
  = Ok (readExact written).
Proof.
  refine (proj1 (case_sensitive_reading (U := Ref.asciiUnicode) written None
                   (Some exactOptions) written_wf _ eq_refl eq_refl _ _)).
  - split; repeat constructor.
  - vm_compute. reflexivity.
  - vm_compute. reflexivity.
Defined.

(* ================================================================== *)
(** ** Documents one after the other *)

Section Overlay.
Context {U : Unicode} {F : Strconv}.

(** The material [m0] after the parser has read the text of [m] on top
    of it: a colour array, [specularPower] or a shader name that [m] has
    replaces the one of [m0]; the texture generators, the stages and the
    extras of [m] come behind those of [m0]. *)
Definition overlay (m0 m : Material) : Material :=
  {| Ambient := match Ambient m with [] => Ambient m0 | _ => Ambient m end;
     Diffuse := match Diffuse m with [] => Diffuse m0 | _ => Diffuse m end;
     ForcedDiffuse :=
       match ForcedDiffuse m with
       | [] => ForcedDiffuse m0
       | _ => ForcedDiffuse m
       end;
     Emmisive := match Emmisive m with [] => Emmisive m0 | _ => Emmisive m end;
     Specular := match Specular m with [] => Specular m0 | _ => Specular m end;
     SpecularPower :=
       match SpecularPower m with
       | Some v => Some v
       | None => SpecularPower m0
       end;
     PixelShaderID :=
       if isEmpty (PixelShaderID m) then PixelShaderID m0
       else PixelShaderID m;
     VertexShaderID :=
       if isEmpty (VertexShaderID m) then VertexShaderID m0
       else VertexShaderID m;
     Stages := Stages m0 ++ List.map canonStage (Stages m);
     TexGens := TexGens m0 ++ TexGens m;
     Extras := Extras m0 ++ Extras m |}.

Lemma overlay_empty m : overlay Material0 m = canonMaterial m.
Proof.
  unfold overlay, canonMaterial.
  destruct m as [a d fd e s sp px vx sts tgs ex].
  cbn [Ambient Diffuse ForcedDiffuse Emmisive Specular SpecularPower
       PixelShaderID VertexShaderID Stages TexGens Extras Material0 app].
  destruct a, d, fd, e, s, sp, (isEmpty px) eqn:Hpx, (isEmpty vx) eqn:Hvx;
    try (destruct px; [|discriminate]); try (destruct vx; [|discriminate]);
    reflexivity.
Qed.

Lemma overlay_fold m0 m :
  overlay m0 m =
  fold_left mAddExtra (Extras m)
    (fold_left mAddStage (List.map canonStage (Stages m))
       (fold_left mAddTexGen (TexGens m)
          ((if isEmpty (VertexShaderID m) then fun x => x
            else fun x => mSetVertexShaderID x (VertexShaderID m))
             ((if isEmpty (PixelShaderID m) then fun x => x
               else fun x => mSetPixelShaderID x (PixelShaderID m))
                (match SpecularPower m with
                 | Some v => fun x => mSetSpecularPower x (Some v)
                 | None => fun x => x
                 end
                   (match Specular m with
                    | [] => fun x => x
                    | _ => fun x => mSetSpecular x (Specular m)
                    end
                      (match Emmisive m with
                       | [] => fun x => x
                       | _ => fun x => mSetEmmisive x (Emmisive m)
                       end
                         (match ForcedDiffuse m with
                          | [] => fun x => x
                          | _ => fun x => mSetForcedDiffuse x (ForcedDiffuse m)
                          end
                            (match Diffuse m with
                             | [] => fun x => x
                             | _ => fun x => mSetDiffuse x (Diffuse m)
                             end
                               (match Ambient m with
                                | [] => fun x => x
                                | _ => fun x => mSetAmbient x (Ambient m)
                                end m0)))))))))).
Proof.
  rewrite fold_mAddExtra, fold_mAddStage, fold_mAddTexGen. unfold overlay.
  destruct m as [a d fd e s sp px vx sts tgs ex].
  destruct m0 as [a0 d0 fd0 e0 s0 sp0 px0 vx0 sts0 tgs0 ex0].
  cbn [Ambient Diffuse ForcedDiffuse Emmisive Specular SpecularPower
       PixelShaderID VertexShaderID Stages TexGens Extras].
  destruct a, d, fd, e, s, sp, (isEmpty px), (isEmpty vx); reflexivity.
Qed.

Variable opt : ParseOptions.
Hypothesis Hci : DisableCaseInsensitive opt = false.

(** The extras at the top level, and what follows them. *)
Lemma Run_topLoop_extras_then ind lvl extras :
  Forall wfNode extras -> Forall (fun n => topExtra n = true) extras ->
  forallb IsSpace ind = true ->
  forall m N R res,
    (forall n, (N <= n)%nat ->
       Run opt (parseMaterialLoop opt n (fold_left mAddExtra extras m))
         R res []) ->
    forall n, (N + nodesSize extras <= n)%nat ->
      Run opt (parseMaterialLoop opt n m)
        (flat_map (textNode ind lvl) extras ++ R) res [].
Proof.
  intros Hwf Hex Hind. pose proof (textIndent_spaces ind lvl Hind) as Hsp.
  induction Hwf as [|nd nodes Hnd Hwf IH]; intros m N R res Hloop n Hn.
  - cbn [flat_map fold_left app] in *. apply Hloop. lia.
  - inversion Hex as [|? ? Hx Hex']; subst.
    unfold nodesSize in *. cbn [List.map] in Hn.
    change (list_sum (nsize nd :: List.map nsize nodes))
      with (nsize nd + list_sum (List.map nsize nodes))%nat in Hn.
    pose proof (nsize_pos nd) as Hpos.
    destruct n as [|n]; [lia|].
    cbn [flat_map fold_left] in *. rewrite <- app_assoc.
    destruct nd as [name isArray v|name base body].
    + destruct Hnd as [Hname Hv]. cbn [nsize] in Hn. cbn [topExtra] in Hx.
      apply negb_true_iff in Hx.
      cbn [textNode]. rewrite <- !app_assoc.
      apply Run_ws; [exact Hsp|].
      eapply Run_topLoop_assign;
        [unfold textAssign; rewrite <- !app_assoc;
         apply Tok_name; [exact Hname|apply delimited_suffix]
        |apply (Run_topAssign opt Hci); [exact Hname|exact Hv|lia|exact Hx]|].
      apply (Run_ws opt [10]); [reflexivity|].
      apply (IH Hex' _ N); [exact Hloop|lia].
    + pose proof Hnd as Hnd'.
      apply wfNode_class in Hnd. destruct Hnd as (Hname & Hbase & Hbody).
      cbn [nsize] in Hn.
      rewrite textNode_class.
      apply Run_ws; [exact Hsp|].
      eapply Run_topLoop_class;
        [unfold textClass; apply Tok_class; delim
        |apply (Run_topClass opt Hci); try assumption; unfold nodesSize; lia|].
      apply (Run_ws opt [10]); [reflexivity|].
      apply (IH Hex' _ N); [exact Hloop|lia].
Qed.

(** The text of a material read on top of any material, and what
    follows it. *)
Theorem Run_overlay m0 m ind R res N :
  wfMaterial m -> forallb IsSpace ind = true ->
  (forall n, (N <= n)%nat ->
     Run opt (parseMaterialLoop opt n (overlay m0 m)) R res []) ->
  forall n, (N + materialSize m <= S n)%nat ->
    Run opt (parseMaterialLoop opt n m0) (textMaterial ind 0 m ++ R) res [].
Proof.
  intros (Ha & Hd & Hfd & He & Hs & Hsp & Hpx & Hvx & Htg & Hst & Hex & Hexx)
    Hind Hloop n Hn.
  unfold textMaterial. rewrite overlay_fold in Hloop.
  unfold materialSize in Hn. rewrite <- !app_assoc.
  set (Nex := (N + nodesSize (Extras m))%nat).
  set (Nst := (Nex + list_sum (List.map (fun s => S (stageSize s)) (Stages m)))%nat).
  set (Ntg := (Nst + list_sum (List.map (fun t => S (texGenSize t)) (TexGens m)))%nat).
  set (Nvx := (Ntg + fieldSize (VertexShaderID m))%nat).
  set (Npx := (Nvx + fieldSize (PixelShaderID m))%nat).
  set (Nsp := (Npx + match SpecularPower m with Some _ => 1 | None => 0 end)%nat).
  set (Ns := (Nsp + namedSize (Specular m))%nat).
  set (Ne := (Ns + namedSize (Emmisive m))%nat).
  set (Nfd := (Ne + namedSize (ForcedDiffuse m))%nat).
  set (Nd := (Nfd + namedSize (Diffuse m))%nat).
  apply (Run_topLoop_array opt Hci "ambient" mSetAmbient _ _ ind 0 Nd);
    [reflexivity|reflexivity|reflexivity|exact Ha| |unfold Nd, Nfd, Ne, Ns, Nsp,
       Npx, Nvx, Ntg, Nst, Nex; lia].
  intros n1 Hn1.
  apply (Run_topLoop_array opt Hci "diffuse" mSetDiffuse _ _ ind 0 Nfd);
    [reflexivity|reflexivity|reflexivity|exact Hd| |unfold Nd in Hn1; lia].
  intros n2 Hn2.
  apply (Run_topLoop_array opt Hci "forcedDiffuse" mSetForcedDiffuse _ _ ind 0 Ne);
    [reflexivity|reflexivity|reflexivity|exact Hfd| |unfold Nfd in Hn2; lia].
  intros n3 Hn3.
  apply (Run_topLoop_array opt Hci "emmisive" mSetEmmisive _ _ ind 0 Ns);
    [reflexivity|reflexivity|reflexivity|exact He| |unfold Ne in Hn3; lia].
  intros n4 Hn4.
  apply (Run_topLoop_array opt Hci "specular" mSetSpecular _ _ ind 0 Nsp);
    [reflexivity|reflexivity|reflexivity|exact Hs| |unfold Ns in Hn4; lia].
  intros n5 Hn5.
  apply (Run_topLoop_specularPower opt Hci (SpecularPower m) _ Npx);
    [exact Hsp| |unfold Nsp in Hn5; lia].
  intros n6 Hn6.
  apply (Run_topLoop_field opt "PixelShaderID" mSetPixelShaderID _ _ ind 0 Nvx);
    [reflexivity|intros; apply (Run_topPixelShaderID opt Hci); exact Hpx|
    |unfold Npx in Hn6; lia].
  intros n7 Hn7.
  apply (Run_topLoop_field opt "VertexShaderID" mSetVertexShaderID _ _ ind 0 Ntg);
    [reflexivity|intros; apply (Run_topVertexShaderID opt Hci); exact Hvx|
    |unfold Nvx in Hn7; lia].
  intros n8 Hn8.
  apply (Run_topLoop_texGens opt Hci ind 0 _ _ (TexGens m) Htg Hind _ Nst);
    [|unfold Ntg in Hn8; lia].
  intros n9 Hn9.
  apply (Run_topLoop_stages opt Hci ind 0 _ _ (Stages m) Hst Hind _ Nex);
    [|unfold Nst in Hn9; lia].
  intros n10 Hn10.
  assert (Hend : forall mm,
             (forall n, (N <= n)%nat ->
                Run opt (parseMaterialLoop opt n
                           (fold_left mAddExtra (Extras m) mm)) R res []) ->
             Run opt (parseMaterialLoop opt n10 mm)
               (flat_map (textNode ind 0) (Extras m) ++ R) res []).
  { intros mm Hmm.
    apply (Run_topLoop_extras_then ind 0 _ Hex Hexx Hind _ N);
      [exact Hmm|unfold Nex in Hn10; lia]. }
  revert Hloop.
  destruct (Ambient m), (Diffuse m), (ForcedDiffuse m), (Emmisive m),
    (Specular m), (SpecularPower m), (isEmpty (PixelShaderID m)),
    (isEmpty (VertexShaderID m)); intros Hloop; apply Hend; exact Hloop.
Qed.

End Overlay.

Section Concatenation.
Context {U : Unicode} {F : Strconv}.

(** X19. Documents one after the other.  Let [m1] and [m2] be well
    formed for the writer.  From the text of [m1] followed by the text
    of [m2], [Parse] (keys matched without regard to case) returns what
    it returns for [m1] with [m2] laid over it: every colour array,
    [specularPower] and shader name that [m2] has replaces the one of
    [m1], so of two assignments of a field the last one counts; the
    texture generators, the stages (also those of a name that is there
    already) and the extras of [m2] are appended to those of [m1]. *)
Theorem parse_concatenation (m1 m2 : Material) (fo : option FormatOptions)
  (po : option ParseOptions) :
  wfMaterial m1 -> wfMaterial m2 -> roundTripOptions fo po ->
  plainText (FormatText m1 fo ++ FormatText m2 fo) = true ->
  isBinaryRVMAT (Format m1 fo ++ Format m2 fo) = false ->
  Parse (Format m1 fo ++ Format m2 fo) po
  = Ok (overlay (canonMaterial m1) m2).
Proof.
  intros Hwf1 Hwf2 [Hind Hci] Hplain Hbin. unfold Parse, Decode.
  rewrite Hbin.
  unfold plainText in Hplain. apply andb_true_iff in Hplain.
  destruct Hplain as [Hvalid Hbom]. apply negb_true_iff in Hbom.
  apply Z.eqb_neq in Hbom.
  unfold Format, utf8_encode. rewrite <- flat_map_app.
  fold (utf8_encode (FormatText m1 fo ++ FormatText m2 fo)).
  rewrite (utf8_decode_encode _ Hvalid).
  rewrite !FormatText_text in *.
  set (ind := Indent (normalizeFormatOptions fo)) in *.
  set (t1 := textMaterial ind 0 m1) in *.
  set (t2 := textMaterial ind 0 m2) in *.
  assert (Hat : atInput (t1 ++ t2) (newLexer (t1 ++ t2))).
  { destruct (newLexer_at (t1 ++ t2)) as [Hat|(s & Hs & _)]; [exact Hat|].
    rewrite Hs in Hbom. cbn in Hbom. contradiction. }
  pose proof (materialSize_length ind 0 m1 Hwf1) as L1.
  pose proof (materialSize_length ind 0 m2 Hwf2) as L2.
  fold t1 in L1. fold t2 in L2.
  unfold newParser, parseMaterial.
  destruct (Run_overlay (normalizeParseOptions po) Hci Material0 m1 ind t2
              (overlay (canonMaterial m1) m2) (materialSize m2) Hwf1 Hind)
    with (n := S (S (length (t1 ++ t2))))
         (p := mkParser (newLexer (t1 ++ t2)) None) as (p' & Hrun & _).
  - intros n Hn. rewrite overlay_empty.
    rewrite <- (app_nil_r t2).
    apply (Run_overlay (normalizeParseOptions po) Hci (canonMaterial m1) m2
             ind [] _ 1%nat Hwf2 Hind); [|lia].
    intros n' Hn'. apply Run_topLoop_end. exact Hn'.
  - rewrite length_app. lia.
  - apply Starts_at. exact Hat.
  - rewrite Hrun. reflexivity.
Qed.

End Concatenation.

Lemma parse_concatenation_witness :
  Parse (U := Ref.asciiUnicode) (Format sample None ++ Format written None)
    None
  = Ok (overlay (U := Ref.asciiUnicode)
         (canonMaterial (U := Ref.asciiUnicode) sample) written).
Proof.
  refine (parse_concatenation (U := Ref.asciiUnicode) sample written None None
            sample_wf written_wf defaultOptions_roundTrip _ _).
  - vm_compute. reflexivity.
  - vm_compute. reflexivity.
Defined.

(* ================================================================== *)
(** ** The shape of a parsed texture reference *)

Section TextureShape.
Context {U : Unicode} {F : Strconv}.

Lemma dropWhile_incl f s c : In c (dropWhile f s) -> In c s.
Proof.
  induction s as [|x s IH]; [exact (fun H => H)|]. cbn [dropWhile].
  destruct (f x); [|exact (fun H => H)]. intros H. right. exact (IH H).
Qed.

Lemma TrimSpace_incl s c : In c (TrimSpace s) -> In c s.
Proof.
  unfold TrimSpace. intros H. apply in_rev in H.
  apply dropWhile_incl in H. apply in_rev in H.
  exact (dropWhile_incl _ _ _ H).
Qed.

Lemma dropWhile_length f s : (length (dropWhile f s) <= length s)%nat.
Proof.
  induction s as [|x s IH]; [cbn; lia|]. cbn [dropWhile].
  destruct (f x); cbn [length]; lia.
Qed.

Lemma TrimSpace_length s : (length (TrimSpace s) <= length s)%nat.
Proof.
  unfold TrimSpace. rewrite length_rev.
  pose proof (dropWhile_length IsSpace (rev (dropWhile IsSpace s))) as H.
  rewrite length_rev in H. pose proof (dropWhile_length IsSpace s). lia.
Qed.

(** Trimmed text starts with a character that is not white space. *)
Lemma trimmed_head c t : TrimSpace (c :: t) = c :: t -> IsSpace c = false.
Proof.
  intros H. destruct (IsSpace c) eqn:Hc; [|reflexivity]. exfalso.
  apply (f_equal (@length _)) in H. unfold TrimSpace in H.
  cbn [dropWhile] in H. rewrite Hc in H. rewrite length_rev in H.
  pose proof (dropWhile_length IsSpace (rev (dropWhile IsSpace t))) as H1.
  rewrite length_rev in H1. pose proof (dropWhile_length IsSpace t).
  cbn [length] in H. lia.
Qed.

(** Text that starts with such a character is not trimmed to nothing. *)
Lemma TrimSpace_nonempty c t : IsSpace c = false -> TrimSpace (c :: t) <> [].
Proof.
  intros Hc. unfold TrimSpace. cbn [dropWhile]. rewrite Hc.
  cbn [rev]. intros H. apply (f_equal (@rev _)) in H.
  rewrite rev_involutive in H. cbn [rev] in H.
  destruct (dropWhile_split IsSpace (rev t ++ [c])) as (pre & Hs & Hpre).
  rewrite H, app_nil_r in Hs. rewrite <- Hs in Hpre.
  rewrite forallb_app in Hpre. cbn in Hpre. rewrite Hc in Hpre.
  rewrite andb_false_r in Hpre. discriminate.
Qed.

Lemma SplitRune_incl sep s : forall p c,
  In p (SplitRune s sep) -> In c p -> In c s /\ c <> sep.
Proof.
  induction s as [|x s IH]; intros p c Hp Hc; cbn [SplitRune] in Hp.
  - destruct Hp as [<-|[]]. destruct Hc.
  - destruct (Z.eqb_spec x sep) as [->|Hne].
    + destruct Hp as [<-|Hp]; [destruct Hc|].
      destruct (IH p c Hp Hc). split; [right; assumption|assumption].
    + destruct (SplitRune s sep) as [|f fs] eqn:Hsp.
      * destruct Hp as [<-|[]]. destruct Hc as [<-|[]].
        split; [left; reflexivity|exact Hne].
      * destruct Hp as [<-|Hp].
        -- destruct Hc as [<-|Hc]; [split; [left; reflexivity|exact Hne]|].
           destruct (IH f c (or_introl eq_refl) Hc).
           split; [right; assumption|assumption].
        -- destruct (IH p c (or_intror Hp) Hc).
           split; [right; assumption|assumption].
Qed.

Lemma splitCSV_incl s p c :
  In p (splitCSV s) -> In c p -> In c s /\ c <> 44.
Proof.
  unfold splitCSV. destruct (isEmpty (TrimSpace s)); [intros []|].
  intros Hp Hc. apply in_map_iff in Hp. destruct Hp as (q & <- & Hq).
  apply TrimSpace_incl in Hc. exact (SplitRune_incl 44 s q c Hq Hc).
Qed.

Lemma splitCSV_trimmed s p : In p (splitCSV s) -> TrimSpace p = p.
Proof.
  unfold splitCSV. destruct (isEmpty (TrimSpace s)); [intros []|].
  intros Hp. apply in_map_iff in Hp. destruct Hp as (q & <- & _).
  apply TrimSpace_idem.
Qed.

Lemma IndexRune_firstn c s : forall i,
  IndexRune s c = Some i -> ~ In c (firstn i s).
Proof.
  induction s as [|x s IH]; intros i H; [discriminate|].
  cbn [IndexRune] in H. destruct (Z.eqb_spec x c) as [->|Hne].
  - injection H as <-. exact (fun H => H).
  - destruct (IndexRune s c) as [j|]; [|discriminate]. injection H as <-.
    cbn [firstn]. intros [Hx|Hin]; [exact (Hne Hx)|exact (IH j eq_refl Hin)].
Qed.

Lemma firstn_incl {A} n (s : list A) c : In c (firstn n s) -> In c s.
Proof.
  revert n; induction s as [|x s IH]; intros [|n]; cbn; try tauto.
  intros [->|H]; [auto|right; exact (IH n H)].
Qed.

Lemma skipn_incl {A} n (s : list A) c : In c (skipn n s) -> In c s.
Proof.
  revert n; induction s as [|x s IH]; intros [|n]; cbn; try tauto.
  intros H. right. exact (IH n H).
Qed.

Lemma firstn_skipn_firstn {A} a b (s : list A) c :
  In c (firstn (b - a) (skipn a s)) -> In c (firstn b s).
Proof.
  revert a b; induction s as [|x s IH]; intros a b.
  - rewrite skipn_nil, !firstn_nil. exact (fun H => H).
  - destruct a as [|a].
    + rewrite Nat.sub_0_r. exact (fun H => H).
    + destruct b as [|b]; [cbn; tauto|].
      cbn [skipn firstn Nat.sub]. intros H. right. exact (IH a b H).
Qed.

(** What [parseFunc] returns for trimmed text. *)
Lemma parseFunc_shape s name args :
  TrimSpace s = s -> parseFunc s = Some (name, args) ->
  name <> [] /\ TrimSpace name = name /\ ~ In 40 name
  /\ Forall (fun a => TrimSpace a = a /\ ~ In 44 a) args.
Proof.
  intros Hs. unfold parseFunc.
  destruct (IndexRune s 40) as [open|] eqn:Ho; [|discriminate].
  destruct (LastIndexRune s 41) as [closeIdx|]; [|discriminate].
  destruct ((open =? 0)%nat || (closeIdx <=? open)%nat) eqn:Hc; [discriminate|].
  apply orb_false_iff in Hc. destruct Hc as [H0 _]. apply Nat.eqb_neq in H0.
  intros H. injection H as <- <-. repeat split.
  - destruct s as [|c t]; [discriminate|].
    destruct open as [|open]; [contradiction|]. cbn [firstn].
    apply TrimSpace_nonempty. exact (trimmed_head c t Hs).
  - apply TrimSpace_idem.
  - intros Hin. apply TrimSpace_incl in Hin.
    exact (IndexRune_firstn 40 s open Ho Hin).
  - apply Forall_forall. intros a Ha. apply in_map_iff in Ha.
    destruct Ha as (p & <- & Hp). split; [apply TrimSpace_idem|].
    intros Hin. apply TrimSpace_incl in Hin.
    destruct (splitCSV_incl _ p 44 Hp Hin) as [_ Hne]. exact (Hne eq_refl).
Qed.

Lemma nth_In_or_nil {A} (l : list (list A)) n :
  nth n l [] = [] \/ In (nth n l []) l.
Proof.
  destruct (Nat.lt_ge_cases n (length l)) as [Hlt|Hge].
  - right. apply nth_In. exact Hlt.
  - left. apply nth_overflow. exact Hge.
Qed.

Lemma parseProceduralHead_shape raw pt :
  parseProceduralHead raw = Some pt ->
  TrimSpace (Format_ pt) = Format_ pt
  /\ ~ In 44 (Format_ pt) /\ ~ In 41 (Format_ pt)
  /\ Func pt <> [] /\ TrimSpace (Func pt) = Func pt /\ ~ In 40 (Func pt)
  /\ Forall (fun a => TrimSpace a = a /\ ~ In 44 a) (Args pt).
Proof.
  unfold parseProceduralHead.
  destruct (negb (HasPrefix raw (lit "#("))); [discriminate|].
  destruct (IndexRune raw 41) as [closeIdx|] eqn:Hc; [|discriminate].
  cbv zeta.
  set (head := firstn (closeIdx - 2) (skipn 2 raw)).
  destruct (length (splitCSV head) <? 4)%nat; [discriminate|].
  destruct (Atoi _) as [w|]; [|discriminate].
  destruct (Atoi _) as [h|]; [|discriminate].
  destruct (Atoi _) as [mip|]; [|discriminate].
  set (remain := TrimSpace (skipn (closeIdx + 1) raw)).
  destruct (isEmpty remain); [discriminate|].
  destruct (parseFunc remain) as [[name args]|] eqn:Hf; [|discriminate].
  intros H. injection H as <-. cbn [Format_ Func Args].
  destruct (parseFunc_shape remain name args (TrimSpace_idem _) Hf)
    as (H1 & H2 & H3 & H4).
  split; [apply TrimSpace_idem|].
  assert (Hin : forall c, In c (TrimSpace (nth 0 (splitCSV head) [])) ->
                          c <> 44 /\ c <> 41).
  { intros c Hin. apply TrimSpace_incl in Hin.
    destruct (nth_In_or_nil (splitCSV head) 0) as [Hnil|Hnth].
    - rewrite Hnil in Hin. destruct Hin.
    - destruct (splitCSV_incl head _ c Hnth Hin) as [Hh Hne].
      split; [exact Hne|]. intros ->. unfold head in Hh.
      apply firstn_skipn_firstn in Hh.
      exact (IndexRune_firstn 41 raw closeIdx Hc Hh). }
  split; [intros H; exact (proj1 (Hin _ H) eq_refl)|].
  split; [intros H; exact (proj2 (Hin _ H) eq_refl)|].
  auto.
Qed.

(** X20. The shape of every texture reference [ParseTextureRef]
    returns.  Its kind is procedural exactly when its raw text starts
    with [#(], a path otherwise; [ParsedOK] is set exactly when it
    carries a procedural texture, and only on a procedural reference.
    Of a procedural texture it carries, the format is trimmed and holds
    neither a comma nor a closing parenthesis, the function name is
    trimmed, not empty and without an opening parenthesis, every
    argument is trimmed and holds no comma; a colour payload comes with
    the function [color] and four or five arguments, a Fresnel payload
    with [fresnel] or [fresnelGlass] and one or two, an irradiance
    payload with [irradiance] and one, each name up to case. *)
Theorem texture_ref_shape (raw : str) :
  let t := ParseTextureRef raw in
  (Kind t = TextureKindProcedural <-> HasPrefix (Raw t) (lit "#(") = true)
  /\ (Kind t = TextureKindPath <-> HasPrefix (Raw t) (lit "#(") = false)
  /\ (ParsedOK t = true <-> Procedural t <> None)
  /\ (ParsedOK t = true -> Kind t = TextureKindProcedural)
  /\ forall pt, Procedural t = Some pt ->
       TrimSpace (Format_ pt) = Format_ pt
       /\ ~ In 44 (Format_ pt) /\ ~ In 41 (Format_ pt)
       /\ Func pt <> [] /\ TrimSpace (Func pt) = Func pt /\ ~ In 40 (Func pt)
       /\ Forall (fun a => TrimSpace a = a /\ ~ In 44 a) (Args pt)
       /\ (Color pt <> None ->
           ToLower (Func pt) = lit "color"
           /\ (length (Args pt) = 4 \/ length (Args pt) = 5)%nat)
       /\ (Fresnel pt <> None ->
           (ToLower (Func pt) = lit "fresnel"
            \/ ToLower (Func pt) = lit "fresnelglass")
           /\ (length (Args pt) = 1 \/ length (Args pt) = 2)%nat)
       /\ (Irradiance pt <> None ->
           ToLower (Func pt) = lit "irradiance"
           /\ length (Args pt) = 1%nat).
Proof.
  cbv zeta.
  assert (Hkind :
    (Kind (ParseTextureRef raw) = TextureKindProcedural
     /\ HasPrefix (Raw (ParseTextureRef raw)) (lit "#(") = true
     /\ (ParsedOK (ParseTextureRef raw) = true
         <-> Procedural (ParseTextureRef raw) <> None))
    \/ (Kind (ParseTextureRef raw) = TextureKindPath
        /\ HasPrefix (Raw (ParseTextureRef raw)) (lit "#(") = false
        /\ ParsedOK (ParseTextureRef raw) = false
        /\ Procedural (ParseTextureRef raw) = None)).
  { unfold ParseTextureRef. cbv zeta.
    destruct (HasPrefix (NormalizeTextureRaw raw) (lit "#(")) eqn:Hp.
    - left. destruct (parseProcedural _); cbn [Kind Raw ParsedOK Procedural];
        (split; [reflexivity|]); (split; [exact Hp|]);
        split; congruence.
    - right. cbn [Kind Raw ParsedOK Procedural]. auto. }
  split; [|split; [|split; [|split]]].
  - destruct Hkind as [(Hk & Hp & _)|(Hk & Hp & _)]; rewrite Hk, Hp;
      split; congruence.
  - destruct Hkind as [(Hk & Hp & _)|(Hk & Hp & _)]; rewrite Hk, Hp;
      split; congruence.
  - destruct Hkind as [(_ & _ & Hok)|(_ & _ & Hok & Hpr)]; [exact Hok|].
    rewrite Hok, Hpr. split; congruence.
  - destruct Hkind as [(Hk & _)|(_ & _ & Hok & _)]; [intros _; exact Hk|].
    rewrite Hok. discriminate.
  - intros pt Hpt.
    destruct (ParseTextureRef_procedural raw pt Hpt) as (pt0 & Hh & -> & _).
    destruct (parseProceduralHead_shape _ _ Hh)
      as (H1 & H2 & H3 & H4 & H5 & H6 & H7).
    destruct (parseProceduralHead_fresh _ _ Hh) as (Hc & Hf & Hi & _).
    destruct (parseProceduralArgs_view pt0) as (Hfn & Ha & Vc & Vi & Vf).
    assert (Hfmt : Format_ (parseProceduralArgs pt0) = Format_ pt0).
    { unfold parseProceduralArgs, parseProceduralColor,
        parseProceduralFresnel, parseProceduralIrradiance. cbv zeta.
      repeat match goal with
             | |- context [if ?b then _ else _] => destruct b
             | |- context [match ?x with Some _ => _ | None => _ end] =>
                 destruct x
             end; reflexivity. }
    rewrite Hfmt, Hfn, Ha.
    split; [exact H1|]. split; [exact H2|]. split; [exact H3|].
    split; [exact H4|]. split; [exact H5|]. split; [exact H6|].
    split; [exact H7|].
    split; [exact (Vc Hc)|]. split; [exact (Vf Hf)|exact (Vi Hi)].
Qed.

End TextureShape.

(* ================================================================== *)
(** ** The parser reads tokens *)

Section TokenStream.
Context {U : Unicode} {F : Strconv}.
Variable opt : ParseOptions.

(** What the parser sees of the result of [lexer.next]: the type and the
    literal of the token, and the error without its position. *)
Definition seen (r : (token * option error) * lexer)
  : tokenType * str * option error :=
  (Type_ (fst (fst r)), Lit (fst (fst r)), option_map unplaced (snd (fst r))).

(** What the parser sees of the first [k] calls of [lexer.next]. *)
Fixpoint tokensFrom (k : nat) (l : lexer)
  : list (tokenType * str * option error) :=
  match k with
  | O => []
  | S k' => seen (lnext opt l) :: tokensFrom k' (snd (lnext opt l))
  end.

Definition sameTokens (l1 l2 : lexer) : Prop :=
  forall k, tokensFrom k l1 = tokensFrom k l2.

Definition tokEq (t1 t2 : token) : Prop :=
  Type_ t1 = Type_ t2 /\ Lit t1 = Lit t2.

(** Two parsers that will read the same tokens. *)
Definition sim (p1 p2 : parser) : Prop :=
  match pbuf p1, pbuf p2 with
  | None, None => True
  | Some t1, Some t2 => tokEq t1 t2
  | _, _ => False
  end
  /\ sameTokens (pl p1) (pl p2).

(** Two results that differ in the positions of their errors only. *)
Definition sameResult {A} (r1 r2 : res A) : Prop :=
  match r1, r2 with
  | Ok a1, Ok a2 => a1 = a2
  | Err e1, Err e2 => unplaced e1 = unplaced e2
  | _, _ => False
  end.

(** [Rel E c1 c2]: on parsers that will read the same tokens, [c1] and
    [c2] return values related by [E] and leave such parsers, or fail
    with the same error at whatever positions. *)
Definition Rel {A} (E : A -> A -> Prop) (c1 c2 : M A) : Prop :=
  forall p1 p2, sim p1 p2 ->
  match c1 p1, c2 p2 with
  | (Ok a1, q1), (Ok a2, q2) => E a1 a2 /\ sim q1 q2
  | (Err e1, _), (Err e2, _) => unplaced e1 = unplaced e2
  | _, _ => False
  end.

Lemma sameTokens_next l1 l2 :
  sameTokens l1 l2 ->
  seen (lnext opt l1) = seen (lnext opt l2)
  /\ sameTokens (snd (lnext opt l1)) (snd (lnext opt l2)).
Proof.
  intros H. split.
  - pose proof (H 1%nat) as H1. cbn [tokensFrom] in H1. congruence.
  - intros k. pose proof (H (S k)) as Hk. cbn [tokensFrom] in Hk.
    congruence.
Qed.

Lemma Rel_ret {A} (E : A -> A -> Prop) a1 a2 :
  E a1 a2 -> Rel E (ret a1) (ret a2).
Proof. intros He p1 p2 Hs. cbn. auto. Qed.

Lemma Rel_fail {A} (E : A -> A -> Prop) e1 e2 :
  unplaced e1 = unplaced e2 -> Rel E (fail e1) (fail e2).
Proof. intros He p1 p2 Hs. exact He. Qed.

Lemma Rel_bind {A B} (E : A -> A -> Prop) (E' : B -> B -> Prop)
  (c1 c2 : M A) (k1 k2 : A -> M B) :
  Rel E c1 c2 -> (forall a1 a2, E a1 a2 -> Rel E' (k1 a1) (k2 a2)) ->
  Rel E' (bind c1 k1) (bind c2 k2).
Proof.
  intros Hc Hk p1 p2 Hs. unfold bind. specialize (Hc p1 p2 Hs).
  destruct (c1 p1) as [[a1|e1] q1], (c2 p2) as [[a2|e2] q2];
    try contradiction.
  - destruct Hc as [He Hq]. exact (Hk a1 a2 He q1 q2 Hq).
  - exact Hc.
Qed.

Lemma sameTokens_lnext l1 l2 :
  sameTokens l1 l2 ->
  match lnext opt l1, lnext opt l2 with
  | ((t1, None), l1'), ((t2, None), l2') =>
      tokEq t1 t2 /\ sameTokens l1' l2'
  | ((t1, Some e1), l1'), ((t2, Some e2), l2') =>
      tokEq t1 t2 /\ unplaced e1 = unplaced e2 /\ sameTokens l1' l2'
  | _, _ => False
  end.
Proof.
  intros Hs. destruct (sameTokens_next _ _ Hs) as [Hn Ht].
  unfold seen in Hn.
  destruct (lnext opt l1) as [[t1 e1] l1'], (lnext opt l2) as [[t2 e2] l2'].
  cbn [fst snd] in Hn, Ht.
  injection Hn as Hty Hlit He.
  destruct e1 as [e1|], e2 as [e2|]; cbn [option_map] in He;
    try discriminate He.
  - injection He as He. repeat split; assumption.
  - repeat split; assumption.
Qed.

Ltac seen_next Hs :=
  let H := fresh "Hnext" in
  pose proof (sameTokens_lnext _ _ Hs) as H;
  destruct (lnext opt (pl _)) as [[? [?|]] ?];
  destruct (lnext opt (pl _)) as [[? [?|]] ?];
  try contradiction.

Lemma Rel_next : Rel tokEq (next opt) (next opt).
Proof.
  intros p1 p2 [Hb Hs]. unfold next, lift, nextRaw.
  destruct (pbuf p1) as [t1|], (pbuf p2) as [t2|]; try contradiction.
  - cbn. repeat split; try apply Hb. exact Hs.
  - seen_next Hs; cbn.
    + apply Hnext.
    + destruct Hnext as [He Ht]. repeat split; try apply He. exact Ht.
Qed.

Lemma Rel_peek : Rel tokEq (peek opt) (peek opt).
Proof.
  intros p1 p2 [Hb Hs]. unfold peek, lift, peekRaw.
  destruct (pbuf p1) as [t1|] eqn:B1, (pbuf p2) as [t2|] eqn:B2;
    try contradiction.
  - cbn. split; [exact Hb|]. split; [rewrite B1, B2; exact Hb|exact Hs].
  - seen_next Hs; cbn.
    + apply Hnext.
    + destruct Hnext as [He Ht]. split; [exact He|]. split; [exact He|exact Ht].
Qed.

Lemma Rel_peekAny : Rel tokEq (peekAny opt) (peekAny opt).
Proof.
  intros p1 p2 [Hb Hs]. unfold peekAny, peekRaw.
  destruct (pbuf p1) as [t1|] eqn:B1, (pbuf p2) as [t2|] eqn:B2;
    try contradiction.
  - cbn. split; [exact Hb|]. split; [rewrite B1, B2; exact Hb|exact Hs].
  - seen_next Hs; cbn.
    + destruct Hnext as (He & _ & Ht). split; [exact He|].
      split; [exact I|exact Ht].
    + destruct Hnext as [He Ht]. split; [exact He|]. split; [exact He|exact Ht].
Qed.

Lemma Rel_skip : Rel eq (skip opt) (skip opt).
Proof.
  intros p1 p2 [Hb Hs]. unfold skip, nextRaw.
  destruct (pbuf p1) as [t1|], (pbuf p2) as [t2|]; try contradiction.
  - cbn. repeat split. exact Hs.
  - seen_next Hs; cbn.
    + destruct Hnext as (_ & _ & Ht). repeat split. exact Ht.
    + destruct Hnext as [_ Ht]. repeat split. exact Ht.
Qed.

End TokenStream.

Section TokenParser.
Context {U : Unicode} {F : Strconv}.
Variable opt : ParseOptions.

Ltac tok_intro :=
  let t1 := fresh "t" in
  let t2 := fresh "t" in
  let H := fresh "H" in
  let lt1 := fresh "lt" in
  let ty1 := fresh "ty" in
  let ln1 := fresh "ln" in
  let cl1 := fresh "cl" in
  let lt2 := fresh "lt" in
  let ty2 := fresh "ty" in
  let ln2 := fresh "ln" in
  let cl2 := fresh "cl" in
  intros t1 t2 H; destruct t1 as [lt1 ty1 ln1 cl1], t2 as [lt2 ty2 ln2 cl2];
  destruct H as [? ?]; cbn [Type_ Lit] in *; subst.

Ltac rel_tok L := eapply Rel_bind; [apply L|tok_intro].

Ltac rel_step :=
  cbn [Type_ Lit Line Col];
  match goal with
  | |- Rel _ _ (ret _) (ret _) =>
      apply Rel_ret; first [reflexivity|split; reflexivity]
  | |- Rel _ _ (fail _) (fail _) => apply Rel_fail; reflexivity
  | |- Rel _ _ (bind (next _) _) _ => rel_tok Rel_next
  | |- Rel _ _ (bind (peek _) _) _ => rel_tok Rel_peek
  | |- Rel _ _ (bind (peekAny _) _) _ => rel_tok Rel_peekAny
  | |- Rel _ _ (bind (skip _) _) _ =>
      eapply Rel_bind; [apply Rel_skip|intros ? ? <-]
  | |- Rel _ _ (if ?b then _ else _) _ => destruct b
  | |- Rel _ _ (match ?x with _ => _ end) _ => destruct x
  end.

Lemma Rel_expect tt : Rel opt tokEq (expect opt tt) (expect opt tt).
Proof. unfold expect, errorf. repeat rel_step. Qed.

Ltac rel_call L := eapply Rel_bind; [apply L|intros ? ? <-].

Ltac rel_expect := rel_tok Rel_expect.

Lemma Rel_expectSemicolon : Rel opt eq (expectSemicolon opt) (expectSemicolon opt).
Proof. unfold expectSemicolon. rel_expect. repeat rel_step. Qed.

Lemma Rel_parseArrayLoop (pv : M value) :
  Rel opt eq pv pv ->
  forall n arr, Rel opt eq (parseArrayLoop opt pv n arr) (parseArrayLoop opt pv n arr).
Proof.
  intros Hpv. induction n as [|n IH]; intros arr; cbn [parseArrayLoop];
    [apply Rel_fail; reflexivity|].
  unfold errorf. rel_step. rel_step.
  - repeat rel_step.
  - rel_call Hpv. rel_step. rel_step.
    + rel_step. apply IH.
    + rel_step; [apply IH|rel_step].
Qed.

Lemma Rel_parseValue n : Rel opt eq (parseValue opt n) (parseValue opt n).
Proof.
  induction n as [|n IH]; cbn [parseValue]; [apply Rel_fail; reflexivity|].
  unfold errorf. rel_step. rel_step; try solve [repeat rel_step].
  rel_call (Rel_parseArrayLoop (parseValue opt n) IH n []). rel_step.
Qed.

Lemma Rel_parseNumberArrayLoop relaxed n : forall arr,
  Rel opt eq (parseNumberArrayLoop opt relaxed n arr)
    (parseNumberArrayLoop opt relaxed n arr).
Proof.
  induction n as [|n IH]; intros arr; cbn [parseNumberArrayLoop];
    [apply Rel_fail; reflexivity|].
  unfold errorf, parseNumberToken. cbv zeta. rel_step. rel_step.
  - repeat rel_step.
  - rel_step.
    assert (Happ : forall f,
      Rel opt eq
        (bind (peek opt) (fun tok =>
           if tokenType_eqb (Type_ tok) tokComma
           then bind (skip opt) (fun _ => parseNumberArrayLoop opt relaxed n (arr ++ [f]))
           else if tokenType_eqb (Type_ tok) tokRBrace
                then parseNumberArrayLoop opt relaxed n (arr ++ [f])
                else fail (ErrParse (Line tok) (Col tok)
                             (lit "expected ',' or '}' in array"))))
        (bind (peek opt) (fun tok =>
           if tokenType_eqb (Type_ tok) tokComma
           then bind (skip opt) (fun _ => parseNumberArrayLoop opt relaxed n (arr ++ [f]))
           else if tokenType_eqb (Type_ tok) tokRBrace
                then parseNumberArrayLoop opt relaxed n (arr ++ [f])
                else fail (ErrParse (Line tok) (Col tok)
                             (lit "expected ',' or '}' in array"))))).
    { intros f. rel_step. rel_step.
      - rel_step. apply IH.
      - rel_step; [apply IH|rel_step]. }
    cbn [Type_ Lit Line Col].
    repeat match goal with
           | |- Rel _ _ (match ?x with _ => _ end) _ => destruct x
           | |- Rel _ _ (if ?b then _ else _) _ => destruct b
           | |- Rel _ _ (fail _) (fail _) => apply Rel_fail; reflexivity
           | |- Rel _ _ (bind (peek _) _) _ => apply Happ
           end.
Qed.

Create HintDb rel.

Ltac rel_more :=
  cbv zeta; cbn [Type_ Lit Line Col];
  match goal with
  | |- Rel _ _ (ret _) (ret _) =>
      apply Rel_ret; first [reflexivity|split; reflexivity]
  | |- Rel _ _ (fail _) (fail _) => apply Rel_fail; reflexivity
  | |- Rel _ _ (bind (next _) _) _ => rel_tok Rel_next
  | |- Rel _ _ (bind (peek _) _) _ => rel_tok Rel_peek
  | |- Rel _ _ (bind (peekAny _) _) _ => rel_tok Rel_peekAny
  | |- Rel _ _ (bind (expect _ _) _) _ => rel_tok Rel_expect
  | |- Rel _ _ (bind _ _) _ =>
      eapply Rel_bind; [solve [eauto with rel]|intros ? ? <-]
  | |- Rel _ _ (if ?b then _ else _) _ => destruct b
  | |- Rel _ _ (match ?x with _ => _ end) _ => destruct x
  | |- Rel _ _ _ _ => solve [eauto with rel]
  end.

#[local] Hint Resolve Rel_skip Rel_expectSemicolon Rel_parseValue
  Rel_parseNumberArrayLoop : rel.

Lemma Rel_parseNumberArray n :
  Rel opt eq (parseNumberArray opt n) (parseNumberArray opt n).
Proof.
  unfold parseNumberArray, parseNumberArrayWithRelax. repeat rel_more.
Qed.

Lemma Rel_parseNumberValue :
  Rel opt eq (parseNumberValue opt) (parseNumberValue opt).
Proof. unfold parseNumberValue, parseNumberToken, errorf. repeat rel_more. Qed.

Lemma Rel_parseStringValue :
  Rel opt eq (parseStringValue opt) (parseStringValue opt).
Proof. unfold parseStringValue, errorf. repeat rel_more. Qed.

Lemma Rel_parseStringOrNumberValue relaxed :
  Rel opt eq (parseStringOrNumberValue opt relaxed)
    (parseStringOrNumberValue opt relaxed).
Proof. unfold parseStringOrNumberValue, errorf. repeat rel_more. Qed.

Lemma Rel_parseBase : Rel opt eq (parseBase opt) (parseBase opt).
Proof. unfold parseBase. repeat rel_more. Qed.

Lemma Rel_parseArraySuffix :
  Rel opt eq (parseArraySuffix opt) (parseArraySuffix opt).
Proof. unfold parseArraySuffix. repeat rel_more. Qed.

#[local] Hint Resolve Rel_parseNumberArray Rel_parseNumberValue
  Rel_parseStringValue Rel_parseStringOrNumberValue Rel_parseBase
  Rel_parseArraySuffix : rel.

Lemma Rel_parseAssign n : Rel opt eq (parseAssign opt n) (parseAssign opt n).
Proof. unfold parseAssign. repeat rel_more. Qed.

Lemma Rel_parseBodyLoop (pn : M node) :
  Rel opt eq pn pn ->
  forall n body,
    Rel opt eq (parseBodyLoop opt pn n body) (parseBodyLoop opt pn n body).
Proof.
  intros Hpn. induction n as [|n IH]; intros body; cbn [parseBodyLoop];
    repeat rel_more.
Qed.

Lemma Rel_parseClassWith (pn : M node) n :
  Rel opt eq pn pn ->
  Rel opt eq (parseClassWith opt pn n) (parseClassWith opt pn n).
Proof.
  intros Hpn. pose proof (Rel_parseBodyLoop pn Hpn) as Hb.
  unfold parseClassWith. repeat rel_more.
Qed.

#[local] Hint Resolve Rel_parseAssign : rel.

Lemma Rel_parseNode n : Rel opt eq (parseNode opt n) (parseNode opt n).
Proof.
  induction n as [|n IH]; cbn [parseNode]; [apply Rel_fail; reflexivity|].
  pose proof (Rel_parseClassWith (parseNode opt n) n IH) as Hc.
  repeat rel_more.
Qed.

Lemma Rel_parseClassBody n name base :
  Rel opt eq (parseClassBody opt n name base) (parseClassBody opt n name base).
Proof.
  pose proof (Rel_parseBodyLoop (parseNode opt n) (Rel_parseNode n)) as Hb.
  unfold parseClassBody. repeat rel_more.
Qed.

Lemma Rel_parseUVTransformLoop n : forall uv,
  Rel opt eq (parseUVTransformLoop opt n uv) (parseUVTransformLoop opt n uv).
Proof.
  induction n as [|n IH]; intros uv; cbn [parseUVTransformLoop];
    repeat rel_more.
Qed.

#[local] Hint Resolve Rel_parseClassBody Rel_parseUVTransformLoop : rel.

Lemma Rel_parseUVTransformBody n :
  Rel opt eq (parseUVTransformBody opt n) (parseUVTransformBody opt n).
Proof. unfold parseUVTransformBody. repeat rel_more. Qed.

#[local] Hint Resolve Rel_parseUVTransformBody : rel.

Lemma Rel_parseStageClass n st :
  Rel opt eq (parseStageClass opt n st) (parseStageClass opt n st).
Proof. unfold parseStageClass. repeat rel_more. Qed.

Lemma Rel_parseTexGenClass n tg :
  Rel opt eq (parseTexGenClass opt n tg) (parseTexGenClass opt n tg).
Proof. unfold parseTexGenClass. repeat rel_more. Qed.

Lemma Rel_parseStageAssign n st :
  Rel opt eq (parseStageAssign opt n st) (parseStageAssign opt n st).
Proof. unfold parseStageAssign. repeat rel_more. Qed.

Lemma Rel_parseTexGenAssign n tg :
  Rel opt eq (parseTexGenAssign opt n tg) (parseTexGenAssign opt n tg).
Proof. unfold parseTexGenAssign. repeat rel_more. Qed.

#[local] Hint Resolve Rel_parseStageClass Rel_parseTexGenClass
  Rel_parseStageAssign Rel_parseTexGenAssign : rel.

Lemma Rel_parseStageLoop n : forall st,
  Rel opt eq (parseStageLoop opt n st) (parseStageLoop opt n st).
Proof.
  induction n as [|n IH]; intros st; cbn [parseStageLoop]; repeat rel_more.
Qed.

Lemma Rel_parseTexGenLoop n : forall tg,
  Rel opt eq (parseTexGenLoop opt n tg) (parseTexGenLoop opt n tg).
Proof.
  induction n as [|n IH]; intros tg; cbn [parseTexGenLoop]; repeat rel_more.
Qed.

#[local] Hint Resolve Rel_parseStageLoop Rel_parseTexGenLoop : rel.

Lemma Rel_parseStageBody n name :
  Rel opt eq (parseStageBody opt n name) (parseStageBody opt n name).
Proof. unfold parseStageBody. repeat rel_more. Qed.

Lemma Rel_parseTexGenBody n name base :
  Rel opt eq (parseTexGenBody opt n name base)
    (parseTexGenBody opt n name base).
Proof. unfold parseTexGenBody. repeat rel_more. Qed.

#[local] Hint Resolve Rel_parseStageBody Rel_parseTexGenBody : rel.

Lemma Rel_parseTopClass n m :
  Rel opt eq (parseTopClass opt n m) (parseTopClass opt n m).
Proof. unfold parseTopClass. repeat rel_more. Qed.

Lemma Rel_parseTopAssign n m :
  Rel opt eq (parseTopAssign opt n m) (parseTopAssign opt n m).
Proof. unfold parseTopAssign. repeat rel_more. Qed.

#[local] Hint Resolve Rel_parseTopClass Rel_parseTopAssign : rel.

Lemma Rel_parseMaterialLoop n : forall m,
  Rel opt eq (parseMaterialLoop opt n m) (parseMaterialLoop opt n m).
Proof.
  induction n as [|n IH]; intros m; cbn [parseMaterialLoop]; repeat rel_more.
Qed.

(** [parseMaterial] on two inputs with the same tokens. *)
Lemma parseMaterial_tokens n input1 input2 :
  sameTokens opt (newLexer input1) (newLexer input2) ->
  sameResult (fst (parseMaterial opt n (newParser input1)))
    (fst (parseMaterial opt n (newParser input2))).
Proof.
  intros Hs. unfold parseMaterial.
  pose proof (Rel_parseMaterialLoop n Material0 (newParser input1)
                (newParser input2)) as H.
  destruct (parseMaterialLoop opt n Material0 (newParser input1)) as [[m1|e1] q1],
    (parseMaterialLoop opt n Material0 (newParser input2)) as [[m2|e2] q2];
    cbn [fst sameResult]; specialize (H (conj I Hs)); try contradiction.
  - apply H.
  - exact H.
Qed.

End TokenParser.

Section ParseTokens.
Context {U : Unicode} {F : Strconv}.

Lemma Parse_tokens data1 data2 o :
  isBinaryRVMAT data1 = false -> isBinaryRVMAT data2 = false ->
  sameTokens (normalizeParseOptions o) (newLexer (utf8_decode data1))
    (newLexer (utf8_decode data2)) ->
  sameResult (Parse data1 o) (Parse data2 o).
Proof.
  intros H1 H2 Hs. unfold Parse, Decode. rewrite H1, H2. cbv zeta.
  set (opt := normalizeParseOptions o) in *.
  set (i1 := utf8_decode data1) in *. set (i2 := utf8_decode data2) in *.
  rewrite <- (parseMaterial_stable opt i1 (S (S (length i2)))).
  rewrite <- (parseMaterial_stable opt i2 (S (S (length i1)))).
  rewrite (Nat.add_comm (S (S (length i2)))).
  apply parseMaterial_tokens. exact Hs.
Qed.

(** Lexers with the same input ahead return the same tokens. *)
Lemma sameInput_tokens opt k : forall l l0,
  sameInput l l0 -> tokensFrom opt k l = tokensFrom opt k l0.
Proof.
  induction k as [|k IH]; intros l l0 Hs; [reflexivity|].
  cbn [tokensFrom].
  assert (Hw : sameInput (skipWhitespace opt l) (skipWhitespace opt l0)).
  { unfold skipWhitespace. rewrite <- (sameInput_fuel _ _ Hs).
    apply skipWhitespaceLoop_same. exact Hs. }
  destruct (lnext_same opt l l0 Hw) as (Hty & Hlit & He & Hl).
  unfold seen. rewrite Hty, Hlit, He. f_equal. apply IH. exact Hl.
Qed.

(** White space and closed comments in front change no token. *)
Lemma tokens_skipped opt b X l l0 :
  Skipped (negb (DisableComments opt)) b ->
  tokenBegin (negb (DisableComments opt)) X ->
  atInput (b ++ X) l -> atInput X l0 -> sameTokens opt l l0.
Proof.
  intros Hb HX Hat Hat0 k. destruct k as [|k]; [reflexivity|].
  cbn [tokensFrom].
  assert (Hw : sameInput (skipWhitespace opt l) (skipWhitespace opt l0)).
  { apply (sameInput_at X).
    - exact (skipWhitespace_skipped opt b X l Hb HX Hat).
    - exact (skipWhitespace_skipped opt [] X l0 (Skipped_nil _) HX Hat0). }
  destruct (lnext_same opt l l0 Hw) as (Hty & Hlit & He & Hl).
  unfold seen. rewrite Hty, Hlit, He. f_equal.
  apply sameInput_tokens. exact Hl.
Qed.

Lemma newLexer_plain s : hd 0 s <> 65279 -> atInput s (newLexer s).
Proof.
  intros Hbom. destruct (newLexer_at s) as [Hat|(t & Hs & _)]; [exact Hat|].
  rewrite Hs in Hbom. cbn in Hbom. contradiction.
Qed.

(** X21. The parser reads tokens.  When the lexer returns for two
    inputs, call by call, tokens of the same type and the same literal
    and errors with the same message, [Parse] returns for both the same
    material, or for both an error with the same message: where the
    tokens stand, and what white space and comments stand between them,
    shows in the positions of the errors only. *)
Theorem parse_by_tokens (data1 data2 : list byte) (o : option ParseOptions) :
  isBinaryRVMAT data1 = false -> isBinaryRVMAT data2 = false ->
  (forall k,
     tokensFrom (normalizeParseOptions o) k (newLexer (utf8_decode data1))
     = tokensFrom (normalizeParseOptions o) k (newLexer (utf8_decode data2))) ->
  match Parse data1 o, Parse data2 o with
  | Ok m1, Ok m2 => m1 = m2
  | Err e1, Err e2 => unplaced e1 = unplaced e2
  | _, _ => False
  end.
Proof.
  intros H1 H2 Hs. exact (Parse_tokens data1 data2 o H1 H2 Hs).
Qed.

(** X22. White space and comments in front of a document.  For a text
    [X] that starts with a token or is empty, and white space and closed
    comments [b] (comments when they are enabled), [Parse] returns for
    [b] followed by [X] what it returns for [X]: the same material, or
    an error with the same message at another position. *)
Theorem leading_comments (b X : str) (o : option ParseOptions) :
  Skipped (negb (DisableComments (normalizeParseOptions o))) b ->
  tokenBegin (negb (DisableComments (normalizeParseOptions o))) X ->
  plainText (b ++ X) = true -> plainText X = true ->
  isBinaryRVMAT (utf8_encode (b ++ X)) = false ->
  isBinaryRVMAT (utf8_encode X) = false ->
  match Parse (utf8_encode (b ++ X)) o, Parse (utf8_encode X) o with
  | Ok m1, Ok m2 => m1 = m2
  | Err e1, Err e2 => unplaced e1 = unplaced e2
  | _, _ => False
  end.
Proof.
  intros Hb HX Hp1 Hp2 Hb1 Hb2.
  unfold plainText in Hp1, Hp2.
  apply andb_true_iff in Hp1. destruct Hp1 as [Hv1 Hbom1].
  apply andb_true_iff in Hp2. destruct Hp2 as [Hv2 Hbom2].
  apply negb_true_iff in Hbom1. apply Z.eqb_neq in Hbom1.
  apply negb_true_iff in Hbom2. apply Z.eqb_neq in Hbom2.
  apply (Parse_tokens _ _ o Hb1 Hb2).
  rewrite (utf8_decode_encode _ Hv1), (utf8_decode_encode _ Hv2).
  apply (tokens_skipped _ b X); try assumption.
  - apply newLexer_plain. exact Hbom1.
  - apply newLexer_plain. exact Hbom2.
Qed.

End ParseTokens.

(** A comment and a line feed, and a document. *)
Definition headerExample : str := 47 :: 47 :: lit " made by hand" ++ 10 :: [].

Definition bodyExample : str := lit "PixelShaderID=Super; class Stage1 {};".

Lemma headerExample_skipped :
  Skipped (U := Ref.asciiUnicode)
    (negb (DisableComments (normalizeParseOptions None))) headerExample.
Proof.
  apply Skipped_line; [reflexivity| |apply Skipped_nil].
  vm_compute. intuition discriminate.
Defined.

Lemma bodyExample_begin :
  tokenBegin (U := Ref.asciiUnicode)
    (negb (DisableComments (normalizeParseOptions None))) bodyExample.
Proof. split; [reflexivity|intros _ H; discriminate H]. Defined.

Lemma parse_by_tokens_witness :
  match Parse (U := Ref.asciiUnicode) (F := Ref.decStrconv)
          (utf8_encode (headerExample ++ bodyExample)) None,
        Parse (U := Ref.asciiUnicode) (F := Ref.decStrconv)
          (utf8_encode bodyExample) None with
  | Ok m1, Ok m2 => m1 = m2
  | Err e1, Err e2 => unplaced e1 = unplaced e2
  | _, _ => False
  end.
Proof.
  apply (parse_by_tokens (U := Ref.asciiUnicode) (F := Ref.decStrconv)
           (utf8_encode (headerExample ++ bodyExample))
           (utf8_encode bodyExample) None);
    [vm_compute; reflexivity|vm_compute; reflexivity|].
  rewrite !utf8_decode_encode by (vm_compute; reflexivity).
  apply (tokens_skipped (U := Ref.asciiUnicode) (F := Ref.decStrconv)
           (normalizeParseOptions None) headerExample bodyExample).
  - exact headerExample_skipped.
  - exact bodyExample_begin.
  - apply newLexer_plain. vm_compute. discriminate.
  - apply newLexer_plain. vm_compute. discriminate.
Defined.

Lemma leading_comments_witness :
  match Parse (U := Ref.asciiUnicode) (F := Ref.decStrconv)
          (utf8_encode (headerExample ++ bodyExample)) None,
        Parse (U := Ref.asciiUnicode) (F := Ref.decStrconv)
          (utf8_encode bodyExample) None with
  | Ok m1, Ok m2 => m1 = m2
  | Err e1, Err e2 => unplaced e1 = unplaced e2
  | _, _ => False
  end.
Proof.
  apply (leading_comments (U := Ref.asciiUnicode) (F := Ref.decStrconv)
           headerExample bodyExample None headerExample_skipped
           bodyExample_begin); vm_compute; reflexivity.
Defined.
